(** * Governor: runner, result store, workflow engine and output adapters

    A shallow embedding of the parts of [deixis/governor] that its
    specification makes promises about:

    - [internal/runner]   : [Runner.Run], [Runner.resolveDir], [limitWriter.Write];
    - [internal/report]   : [splitSymbol], [LRUStore], [DiskStore];
    - [internal/workflow] : [Engine.ResolvePackages], [Engine.Check],
                            [Engine.Audit], [parseTestOutput], [parseCoverFunc].

    Go strings are byte strings and are modelled by [string] (a list of
    8-bit characters); Go's [int] is modelled by [Z] (no arithmetic in the
    modelled code can leave the 64-bit range: every integer is a length, an
    index or a counter bounded by the size of the input). *)

From Stdlib Require Import ZArith Lia Ascii String List Bool QArith DecimalString.
From stdpp Require Import base option list strings gmap.

Local Open Scope string_scope.
Local Open Scope list_scope.
Local Open Scope Z_scope.

(** String concatenation unfolds under [simpl] when its first argument is a
    constructor. *)
#[local] Arguments String.append !_ _ : simpl nomatch.

(** ** Go's [strings] package (the functions the repository calls) *)

Module Strings.

(** [len(s)] as a Go [int]. *)
Definition len (s : string) : Z := Z.of_nat (String.length s).

(** [s[n:]] and [s[:n]] for [0 <= n <= len(s)]. *)
Fixpoint from (n : nat) (s : string) : string :=
  match n, s with
  | O, _ => s
  | S n', String _ s' => from n' s'
  | S _, EmptyString => EmptyString
  end.

Fixpoint upto (n : nat) (s : string) : string :=
  match n, s with
  | O, _ => EmptyString
  | S n', String a s' => String a (upto n' s')
  | S _, EmptyString => EmptyString
  end.

(** [strings.HasPrefix(s, prefix)]. *)
Fixpoint HasPrefix (s prefix : string) {struct prefix} : bool :=
  match prefix, s with
  | EmptyString, _ => true
  | String a p', String b s' => if Ascii.eqb a b then HasPrefix s' p' else false
  | String _ _, EmptyString => false
  end.

(** [strings.HasSuffix(s, suffix)]. *)
Definition HasSuffix (s suffix : string) : bool :=
  (String.length suffix <=? String.length s)%nat
  && String.eqb (from (String.length s - String.length suffix) s) suffix.

(** [strings.Index(s, sep)] for a one-byte separator: the index of its
    first occurrence, [-1] when there is none. *)
Fixpoint IndexByte (s : string) (c : ascii) : Z :=
  match s with
  | EmptyString => -1
  | String a s' =>
      if Ascii.eqb a c then 0
      else let i := IndexByte s' c in if i <? 0 then -1 else i + 1
  end.

(** [strings.LastIndex(s, sep)] for a one-byte separator. *)
Fixpoint LastIndexByte (s : string) (c : ascii) : Z :=
  match s with
  | EmptyString => -1
  | String a s' =>
      let i := LastIndexByte s' c in
      if 0 <=? i then i + 1 else if Ascii.eqb a c then 0 else -1
  end.

(** [strings.Split(s, sep)] for a one-byte separator; never empty. *)
Fixpoint Split (s : string) (c : ascii) : list string :=
  match s with
  | EmptyString => [EmptyString]
  | String a s' =>
      if Ascii.eqb a c then EmptyString :: Split s' c
      else match Split s' c with
           | x :: xs => String a x :: xs
           | [] => [String a EmptyString]
           end
  end.

(** [strings.Join(elems, sep)]. *)
Fixpoint Join (elems : list string) (sep : string) : string :=
  match elems with
  | [] => EmptyString
  | [x] => x
  | x :: xs => x +:+ sep +:+ Join xs sep
  end.

(** [strings.Count(s, sep)] for a one-byte separator. *)
Fixpoint CountByte (s : string) (c : ascii) : nat :=
  match s with
  | EmptyString => O
  | String a s' => ((if Ascii.eqb a c then 1 else 0) + CountByte s' c)%nat
  end.

(** [strings.Repeat(s, n)]. *)
Fixpoint Repeat (s : string) (n : nat) : string :=
  match n with
  | O => EmptyString
  | S n' => s +:+ Repeat s n'
  end.

(** [strconv.Itoa]. *)
Definition Itoa (n : Z) : string := NilZero.string_of_int (Z.to_int n).

(** [strings.TrimSuffix(s, suffix)]. *)
Definition TrimSuffix (s suffix : string) : string :=
  if HasSuffix s suffix
  then upto (String.length s - String.length suffix) s
  else s.

(** The string read backwards. *)
Fixpoint reverse (s : string) : string :=
  match s with
  | EmptyString => EmptyString
  | String a s' => reverse s' +:+ String a EmptyString
  end.

(** The newline byte and the one-byte string holding it. *)
Definition newline : ascii := "010"%char.
Definition nl : string := String newline EmptyString.

(** The tab and the double quote, as one-byte strings. *)
Definition tab : string := String "009"%char EmptyString.
Definition quote : string := String "034"%char EmptyString.

(** [strings.TrimRight(s, "\n")]. *)
Fixpoint drop_newlines (s : string) : string :=
  match s with
  | String a s' => if Ascii.eqb a newline then drop_newlines s' else s
  | EmptyString => EmptyString
  end.

Definition TrimRightNewlines (s : string) : string :=
  reverse (drop_newlines (reverse s)).

(** The bytes of [s] as numbers. *)
Definition codes (s : string) : list nat :=
  map nat_of_ascii (list_ascii_of_string s).

(** [unicode.IsSpace] on the encoded rune a string starts with: the number
    of bytes of that rune when it is white space, [0] otherwise.  White
    space is tab, line feed, vertical tab, form feed, carriage return,
    space, U+0085, U+00A0, U+1680, U+2000 to U+200A, U+2028, U+2029, U+202F,
    U+205F and U+3000, in UTF-8. *)
Definition space_width (bytes : list nat) : nat :=
  match bytes with
  | 9 :: _ | 10 :: _ | 11 :: _ | 12 :: _ | 13 :: _ | 32 :: _ => 1
  | 194 :: 133 :: _ | 194 :: 160 :: _ => 2
  | 225 :: 154 :: 128 :: _ => 3
  | 226 :: 128 :: c :: _ =>
      if (128 <=? c)%nat && (c <=? 138)%nat then 3
      else if (c =? 168)%nat || (c =? 169)%nat || (c =? 175)%nat then 3
      else 0
  | 226 :: 129 :: 159 :: _ => 3
  | 227 :: 128 :: 128 :: _ => 3
  | _ => 0
  end%nat.

(** The same on the rune a string ends with, read from its last byte
    backwards. *)
Definition space_width_back (rbytes : list nat) : nat :=
  match rbytes with
  | 9 :: _ | 10 :: _ | 11 :: _ | 12 :: _ | 13 :: _ | 32 :: _ => 1
  | 133 :: 194 :: _ | 160 :: 194 :: _ => 2
  | 128 :: 154 :: 225 :: _ => 3
  | c :: 128 :: 226 :: _ =>
      if (128 <=? c)%nat && (c <=? 138)%nat then 3
      else if (c =? 168)%nat || (c =? 169)%nat || (c =? 175)%nat then 3
      else 0
  | 159 :: 129 :: 226 :: _ => 3
  | 128 :: 128 :: 227 :: _ => 3
  | _ => 0
  end%nat.

Fixpoint trim_with (width : list nat → nat) (fuel : nat) (s : string) : string :=
  match fuel with
  | O => s
  | S fuel' =>
      match width (codes s) with
      | O => s
      | w => trim_with width fuel' (from w s)
      end
  end.

(** [strings.TrimSpace]: leading white space is dropped, then trailing. *)
Definition TrimSpace (s : string) : string :=
  let s1 := trim_with space_width (String.length s) s in
  reverse (trim_with space_width_back (String.length s1) (reverse s1)).

End Strings.

(** ** Go's [path/filepath] on Unix

    The repository calls [IsAbs], [Clean], [Join] and [Rel].  They belong to
    Go's standard library; the definitions below follow its documented
    algorithm on slash-separated paths (no volume names). *)

Module Filepath.
Import Strings.

Definition Separator : ascii := "/"%char.

(** [filepath.IsAbs]: on Unix a path is absolute when it starts with a slash. *)
Definition IsAbs (path : string) : bool := HasPrefix path "/".

(** One element of the path seen by [Clean]; [out] is the stack of kept
    elements, innermost first.  Empty and [.] elements are dropped; a [..]
    removes the element before it, is dropped at the root, and is kept at the
    start of a relative path. *)
Definition clean_step (rooted : bool) (out : list string) (elem : string)
  : list string :=
  if String.eqb elem "" || String.eqb elem "." then out
  else if String.eqb elem ".." then
    match out with
    | top :: rest => if String.eqb top ".." then elem :: out else rest
    | [] => if rooted then [] else [elem]
    end
  else elem :: out.

(** The elements [Clean] keeps, outermost first. *)
Definition clean_elems (path : string) : list string :=
  rev (fold_left (clean_step (IsAbs path)) (Split path Separator) []).

(** [filepath.Clean]. *)
Definition Clean (path : string) : string :=
  let out := (if IsAbs path then "/" else "") +:+ Join (clean_elems path) "/" in
  if String.eqb out "" then "." else out.

(** [filepath.Join]: the elements from the first non-empty one on are joined
    with slashes and cleaned; all elements empty gives the empty string. *)
Fixpoint Join (elem : list string) : string :=
  match elem with
  | [] => ""
  | e :: rest => if String.eqb e "" then Join rest else Clean (Strings.Join elem "/")
  end.

(** The elements [Rel] walks over: the pieces between separators, where a
    string that is exhausted (empty, or ended by a separator) contributes no
    further piece. *)
Definition pieces (p : string) : list string :=
  let l := Split p Separator in
  match rev l with
  | last :: front => if String.eqb last "" then rev front else l
  | [] => l
  end.

(** [".."] followed by [n - 1] times ["/.."]. *)
Definition dotdots (n : nat) : string := ".." +:+ Repeat "/.." (n - 1).

(** The loop of [Rel] over the elements of the cleaned base and target, and
    what follows it.  Equal leading elements are skipped.  When the base is
    used up the rest of the target is the answer; when elements of the base
    are left, one [..] per element goes first; a base whose first different
    element is [..] has no answer. *)
Fixpoint rel_walk (base targ : list string) : option string :=
  match base, targ with
  | [], _ => Some (Strings.Join targ "/")
  | _ :: _, [] => Some (dotdots (length base))
  | b :: base', t :: targ' =>
      if String.eqb b t then rel_walk base' targ'
      else if String.eqb b ".." then None
      else Some (dotdots (length base) +:+ "/" +:+ Strings.Join targ "/")
  end.

(** [filepath.Rel(basepath, targpath)]; [None] is the error
    ["Rel: can't make targpath relative to basepath"]. *)
Definition Rel (basepath targpath : string) : option string :=
  let base := Clean basepath in
  let targ := Clean targpath in
  if String.eqb targ base then Some "."
  else
    let base := if String.eqb base "." then "" else base in
    if negb (Bool.eqb (IsAbs base) (IsAbs targ)) then None
    else rel_walk (pieces base) (pieces targ).

(** An element [Clean] keeps in an absolute path: not empty, not [.], not
    [..], and without a separator. *)
Definition plain (x : string) : Prop :=
  x ≠ "" ∧ x ≠ "." ∧ x ≠ ".." ∧ IndexByte x Separator = -1.

End Filepath.


(** ** [internal/runner]: the sandboxed command runner *)

Module Runner.
Import Strings.

(** [type Runner struct]; [Timeout] is a [time.Duration] (nanoseconds). *)
Record Runner := {
  Workspace : string;
  Timeout : Z;
  MaxOutput : Z
}.

(** [type Result struct]. *)
Record Result := {
  RunID : string;
  ExitCode : Z;
  Stdout : string;
  Stderr : string;
  Truncated : bool
}.

(** What [cmd.Run] of [os/exec] can return besides [nil]: an
    [*exec.ExitError] carrying the exit code, or any other error
    (binary not found, start failure, context already done, copy failure). *)
Inductive exec_error :=
| ExitError (code : Z)
| OtherError (msg : string).

(** The errors [Run] builds, one constructor per [fmt.Errorf]:
    ["empty argv"], ["resolving cwd: ..."],
    ["cwd %q is outside workspace %q"], ["executing %s: %w"]. *)
Inductive error :=
| EmptyArgv
| ResolvingCwd (cwd workspace : string)
| OutsideWorkspace (cwd workspace : string)
| Executing (argv0 : string) (cause : exec_error).

(** The test of the tests of the repository on an error message:
    [strings.Contains(err.Error(), "outside workspace")]. *)
Definition is_outside_workspace (e : error) : bool :=
  match e with
  | OutsideWorkspace _ _ => true
  | _ => false
  end.

(** *** [limitWriter] *)

(** [type limitWriter struct]: the buffer's contents and the cap. *)
Record limitWriter := {
  buf : string;
  limit : Z
}.

(** [limitWriter.Write]: the writer afterwards, the count reported and the
    error reported ([None] is [nil]; [bytes.Buffer.Write] reports [len(p)]
    and [nil]). *)
Definition Write (w : limitWriter) (p : string)
  : limitWriter * (Z * option exec_error) :=
  let remaining := limit w - len (buf w) in
  if remaining <=? 0 then (w, (len p, None))
  else if remaining <? len p then
    ({| buf := buf w +:+ upto (Z.to_nat remaining) p; limit := limit w |},
     (len p, None))
  else
    ({| buf := buf w +:+ p; limit := limit w |}, (len p, None)).

(** *** The child process

    [os/exec] is outside the repository.  A command is described by what it
    would do if left alone: the chunks it writes, each at a time (nanoseconds
    after the call of [Run] made its context) and to one of its two streams,
    and the time and code of its exit; or it cannot be started at all. *)

Inductive stream := ToStdout | ToStderr.

Record write_event := {
  at_time : Z;
  to : stream;
  data : string
}.

Inductive program :=
| CannotStart (msg : string)
| Runs (events : list write_event) (exit_time : Z) (exit_code : Z).

(** The operating system as [Run] sees it: the program behind an argument
    vector started in a directory, the identifier [uuid.New] draws, and the
    time (nanoseconds) that passes between the making of the context and the
    moment [cmd.Start] looks at it. *)
Record system := {
  lookup : list string → string → program;
  new_uuid : string;
  start_delay : Z
}.

(** [io.Copy] from the child's pipe into a writer, chunk by chunk: a write
    that reports an error, or fewer bytes than it was given
    ([io.ErrShortWrite]), stops the copy with an error. *)
Fixpoint copy_chunks (w : limitWriter) (chunks : list string)
  : limitWriter * option exec_error :=
  match chunks with
  | [] => (w, None)
  | p :: rest =>
      match Write w p with
      | (w', (_, Some e)) => (w', Some e)
      | (w', (n, None)) =>
          if n =? len p then copy_chunks w' rest
          else (w', Some (OtherError "short write"))
      end
  end.

Definition chunks_to (s : stream) (deadline : Z) (events : list write_event)
  : list string :=
  map data
    (List.filter (λ ev, match to ev, s with
                   | ToStdout, ToStdout | ToStderr, ToStderr => at_time ev <? deadline
                   | _, _ => false
                   end) events).

(** [cmd.Run()] under a context that is done [timeout] after it was made,
    with the two writers as the child's stdout and stderr; [delay] is the
    time after which [cmd.Start] looks at the context.  [Start] returns the
    context's error, and starts nothing, when it finds the context done: that
    is so for a timeout that is zero or negative, and for a deadline that
    comes before the child's exit and not after that look (a child that exits
    before the deadline was started before it).  A child still running at the
    deadline is killed: what it wrote before is in the buffers and [Wait]
    reports the kill as an [*exec.ExitError] whose [ExitCode()] is [-1] (the
    status of a command ended by a signal), not as the context's error.  A
    child that exits reports [nil] for code [0] and an [*exec.ExitError]
    otherwise; a failed copy is reported when the child itself succeeded. *)
Definition cmd_Run (p : program) (delay timeout : Z)
    (stdout stderr : limitWriter)
  : limitWriter * limitWriter * option exec_error :=
  match p with
  | CannotStart msg => (stdout, stderr, Some (OtherError msg))
  | Runs events exit_time exit_code =>
      if (timeout <=? 0) || ((timeout <=? exit_time) && (timeout <=? delay)) then
        (stdout, stderr, Some (OtherError "context deadline exceeded"))
      else
        let deadline := if timeout <=? exit_time then timeout else exit_time + 1 in
        let '(out, out_err) := copy_chunks stdout (chunks_to ToStdout deadline events) in
        let '(err, err_err) := copy_chunks stderr (chunks_to ToStderr deadline events) in
        let wait_err :=
          if timeout <=? exit_time then Some (ExitError (-1))
          else if exit_code =? 0 then
            match out_err with Some e => Some e | None => err_err end
          else Some (ExitError exit_code) in
        (out, err, wait_err)
  end.

(** *** [Runner.resolveDir] and [Runner.Run] *)

Definition resolveDir (r : Runner) (cwd : string) : string + error :=
  if String.eqb cwd "" then inl (Workspace r)
  else
    let dir :=
      if Filepath.IsAbs cwd then Filepath.Clean cwd
      else Filepath.Clean (Filepath.Join [Workspace r; cwd]) in
    match Filepath.Rel (Workspace r) dir with
    | None => inr (ResolvingCwd cwd (Workspace r))
    | Some rel =>
        if HasPrefix rel ".." then inr (OutsideWorkspace cwd (Workspace r))
        else inl dir
    end.

(** A command handed to the operating system: [exec.CommandContext] with
    [cmd.Dir] set, followed by [cmd.Run]. *)
Record spawn := {
  spawn_argv : list string;
  spawn_dir : string
}.

(** [Runner.Run]: the result or the error, and the commands handed to the
    operating system on the way, in order. *)
Definition Run (r : Runner) (sys : system) (argv : list string) (cwd : string)
  : (Result + error) * list spawn :=
  match argv with
  | [] => (inr EmptyArgv, [])
  | argv0 :: _ =>
      match resolveDir r cwd with
      | inr err => (inr err, [])
      | inl dir =>
          let timeout := Timeout r in
          let maxOutput := MaxOutput r in
          let runID := new_uuid sys in
          let '(stdout, stderr, runErr) :=
            cmd_Run (lookup sys argv dir) (start_delay sys) timeout
              {| buf := ""; limit := maxOutput |}
              {| buf := ""; limit := maxOutput |} in
          let truncated :=
            (maxOutput <=? len (buf stdout)) || (maxOutput <=? len (buf stderr)) in
          let attempt := [{| spawn_argv := argv; spawn_dir := dir |}] in
          match runErr with
          | Some (OtherError msg) => (inr (Executing argv0 (OtherError msg)), attempt)
          | Some (ExitError code) =>
              (inl {| RunID := runID; ExitCode := code;
                      Stdout := buf stdout; Stderr := buf stderr;
                      Truncated := truncated |}, attempt)
          | None =>
              (inl {| RunID := runID; ExitCode := 0;
                      Stdout := buf stdout; Stderr := buf stderr;
                      Truncated := truncated |}, attempt)
          end
      end
  end.

(** *** Words of the specification *)

(** The directory a [cwd] stands for: itself when absolute, otherwise the
    workspace followed by it; the empty [cwd] is the workspace. *)
Definition resolved (workspace cwd : string) : string :=
  if String.eqb cwd "" then workspace
  else if Filepath.IsAbs cwd then cwd
  else workspace +:+ "/" +:+ cwd.

(** A directory is inside the workspace when the elements of the workspace's
    path, normalised, are the first elements of its own. *)
Definition inside (workspace dir : string) : Prop :=
  Filepath.clean_elems workspace `prefix_of` Filepath.clean_elems dir.

Definition outside (workspace cwd : string) : Prop :=
  ¬ inside workspace (resolved workspace cwd).

End Runner.

(** ** [internal/report]: the diagnostic model and the result store *)

Module Report.
Import Strings.

(** [type Kind string] with its two constants. *)
Inductive Kind := Check | Audit.

Record FormatIssue := {
  fi_Package : string; fi_File : string; fi_Message : string
}.

Record BuildError := {
  be_Package : string; be_File : string; be_Line : Z; be_Col : Z;
  be_Message : string
}.

Record TestFailure := {
  tf_Package : string; tf_Test : string; tf_File : string; tf_Line : Z;
  tf_Message : string; tf_Output : string
}.

Record LintIssue := {
  li_Package : string; li_File : string; li_Line : Z; li_Col : Z;
  li_Linter : string; li_Message : string
}.

Record StaticIssue := {
  si_Package : string; si_File : string; si_Line : Z; si_Col : Z;
  si_EndLine : Z; si_EndCol : Z; si_Code : string; si_Severity : string;
  si_Message : string
}.

(** [Coverage float64]: the percentage.  The adapter reads it from a decimal
    numeral; the model keeps the numeral's exact value, of which the
    [float64] is the nearest representable number. *)
Record CoverageEntry := {
  ce_Package : string; ce_File : string; ce_Function : string;
  ce_Coverage : Q
}.

Record ComplexityEntry := {
  cx_Package : string; cx_File : string; cx_Function : string;
  cx_Line : Z; cx_Complexity : Z
}.

Record DeadFunc := {
  df_Package : string; df_File : string; df_Line : Z; df_Function : string
}.

Record Duplicate := {
  du_File1 : string; du_StartLine1 : Z; du_EndLine1 : Z;
  du_File2 : string; du_StartLine2 : Z; du_EndLine2 : Z;
  du_Tokens : Z
}.

Record Vuln := {
  vu_ID : string; vu_Summary : string; vu_AffectedPackage : string;
  vu_FixedVersion : string; vu_Symbols : list string
}.

(** [type RunResult struct]. *)
Record RunResult := {
  ID : string;
  kind : Kind;
  AutoFixes : Z;
  FormatIssues : list FormatIssue;
  BuildErrors : list BuildError;
  TestFailures : list TestFailure;
  LintIssues : list LintIssue;
  StaticIssues : list StaticIssue;
  Coverage : list CoverageEntry;
  Complexity : list ComplexityEntry;
  DeadFuncs : list DeadFunc;
  Duplicates : list Duplicate;
  Vulns : list Vuln
}.

(** [&report.RunResult{ID: runID, Kind: k}]. *)
Definition newRunResult (runID : string) (k : Kind) : RunResult :=
  {| ID := runID; kind := k; AutoFixes := 0; FormatIssues := [];
     BuildErrors := []; TestFailures := []; LintIssues := [];
     StaticIssues := []; Coverage := []; Complexity := []; DeadFuncs := [];
     Duplicates := []; Vulns := [] |}.

(** *** [splitSymbol] *)

Definition splitSymbol (sym : string) : string * string :=
  let lastSlash := LastIndexByte sym "/" in
  let afterSlash := from (Z.to_nat (lastSlash + 1)) sym in
  let dotIdx := IndexByte afterSlash "." in
  if dotIdx <? 0 then (sym, "")
  else
    let pkg := upto (Z.to_nat (lastSlash + 1 + dotIdx)) sym in
    let name := from (Z.to_nat (dotIdx + 1)) afterSlash in
    (pkg, name).

(** The specification's inverse of the splitter:
    [join(p, "") = p] and [join(p, n) = p + "." + n]. *)
Definition join (p n : string) : string :=
  if String.eqb n "" then p else p +:+ "." +:+ n.

(** *** The file system under the disk store

    [os.MkdirTemp], [os.WriteFile] and [os.ReadFile] are outside the
    repository.  The file system is a finite map from paths to contents;
    which writes succeed and which directory [MkdirTemp] creates (if any) are
    given. *)
Record filesystem := {
  files : gmap string string;
  writable : string → bool;
  mkdir_temp : option string
}.

(** The errors of the stores, one constructor per [fmt.Errorf]. *)
Inductive store_error :=
| CreatingDirectory
| Marshalling (id : string)
| Writing (id : string)
| Reading (id : string)
| Unmarshalling (id : string).

(** [type DiskStore struct]: [dir] is empty until the first use. *)
Record DiskStore := {
  dir : string;
  fs : filesystem
}.

Definition NewDiskStore (fs0 : filesystem) : DiskStore :=
  {| dir := ""; fs := fs0 |}.

Definition ensureDir (s : DiskStore) : (string + store_error) * DiskStore :=
  if negb (String.eqb (dir s) "") then (inl (dir s), s)
  else match mkdir_temp (fs s) with
       | None => (inr CreatingDirectory, s)
       | Some d => (inl d, {| dir := d; fs := fs s |})
       end.

Definition result_path (d id : string) : string :=
  Filepath.Join [d; id +:+ ".json"].

(** *** The two stores, over a JSON codec

    [encoding/json] is outside the repository: [json_Marshal] and
    [json_Unmarshal] stand for [json.Marshal] and [json.Unmarshal] at
    [RunResult], [None] being an error. *)
Section Stores.
Variable json_Marshal : RunResult → option string.
Variable json_Unmarshal : string → option RunResult.

(** [DiskStore.Save]. *)
Definition disk_Save (s : DiskStore) (result : RunResult)
  : option store_error * DiskStore :=
  match ensureDir s with
  | (inr err, s1) => (Some err, s1)
  | (inl d, s1) =>
      match json_Marshal result with
      | None => (Some (Marshalling (ID result)), s1)
      | Some data =>
          let path := result_path d (ID result) in
          if writable (fs s1) path then
            (None, {| dir := dir s1;
                      fs := {| files := <[path := data]> (files (fs s1));
                               writable := writable (fs s1);
                               mkdir_temp := mkdir_temp (fs s1) |} |})
          else (Some (Writing (ID result)), s1)
      end
  end.

(** [DiskStore.Load]. *)
Definition disk_Load (s : DiskStore) (runID : string)
  : (RunResult + store_error) * DiskStore :=
  match ensureDir s with
  | (inr err, s1) => (inr err, s1)
  | (inl d, s1) =>
      let path := result_path d runID in
      match files (fs s1) !! path with
      | None => (inr (Reading runID), s1)
      | Some data =>
          match json_Unmarshal data with
          | None => (inr (Unmarshalling runID), s1)
          | Some result => (inl result, s1)
          end
      end
  end.

(** [type LRUStore struct].  The doubly-linked list is the list of its
    keys from [head] to [tail]; [items] maps a key to the result its list
    entry holds. *)
Record LRUStore := {
  cap : Z;
  back : DiskStore;
  order : list string;
  items : gmap string RunResult
}.

Definition NewLRUStore (c : Z) (b : DiskStore) : LRUStore :=
  let c := if c <? 1 then 1 else c in
  {| cap := c; back := b; order := []; items := ∅ |}.

(** [remove]: unlink the entry with this key. *)
Definition remove (key : string) (l : list string) : list string :=
  filter (λ k, k ≠ key) l.

(** [pushFront]. *)
Definition pushFront (key : string) (l : list string) : list string :=
  key :: l.

(** [moveToFront]: nothing to do for the head. *)
Definition moveToFront (key : string) (l : list string) : list string :=
  match l with
  | h :: _ => if String.eqb h key then l else pushFront key (remove key l)
  | [] => pushFront key (remove key l)
  end.

(** [evict]: unlink the tail and drop its key from the index. *)
Definition evict (l : list string) (m : gmap string RunResult)
  : list string * gmap string RunResult :=
  match last l with
  | None => (l, m)
  | Some key => (remove key l, delete key m)
  end.

(** The part of [Save] and of [Load] under the mutex that puts a result
    in the cache: update and move to the front, or insert at the front and
    evict when over capacity. *)
Definition cache_put (s : LRUStore) (key : string) (result : RunResult)
  : LRUStore :=
  match items s !! key with
  | Some _ =>
      {| cap := cap s; back := back s;
         order := moveToFront key (order s);
         items := <[key := result]> (items s) |}
  | None =>
      let m := <[key := result]> (items s) in
      let l := pushFront key (order s) in
      let '(l, m) :=
        if cap s <? Z.of_nat (size m) then evict l m else (l, m) in
      {| cap := cap s; back := back s; order := l; items := m |}
  end.

(** [LRUStore.Save]. *)
Definition Save (s : LRUStore) (result : RunResult)
  : option store_error * LRUStore :=
  let s1 := cache_put s (ID result) result in
  let '(err, b) := disk_Save (back s1) result in
  (err, {| cap := cap s1; back := b; order := order s1; items := items s1 |}).

(** [LRUStore.Load]. *)
Definition Load (s : LRUStore) (runID : string)
  : (RunResult + store_error) * LRUStore :=
  match items s !! runID with
  | Some r =>
      (inl r, {| cap := cap s; back := back s;
                 order := moveToFront runID (order s); items := items s |})
  | None =>
      match disk_Load (back s) runID with
      | (inr err, b) =>
          (inr err, {| cap := cap s; back := b; order := order s;
                       items := items s |})
      | (inl result, b) =>
          let s1 := {| cap := cap s; back := b; order := order s;
                       items := items s |} in
          (inl result, cache_put s1 runID result)
      end
  end.

(** Equality of two results "under JSON round trip": they marshal to the
    same document. *)
Definition json_equal (a b : RunResult) : Prop :=
  json_Marshal a = json_Marshal b.

(** Saving a list of results, one after the other; the errors reported, in
    order. *)
Fixpoint save_all (s : LRUStore) (rs : list RunResult)
  : list (option store_error) * LRUStore :=
  match rs with
  | [] => ([], s)
  | r :: rest =>
      let '(err, s1) := Save s r in
      let '(errs, s2) := save_all s1 rest in
      (err :: errs, s2)
  end.

End Stores.

(** A well-formed cache: the list holds no key twice, the index holds the
    keys of the list, and the capacity, at least one, is respected.
    [NewLRUStore] makes such a cache, [Save] and [Load] keep it one. *)
Record wf (s : LRUStore) : Prop := {
  wf_nodup : NoDup (order s);
  wf_dom : ∀ k, k ∈ order s ↔ is_Some (items s !! k);
  wf_cap : 1 ≤ cap s;
  wf_len : Z.of_nat (length (order s)) ≤ cap s
}.

(** The directory the disk store works in: its own once it has one, otherwise
    the one [os.MkdirTemp] is about to make. *)
Definition effective_dir (b : DiskStore) : option string :=
  if negb (String.eqb (dir b) "") then Some (dir b) else mkdir_temp (fs b).

(** The keys by last access, most recent first, after one more access. *)
Definition touch (l : list string) (k : string) : list string :=
  k :: remove k l.

(** A run identifier that names a file: it holds no path separator. *)
Definition file_name (id : string) : Prop := IndexByte id "/" = -1.

End Report.

(** ** [internal/config]: the fields and accessors the engine reads *)

Module Config.

(** [const DefaultMaxOutput = 1 << 20]. *)
Definition DefaultMaxOutput : Z := 1048576.

(** [type Config struct], with the nested blocks flattened. *)
Record Config := {
  RawMaxOutput : Z;
  Test_Args : list string;
  Lint_Config : string;
  Lint_Args : list string;
  Staticcheck_Checks : list string;
  Staticcheck_Args : list string;
  Check_Steps : list string;
  Audit_Steps : list string;
  Coverage_Args : list string;
  Complexity_Args : list string;
  Deadcode_Args : list string;
  Dupl_Threshold : Z;
  Dupl_Args : list string;
  Vulncheck_Args : list string
}.

(** [&config.Config{}]: every field at its zero value. *)
Definition zero : Config :=
  {| RawMaxOutput := 0; Test_Args := []; Lint_Config := ""; Lint_Args := [];
     Staticcheck_Checks := []; Staticcheck_Args := []; Check_Steps := [];
     Audit_Steps := []; Coverage_Args := []; Complexity_Args := [];
     Deadcode_Args := []; Dupl_Threshold := 0; Dupl_Args := [];
     Vulncheck_Args := [] |}.

Definition MaxOutputBytes (c : Config) : Z :=
  if 0 <? RawMaxOutput c then RawMaxOutput c else DefaultMaxOutput.

Definition DefaultCheckSteps : list string := ["test"; "lint"; "staticcheck"].

Definition DefaultAuditSteps : list string :=
  ["coverage"; "complexity"; "deadcode"; "dupl"; "vulncheck"].

Definition CheckSteps (c : Config) : list string :=
  if (0 <? length (Check_Steps c))%nat then Check_Steps c else DefaultCheckSteps.

Definition AuditSteps (c : Config) : list string :=
  if (0 <? length (Audit_Steps c))%nat then Audit_Steps c else DefaultAuditSteps.

Definition DuplThreshold (c : Config) : Z :=
  if 0 <? Dupl_Threshold c then Dupl_Threshold c else 50.

End Config.

(** ** [internal/workflow]: package resolution and the output adapters *)

Module Workflow.
Import Strings.

(** [type Engine struct]; the [Runner] field is an interface and belongs to
    the outside world (see [externals] below). *)
Record Engine := {
  Config : Config.Config;
  Workspace : string;
  RepoRoot : string
}.

(** *** [Engine.ResolvePackages] *)

(** The body of the loop: the resolved list after one more argument. *)
Definition resolve_one (e : Engine) (resolved : list string) (p : string)
  : list string :=
  if Filepath.IsAbs p then
    let base := if String.eqb (RepoRoot e) "" then Workspace e else RepoRoot e in
    match Filepath.Rel base p with
    | None => resolved
    | Some rel =>
        if HasPrefix rel ".." then resolved
        else
          let pattern := "./" +:+ rel in
          let pattern :=
            if negb (HasSuffix pattern "...") then pattern +:+ "/..." else pattern in
          resolved ++ [pattern]
    end
  else resolved ++ [p].

Definition ResolvePackages (e : Engine) (packages : list string) : list string :=
  if (length packages =? 0)%nat then ["./..."]
  else
    let resolved := fold_left (resolve_one e) packages [] in
    if (length resolved =? 0)%nat then ["./..."] else resolved.

(** A pattern or import path the resolver passes through. *)
Definition relative (p : string) : Prop := Filepath.IsAbs p = false.

(** *** [derivePackageFromFile] and [FirstLine] *)

Definition derivePackageFromFile (file : string) : string :=
  if String.eqb file "" then ""
  else
    let idx := LastIndexByte file "/" in
    if idx <? 0 then "." else upto (Z.to_nat idx) file.

Fixpoint first_line (lines : list string) : string :=
  match lines with
  | [] => ""
  | line :: rest =>
      let line := TrimSpace line in
      if negb (String.eqb line "") && negb (HasPrefix line "=== RUN")
         && negb (HasPrefix line "--- FAIL")
      then line else first_line rest
  end.

Definition FirstLine (s : string) : string := first_line (Split s newline).

(** *** The test-driver adapter: [parseTestOutput] *)

(** [type BuildError struct] and [type TestFailure struct] of the package. *)
Record BuildError := { ImportPath : string; be_Output : string }.
Record TestFailure := { Test : string; Package : string; tf_Output : string }.

(** [type TestSummary struct]. *)
Record TestSummary := {
  Status : string;
  Total : Z;
  Passed : Z;
  Failed : Z;
  Skipped : Z;
  BuildErrors : list BuildError;
  Errors : list TestFailure
}.

(** [type test2jsonEvent struct]; [Elapsed] is never read and is left out. *)
Record test2jsonEvent := {
  ev_Action : string;
  ev_Package : string;
  ev_Test : string;
  ev_Output : string;
  ev_ImportPath : string
}.

(** The local variables of [parseTestOutput] while it reads the lines: the
    summary's status and counters, the output accumulated per (package, test)
    and per import path, and the sets of failed tests and failed builds.  A
    [strings.Builder] is the string built so far. *)
Record parser := {
  p_Status : string;
  p_Total : Z;
  p_Passed : Z;
  p_Failed : Z;
  p_Skipped : Z;
  outputs : gmap (string * string) string;
  failedTests : gset (string * string);
  buildOutputs : gmap string string;
  failedBuilds : gset string
}.

Definition parser_start : parser :=
  {| p_Status := "PASS"; p_Total := 0; p_Passed := 0; p_Failed := 0;
     p_Skipped := 0; outputs := ∅; failedTests := ∅; buildOutputs := ∅;
     failedBuilds := ∅ |}.

(** [builders[key].WriteString(text)], creating the builder when absent. *)
Definition write_to `{Countable K} (key : K) (text : string) (m : gmap K string)
  : gmap K string :=
  <[key := default "" (m !! key) +:+ text]> m.

(** The [switch ev.Action] of the loop. *)
Definition on_event (s : parser) (ev : test2jsonEvent) : parser :=
  let key := (ev_Package ev, ev_Test ev) in
  if String.eqb (ev_Action ev) "output" then
    if negb (String.eqb (ev_Test ev) "") then
      {| p_Status := p_Status s; p_Total := p_Total s; p_Passed := p_Passed s;
         p_Failed := p_Failed s; p_Skipped := p_Skipped s;
         outputs := write_to key (ev_Output ev) (outputs s);
         failedTests := failedTests s; buildOutputs := buildOutputs s;
         failedBuilds := failedBuilds s |}
    else s
  else if String.eqb (ev_Action ev) "pass" then
    if negb (String.eqb (ev_Test ev) "") then
      {| p_Status := p_Status s; p_Total := p_Total s + 1;
         p_Passed := p_Passed s + 1;
         p_Failed := p_Failed s; p_Skipped := p_Skipped s;
         outputs := outputs s; failedTests := failedTests s;
         buildOutputs := buildOutputs s; failedBuilds := failedBuilds s |}
    else s
  else if String.eqb (ev_Action ev) "fail" then
    if negb (String.eqb (ev_Test ev) "") then
      {| p_Status := "FAIL"; p_Total := p_Total s + 1; p_Passed := p_Passed s;
         p_Failed := p_Failed s + 1; p_Skipped := p_Skipped s;
         outputs := outputs s; failedTests := {[ key ]} ∪ failedTests s;
         buildOutputs := buildOutputs s; failedBuilds := failedBuilds s |}
    else if negb (String.eqb (ev_Package ev) "") && String.eqb (ev_Test ev) "" then
      {| p_Status := "FAIL"; p_Total := p_Total s; p_Passed := p_Passed s;
         p_Failed := p_Failed s; p_Skipped := p_Skipped s;
         outputs := outputs s; failedTests := failedTests s;
         buildOutputs := buildOutputs s; failedBuilds := failedBuilds s |}
    else s
  else if String.eqb (ev_Action ev) "skip" then
    if negb (String.eqb (ev_Test ev) "") then
      {| p_Status := p_Status s; p_Total := p_Total s + 1; p_Passed := p_Passed s;
         p_Failed := p_Failed s; p_Skipped := p_Skipped s + 1;
         outputs := outputs s; failedTests := failedTests s;
         buildOutputs := buildOutputs s; failedBuilds := failedBuilds s |}
    else s
  else if String.eqb (ev_Action ev) "build-output" then
    let ip := if String.eqb (ev_ImportPath ev) "" then ev_Package ev
              else ev_ImportPath ev in
    if negb (String.eqb ip "") then
      {| p_Status := p_Status s; p_Total := p_Total s; p_Passed := p_Passed s;
         p_Failed := p_Failed s; p_Skipped := p_Skipped s;
         outputs := outputs s; failedTests := failedTests s;
         buildOutputs := write_to ip (ev_Output ev) (buildOutputs s);
         failedBuilds := failedBuilds s |}
    else s
  else if String.eqb (ev_Action ev) "build-fail" then
    let ip := if String.eqb (ev_ImportPath ev) "" then ev_Package ev
              else ev_ImportPath ev in
    {| p_Status := "FAIL"; p_Total := p_Total s; p_Passed := p_Passed s;
       p_Failed := p_Failed s; p_Skipped := p_Skipped s;
       outputs := outputs s; failedTests := failedTests s;
       buildOutputs := buildOutputs s;
       failedBuilds := if negb (String.eqb ip "") then {[ ip ]} ∪ failedBuilds s
                       else failedBuilds s |}
  else s.

(** The two adapters that read JSON do so through [encoding/json], which is
    outside the repository: [decode] stands for [json.Unmarshal] into a
    [test2jsonEvent], [None] being an error. *)
Section TestAdapter.
Variable decode : string → option test2jsonEvent.

(** One turn of the loop over the lines. *)
Definition on_line (s : parser) (line : string) : parser :=
  let line := TrimSpace line in
  if String.eqb line "" then s
  else match decode line with
       | None => s
       | Some ev => on_event s ev
       end.

(** The two loops after it.  Go visits a map in an unspecified order; the
    model visits the keys in the order of [elements]. *)
Definition summary_of (s : parser) : TestSummary :=
  {| Status := p_Status s; Total := p_Total s; Passed := p_Passed s;
     Failed := p_Failed s; Skipped := p_Skipped s;
     BuildErrors :=
       map (λ ip, {| ImportPath := ip;
                     be_Output :=
                       match buildOutputs s !! ip with
                       | Some b => TrimRightNewlines b
                       | None => ""
                       end |})
           (elements (failedBuilds s));
     Errors :=
       map (λ key : string * string,
              {| Test := snd key; Package := fst key;
                 tf_Output := default "" (outputs s !! key) |})
           (elements (failedTests s)) |}.

Definition parse_lines (lines : list string) : parser :=
  fold_left on_line lines parser_start.

Definition parseTestOutput (data : string) : TestSummary :=
  summary_of (parse_lines (Split data newline)).

(** The events of an input: what its lines decode to, blank lines and lines
    that are not valid JSON left out. *)
Definition event_of (line : string) : option test2jsonEvent :=
  let line := TrimSpace line in
  if String.eqb line "" then None else decode line.

Definition events_of (data : string) : list test2jsonEvent :=
  omap event_of (Split data newline).

End TestAdapter.

(** An event of the given action that carries a test name. *)
Definition counted (action : string) (ev : test2jsonEvent) : bool :=
  String.eqb (ev_Action ev) action && negb (String.eqb (ev_Test ev) "").

Definition bump (b : bool) : Z := if b then 1 else 0.

Definition count_of (action : string) (evs : list test2jsonEvent) : Z :=
  Z.of_nat (length (List.filter (counted action) evs)).

(** An event that turns the summary's status to FAIL: a ["fail"] that carries
    a test name or a package, or a ["build-fail"]. *)
Definition marks_failure (ev : test2jsonEvent) : bool :=
  (String.eqb (ev_Action ev) "fail"
   && (negb (String.eqb (ev_Test ev) "") || negb (String.eqb (ev_Package ev) "")))
  || String.eqb (ev_Action ev) "build-fail".

(** *** The coverage adapter: [parseCoverFunc] *)

(** The classes [\d], [\s] and [\S] of Go's regular expressions, on a byte. *)
Definition is_digit (a : ascii) : bool :=
  let n := nat_of_ascii a in (48 <=? n)%nat && (n <=? 57)%nat.

Definition is_space (a : ascii) : bool :=
  let n := nat_of_ascii a in
  (n =? 9)%nat || (n =? 10)%nat || (n =? 12)%nat || (n =? 13)%nat || (n =? 32)%nat.

(** The longest prefix of bytes in a class, and what follows it. *)
Fixpoint span (p : ascii → bool) (s : string) : string * string :=
  match s with
  | String a s' =>
      if p a then let '(x, y) := span p s' in (String a x, y) else ("", s)
  | EmptyString => ("", "")
  end.

(** The pattern after its first group,
    [:(\d+):\s+(\S+)\s+(\d+\.\d+)%$], on what follows the colon: the function
    name and the percentage's numeral, split at its point.  Every repetition
    is followed by a byte outside its class, so the split is forced. *)
Definition match_tail (s : string) : option (string * (string * string)) :=
  let '(line_no, s) := span is_digit s in
  if String.eqb line_no "" then None else
  match s with
  | String ":" s =>
      let '(sp1, s) := span is_space s in
      if String.eqb sp1 "" then None else
      let '(func, s) := span (λ a, negb (is_space a)) s in
      if String.eqb func "" then None else
      let '(sp2, s) := span is_space s in
      if String.eqb sp2 "" then None else
      let '(whole, s) := span is_digit s in
      if String.eqb whole "" then None else
      match s with
      | String "." s =>
          let '(frac, s) := span is_digit s in
          if String.eqb frac "" then None else
          if String.eqb s "%" then Some (func, (whole, frac)) else None
      | _ => None
      end
  | _ => None
  end.

(** [coverFuncLine.FindStringSubmatch(line)] for
    [^(.+):(\d+):\s+(\S+)\s+(\d+\.\d+)%$]: groups 1, 3 and 4.  The first group
    is greedy: of the colons that the rest of the pattern can follow, the last
    one ends it.  [seen] tells whether a byte precedes [s] in the line. *)
Fixpoint match_line (seen : bool) (s : string)
  : option (string * (string * (string * string))) :=
  match s with
  | EmptyString => None
  | String a s' =>
      match match_line true s' with
      | Some (file, rest) => Some (String a file, rest)
      | None =>
          if seen && Ascii.eqb a ":" then
            match match_tail s' with
            | Some rest => Some ("", rest)
            | None => None
            end
          else None
      end
  end.

(** The number a string of digits writes. *)
Definition digits_value (s : string) : Z :=
  fold_left (λ acc d, 10 * acc + Z.of_nat (d - 48)) (codes s) 0.

(** The exact value of the numeral [whole.frac]. *)
Definition decimal_value (whole frac : string) : Q :=
  digits_value (whole +:+ frac) # Z.to_pos (10 ^ Z.of_nat (String.length frac)).

(** Numerals from this value on round to infinity in [float64]:
    [2^1024 - 2^970], half a unit in the last place above the largest
    [float64]. *)
Definition float64_overflow : Z := 2 ^ 1024 - 2 ^ 970.

(** [n / d], for [d > 0], rounded to the nearest integer, a tie going to the
    even one. *)
Definition round_half_even (n d : Z) : Z :=
  let q := n / d in
  let r := n mod d in
  if 2 * r <? d then q
  else if d <? 2 * r then q + 1
  else if Z.even q then q else q + 1.

(** The exponent of the leading bit of [n / d], for [n > 0] and [d > 0]: the
    largest [k] with [2^k ≤ n / d]. *)
Definition leading_exponent (n d : Z) : Z :=
  let k := Z.log2 n - Z.log2 d in
  if d * 2 ^ Z.max 0 k <=? n * 2 ^ Z.max 0 (- k) then k else k - 1.

(** The [float64] nearest to a number, ties to even, overflow apart: a
    multiple [m * 2^u] of the unit in the last place, which is 52 bits below
    the leading bit of the number and never below [2^-1074]; zero for a
    number that is not positive (the numerals read here have no sign). *)
Definition nearest_float64 (v : Q) : Q :=
  let n := Qnum v in
  let d := Z.pos (Qden v) in
  if n <=? 0 then 0 # 1
  else
    let u := Z.max (leading_exponent n d - 52) (-1074) in
    let m := round_half_even (n * 2 ^ Z.max 0 (- u)) (d * 2 ^ Z.max 0 u) in
    (m * 2 ^ Z.max 0 u) # Z.to_pos (2 ^ Z.max 0 (- u)).

(** [strconv.ParseFloat(s, 64)] on a numeral matched by [\d+\.\d+]: the
    nearest [float64]; the only error is a value out of range. *)
Definition ParseFloat (whole frac : string) : option Q :=
  let v := decimal_value whole frac in
  if Qle_bool (inject_Z float64_overflow) v then None
  else Some (nearest_float64 v).

(** The body of the loop of [parseCoverFunc]: the entries after one more
    line. *)
Definition cover_line (entries : list Report.CoverageEntry) (line : string)
  : list Report.CoverageEntry :=
  let line := TrimSpace line in
  if String.eqb line "" then entries
  else match match_line false line with
       | None => entries
       | Some (file, (funcName, (whole, frac))) =>
           match ParseFloat whole frac with
           | None => entries
           | Some pct =>
               if String.eqb file "total" then entries
               else
                 let pkg := derivePackageFromFile file in
                 let relFile := file in
                 entries ++ [{| Report.ce_Package := pkg;
                                Report.ce_File := relFile;
                                Report.ce_Function := funcName;
                                Report.ce_Coverage := pct |}]
           end
       end.

Definition parseCoverFunc (data : string) : list Report.CoverageEntry :=
  fold_left cover_line (Split data newline) [].

(** What the adapter promises about an entry it emits for an input: it comes
    from a line of the input that the pattern matches, its file is not
    ["total"], and its percentage is the [float64] nearest to the value of
    the line's numeral: it is at least zero, and at least every whole number
    up to [2^53] that the numeral is at least (so a numeral of 101 or more
    gives a percentage of 101 or more). *)
Definition emitted (data : string) (en : Report.CoverageEntry) : Prop :=
  ∃ line whole frac,
    line ∈ Split data newline
    ∧ match_line false (TrimSpace line)
      = Some (Report.ce_File en, (Report.ce_Function en, (whole, frac)))
    ∧ Report.ce_File en ≠ "total"
    ∧ Report.ce_Package en = derivePackageFromFile (Report.ce_File en)
    ∧ Report.ce_Coverage en = nearest_float64 (decimal_value whole frac)
    ∧ (decimal_value whole frac < inject_Z float64_overflow)%Q
    ∧ (0 <= Report.ce_Coverage en)%Q
    ∧ (∀ c : Z, 0 ≤ c ≤ 2 ^ 53 →
         (inject_Z c <= decimal_value whole frac)%Q →
         (inject_Z c <= Report.ce_Coverage en)%Q).

(** The entry a line gives when the pattern matches it with these groups. *)
Definition cover_entry (file funcName whole frac : string)
  : Report.CoverageEntry :=
  {| Report.ce_Package := derivePackageFromFile file;
     Report.ce_File := file;
     Report.ce_Function := funcName;
     Report.ce_Coverage := nearest_float64 (decimal_value whole frac) |}.


(** *** Errors of the engine *)

(** [type toolInfo struct]. *)
Record toolInfo := {
  ti_ImportPath : string;
  AltInstall : string;
  NoGoInstall : bool
}.

Definition go_tool (importPath : string) : toolInfo :=
  {| ti_ImportPath := importPath; AltInstall := ""; NoGoInstall := false |}.

(** [var knownTools]. *)
Definition knownTools : list (string * toolInfo) :=
  [ ("gofumpt", go_tool "mvdan.cc/gofumpt@latest");
    ("staticcheck", go_tool "honnef.co/go/tools/cmd/staticcheck@latest");
    ("gocognit", go_tool "github.com/uudashr/gocognit/cmd/gocognit@latest");
    ("deadcode", go_tool "golang.org/x/tools/cmd/deadcode@latest");
    ("dupl", go_tool "github.com/mibk/dupl@latest");
    ("govulncheck", go_tool "golang.org/x/vuln/cmd/govulncheck@latest");
    ("golangci-lint",
      {| ti_ImportPath := "";
         AltInstall := "https://golangci-lint.run/welcome/install/";
         NoGoInstall := true |});
    ("gopls", go_tool "golang.org/x/tools/gopls@latest") ].

Fixpoint known_tool (table : list (string * toolInfo)) (name : string)
  : option toolInfo :=
  match table with
  | [] => None
  | (n, info) :: rest => if String.eqb n name then Some info else known_tool rest name
  end.

(** A Go [error] as the engine meets it: the typed [ErrToolUnavailable], an
    error made by [fmt.Errorf("<prefix>: %w", cause)], or any other error,
    known by its message. *)
Inductive error :=
| ErrToolUnavailable (name : string) (info : option toolInfo)
| Wrapped (prefix : string) (cause : error)
| Plain (msg : string).

Definition NewErrToolUnavailable (name : string) : error :=
  ErrToolUnavailable name (known_tool knownTools name).

(** [ErrToolUnavailable.Error]. *)
Definition unavailable_message (name : string) (info : option toolInfo) : string :=
  let b := name +:+ " is required but not installed." in
  match info with
  | None => b
  | Some info =>
      let b := b +:+ nl in
      if NoGoInstall info then
        if negb (String.eqb (AltInstall info) "") then
          b +:+ nl +:+ "Install: " +:+ AltInstall info
            +:+ nl +:+ "Note: go get -tool and go install are not recommended for "
            +:+ name +:+ "."
        else b
      else if negb (String.eqb (ti_ImportPath info) "") then
        let importPath := TrimSuffix (ti_ImportPath info) "@latest" in
        b +:+ nl +:+ "Install:"
          +:+ nl +:+ "  go get -tool " +:+ importPath
          +:+ "   # adds to go.mod (recommended)"
          +:+ nl +:+ "  go install " +:+ ti_ImportPath info
          +:+ "     # installs globally"
      else b
  end.

(** [err.Error()]. *)
Fixpoint Error (err : error) : string :=
  match err with
  | ErrToolUnavailable name info => unavailable_message name info
  | Wrapped prefix cause => prefix +:+ ": " +:+ Error cause
  | Plain msg => msg
  end.

(** [errors.As(err, &unavail)] for [var unavail ErrToolUnavailable]. *)
Fixpoint is_unavailable (err : error) : bool :=
  match err with
  | ErrToolUnavailable _ _ => true
  | Wrapped _ cause => is_unavailable cause
  | Plain _ => false
  end.

(** *** Results of the other adapters and of the pipelines *)

Record LintIssue := {
  li_File : string; li_Line : Z; li_Column : Z; li_Linter : string;
  li_Message : string
}.

Record LintSummary := { ls_Issues : list LintIssue }.

Record StaticcheckResult := { sc_Issues : list Report.StaticIssue }.

(** [type FixResult struct]. *)
Record FixResult := {
  fr_AutoFixes : Z;
  fr_FormatIssues : list Report.FormatIssue
}.

(** [type StepResult struct]. *)
Record StepResult := {
  Name : string;
  sr_Status : string;
  Detail : string;
  Output : string
}.

(** [type CheckResult struct]. *)
Record CheckResult := {
  RunResult : Report.RunResult;
  Steps : list StepResult;
  FailedIdx : Z
}.

(** [type AuditStepResult struct]. *)
Record AuditStepResult := {
  as_Name : string;
  as_Status : string;
  as_Detail : string;
  as_Output : string
}.

(** [type AuditResult struct]. *)
Record AuditResult := {
  ar_RunResult : Report.RunResult;
  ar_Steps : list AuditStepResult
}.

(** Assignments to the fields of a [RunResult]. *)
Definition with_fix (rr : Report.RunResult) (f : FixResult) : Report.RunResult :=
  {| Report.ID := Report.ID rr; Report.kind := Report.kind rr;
     Report.AutoFixes := fr_AutoFixes f;
     Report.FormatIssues := fr_FormatIssues f;
     Report.BuildErrors := Report.BuildErrors rr;
     Report.TestFailures := Report.TestFailures rr;
     Report.LintIssues := Report.LintIssues rr;
     Report.StaticIssues := Report.StaticIssues rr;
     Report.Coverage := Report.Coverage rr;
     Report.Complexity := Report.Complexity rr;
     Report.DeadFuncs := Report.DeadFuncs rr;
     Report.Duplicates := Report.Duplicates rr;
     Report.Vulns := Report.Vulns rr |}.

Definition with_check_findings (rr : Report.RunResult)
    (builds : list Report.BuildError) (tests : list Report.TestFailure)
    (lints : list Report.LintIssue) (statics : list Report.StaticIssue)
  : Report.RunResult :=
  {| Report.ID := Report.ID rr; Report.kind := Report.kind rr;
     Report.AutoFixes := Report.AutoFixes rr;
     Report.FormatIssues := Report.FormatIssues rr;
     Report.BuildErrors := builds;
     Report.TestFailures := tests;
     Report.LintIssues := lints;
     Report.StaticIssues := statics;
     Report.Coverage := Report.Coverage rr;
     Report.Complexity := Report.Complexity rr;
     Report.DeadFuncs := Report.DeadFuncs rr;
     Report.Duplicates := Report.Duplicates rr;
     Report.Vulns := Report.Vulns rr |}.

Definition with_audit_findings (rr : Report.RunResult)
    (cov : list Report.CoverageEntry) (cx : list Report.ComplexityEntry)
    (dead : list Report.DeadFunc) (dup : list Report.Duplicate)
    (vulns : list Report.Vuln)
  : Report.RunResult :=
  {| Report.ID := Report.ID rr; Report.kind := Report.kind rr;
     Report.AutoFixes := Report.AutoFixes rr;
     Report.FormatIssues := Report.FormatIssues rr;
     Report.BuildErrors := Report.BuildErrors rr;
     Report.TestFailures := Report.TestFailures rr;
     Report.LintIssues := Report.LintIssues rr;
     Report.StaticIssues := Report.StaticIssues rr;
     Report.Coverage := cov;
     Report.Complexity := cx;
     Report.DeadFuncs := dead;
     Report.Duplicates := dup;
     Report.Vulns := vulns |}.

(** *** The outside world

    The engine runs commands through its [Runner], asks [ResolveTool] whether
    a tool is installed, creates a temporary file and draws run identifiers.
    These act on the world outside the program: a computation takes the
    world's state and gives a value and the state afterwards. *)
Section Pipelines.
Context {world : Type}.

Definition io (A : Type) : Type := world → A * world.

Definition ret {A : Type} (a : A) : io A := λ w, (a, w).

Definition bind {A B : Type} (m : io A) (k : A → io B) : io B :=
  λ w, let '(a, w') := m w in k a w'.

Local Notation "'let*' x ':=' m 'in' k" := (bind m (λ x, k))
  (at level 10, x pattern, m at level 100, k at level 200).

(** What the engine calls and the repository does not decide: the operations
    on the world ([Engine.Runner.Run], [ResolveTool], [os.CreateTemp],
    [os.Remove], [uuid.New]), the JSON decoder of the test adapter, and the
    adapters and formatters of the other tools, which are pure functions of
    their input. *)
Record externals := {
  Runner_Run : list string → string → io (Runner.Result + error);
  ResolveTool : string → io (option (list string));
  CreateTemp : io (string + error);
  Remove : string → io unit;
  uuid_New : io string;
  decode_event : string → option test2jsonEvent;
  parseLintOutput : string → string → LintSummary;
  parseStaticcheckOutput : string → StaticcheckResult;
  parseGocognitOutput : string → list Report.ComplexityEntry;
  parseDeadcodeOutput : string → list Report.DeadFunc;
  parseDuplOutput : string → Z → list Report.Duplicate;
  parseGovulncheckOutput : string → list Report.Vuln;
  TestSummary_String : TestSummary → string;
  LintSummary_String : LintSummary → string;
  StaticcheckResult_String : StaticcheckResult → string;
  FormatCoverageSummary : list Report.CoverageEntry → string;
  FormatComplexitySummary : list Report.ComplexityEntry → string;
  FormatDeadcodeSummary : list Report.DeadFunc → string;
  FormatDuplSummary : list Report.Duplicate → string;
  FormatVulncheckSummary : list Report.Vuln → string
}.

Variable X : externals.

(** *** The steps of the check pipeline *)

Definition runTest (e : Engine) (packages : list string)
  : io (TestSummary + error) :=
  let pkgs := ResolvePackages e packages in
  let argv := ["go"; "test"; "-json"] in
  let argv := argv ++ pkgs in
  let argv := argv ++ Config.Test_Args (Config e) in
  let* r := Runner_Run X argv "" in
  match r with
  | inr err => ret (inr (Wrapped "executing go test" err))
  | inl result =>
      let summary := parseTestOutput (decode_event X) (Runner.Stdout result) in
      ret (inl summary)
  end.

Definition runLint (e : Engine) (packages : list string)
  : io (LintSummary + error) :=
  let* argv := ResolveTool X "golangci-lint" in
  match argv with
  | None => ret (inr (NewErrToolUnavailable "golangci-lint"))
  | Some argv =>
      let pkgs := ResolvePackages e packages in
      let argv := argv ++ ["run"; "--out-format"; "json"] in
      let argv :=
        if negb (String.eqb (Config.Lint_Config (Config e)) "")
        then argv ++ ["--config"; Config.Lint_Config (Config e)] else argv in
      let argv := argv ++ Config.Lint_Args (Config e) in
      let argv := argv ++ pkgs in
      let* r := Runner_Run X argv "" in
      match r with
      | inr err => ret (inr (Wrapped "executing golangci-lint" err))
      | inl result =>
          ret (inl (parseLintOutput X (Runner.Stdout result) (Runner.Stderr result)))
      end
  end.

Definition runStaticcheck (e : Engine) (packages : list string)
  : io (StaticcheckResult + error) :=
  let* argv := ResolveTool X "staticcheck" in
  match argv with
  | None => ret (inr (NewErrToolUnavailable "staticcheck"))
  | Some argv =>
      let argv := argv ++ ["-f"; "json"] in
      let argv :=
        if (0 <? length (Config.Staticcheck_Checks (Config e)))%nat
        then argv ++ ["-checks"; Join (Config.Staticcheck_Checks (Config e)) ","]
        else argv in
      let argv := argv ++ Config.Staticcheck_Args (Config e) in
      let argv := argv ++ packages in
      let* r := Runner_Run X argv "" in
      match r with
      | inr err => ret (inr (Wrapped "executing staticcheck" err))
      | inl result => ret (inl (parseStaticcheckOutput X (Runner.Stdout result)))
      end
  end.

(** *** The fix phase *)

Definition runGofumptFix : io Z :=
  let* argv := ResolveTool X "gofumpt" in
  match argv with
  | None => ret 0
  | Some argv =>
      let argv := argv ++ ["-w"; "."] in
      let* r := Runner_Run X argv "" in
      match r with
      | inr _ => ret 0
      | inl res =>
          if negb (Runner.ExitCode res =? 0) then ret 0
          else
            let* lArgv := ResolveTool X "gofumpt" in
            match lArgv with
            | None => ret 0
            | Some lArgv =>
                let lArgv := lArgv ++ ["-l"; "."] in
                let* _ := Runner_Run X lArgv "" in
                ret 0
            end
      end
  end.

Definition format_issues (stdout : string) : list Report.FormatIssue :=
  fold_left
    (λ issues file,
       let file := TrimSpace file in
       if String.eqb file "" then issues
       else issues ++ [{| Report.fi_Package := ""; Report.fi_File := file;
                          Report.fi_Message := "file not formatted: " +:+ file |}])
    (Split (TrimSpace stdout) newline) [].

Definition runGofumptCheck : io (list Report.FormatIssue) :=
  let* argv := ResolveTool X "gofumpt" in
  match argv with
  | None => ret []
  | Some argv =>
      let argv := argv ++ ["-l"; "."] in
      let* r := Runner_Run X argv "" in
      match r with
      | inr _ => ret []
      | inl res => ret (format_issues (Runner.Stdout res))
      end
  end.

Definition runLintFix (e : Engine) : io Z :=
  let* argv := ResolveTool X "golangci-lint" in
  match argv with
  | None => ret 0
  | Some argv =>
      let argv := argv ++ ["run"; "--fix"] in
      let argv :=
        if negb (String.eqb (Config.Lint_Config (Config e)) "")
        then argv ++ ["--config"; Config.Lint_Config (Config e)] else argv in
      let argv := argv ++ Config.Lint_Args (Config e) in
      let argv := argv ++ ["./..."] in
      let* _ := Runner_Run X argv "" in
      ret 0
  end.

(** [Engine.RunFixPhase]; its error is always [nil]. *)
Definition RunFixPhase (e : Engine) (fix_ : bool) : io FixResult :=
  if fix_ then
    let* n1 := runGofumptFix in
    let* n2 := runLintFix e in
    ret {| fr_AutoFixes := 0 + n1 + n2; fr_FormatIssues := [] |}
  else
    let* issues := runGofumptCheck in
    ret {| fr_AutoFixes := 0; fr_FormatIssues := issues |}.

(** *** [Engine.Check] *)

Definition step_result (name status detail output : string) : StepResult :=
  {| Name := name; sr_Status := status; Detail := detail; Output := output |}.

(** A step that stopped the pipeline: it failed, or its tool is missing. *)
Definition failing (s : StepResult) : Prop :=
  sr_Status s = "fail" ∨ sr_Status s = "unavailable".

(** What the loop of [Check] carries: the run result, the step results and
    [failedIdx]. *)
Definition check_state : Type := Report.RunResult * list StepResult * Z.

Definition test_failures (errors : list TestFailure) : list Report.TestFailure :=
  map (λ f, {| Report.tf_Package := Package f; Report.tf_Test := Test f;
               Report.tf_File := ""; Report.tf_Line := 0;
               Report.tf_Message := FirstLine (tf_Output f);
               Report.tf_Output := tf_Output f |}) errors.

Definition build_errors (errors : list BuildError) : list Report.BuildError :=
  map (λ be, {| Report.be_Package := ImportPath be; Report.be_File := "";
                Report.be_Line := 0; Report.be_Col := 0;
                Report.be_Message := be_Output be |}) errors.

Definition lint_issues (issues : list LintIssue) : list Report.LintIssue :=
  map (λ issue, {| Report.li_Package := ""; Report.li_File := li_File issue;
                   Report.li_Line := li_Line issue;
                   Report.li_Col := li_Column issue;
                   Report.li_Linter := li_Linter issue;
                   Report.li_Message := li_Message issue |}) issues.

(** The [switch step] in the loop of [Check], for the step at index [i]. *)
Definition check_step (e : Engine) (pkgs : list string) (i : nat) (step : string)
    (st : check_state) : io check_state :=
  let '(rr, results, failedIdx) := st in
  if String.eqb step "test" then
    let* r := runTest e pkgs in
    match r with
    | inr err =>
        ret (rr, <[i := step_result step "fail" "" (Error err)]> results, Z.of_nat i)
    | inl summary =>
        if String.eqb (Status summary) "FAIL" then
          let rr :=
            with_check_findings rr
              (Report.BuildErrors rr ++ build_errors (BuildErrors summary))
              (Report.TestFailures rr ++ test_failures (Errors summary))
              (Report.LintIssues rr) (Report.StaticIssues rr) in
          ret (rr,
               <[i := step_result step "fail" "" (TestSummary_String X summary)]> results,
               Z.of_nat i)
        else ret (rr, <[i := step_result step "pass" "" ""]> results, failedIdx)
    end
  else if String.eqb step "lint" then
    let* r := runLint e pkgs in
    match r with
    | inr err =>
        if is_unavailable err then
          ret (rr, <[i := step_result step "unavailable" (Error err) ""]> results,
               Z.of_nat i)
        else
          ret (rr, <[i := step_result step "fail" "" (Error err)]> results, Z.of_nat i)
    | inl summary =>
        if (0 <? length (ls_Issues summary))%nat then
          let rr :=
            with_check_findings rr (Report.BuildErrors rr) (Report.TestFailures rr)
              (Report.LintIssues rr ++ lint_issues (ls_Issues summary))
              (Report.StaticIssues rr) in
          ret (rr,
               <[i := step_result step "fail" "" (LintSummary_String X summary)]> results,
               Z.of_nat i)
        else ret (rr, <[i := step_result step "pass" "" ""]> results, failedIdx)
    end
  else if String.eqb step "staticcheck" then
    let* r := runStaticcheck e pkgs in
    match r with
    | inr err =>
        if is_unavailable err then
          ret (rr, <[i := step_result step "unavailable" (Error err) ""]> results,
               Z.of_nat i)
        else
          ret (rr, <[i := step_result step "fail" "" (Error err)]> results, Z.of_nat i)
    | inl scResult =>
        if (0 <? length (sc_Issues scResult))%nat then
          let rr :=
            with_check_findings rr (Report.BuildErrors rr) (Report.TestFailures rr)
              (Report.LintIssues rr) (sc_Issues scResult) in
          ret (rr,
               <[i := step_result step "fail" ""
                        (StaticcheckResult_String X scResult)]> results,
               Z.of_nat i)
        else ret (rr, <[i := step_result step "pass" "" ""]> results, failedIdx)
    end
  else
    ret (rr, <[i := step_result step "fail" "" ("unknown step: " +:+ step)]> results,
         Z.of_nat i).

(** The loop [for i, step := range steps], from index [i] on, with its
    [if failedIdx >= 0 { break }]. *)
Fixpoint check_loop (e : Engine) (pkgs : list string) (steps : list string)
    (i : nat) (st : check_state) : io check_state :=
  match steps with
  | [] => ret st
  | step :: rest =>
      let* st' := check_step e pkgs i step st in
      if 0 <=? snd st' then ret st'
      else check_loop e pkgs rest (S i) st'
  end.

(** [Engine.Check]; its error is always [nil]. *)
Definition Check (e : Engine) (packages : list string) (fix_ : bool)
  : io CheckResult :=
  let* runID := uuid_New X in
  let pkgs := ResolvePackages e packages in
  let rr := Report.newRunResult runID Report.Check in
  let* fixRes := RunFixPhase e fix_ in
  let rr := with_fix rr fixRes in
  if negb fix_ && (0 <? length (Report.FormatIssues rr))%nat then
    ret {| RunResult := rr; Steps := []; FailedIdx := -2 |}
  else
    let steps := Config.CheckSteps (Config e) in
    let results := map (λ step, step_result step "skipped" "" "") steps in
    let* st := check_loop e pkgs steps 0 (rr, results, -1) in
    ret {| RunResult := fst (fst st); Steps := snd (fst st); FailedIdx := snd st |}.

(** [Check] with the loop over the steps ended after [n] turns, whatever they
    gave: [for i, step := range steps[:n]].  The step results are still made
    for all the configured steps. *)
Definition Check_first (n : nat) (e : Engine) (packages : list string)
    (fix_ : bool) : io CheckResult :=
  let* runID := uuid_New X in
  let pkgs := ResolvePackages e packages in
  let rr := Report.newRunResult runID Report.Check in
  let* fixRes := RunFixPhase e fix_ in
  let rr := with_fix rr fixRes in
  if negb fix_ && (0 <? length (Report.FormatIssues rr))%nat then
    ret {| RunResult := rr; Steps := []; FailedIdx := -2 |}
  else
    let steps := Config.CheckSteps (Config e) in
    let results := map (λ step, step_result step "skipped" "" "") steps in
    let* st := check_loop e pkgs (take n steps) 0 (rr, results, -1) in
    ret {| RunResult := fst (fst st); Steps := snd (fst st); FailedIdx := snd st |}.

(** *** The steps of the audit pipeline *)

Definition runCoverage (e : Engine) (packages : list string)
  : io (list Report.CoverageEntry + error) :=
  let pkgs := ResolvePackages e packages in
  let* f := CreateTemp X in
  match f with
  | inr err => ret (inr (Wrapped "creating cover profile" err))
  | inl coverFile =>
      let argv := ["go"; "test"; "-coverprofile"; coverFile] in
      let argv := argv ++ Config.Coverage_Args (Config e) in
      let argv := argv ++ pkgs in
      let* r := Runner_Run X argv "" in
      match r with
      | inr err =>
          let* _ := Remove X coverFile in
          ret (inr (Wrapped "executing go test -coverprofile" err))
      | inl result =>
          if negb (Runner.ExitCode result =? 0) then
            let* _ := Remove X coverFile in
            ret (inr (Plain ("go test -coverprofile failed (exit "
                             +:+ Itoa (Runner.ExitCode result) +:+ "): "
                             +:+ Runner.Stderr result)))
          else
            let coverArgv := ["go"; "tool"; "cover"; "-func"; coverFile] in
            let* r2 := Runner_Run X coverArgv "" in
            let* _ := Remove X coverFile in
            match r2 with
            | inr err => ret (inr (Wrapped "executing go tool cover -func" err))
            | inl coverResult => ret (inl (parseCoverFunc (Runner.Stdout coverResult)))
            end
      end
  end.

Definition runComplexity (e : Engine) (packages : list string)
  : io (list Report.ComplexityEntry + error) :=
  let* argv := ResolveTool X "gocognit" in
  match argv with
  | None => ret (inr (NewErrToolUnavailable "gocognit"))
  | Some argv =>
      let pkgs := ResolvePackages e packages in
      let argv := argv ++ Config.Complexity_Args (Config e) in
      let argv := argv ++ pkgs in
      let* r := Runner_Run X argv "" in
      match r with
      | inr err => ret (inr (Wrapped "executing gocognit" err))
      | inl result => ret (inl (parseGocognitOutput X (Runner.Stdout result)))
      end
  end.

Definition runDeadcode (e : Engine) (packages : list string)
  : io (list Report.DeadFunc + error) :=
  let* argv := ResolveTool X "deadcode" in
  match argv with
  | None => ret (inr (NewErrToolUnavailable "deadcode"))
  | Some argv =>
      let pkgs := ResolvePackages e packages in
      let argv := argv ++ ["-json"] in
      let argv := argv ++ Config.Deadcode_Args (Config e) in
      let argv := argv ++ pkgs in
      let* r := Runner_Run X argv "" in
      match r with
      | inr err => ret (inr (Wrapped "executing deadcode" err))
      | inl result => ret (inl (parseDeadcodeOutput X (Runner.Stdout result)))
      end
  end.

Definition runDupl (e : Engine) (packages : list string)
  : io (list Report.Duplicate + error) :=
  let* argv := ResolveTool X "dupl" in
  match argv with
  | None => ret (inr (NewErrToolUnavailable "dupl"))
  | Some argv =>
      let threshold := Config.DuplThreshold (Config e) in
      let argv := argv ++ ["-plumbing"; "-t"; Itoa threshold] in
      let argv := argv ++ Config.Dupl_Args (Config e) in
      let argv := argv ++ ["."] in
      let* r := Runner_Run X argv "" in
      match r with
      | inr err => ret (inr (Wrapped "executing dupl" err))
      | inl result => ret (inl (parseDuplOutput X (Runner.Stdout result) threshold))
      end
  end.

Definition runVulncheck (e : Engine) (packages : list string)
  : io (list Report.Vuln + error) :=
  let* argv := ResolveTool X "govulncheck" in
  match argv with
  | None => ret (inr (NewErrToolUnavailable "govulncheck"))
  | Some argv =>
      let argv := argv ++ ["-json"] in
      let argv := argv ++ Config.Vulncheck_Args (Config e) in
      let argv := argv ++ ResolvePackages e packages in
      let* r := Runner_Run X argv "" in
      match r with
      | inr err => ret (inr (Wrapped "executing govulncheck" err))
      | inl result => ret (inl (parseGovulncheckOutput X (Runner.Stdout result)))
      end
  end.

(** *** [Engine.Audit] *)

Definition audit_result (name status detail output : string) : AuditStepResult :=
  {| as_Name := name; as_Status := status; as_Detail := detail;
     as_Output := output |}.

(** The two branches every case of the [switch] has for [err != nil]. *)
Definition audit_failure (step : string) (err : error) : AuditStepResult :=
  if is_unavailable err then audit_result step "unavailable" (Error err) ""
  else audit_result step "error" (Error err) "".

Definition audit_state : Type := Report.RunResult * list AuditStepResult.

(** The [switch step] in the loop of [Audit], for the step at index [i]. *)
Definition audit_step (e : Engine) (pkgs : list string) (i : nat) (step : string)
    (st : audit_state) : io audit_state :=
  let '(rr, results) := st in
  if String.eqb step "coverage" then
    let* r := runCoverage e pkgs in
    match r with
    | inr err => ret (rr, <[i := audit_failure step err]> results)
    | inl entries =>
        ret (with_audit_findings rr entries (Report.Complexity rr)
               (Report.DeadFuncs rr) (Report.Duplicates rr) (Report.Vulns rr),
             <[i := audit_result step "done" "" (FormatCoverageSummary X entries)]>
               results)
    end
  else if String.eqb step "complexity" then
    let* r := runComplexity e pkgs in
    match r with
    | inr err => ret (rr, <[i := audit_failure step err]> results)
    | inl entries =>
        ret (with_audit_findings rr (Report.Coverage rr) entries
               (Report.DeadFuncs rr) (Report.Duplicates rr) (Report.Vulns rr),
             <[i := audit_result step "done" "" (FormatComplexitySummary X entries)]>
               results)
    end
  else if String.eqb step "deadcode" then
    let* r := runDeadcode e pkgs in
    match r with
    | inr err => ret (rr, <[i := audit_failure step err]> results)
    | inl funcs =>
        ret (with_audit_findings rr (Report.Coverage rr) (Report.Complexity rr)
               funcs (Report.Duplicates rr) (Report.Vulns rr),
             <[i := audit_result step "done" "" (FormatDeadcodeSummary X funcs)]>
               results)
    end
  else if String.eqb step "dupl" then
    let* r := runDupl e pkgs in
    match r with
    | inr err => ret (rr, <[i := audit_failure step err]> results)
    | inl duplicates =>
        ret (with_audit_findings rr (Report.Coverage rr) (Report.Complexity rr)
               (Report.DeadFuncs rr) duplicates (Report.Vulns rr),
             <[i := audit_result step "done" "" (FormatDuplSummary X duplicates)]>
               results)
    end
  else if String.eqb step "vulncheck" then
    let* r := runVulncheck e pkgs in
    match r with
    | inr err => ret (rr, <[i := audit_failure step err]> results)
    | inl vulns =>
        ret (with_audit_findings rr (Report.Coverage rr) (Report.Complexity rr)
               (Report.DeadFuncs rr) (Report.Duplicates rr) vulns,
             <[i := audit_result step "done" "" (FormatVulncheckSummary X vulns)]>
               results)
    end
  else
    ret (rr, <[i := audit_result step "error" ("unknown step: " +:+ step) ""]> results).

(** The loop [for i, step := range steps], from index [i] on. *)
Fixpoint audit_loop (e : Engine) (pkgs : list string) (steps : list string)
    (i : nat) (st : audit_state) : io audit_state :=
  match steps with
  | [] => ret st
  | step :: rest =>
      let* st' := audit_step e pkgs i step st in
      audit_loop e pkgs rest (S i) st'
  end.

(** [Engine.Audit]; its error is always [nil]. *)
Definition Audit (e : Engine) (packages : list string) : io AuditResult :=
  let* runID := uuid_New X in
  let pkgs := ResolvePackages e packages in
  let rr := Report.newRunResult runID Report.Audit in
  let steps := Config.AuditSteps (Config e) in
  let results := map (λ step, audit_result step "skipped" "" "") steps in
  let* st := audit_loop e pkgs steps 0 (rr, results) in
  ret {| ar_RunResult := fst st; ar_Steps := snd st |}.

(** The tool a step of the audit resolves before it runs, if it does. *)
Definition audit_tool (step : string) : option string :=
  if String.eqb step "complexity" then Some "gocognit"
  else if String.eqb step "deadcode" then Some "deadcode"
  else if String.eqb step "dupl" then Some "dupl"
  else if String.eqb step "vulncheck" then Some "govulncheck"
  else None.

(** What [Audit] promises about the result of one step, given the world in
    which the step started. *)
Definition audited (step : string) (before : world) (s : AuditStepResult) : Prop :=
  as_Name s = step
  ∧ (as_Status s = "done" ∨ as_Status s = "error" ∨ as_Status s = "unavailable")
  ∧ (∀ tool, audit_tool step = Some tool →
       fst (ResolveTool X tool before) = None →
       as_Status s = "unavailable"
       ∧ as_Detail s = Error (NewErrToolUnavailable tool))
  ∧ (audit_tool step = None → step ≠ "coverage" →
       as_Status s = "error" ∧ as_Detail s = "unknown step: " +:+ step).

(** The function the step of a known name calls, with the findings it
    returns formatted as the step result shows them; [None] for any other
    name, for which [Audit] calls nothing. *)
Definition step_function (e : Engine) (pkgs : list string) (step : string)
  : option (io (string + error)) :=
  if String.eqb step "coverage" then
    Some (let* r := runCoverage e pkgs in
          ret match r with
              | inl entries => inl (FormatCoverageSummary X entries)
              | inr err => inr err
              end)
  else if String.eqb step "complexity" then
    Some (let* r := runComplexity e pkgs in
          ret match r with
              | inl entries => inl (FormatComplexitySummary X entries)
              | inr err => inr err
              end)
  else if String.eqb step "deadcode" then
    Some (let* r := runDeadcode e pkgs in
          ret match r with
              | inl funcs => inl (FormatDeadcodeSummary X funcs)
              | inr err => inr err
              end)
  else if String.eqb step "dupl" then
    Some (let* r := runDupl e pkgs in
          ret match r with
              | inl duplicates => inl (FormatDuplSummary X duplicates)
              | inr err => inr err
              end)
  else if String.eqb step "vulncheck" then
    Some (let* r := runVulncheck e pkgs in
          ret match r with
              | inl vulns => inl (FormatVulncheckSummary X vulns)
              | inr err => inr err
              end)
  else None.

(** The result [Audit] writes for a step, by what the step's function gave in
    the world [w]: ["done"] with the formatted findings, or, for an error,
    ["unavailable"] when the error is or wraps an [ErrToolUnavailable] and
    ["error"] otherwise, with the message of the error as detail; ["error"]
    for a step of an unknown name. *)
Definition step_outcome (e : Engine) (pkgs : list string) (step : string)
    (w : world) : AuditStepResult :=
  match step_function e pkgs step with
  | Some run =>
      match fst (run w) with
      | inl output => audit_result step "done" "" output
      | inr err =>
          audit_result step
            (if is_unavailable err then "unavailable" else "error")
            (Error err) ""
      end
  | None => audit_result step "error" ("unknown step: " +:+ step) ""
  end.

(** The world after a step that started in the world [w]: the one its
    function leaves; a step of an unknown name leaves the world as it is. *)
Definition step_world (e : Engine) (pkgs : list string) (step : string)
    (w : world) : world :=
  match step_function e pkgs step with
  | Some run => snd (run w)
  | None => w
  end.

End Pipelines.

Arguments io : clear implicits.
Arguments externals : clear implicits.

End Workflow.

(** ** [internal/report]: diagnostics and the queries over a run *)

Module Diagnostics.
Import Strings Report.

(** [type Diagnostic struct]. *)
Record Diagnostic := {
  Source : string;
  Package : string;
  File : string;
  Line : Z;
  Col : Z;
  Symbol : string;
  Detail : string;
  Message : string;
  Output : string
}.

(** [Kind] as the string it is. *)
Definition kind_string (k : Kind) : string :=
  match k with
  | Check => "check"
  | Audit => "audit"
  end.

(** [RunResult.Expect]: [None] is [nil], otherwise the message of the
    error. *)
Definition Expect (r : RunResult) (want : Kind) : option string :=
  match kind r, want with
  | Check, Check | Audit, Audit => None
  | _, _ =>
      Some ("run " +:+ ID r +:+ " is a " +:+ kind_string (kind r)
            +:+ " run, not a " +:+ kind_string want +:+ " run")
  end.

(** What follows the last slash of a path: its last element. *)
Definition last_element (p : string) : string :=
  from (Z.to_nat (LastIndexByte p "/" + 1)) p.

Section Queries.
(** [fmt.Sprintf("%.1f", x)] is outside the repository. *)
Variable format_percent : Q → string.

(** [toDiagnostics]: one diagnostic per finding, list after list. *)
Definition toDiagnostics (r : RunResult) : list Diagnostic :=
  map (λ f, {| Source := "format"; Package := fi_Package f; File := fi_File f;
               Line := 0; Col := 0; Symbol := ""; Detail := "";
               Message := fi_Message f; Output := "" |}) (FormatIssues r)
  ++ map (λ b, {| Source := "build"; Package := be_Package b; File := be_File b;
                  Line := be_Line b; Col := be_Col b; Symbol := ""; Detail := "";
                  Message := be_Message b; Output := "" |}) (BuildErrors r)
  ++ map (λ t, {| Source := "test"; Package := tf_Package t; File := tf_File t;
                  Line := tf_Line t; Col := 0; Symbol := tf_Test t; Detail := "";
                  Message := tf_Message t; Output := tf_Output t |})
       (TestFailures r)
  ++ map (λ l, {| Source := "lint"; Package := li_Package l; File := li_File l;
                  Line := li_Line l; Col := li_Col l; Symbol := "";
                  Detail := li_Linter l; Message := li_Message l;
                  Output := "" |}) (LintIssues r)
  ++ map (λ s, {| Source := "staticcheck"; Package := si_Package s;
                  File := si_File s; Line := si_Line s; Col := si_Col s;
                  Symbol := ""; Detail := si_Code s; Message := si_Message s;
                  Output := "" |}) (StaticIssues r)
  ++ map (λ c, {| Source := "coverage"; Package := ce_Package c;
                  File := ce_File c; Line := 0; Col := 0;
                  Symbol := ce_Function c; Detail := "";
                  Message := format_percent (ce_Coverage c) +:+ "% coverage";
                  Output := "" |}) (Coverage r)
  ++ map (λ c, {| Source := "complexity"; Package := cx_Package c;
                  File := cx_File c; Line := cx_Line c; Col := 0;
                  Symbol := cx_Function c; Detail := "";
                  Message := "cognitive complexity " +:+ Itoa (cx_Complexity c);
                  Output := "" |}) (Complexity r)
  ++ map (λ d, {| Source := "deadcode"; Package := df_Package d;
                  File := df_File d; Line := df_Line d; Col := 0;
                  Symbol := df_Function d; Detail := "";
                  Message := "unreachable function"; Output := "" |})
       (DeadFuncs r)
  ++ map (λ d, {| Source := "dupl"; Package := ""; File := du_File1 d;
                  Line := du_StartLine1 d; Col := 0; Symbol := ""; Detail := "";
                  Message := "duplicate of " +:+ du_File2 d +:+ ":"
                             +:+ Itoa (du_StartLine2 d) +:+ "-"
                             +:+ Itoa (du_EndLine2 d) +:+ " ("
                             +:+ Itoa (du_Tokens d) +:+ " tokens)";
                  Output := "" |}) (Duplicates r)
  ++ map (λ v, {| Source := "vulncheck"; Package := vu_AffectedPackage v;
                  File := ""; Line := 0; Col := 0; Symbol := "";
                  Detail := vu_ID v;
                  Message :=
                    if negb (String.eqb (vu_FixedVersion v) "")
                    then vu_Summary v +:+ " (fixed in " +:+ vu_FixedVersion v
                         +:+ ")"
                    else vu_Summary v;
                  Output := "" |}) (Vulns r).

(** [ByPackage]. *)
Definition ByPackage (result : RunResult) (pkg : string) : list Diagnostic :=
  List.filter (λ d, String.eqb (Package d) pkg) (toDiagnostics result).

(** [BySymbol]. *)
Definition BySymbol (result : RunResult) (sym : string) : list Diagnostic :=
  let '(pkg, name) := splitSymbol sym in
  if String.eqb name "" then ByPackage result pkg
  else
    List.filter (λ d, String.eqb (Package d) pkg && String.eqb (Symbol d) name)
      (toDiagnostics result).

End Queries.

End Diagnostics.

(** ** Sequences of operations on the result store *)

Module StoreOps.
Import Report.

(** A call of [LRUStore.Save] or of [LRUStore.Load]. *)
Inductive op :=
| DoSave (result : RunResult)
| DoLoad (runID : string).

Section Runs.
Variable json_Marshal : RunResult → option string.
Variable json_Unmarshal : string → option RunResult.

(** The store after one call, its answer dropped. *)
Definition step (s : LRUStore) (o : op) : LRUStore :=
  match o with
  | DoSave result => snd (Save json_Marshal s result)
  | DoLoad runID => snd (Load json_Unmarshal s runID)
  end.

(** The store after a list of calls, in order. *)
Definition run (s : LRUStore) (ops : list op) : LRUStore :=
  fold_left step ops s.

End Runs.

End StoreOps.

(** ** [internal/workflow]: the adapters of the other tools

    [Engine.Check] and [Engine.Audit] above take these adapters as given.
    Here are the ones that read text: [truncateLines], [parseDuplOutput] and
    [groupToDuplicates], [parseGovulncheckOutput], [parseStaticcheckOutput]
    and [FormatComplexitySummary]. *)

Module Adapters.
Import Strings Workflow.

(** *** [truncateLines] *)

(** [const maxFailureLines = 20]. *)
Definition maxFailureLines : Z := 20.

(** [truncateLines]; [None] is the panic of [lines[:maxLines]] for a
    negative [maxLines]. *)
Definition truncateLines (s : string) (maxLines : Z) : option string :=
  let lines := Split (TrimRightNewlines s) newline in
  if Z.of_nat (length lines) <=? maxLines then Some (Join lines nl)
  else if maxLines <? 0 then None
  else
    let result := Join (take (Z.to_nat maxLines) lines) nl in
    Some (result +:+ nl +:+ "... ("
          +:+ Itoa (Z.of_nat (length lines) - maxLines) +:+ " more lines)").

(** *** [parseDuplOutput] *)

(** [strconv.Atoi] on a string of decimal digits, its error dropped, as in
    [start, _ := strconv.Atoi(m[2])]: the number the digits write, or the
    largest [int] when that is exceeded. *)
Definition atoi_digits (s : string) : Z :=
  Z.min (digits_value s) (2 ^ 63 - 1).

(** [type duplEntry struct]. *)
Record duplEntry := {
  de_File : string;
  StartLine : Z;
  EndLine : Z
}.

(** [duplLine.FindStringSubmatch(line)] for [^(.+):(\d+)-(\d+)$].  What
    follows the colon of the pattern holds no colon, so that colon is the
    last one of the line; digits, a hyphen and digits follow it, and
    something without a line feed precedes it. *)
Definition match_dupl (line : string) : option (string * (string * string)) :=
  let colon := LastIndexByte line ":" in
  if colon <? 1 then None
  else
    let file := upto (Z.to_nat colon) line in
    let '(first, rest) := span is_digit (from (Z.to_nat (colon + 1)) line) in
    if 0 <=? IndexByte file newline then None
    else if String.eqb first "" then None
    else match rest with
         | String "-" rest =>
             let '(last, rest) := span is_digit rest in
             if String.eqb last "" then None
             else if String.eqb rest "" then Some (file, (first, last))
             else None
         | _ => None
         end.

(** [groupToDuplicates]; [None] is the panic of [group[0]] on an empty
    group. *)
Definition groupToDuplicates (group : list duplEntry) (tokens : Z)
  : option (list Report.Duplicate) :=
  match group with
  | [] => None
  | first :: others =>
      Some (map (λ other,
                   {| Report.du_File1 := de_File first;
                      Report.du_StartLine1 := StartLine first;
                      Report.du_EndLine1 := EndLine first;
                      Report.du_File2 := de_File other;
                      Report.du_StartLine2 := StartLine other;
                      Report.du_EndLine2 := EndLine other;
                      Report.du_Tokens := tokens |}) others)
  end.

(** [if len(group) >= 2 { duplicates = append(duplicates, ...) }]. *)
Definition flush (group : list duplEntry) (threshold : Z)
    (duplicates : list Report.Duplicate) : list Report.Duplicate :=
  if (2 <=? length group)%nat then
    match groupToDuplicates group threshold with
    | Some pairs => duplicates ++ pairs
    | None => duplicates
    end
  else duplicates.

(** The body of the loop of [parseDuplOutput]: the group being read and the
    duplicates found, after one more line. *)
Definition dupl_line (threshold : Z)
    (st : list duplEntry * list Report.Duplicate) (line : string)
  : list duplEntry * list Report.Duplicate :=
  let '(group, duplicates) := st in
  let line := TrimSpace line in
  if String.eqb line "" then ([], flush group threshold duplicates)
  else match match_dupl line with
       | None => (group, duplicates)
       | Some (file, (first, last)) =>
           (group ++ [{| de_File := file; StartLine := atoi_digits first;
                         EndLine := atoi_digits last |}], duplicates)
       end.

Definition parseDuplOutput (data : string) (threshold : Z)
  : list Report.Duplicate :=
  let '(group, duplicates) :=
    fold_left (dupl_line threshold) (Split data newline) ([], []) in
  flush group threshold duplicates.

(** *** [parseGovulncheckOutput] *)

Record govulncheckTraceEntry := {
  te_Module : string;
  te_Package : string;
  te_Function : string
}.

Record govulncheckFinding := {
  f_OSV : string;
  f_FixedVersion : string;
  Trace : list govulncheckTraceEntry
}.

Record govulncheckOSV := {
  osv_ID : string;
  osv_Summary : string
}.

(** [type govulncheckMessage struct]: both fields are pointers. *)
Record govulncheckMessage := {
  Finding : option govulncheckFinding;
  OSV : option govulncheckOSV
}.

(** The loop over the trace of a finding, on the vulnerability [v] points
    to. *)
Definition trace_step (v : Report.Vuln) (t : govulncheckTraceEntry)
  : Report.Vuln :=
  let pkg :=
    if negb (String.eqb (te_Package t) "")
       && String.eqb (Report.vu_AffectedPackage v) ""
    then te_Package t else Report.vu_AffectedPackage v in
  let symbols :=
    if negb (String.eqb (te_Function t) "")
    then Report.vu_Symbols v ++ [te_Function t] else Report.vu_Symbols v in
  {| Report.vu_ID := Report.vu_ID v; Report.vu_Summary := Report.vu_Summary v;
     Report.vu_AffectedPackage := pkg;
     Report.vu_FixedVersion := Report.vu_FixedVersion v;
     Report.vu_Symbols := symbols |}.

(** The body of the loop over the findings.  [seen] maps an identifier to
    the vulnerability its pointer leads to, [vulns] holds the copies. *)
Definition finding_step (osvSummaries : gmap string string)
    (st : gmap string Report.Vuln * list Report.Vuln) (f : govulncheckFinding)
  : gmap string Report.Vuln * list Report.Vuln :=
  let '(seen, vulns) := st in
  let '(v, vulns) :=
    match seen !! f_OSV f with
    | Some v => (v, vulns)
    | None =>
        let v := {| Report.vu_ID := f_OSV f;
                    Report.vu_Summary := default "" (osvSummaries !! f_OSV f);
                    Report.vu_AffectedPackage := "";
                    Report.vu_FixedVersion := f_FixedVersion f;
                    Report.vu_Symbols := [] |} in
        (v, vulns ++ [v])
    end in
  let v := fold_left trace_step (Trace f) v in
  (<[f_OSV f := v]> seen,
   map (λ x, if String.eqb (Report.vu_ID x) (f_OSV f) then v else x) vulns).

Section Vulncheck.
(** [json.Unmarshal] into a [govulncheckMessage]; [None] is an error. *)
Variable decode : string → option govulncheckMessage.

(** The body of the loop over the lines: the summaries and the findings
    read so far. *)
Definition message_line
    (st : gmap string string * list govulncheckFinding) (line : string)
  : gmap string string * list govulncheckFinding :=
  let '(osvSummaries, findings) := st in
  let line := TrimSpace line in
  if String.eqb line "" then st
  else match decode line with
       | None => st
       | Some msg =>
           let osvSummaries :=
             match OSV msg with
             | Some o => <[osv_ID o := osv_Summary o]> osvSummaries
             | None => osvSummaries
             end in
           let findings :=
             match Finding msg with
             | Some f => findings ++ [f]
             | None => findings
             end in
           (osvSummaries, findings)
       end.

Definition parseGovulncheckOutput (data : string) : list Report.Vuln :=
  let '(osvSummaries, findings) :=
    fold_left message_line (Split data newline) (∅, []) in
  snd (fold_left (finding_step osvSummaries) findings (∅, [])).

(** The findings and the summaries the first loop collects. *)
Definition findings_of (data : string) : list govulncheckFinding :=
  snd (fold_left message_line (Split data newline) (∅, [])).

Definition summaries_of (data : string) : gmap string string :=
  fst (fold_left message_line (Split data newline) (∅, [])).

End Vulncheck.

(** The functions a finding's trace names, in order. *)
Definition called (f : govulncheckFinding) : list string :=
  List.filter (λ name, negb (String.eqb name "")) (map te_Function (Trace f)).

(** The functions named by the findings about one vulnerability. *)
Definition symbols_of (id : string) (findings : list govulncheckFinding)
  : list string :=
  flat_map (λ f, if String.eqb (f_OSV f) id then called f else []) findings.

(** What holds of [seen] and [vulns] after the findings [done]. *)
Record vulns_ok (osvSummaries : gmap string string)
    (done : list govulncheckFinding)
    (st : gmap string Report.Vuln * list Report.Vuln) : Prop := {
  vo_nodup : NoDup (map Report.vu_ID (snd st));
  vo_ids : ∀ id, id ∈ map Report.vu_ID (snd st) ↔ id ∈ map f_OSV done;
  vo_seen : ∀ id, is_Some (fst st !! id) ↔ id ∈ map Report.vu_ID (snd st);
  vo_same : ∀ x, x ∈ snd st → fst st !! Report.vu_ID x = Some x;
  vo_symbols : ∀ x, x ∈ snd st →
               Report.vu_Symbols x = symbols_of (Report.vu_ID x) done;
  vo_summary : ∀ x, x ∈ snd st →
               Report.vu_Summary x
               = default "" (osvSummaries !! Report.vu_ID x)
}.

(** *** [parseStaticcheckOutput] *)

Record staticcheckLocation := {
  loc_File : string;
  loc_Line : Z;
  loc_Column : Z
}.

Record staticcheckEvent := {
  Code : string;
  Severity : string;
  sc_Message : string;
  Location : staticcheckLocation;
  End_ : staticcheckLocation
}.

Section Staticcheck.
(** [json.Unmarshal] into a [staticcheckEvent]; [None] is an error. *)
Variable decode : string → option staticcheckEvent.

Definition staticcheck_line (issues : list Report.StaticIssue) (line : string)
  : list Report.StaticIssue :=
  let line := TrimSpace line in
  if String.eqb line "" then issues
  else match decode line with
       | None => issues
       | Some ev =>
           if String.eqb (Code ev) "" then issues
           else
             let pkg := derivePackageFromFile (loc_File (Location ev)) in
             issues ++ [{| Report.si_Package := pkg;
                           Report.si_File := loc_File (Location ev);
                           Report.si_Line := loc_Line (Location ev);
                           Report.si_Col := loc_Column (Location ev);
                           Report.si_EndLine := loc_Line (End_ ev);
                           Report.si_EndCol := loc_Column (End_ ev);
                           Report.si_Code := Code ev;
                           Report.si_Severity := Severity ev;
                           Report.si_Message := sc_Message ev |}]
       end.

Definition parseStaticcheckOutput (data : string) : StaticcheckResult :=
  {| sc_Issues := fold_left staticcheck_line (Split data newline) [] |}.

End Staticcheck.

(** *** [FormatComplexitySummary] *)

(** The loop that finds the entry reported as the highest. *)
Definition highest_of (first : Report.ComplexityEntry)
    (rest : list Report.ComplexityEntry) : Report.ComplexityEntry :=
  fold_left
    (λ highest e,
       if Report.cx_Complexity highest <? Report.cx_Complexity e then e
       else highest)
    rest first.

(** The table of buckets: label, lower and upper bound. *)
Definition buckets : list (string * (Z * Z)) :=
  [("1-5", (1, 5)); ("6-10", (6, 10)); ("11-15", (11, 15));
   ("16+", (16, 2 ^ 31 - 1))].

(** The inner loop: the entries of a bucket. *)
Definition bucket_count (min max : Z) (entries : list Report.ComplexityEntry)
  : Z :=
  Z.of_nat
    (length
       (List.filter
          (λ e, (min <=? Report.cx_Complexity e)
                && (Report.cx_Complexity e <=? max)) entries)).

(** The loop over the buckets, from bucket [i] on. *)
Fixpoint distribution (i : nat) (bs : list (string * (Z * Z)))
    (entries : list Report.ComplexityEntry) (b : string) : string :=
  match bs with
  | [] => b
  | (label, (min, max)) :: rest =>
      let count := bucket_count min max entries in
      let b := if (0 <? i)%nat then b +:+ "," else b in
      distribution (S i) rest entries
        (b +:+ " " +:+ Itoa count +:+ " (" +:+ label +:+ ")")
  end.

Definition FormatComplexitySummary (entries : list Report.ComplexityEntry)
  : string :=
  let b := "  Functions analysed: " +:+ Itoa (Z.of_nat (length entries)) +:+ nl in
  match entries with
  | [] => b
  | first :: rest =>
      let highest := highest_of first rest in
      let b := b +:+ "  Highest: " +:+ Report.cx_Package highest +:+ "."
                 +:+ Report.cx_Function highest +:+ " ("
                 +:+ Itoa (Report.cx_Complexity highest) +:+ ")" +:+ nl in
      let b := b +:+ "  Distribution:" in
      distribution 0 buckets entries b +:+ nl
  end.

(** *** Invariants of the loop of [parseTestOutput]

    What holds of the local variables of [parseTestOutput] after any number
    of lines. *)
Record parser_ok (s : parser) : Prop := {
  ok_total : p_Total s = p_Passed s + p_Failed s + p_Skipped s;
  ok_passed : 0 ≤ p_Passed s;
  ok_failed : 0 ≤ p_Failed s;
  ok_skipped : 0 ≤ p_Skipped s;
  ok_status : p_Status s = "PASS" ∨ p_Status s = "FAIL";
  ok_pass : p_Status s = "PASS" →
            p_Failed s = 0 ∧ failedTests s = ∅ ∧ failedBuilds s = ∅;
  ok_tests : Z.of_nat (size (failedTests s)) ≤ p_Failed s;
  ok_named : ∀ key, key ∈ failedTests s → snd key ≠ "";
  ok_builds : ∀ ip, ip ∈ failedBuilds s → ip ≠ ""
}.

End Adapters.

(** ** Sample inputs

    Concrete runners, commands, tool environments and stores, on which the
    definitions above are run in the examples at the end. *)

Module Samples.
Import Strings.

(** *** A runner and the commands of a machine *)

(** A runner on the workspace [/project], with a timeout of 100 ms and a cap
    of 100 bytes per stream. *)
Definition runner : Runner.Runner :=
  {| Runner.Workspace := "/project";
     Runner.Timeout := 100000000;
     Runner.MaxOutput := 100 |}.

(** [flood] writes 200 bytes to its standard output, in two chunks, and a
    warning to its standard error, and exits with code 0 after 3 ms. *)
Definition flood : Runner.program :=
  Runner.Runs
    [ {| Runner.at_time := 1000000; Runner.to := Runner.ToStdout;
         Runner.data := Repeat "x" 150 |};
      {| Runner.at_time := 2000000; Runner.to := Runner.ToStderr;
         Runner.data := "warning" |};
      {| Runner.at_time := 2500000; Runner.to := Runner.ToStdout;
         Runner.data := Repeat "y" 50 |} ]
    3000000 0.

(** [slow] writes ["partial"] after 1 ms, would write ["done"] after 10 s and
    exit with code 0 just after. *)
Definition slow_events : list Runner.write_event :=
  [ {| Runner.at_time := 1000000; Runner.to := Runner.ToStdout;
       Runner.data := "partial" |};
    {| Runner.at_time := 10000000000; Runner.to := Runner.ToStdout;
       Runner.data := "done" |} ].

Definition slow : Runner.program := Runner.Runs slow_events 10000000001 0.

(** A machine that has these two commands and no other, and that takes
    0.2 ms to reach the start of a command. *)
Definition machine : Runner.system :=
  {| Runner.lookup := λ argv _,
       match argv with
       | cmd :: _ =>
           if String.eqb cmd "flood" then flood
           else if String.eqb cmd "slow" then slow
           else Runner.CannotStart "executable file not found in $PATH"
       | [] => Runner.CannotStart "no command"
       end;
     Runner.new_uuid := "6f1c2a0e-0000-4000-8000-000000000001";
     Runner.start_delay := 200000 |}.

(** A runner on the same workspace whose timeout, 0.1 ms, is over before the
    machine reaches the start of a command. *)
Definition hasty : Runner.Runner :=
  {| Runner.Workspace := "/project";
     Runner.Timeout := 100000;
     Runner.MaxOutput := 100 |}.

(** The one command a successful call hands to the operating system. *)
Definition started (argv : list string) : list Runner.spawn :=
  [{| Runner.spawn_argv := argv; Runner.spawn_dir := "/project" |}].

(** What [Run] gives for [flood]. *)
Definition flood_result : Runner.Result :=
  {| Runner.RunID := Runner.new_uuid machine;
     Runner.ExitCode := 0;
     Runner.Stdout := Repeat "x" 100;
     Runner.Stderr := "warning";
     Runner.Truncated := true |}.

(** What [Run] gives for [slow]: the child is killed at the deadline. *)
Definition slow_result : Runner.Result :=
  {| Runner.RunID := Runner.new_uuid machine;
     Runner.ExitCode := -1;
     Runner.Stdout := "partial";
     Runner.Stderr := "";
     Runner.Truncated := false |}.

(** *** A reader of test events

    The lines of [go test -json] used in the examples are objects whose
    members are strings without escapes, with no space between the tokens.
    On such a line [json.Unmarshal] fills the fields named by the keys and
    leaves the others empty; the reader below does the same, and refuses
    every other line. *)

Definition is_quote (a : ascii) : bool := Ascii.eqb a "034"%char.

(** The text up to the closing quote, and what follows the quote. *)
Fixpoint read_string (s : string) : option (string * string) :=
  match s with
  | EmptyString => None
  | String a rest =>
      if is_quote a then Some ("", rest)
      else if Ascii.eqb a "\"%char then None
      else match read_string rest with
           | Some (v, r) => Some (String a v, r)
           | None => None
           end
  end.

Definition empty_event : Workflow.test2jsonEvent :=
  {| Workflow.ev_Action := ""; Workflow.ev_Package := "";
     Workflow.ev_Test := ""; Workflow.ev_Output := "";
     Workflow.ev_ImportPath := "" |}.

Definition set_field (key val : string) (ev : Workflow.test2jsonEvent)
  : Workflow.test2jsonEvent :=
  let pick name old := if String.eqb key name then val else old in
  {| Workflow.ev_Action := pick "Action" (Workflow.ev_Action ev);
     Workflow.ev_Package := pick "Package" (Workflow.ev_Package ev);
     Workflow.ev_Test := pick "Test" (Workflow.ev_Test ev);
     Workflow.ev_Output := pick "Output" (Workflow.ev_Output ev);
     Workflow.ev_ImportPath := pick "ImportPath" (Workflow.ev_ImportPath ev) |}.

(** The members of an object, from just after its brace or a comma. *)
Fixpoint read_members (fuel : nat) (s : string) (ev : Workflow.test2jsonEvent)
  : option Workflow.test2jsonEvent :=
  match fuel, s with
  | S fuel, String a rest =>
      if is_quote a then
        match read_string rest with
        | Some (key, String ":" (String b rest')) =>
            if is_quote b then
              match read_string rest' with
              | Some (val, String "}" EmptyString) => Some (set_field key val ev)
              | Some (val, String "," more) =>
                  read_members fuel more (set_field key val ev)
              | _ => None
              end
            else None
        | _ => None
        end
      else None
  | _, _ => None
  end.

Definition decode (line : string) : option Workflow.test2jsonEvent :=
  match line with
  | String "{" (String "}" EmptyString) => Some empty_event
  | String "{" rest => read_members (String.length rest) rest empty_event
  | _ => None
  end.

(** One member of an object, as text. *)
Definition member (key val : string) : string :=
  quote +:+ key +:+ quote +:+ ":" +:+ quote +:+ val +:+ quote.

(** The event [go test -json] never prints for a test or a package: a
    ["fail"] that names neither. *)
Definition fail_line : string := "{" +:+ member "Action" "fail" +:+ "}".

(** The failure of a package, and the failure of a test. *)
Definition package_fail_line : string :=
  "{" +:+ member "Action" "fail" +:+ "," +:+ member "Package" "example.com/m"
      +:+ "}".

Definition test_fail_line : string :=
  "{" +:+ member "Action" "fail" +:+ "," +:+ member "Package" "example.com/m"
      +:+ "," +:+ member "Test" "TestAdd" +:+ "}".

(** *** A coverage listing with a percentage above 100 *)

Definition cover_listing : string :=
  "example.com/m/f.go:12:" +:+ tab +:+ "Add" +:+ tab +:+ "150.0%".

(** *** A machine with the Go toolchain and no other tool

    Every command runs and prints nothing; [ResolveTool] finds no tool.  The
    adapters of the tools are never reached; they report no finding. *)
Definition go_only : Workflow.externals unit :=
  {| Workflow.Runner_Run := λ _ _ w,
       (inl {| Runner.RunID := "run"; Runner.ExitCode := 0;
               Runner.Stdout := ""; Runner.Stderr := "";
               Runner.Truncated := false |}, w);
     Workflow.ResolveTool := λ _ w, (None, w);
     Workflow.CreateTemp := λ w, (inl "/tmp/governor-cover-1.out", w);
     Workflow.Remove := λ _ w, (tt, w);
     Workflow.uuid_New := λ w, ("6f1c2a0e-0000-4000-8000-000000000002", w);
     Workflow.decode_event := decode;
     Workflow.parseLintOutput := λ _ _, {| Workflow.ls_Issues := [] |};
     Workflow.parseStaticcheckOutput := λ _, {| Workflow.sc_Issues := [] |};
     Workflow.parseGocognitOutput := λ _, [];
     Workflow.parseDeadcodeOutput := λ _, [];
     Workflow.parseDuplOutput := λ _ _, [];
     Workflow.parseGovulncheckOutput := λ _, [];
     Workflow.TestSummary_String := λ _, "";
     Workflow.LintSummary_String := λ _, "";
     Workflow.StaticcheckResult_String := λ _, "";
     Workflow.FormatCoverageSummary := λ _, "";
     Workflow.FormatComplexitySummary := λ _, "";
     Workflow.FormatDeadcodeSummary := λ _, "";
     Workflow.FormatDuplSummary := λ _, "";
     Workflow.FormatVulncheckSummary := λ _, "" |}.

(** An engine with the default configuration. *)
Definition engine : Workflow.Engine :=
  {| Workflow.Config := Config.zero;
     Workflow.Workspace := "/project";
     Workflow.RepoRoot := "/project" |}.

(** *** A store

    A codec that keeps the kind and the identifier of a result: enough to
    run the store, and it reads back what it wrote. *)
Definition marshal (r : Report.RunResult) : option string :=
  Some (match Report.kind r with
        | Report.Check => "check:"
        | Report.Audit => "audit:"
        end +:+ Report.ID r).

Definition unmarshal (data : string) : option Report.RunResult :=
  if HasPrefix data "check:" then
    Some (Report.newRunResult (from 6 data) Report.Check)
  else if HasPrefix data "audit:" then
    Some (Report.newRunResult (from 6 data) Report.Audit)
  else None.

(** An empty file system where every write succeeds. *)
Definition disk : Report.filesystem :=
  {| Report.files := ∅;
     Report.writable := λ _, true;
     Report.mkdir_temp := Some "/tmp/governor-runs-1" |}.

(** Three results, saved in this order to a store that caches two. *)
Definition runs : list Report.RunResult :=
  [ Report.newRunResult "run-a" Report.Check;
    Report.newRunResult "run-b" Report.Audit;
    Report.newRunResult "run-c" Report.Check ].

Definition saved : list (option Report.store_error) * Report.LRUStore :=
  Report.save_all marshal
    (Report.NewLRUStore 2 (Report.NewDiskStore disk)) runs.

End Samples.

(** ** [internal/config]: finding the repository root and loading [.governor] *)

Module Loader.
Import Strings.

(** [filepath.Dir] on Unix: the path up to and including its last separator,
    cleaned. *)
Definition Dir (path : string) : string :=
  Filepath.Clean
    (upto (Z.to_nat (LastIndexByte path Filepath.Separator + 1)) path).

(** [filepath.Abs] on Unix; [getwd] is what [os.Getwd] returns, a directory
    or an error. *)
Definition Abs (getwd : string + string) (path : string) : string + string :=
  if Filepath.IsAbs path then inl (Filepath.Clean path)
  else
    match getwd with
    | inr err => inr err
    | inl wd => inl (Filepath.Join [wd; path])
    end.

(** What [os.ReadFile] returns: an error for which [os.IsNotExist] holds,
    another error, or the contents. *)
Inductive read_result :=
| NotExist
| ReadError (msg : string)
| Data (data : string).

(** The file system as [Load] sees it: the working directory, whether
    [os.Stat] succeeds on a path, and [os.ReadFile]. *)
Record files := {
  Getwd : string + string;
  Stat : string → bool;
  ReadFile : string → read_result
}.

(** [type LoadResult struct]. *)
Record LoadResult := {
  Config : Config.Config;
  RepoRoot : string
}.

Section Load.
Variable fs : files.
(** [yaml.Unmarshal(data, cfg)] on a fresh [Config]. *)
Variable yaml_Unmarshal : string → Config.Config + string.

(** The loop of [findRepoRoot], at most [fuel] turns; [None] when the turns
    are used up. *)
Fixpoint walk_up (fuel : nat) (dir : string) : option (string + string) :=
  match fuel with
  | O => None
  | S fuel =>
      if Stat fs (Filepath.Join [dir; "go.mod"]) then Some (inl dir)
      else
        let parent := Dir dir in
        if String.eqb parent dir then Some (inr "go.mod not found")
        else walk_up fuel parent
  end.

(** [findRepoRoot].  Every turn of the loop but the last shortens [dir], so
    one turn more than its length is enough. *)
Definition findRepoRoot (dir : string) : option (string + string) :=
  match Abs (Getwd fs) dir with
  | inr err => Some (inr err)
  | inl dir => walk_up (S (String.length dir)) dir
  end.

(** [Load]. *)
Definition Load (workspace : string) : option (LoadResult + string) :=
  match findRepoRoot workspace with
  | None => None
  | Some found =>
      let root := match found with inl root => root | inr _ => workspace end in
      let path := Filepath.Join [root; ".governor"] in
      match ReadFile fs path with
      | NotExist => Some (inl {| Config := Config.zero; RepoRoot := root |})
      | ReadError msg => Some (inr ("reading .governor: " +:+ msg))
      | Data data =>
          match yaml_Unmarshal data with
          | inr msg => Some (inr ("parsing .governor: " +:+ msg))
          | inl cfg => Some (inl {| Config := cfg; RepoRoot := root |})
          end
      end
  end.

End Load.

(** The absolute path with the given elements. *)
Definition rooted (elems : list string) : string :=
  String "/" (Strings.Join elems "/").

End Loader.

(** ** What a step of [Check] adds to the report *)

Module Findings.
Import Strings.

(** A lint issue, a test failure and a build error as [Check] writes them:
    the lint issue without a package, the test failure and the build error
    without a position, the message of the test failure being the first line
    of its output. *)
Definition lint_written (l : Report.LintIssue) : Prop :=
  Report.li_Package l = "".

Definition test_written (t : Report.TestFailure) : Prop :=
  Report.tf_File t = "" ∧ Report.tf_Line t = 0
  ∧ Report.tf_Message t = Workflow.FirstLine (Report.tf_Output t).

Definition build_written (b : Report.BuildError) : Prop :=
  Report.be_File b = "" ∧ Report.be_Line b = 0 ∧ Report.be_Col b = 0.

(** The report [rr'] is [rr] with findings of the step named [step] only:
    build errors and test failures for ["test"], lint issues for ["lint"],
    static issues for ["staticcheck"], nothing for another name. *)
Definition added_by (step : string) (rr rr' : Report.RunResult) : Prop :=
  (step = "test"
   ∨ (Report.BuildErrors rr' = Report.BuildErrors rr
      ∧ Report.TestFailures rr' = Report.TestFailures rr))
  ∧ (step = "lint" ∨ Report.LintIssues rr' = Report.LintIssues rr)
  ∧ (step = "staticcheck" ∨ Report.StaticIssues rr' = Report.StaticIssues rr)
  ∧ (∃ extra, Report.LintIssues rr' = Report.LintIssues rr ++ extra
              ∧ Forall lint_written extra)
  ∧ (∃ extra, Report.TestFailures rr' = Report.TestFailures rr ++ extra
              ∧ Forall test_written extra)
  ∧ (∃ extra, Report.BuildErrors rr' = Report.BuildErrors rr ++ extra
              ∧ Forall build_written extra).

End Findings.

(** ** More sample inputs *)

Module MoreSamples.
Import Strings.

(** A check run with one failed test of the package [example.com/calc]. *)
Definition failed_run : Report.RunResult :=
  {| Report.ID := "run-test"; Report.kind := Report.Check;
     Report.AutoFixes := 0; Report.FormatIssues := [];
     Report.BuildErrors := [];
     Report.TestFailures :=
       [{| Report.tf_Package := "example.com/calc"; Report.tf_Test := "TestAdd";
           Report.tf_File := ""; Report.tf_Line := 0;
           Report.tf_Message := "calc_test.go:12: got 3, want 4";
           Report.tf_Output := "calc_test.go:12: got 3, want 4" |}];
     Report.LintIssues := []; Report.StaticIssues := []; Report.Coverage := [];
     Report.Complexity := []; Report.DeadFuncs := []; Report.Duplicates := [];
     Report.Vulns := [] |}.

(** A formatter of whole percentages. *)
Definition whole_percent (q : Q) : string :=
  Itoa (Qnum q / Z.pos (Qden q)) +:+ ".0".

(** Four lines of text, closed by two line feeds. *)
Definition four_lines : string :=
  "first" +:+ nl +:+ "second" +:+ nl +:+ "third" +:+ nl +:+ "fourth"
  +:+ nl +:+ nl.

(** Two groups of a listing of dupl: three clones, then a single line. *)
Definition clone_groups : list (list string * list Adapters.duplEntry) :=
  [ (["a.go:1-5"; "b.go:10-14"; "c.go:20-24"],
     [ {| Adapters.de_File := "a.go"; Adapters.StartLine := 1;
          Adapters.EndLine := 5 |};
       {| Adapters.de_File := "b.go"; Adapters.StartLine := 10;
          Adapters.EndLine := 14 |};
       {| Adapters.de_File := "c.go"; Adapters.StartLine := 20;
          Adapters.EndLine := 24 |} ]);
    (["d.go:3-4"],
     [ {| Adapters.de_File := "d.go"; Adapters.StartLine := 3;
          Adapters.EndLine := 4 |} ]) ].

(** A file system whose only [go.mod] is in [/home/dev/governor], without a
    [.governor] file. *)
Definition tree : Loader.files :=
  {| Loader.Getwd := inl "/home/dev/governor";
     Loader.Stat := λ path, String.eqb path "/home/dev/governor/go.mod";
     Loader.ReadFile := λ _, Loader.NotExist |}.

(** A parser that accepts nothing. *)
Definition no_yaml (data : string) : Config.Config + string :=
  inr "yaml: not supported".

(** A machine that keeps the list of the commands it ran.  It has every
    tool but golangci-lint; its [go test -coverprofile] fails with exit code
    1, every other command succeeds and prints nothing. *)
Definition logged : Workflow.externals (list (list string)) :=
  {| Workflow.Runner_Run := λ argv _ w,
       (inl {| Runner.RunID := "run";
               Runner.ExitCode :=
                 match argv with
                 | _ :: _ :: flag :: _ =>
                     if String.eqb flag "-coverprofile" then 1 else 0
                 | _ => 0
                 end;
               Runner.Stdout := ""; Runner.Stderr := "no test files";
               Runner.Truncated := false |}, w ++ [argv]);
     Workflow.ResolveTool := λ name w,
       (if String.eqb name "golangci-lint" then None else Some [name], w);
     Workflow.CreateTemp := λ w, (inl "/tmp/governor-cover-1.out", w);
     Workflow.Remove := λ _ w, (tt, w);
     Workflow.uuid_New := λ w, ("6f1c2a0e-0000-4000-8000-000000000003", w);
     Workflow.decode_event := Samples.decode;
     Workflow.parseLintOutput := λ _ _, {| Workflow.ls_Issues := [] |};
     Workflow.parseStaticcheckOutput := λ _, {| Workflow.sc_Issues := [] |};
     Workflow.parseGocognitOutput := λ _, [];
     Workflow.parseDeadcodeOutput := λ _, [];
     Workflow.parseDuplOutput := λ _ _, [];
     Workflow.parseGovulncheckOutput := λ _, [];
     Workflow.TestSummary_String := λ _, "";
     Workflow.LintSummary_String := λ _, "";
     Workflow.StaticcheckResult_String := λ _, "";
     Workflow.FormatCoverageSummary := λ _, "";
     Workflow.FormatComplexitySummary := λ _, "";
     Workflow.FormatDeadcodeSummary := λ _, "";
     Workflow.FormatDuplSummary := λ _, "";
     Workflow.FormatVulncheckSummary := λ _, "" |}.

End MoreSamples.
(** ** Facts about the string functions *)

Section StringFacts.
Import Strings.

Lemma eqb_ascii_refl (a : ascii) : Ascii.eqb a a = true.
Proof. apply Ascii.eqb_refl. Qed.

Lemma app_empty_r (s : string) : s +:+ "" = s.
Proof. induction s as [|a s IH]; simpl; [reflexivity | now rewrite IH]. Qed.

Lemma app_assoc_str (a b c : string) : (a +:+ b) +:+ c = a +:+ (b +:+ c).
Proof. induction a as [|x a IH]; simpl; [reflexivity | now rewrite IH]. Qed.

Lemma app_inv_head_str (a b c : string) : a +:+ b = a +:+ c → b = c.
Proof. induction a as [|x a IH]; simpl; intros H; [exact H | inversion H; auto]. Qed.

Lemma length_app_str (a b : string) :
  String.length (a +:+ b) = (String.length a + String.length b)%nat.
Proof. induction a as [|x a IH]; simpl; [reflexivity | now rewrite IH]. Qed.

Lemma app_inv_tail_str (a b c : string) : a +:+ c = b +:+ c → a = b.
Proof.
  revert b. induction a as [|x a IH]; intros [|y b] H; simpl in *.
  - reflexivity.
  - apply (f_equal String.length) in H. simpl in H.
    rewrite length_app_str in H. lia.
  - apply (f_equal String.length) in H. simpl in H.
    rewrite length_app_str in H. lia.
  - inversion H; subst. f_equal. now apply IH.
Qed.

Lemma upto_from (n : nat) (s : string) : upto n s +:+ from n s = s.
Proof.
  revert s. induction n as [|n IH]; intros [|a s]; simpl; try reflexivity.
  now rewrite IH.
Qed.

Lemma upto_add (n m : nat) (s : string) :
  upto (n + m) s = upto n s +:+ upto m (from n s).
Proof.
  revert s. induction n as [|n IH]; intros s; simpl; [reflexivity |].
  destruct s as [|a s]; simpl.
  - now destruct m.
  - now rewrite IH.
Qed.

Lemma from_add (n m : nat) (s : string) : from (n + m) s = from m (from n s).
Proof.
  revert s. induction n as [|n IH]; intros s; simpl; [reflexivity |].
  destruct s as [|a s]; simpl; [now destruct m | apply IH].
Qed.

Lemma length_from (n : nat) (s : string) :
  String.length (from n s) = (String.length s - n)%nat.
Proof.
  revert s. induction n as [|n IH]; intros [|a s]; simpl; auto.
Qed.

Lemma from_all (s : string) : from (String.length s) s = "".
Proof. induction s; simpl; auto. Qed.

Lemma HasPrefix_app (p s : string) : HasPrefix (p +:+ s) p = true.
Proof.
  induction p as [|a p IH]; simpl; [reflexivity |].
  now rewrite eqb_ascii_refl.
Qed.

Lemma HasPrefix_spec (s p : string) :
  HasPrefix s p = true ↔ ∃ r, s = p +:+ r.
Proof.
  split.
  - revert s. induction p as [|a p IH]; intros s H; simpl in *.
    + now exists s.
    + destruct s as [|b s]; [discriminate |].
      destruct (Ascii.eqb_spec a b) as [->|]; [| discriminate].
      destruct (IH _ H) as [r ->]. now exists r.
  - intros [r ->]. apply HasPrefix_app.
Qed.

(** [IndexByte]: the result is [-1] or a position holding the byte, with no
    earlier occurrence. *)
Lemma IndexByte_range (s : string) (c : ascii) :
  -1 ≤ IndexByte s c < len s.
Proof.
  unfold len. induction s as [|a s IH]; simpl; [lia |].
  destruct (Ascii.eqb a c); [lia |].
  destruct (Z.ltb_spec (IndexByte s c) 0); lia.
Qed.

Lemma IndexByte_found (s : string) (c : ascii) :
  0 ≤ IndexByte s c →
  s = upto (Z.to_nat (IndexByte s c)) s
        +:+ String c (from (Z.to_nat (IndexByte s c + 1)) s)
  ∧ IndexByte (upto (Z.to_nat (IndexByte s c)) s) c = -1.
Proof.
  induction s as [|a s IH]; simpl; [lia |].
  destruct (Ascii.eqb_spec a c) as [->|Hne]; simpl.
  - intros _. split; reflexivity.
  - destruct (Z.ltb_spec (IndexByte s c) 0) as [Hlt|Hge]; [lia |].
    intros _. destruct (IH Hge) as [Hs Hno].
    replace (Z.to_nat (IndexByte s c + 1)) with (S (Z.to_nat (IndexByte s c))) by lia.
    replace (Z.to_nat (IndexByte s c + 1 + 1))
      with (S (Z.to_nat (IndexByte s c + 1))) by lia.
    simpl. split.
    + f_equal. exact Hs.
    + destruct (Ascii.eqb_spec a c); [contradiction |]. now rewrite Hno.
Qed.

Lemma IndexByte_absent_app (s t : string) (c : ascii) :
  IndexByte s c = -1 → IndexByte (s +:+ String c t) c = len s.
Proof.
  unfold len. induction s as [|a s IH]; simpl.
  - now rewrite eqb_ascii_refl.
  - destruct (Ascii.eqb a c); [discriminate |].
    destruct (Z.ltb_spec (IndexByte s c) 0) as [Hlt|Hge]; [| lia].
    intros _. pose proof (IndexByte_range s c).
    rewrite IH by lia.
    destruct (Z.ltb_spec (Z.of_nat (String.length s)) 0); lia.
Qed.

Lemma LastIndexByte_range (s : string) (c : ascii) :
  -1 ≤ LastIndexByte s c < len s.
Proof.
  unfold len. induction s as [|a s IH]; simpl; [lia |].
  destruct (Z.leb_spec 0 (LastIndexByte s c)); [lia |].
  destruct (Ascii.eqb a c); lia.
Qed.

End StringFacts.

(** ** The qualified-symbol splitter *)

Section SplitSymbol.
Import Strings Report.

Lemma LastIndexByte_after (s : string) (c : ascii) :
  IndexByte (from (Z.to_nat (LastIndexByte s c + 1)) s) c = -1.
Proof.
  induction s as [|a s IH]; simpl; [reflexivity |].
  pose proof (LastIndexByte_range s c) as Hr.
  destruct (Z.leb_spec 0 (LastIndexByte s c)) as [Hge|Hlt].
  - replace (Z.to_nat (LastIndexByte s c + 1 + 1))
      with (S (Z.to_nat (LastIndexByte s c + 1))) by lia.
    exact IH.
  - assert (LastIndexByte s c = -1) as Hm by lia.
    rewrite Hm in IH. simpl in IH.
    destruct (Ascii.eqb_spec a c) as [->|Hne]; simpl.
    + exact IH.
    + destruct (Ascii.eqb_spec a c); [contradiction |]. now rewrite IH.
Qed.

Lemma IndexByte_app_absent (s t : string) (c : ascii) :
  IndexByte s c = -1 → IndexByte t c = -1 → IndexByte (s +:+ t) c = -1.
Proof.
  intros Hs Ht. induction s as [|a s IH]; simpl in *; [exact Ht |].
  destruct (Ascii.eqb a c); [discriminate |].
  destruct (Z.ltb_spec (IndexByte s c) 0) as [Hlt|Hge].
  - pose proof (IndexByte_range s c). rewrite IH by lia. reflexivity.
  - lia.
Qed.

(** C6, as the code has it.  Let [after] be what follows the last slash of
    [s] (it holds no slash) and [dot] the index of the first dot in it.
    Without such a dot the package is [s] and the name is empty, so joining
    gives [s] back.  With one, the package is [s] up to that dot, the name is
    what follows it, and [s] is the package, a dot and the name: joining gives
    [s] back when the name is not empty, and gives [s] without its final dot
    when the name is empty. *)
Theorem splitSymbol_join (s : string) :
  let pkg := fst (splitSymbol s) in
  let name := snd (splitSymbol s) in
  let slash := LastIndexByte s "/" in
  let after := from (Z.to_nat (slash + 1)) s in
  let dot := IndexByte after "." in
  IndexByte after "/" = -1
  ∧ (dot < 0 → pkg = s ∧ name = "" ∧ join pkg name = s)
  ∧ (0 ≤ dot →
       s = pkg +:+ "." +:+ name
       ∧ pkg = upto (Z.to_nat (slash + 1)) s +:+ upto (Z.to_nat dot) after
       ∧ IndexByte (upto (Z.to_nat dot) after) "." = -1
       ∧ (name ≠ "" → join pkg name = s)
       ∧ (name = "" → join pkg name = pkg ∧ s = pkg +:+ ".")).
Proof.
  cbv zeta. unfold splitSymbol.
  pose proof (LastIndexByte_range s "/") as Hs.
  set (slash := LastIndexByte s "/") in *.
  set (after := from (Z.to_nat (slash + 1)) s).
  pose proof (IndexByte_range after ".") as Hd.
  set (dot := IndexByte after ".") in *.
  split; [apply LastIndexByte_after |].
  destruct (Z.ltb_spec dot 0) as [Hlt|Hge]; simpl; split; try lia.
  - intros _. repeat split.
  - intros _.
    destruct (IndexByte_found after "." Hge) as [Hafter Hfirst].
    fold dot in Hafter, Hfirst.
    assert (Hpkg : upto (Z.to_nat (slash + 1 + dot)) s
                   = upto (Z.to_nat (slash + 1)) s +:+ upto (Z.to_nat dot) after).
    { replace (Z.to_nat (slash + 1 + dot))
        with (Z.to_nat (slash + 1) + Z.to_nat dot)%nat by lia.
      apply upto_add. }
    assert (Hwhole : s = upto (Z.to_nat (slash + 1 + dot)) s +:+ "."
                           +:+ from (Z.to_nat (dot + 1)) after).
    { rewrite Hpkg, app_assoc_str. simpl. rewrite <- Hafter.
      unfold after. now rewrite upto_from. }
    repeat split; try assumption.
    + intros Hname. unfold join.
      destruct (String.eqb_spec (from (Z.to_nat (dot + 1)) after) "");
        [contradiction | now rewrite <- Hwhole].
    + unfold join. now rewrite H, String.eqb_refl.
    + rewrite H in Hwhole. exact Hwhole.
Qed.

(** C6 as stated fails on a string that ends in its first dot after the last
    slash: the name is empty and joining drops the dot. *)
Lemma splitSymbol_join_trailing_dot :
  splitSymbol "foo." = ("foo", "") ∧ join "foo" "" = "foo" ∧ join "foo" "" ≠ "foo.".
Proof. repeat split. discriminate. Qed.

End SplitSymbol.

(** ** Package resolution *)

Section ResolvePackages.
Import Strings Workflow.

Lemma resolve_one_relative (e : Engine) (acc : list string) (p : string) :
  Forall relative acc → Forall relative (resolve_one e acc p).
Proof.
  intros Hacc. unfold resolve_one.
  destruct (Filepath.IsAbs p) eqn:Hp.
  - destruct (Filepath.Rel _ p) as [rel|]; [| exact Hacc].
    destruct (HasPrefix rel ".."); [exact Hacc |].
    apply Forall_app. split; [exact Hacc |].
    constructor; [| constructor].
    destruct (negb (HasSuffix ("./" +:+ rel) "...")); reflexivity.
  - apply Forall_app. split; [exact Hacc |]. now repeat constructor.
Qed.

Lemma resolve_fold_relative (e : Engine) (ps acc : list string) :
  Forall relative acc → Forall relative (fold_left (resolve_one e) ps acc).
Proof.
  revert acc. induction ps as [|p ps IH]; intros acc Hacc; simpl; [exact Hacc |].
  apply IH. now apply resolve_one_relative.
Qed.

Lemma resolve_fold_passes (e : Engine) (ps acc : list string) :
  Forall relative ps → fold_left (resolve_one e) ps acc = acc ++ ps.
Proof.
  revert acc. induction ps as [|p ps IH]; intros acc Hps; simpl.
  - now rewrite app_nil_r.
  - inversion Hps as [|? ? Hp Hrest]; subst.
    rewrite IH by assumption. unfold resolve_one. rewrite Hp.
    now rewrite <- app_assoc.
Qed.

Lemma ResolvePackages_relative (e : Engine) (ps : list string) :
  Forall relative (ResolvePackages e ps).
Proof.
  unfold ResolvePackages.
  destruct (length ps =? 0)%nat; [now repeat constructor |].
  destruct (length (fold_left (resolve_one e) ps []) =? 0)%nat;
    [now repeat constructor |].
  apply resolve_fold_relative. constructor.
Qed.

Lemma ResolvePackages_nonempty (e : Engine) (ps : list string) :
  ResolvePackages e ps ≠ [].
Proof.
  unfold ResolvePackages.
  destruct (length ps =? 0)%nat; [discriminate |].
  destruct (fold_left (resolve_one e) ps []) eqn:E; simpl; discriminate.
Qed.

Lemma ResolvePackages_passes (e : Engine) (ps : list string) :
  ps ≠ [] → Forall relative ps → ResolvePackages e ps = ps.
Proof.
  intros Hne Hrel. unfold ResolvePackages.
  rewrite resolve_fold_passes by assumption.
  destruct ps as [|p ps]; [contradiction | reflexivity].
Qed.

(** C10: resolving an already resolved list changes nothing; every element of
    a resolved list is relative and passes through. *)
Theorem ResolvePackages_idempotent (e : Engine) (ps : list string) :
  ResolvePackages e (ResolvePackages e ps) = ResolvePackages e ps
  ∧ Forall relative (ResolvePackages e ps).
Proof.
  split; [| apply ResolvePackages_relative].
  apply ResolvePackages_passes.
  - apply ResolvePackages_nonempty.
  - apply ResolvePackages_relative.
Qed.

End ResolvePackages.

(** ** The runner: bounded output and timeouts *)

Section RunnerOutput.
Import Strings Runner.

Lemma length_upto (n : nat) (s : string) :
  (n ≤ String.length s)%nat → String.length (upto n s) = n.
Proof.
  revert s. induction n as [|n IH]; intros [|a s] H; simpl in *; try lia.
  rewrite IH; lia.
Qed.

Lemma len_app (a b : string) : len (a +:+ b) = len a + len b.
Proof. unfold len. rewrite length_app_str. lia. Qed.

Lemma len_nonneg (s : string) : 0 ≤ len s.
Proof. unfold len. lia. Qed.

(** A write reports the whole input as consumed, and no error. *)
Lemma Write_reports (w : limitWriter) (p : string) :
  snd (Write w p) = (len p, None).
Proof.
  unfold Write.
  destruct (limit w - len (buf w) <=? 0); [reflexivity |].
  destruct (limit w - len (buf w) <? len p); reflexivity.
Qed.

Lemma Write_limit (w : limitWriter) (p : string) :
  limit (fst (Write w p)) = limit w.
Proof.
  unfold Write.
  destruct (limit w - len (buf w) <=? 0); [reflexivity |].
  destruct (limit w - len (buf w) <? len p); reflexivity.
Qed.

(** A write keeps the buffer within the cap. *)
Lemma Write_bound (w : limitWriter) (p : string) :
  len (buf w) ≤ limit w → len (buf (fst (Write w p))) ≤ limit w.
Proof.
  intros Hb. unfold Write.
  destruct (Z.leb_spec (limit w - len (buf w)) 0) as [H0|H0]; [exact Hb |].
  destruct (Z.ltb_spec (limit w - len (buf w)) (len p)) as [H1|H1]; simpl.
  - rewrite len_app. unfold len at 2.
    rewrite length_upto by (unfold len in *; lia). lia.
  - rewrite len_app. lia.
Qed.

(** The copy into a bounded writer never fails, and keeps the bound. *)
Lemma copy_chunks_ok (chunks : list string) (w : limitWriter) :
  snd (copy_chunks w chunks) = None
  ∧ limit (fst (copy_chunks w chunks)) = limit w
  ∧ (len (buf w) ≤ limit w → len (buf (fst (copy_chunks w chunks))) ≤ limit w).
Proof.
  revert w. induction chunks as [|p chunks IH]; intros w; simpl.
  - auto.
  - pose proof (Write_reports w p) as Hr.
    pose proof (Write_limit w p) as Hl.
    pose proof (Write_bound w p) as Hb.
    destruct (Write w p) as [w' [n e]]. simpl in *.
    inversion Hr; subst. rewrite Z.eqb_refl.
    destruct (IH w') as (He & Hlim & Hbound).
    repeat split; [exact He | congruence |].
    intros H. rewrite <- Hl. apply Hbound. rewrite Hl. auto.
Qed.

Lemma cmd_Run_bound (p : program) (delay timeout cap : Z) :
  0 ≤ cap →
  let '(out, err, _) :=
    cmd_Run p delay timeout {| buf := ""; limit := cap |}
      {| buf := ""; limit := cap |} in
  len (buf out) ≤ cap ∧ len (buf err) ≤ cap.
Proof.
  intros Hcap. unfold cmd_Run.
  destruct p as [msg|events exit_time exit_code]; [simpl; unfold len; simpl; lia |].
  destruct ((timeout <=? 0) || ((timeout <=? exit_time) && (timeout <=? delay)));
    [simpl; unfold len; simpl; lia |].
  set (deadline := if timeout <=? exit_time then timeout else exit_time + 1).
  destruct (copy_chunks_ok (chunks_to ToStdout deadline events)
              {| buf := ""; limit := cap |}) as (_ & _ & Ho).
  destruct (copy_chunks_ok (chunks_to ToStderr deadline events)
              {| buf := ""; limit := cap |}) as (_ & _ & He).
  destruct (copy_chunks _ (chunks_to ToStdout deadline events)) as [out oe].
  destruct (copy_chunks _ (chunks_to ToStderr deadline events)) as [err ee].
  simpl in *. split; [apply Ho | apply He]; unfold len; simpl; lia.
Qed.

(** C2: a successful run returns at most [MaxOutput] bytes of each stream,
    whatever the child wrote and in whatever chunks; the truncated flag is set
    exactly when one of the two buffers reached the cap; and every write to
    the bounded writer reports its whole input as consumed, with no error, so
    that the copy from the child never fails. *)
Theorem Run_output_bounded (r : Runner) (sys : system) (argv : list string)
    (cwd : string) (res : Result) (spawned : list spawn) :
  0 ≤ MaxOutput r →
  Run r sys argv cwd = (inl res, spawned) →
  len (Stdout res) ≤ MaxOutput r
  ∧ len (Stderr res) ≤ MaxOutput r
  ∧ (Truncated res = true
     ↔ len (Stdout res) = MaxOutput r ∨ len (Stderr res) = MaxOutput r)
  ∧ (∀ w p, snd (Write w p) = (len p, None))
  ∧ (∀ w chunks, snd (copy_chunks w chunks) = None).
Proof.
  intros Hcap Hrun.
  assert (Hbounds : len (Stdout res) ≤ MaxOutput r ∧ len (Stderr res) ≤ MaxOutput r
                    ∧ Truncated res
                      = (MaxOutput r <=? len (Stdout res))
                        || (MaxOutput r <=? len (Stderr res))).
  { unfold Run in Hrun.
    destruct argv as [|argv0 rest]; [discriminate |].
    destruct (resolveDir r cwd) as [dir|e]; [| discriminate].
    pose proof (cmd_Run_bound (lookup sys (argv0 :: rest) dir) (start_delay sys)
                  (Timeout r) (MaxOutput r) Hcap) as Hb.
    destruct (cmd_Run _ _ _ _ _) as [[out err] runErr].
    destruct runErr as [[code|msg]|]; inversion Hrun; subst; simpl; tauto. }
  destruct Hbounds as (Ho & He & Ht).
  repeat split; try assumption.
  - rewrite Ht. intros H. apply orb_true_iff in H. destruct H as [H|H];
      apply Z.leb_le in H; [left | right]; lia.
  - rewrite Ht. intros [H|H]; apply orb_true_iff; [left | right];
      apply Z.leb_le; lia.
  - apply Write_reports.
  - intros w chunks. apply copy_chunks_ok.
Qed.

(** [Config.MaxOutputBytes] never gives a cap below one byte. *)
Lemma MaxOutputBytes_positive (c : Config.Config) : 0 < Config.MaxOutputBytes c.
Proof.
  unfold Config.MaxOutputBytes, Config.DefaultMaxOutput.
  destruct (Z.ltb_spec 0 (Config.RawMaxOutput c)); lia.
Qed.

Lemma upto_all (n : nat) (s : string) :
  (String.length s ≤ n)%nat → upto n s = s.
Proof.
  revert s. induction n as [|n IH]; intros [|a s] H; simpl in *; try lia;
    try reflexivity.
  rewrite IH by lia. reflexivity.
Qed.

Lemma upto_app_short (n : nat) (a b : string) :
  (n ≤ String.length a)%nat → upto n (a +:+ b) = upto n a.
Proof.
  revert a. induction n as [|n IH]; intros [|c a] H; simpl in *; try lia;
    try reflexivity.
  rewrite IH by lia. reflexivity.
Qed.

Lemma upto_app_long (n : nat) (a b : string) :
  upto (String.length a + n) (a +:+ b) = a +:+ upto n b.
Proof. induction a as [|c a IH]; simpl; [reflexivity | now rewrite IH]. Qed.

Lemma Join_cons_empty (x : string) (l : list string) :
  Strings.Join (x :: l) "" = x +:+ Strings.Join l "".
Proof. destruct l; simpl; [now rewrite app_empty_r | reflexivity]. Qed.

(** A full buffer stays as it is. *)
Lemma copy_chunks_full (chunks : list string) (w : limitWriter) :
  limit w ≤ len (buf w) → buf (fst (copy_chunks w chunks)) = buf w.
Proof.
  revert w. induction chunks as [|p chunks IH]; intros w Hfull; [reflexivity |].
  simpl. unfold Write.
  destruct (Z.leb_spec (limit w - len (buf w)) 0) as [_|H0]; [| lia].
  rewrite Z.eqb_refl. now apply IH.
Qed.

(** The buffer after a copy: what it held, followed by what was written, cut
    at the cap. *)
Lemma copy_chunks_buffer (chunks : list string) (w : limitWriter) :
  len (buf w) ≤ limit w →
  buf (fst (copy_chunks w chunks))
  = upto (Z.to_nat (limit w)) (buf w +:+ Strings.Join chunks "").
Proof.
  revert w. induction chunks as [|p chunks IH]; intros w Hb.
  - simpl. rewrite app_empty_r. symmetry. apply upto_all. unfold len in Hb. lia.
  - rewrite Join_cons_empty. simpl. unfold Write. unfold len in *.
    destruct (Z.leb_spec (limit w - Z.of_nat (String.length (buf w))) 0) as [H0|H0].
    + rewrite Z.eqb_refl.
      rewrite copy_chunks_full by (unfold len; lia).
      replace (Z.to_nat (limit w)) with (String.length (buf w) + 0)%nat by lia.
      rewrite upto_app_long. simpl. now rewrite app_empty_r.
    + destruct (Z.ltb_spec (limit w - Z.of_nat (String.length (buf w)))
                  (Z.of_nat (String.length p))) as [H1|H1];
        rewrite Z.eqb_refl.
      * rewrite copy_chunks_full.
        -- simpl.
           replace (Z.to_nat (limit w))
             with (String.length (buf w)
                   + Z.to_nat (limit w - Z.of_nat (String.length (buf w))))%nat
             by lia.
           rewrite upto_app_long. f_equal. symmetry.
           apply upto_app_short. lia.
        -- simpl. unfold len. rewrite length_app_str, length_upto by lia. lia.
      * rewrite IH.
        -- simpl. now rewrite app_assoc_str.
        -- simpl. unfold len. rewrite length_app_str. lia.
Qed.

(** A copy into an empty writer. *)
Lemma copy_from_empty (cap : Z) (chunks : list string) :
  buf (fst (copy_chunks {| buf := ""; limit := cap |} chunks))
  = upto (Z.to_nat cap) (Strings.Join chunks "").
Proof.
  destruct (Z.leb_spec 0 cap) as [Hcap|Hneg].
  - rewrite copy_chunks_buffer; [reflexivity |]. simpl. unfold len. simpl. lia.
  - rewrite copy_chunks_full by (simpl; unfold len; simpl; lia).
    simpl. replace (Z.to_nat cap) with 0%nat by lia. reflexivity.
Qed.

(** C3, as the code has it.  The deadline passes before the child would
    exit.  When [cmd.Start] looked at the context before the deadline, the
    child was started and is killed at the deadline, and [Run] returns a
    result, not an error: the exit code is [-1] and the two buffers hold what
    the child wrote before the deadline, cut at the cap.  When the context is
    done by the time [cmd.Start] looks at it (a timeout that is zero or
    negative, or not longer than the time it takes to get there), nothing is
    started and [Run] returns the error of the context, without a result. *)
Theorem Run_timeout (r : Runner) (sys : system) (argv0 : string)
    (rest : list string) (cwd dir : string) (events : list write_event)
    (exit_time exit_code : Z) :
  resolveDir r cwd = inl dir →
  lookup sys (argv0 :: rest) dir = Runs events exit_time exit_code →
  Timeout r ≤ exit_time →
  let empty := {| buf := ""; limit := MaxOutput r |} in
  let attempt := [{| spawn_argv := argv0 :: rest; spawn_dir := dir |}] in
  (0 < Timeout r ∧ start_delay sys < Timeout r →
   ∃ res, Run r sys (argv0 :: rest) cwd = (inl res, attempt)
          ∧ RunID res = new_uuid sys
          ∧ ExitCode res = -1
          ∧ Stdout res
            = buf (fst (copy_chunks empty (chunks_to ToStdout (Timeout r) events)))
          ∧ Stderr res
            = buf (fst (copy_chunks empty (chunks_to ToStderr (Timeout r) events)))
          ∧ Stdout res
            = upto (Z.to_nat (MaxOutput r))
                (Strings.Join (chunks_to ToStdout (Timeout r) events) "")
          ∧ Stderr res
            = upto (Z.to_nat (MaxOutput r))
                (Strings.Join (chunks_to ToStderr (Timeout r) events) ""))
  ∧ (Timeout r ≤ 0 ∨ Timeout r ≤ start_delay sys →
     Run r sys (argv0 :: rest) cwd
     = (inr (Executing argv0 (OtherError "context deadline exceeded")), attempt)).
Proof.
  intros Hdir Hprog Hlate. cbv zeta. unfold Run. rewrite Hdir, Hprog.
  unfold cmd_Run. split.
  - intros [Hpos Hstarted].
    destruct (Z.leb_spec (Timeout r) 0); [lia |].
    destruct (Z.leb_spec (Timeout r) exit_time); [| lia].
    destruct (Z.leb_spec (Timeout r) (start_delay sys)); [lia |].
    cbn [orb andb].
    pose proof (copy_from_empty (MaxOutput r)
                  (chunks_to ToStdout (Timeout r) events)) as Hout.
    pose proof (copy_from_empty (MaxOutput r)
                  (chunks_to ToStderr (Timeout r) events)) as Herr.
    destruct (copy_chunks _ (chunks_to ToStdout (Timeout r) events)) as [out oe].
    destruct (copy_chunks _ (chunks_to ToStderr (Timeout r) events)) as [err ee].
    eexists. split; [reflexivity |]. simpl in *. auto 10.
  - intros Hdone.
    destruct (Z.leb_spec (Timeout r) 0); [reflexivity |].
    destruct (Z.leb_spec (Timeout r) exit_time); [| lia].
    destruct (Z.leb_spec (Timeout r) (start_delay sys)); [reflexivity | lia].
Qed.

End RunnerOutput.

(** ** Paths: [Clean] and [Rel] on absolute paths *)

Section PathFacts.
Import Strings Filepath.

Lemma IndexByte_cons_absent (a c : ascii) (s : string) :
  IndexByte (String a s) c = -1 ↔ a ≠ c ∧ IndexByte s c = -1.
Proof.
  simpl. pose proof (IndexByte_range s c) as Hr.
  destruct (Ascii.eqb_spec a c) as [->|Hne].
  - split; [discriminate | intros [H _]; contradiction].
  - destruct (Z.ltb_spec (IndexByte s c) 0) as [Hlt|Hge]; split; intros H;
      try (split; [assumption |]); try lia; destruct H; lia.
Qed.

Lemma Split_head_cons (s : string) (c : ascii) : Split s c ≠ [].
Proof.
  destruct s as [|a s]; simpl; [discriminate |].
  destruct (Ascii.eqb a c); [discriminate |].
  destruct (Split s c); discriminate.
Qed.

(** The pieces [Split] gives hold no separator. *)
Lemma Split_pieces_plain (s : string) (c : ascii) :
  Forall (λ x, IndexByte x c = -1) (Split s c).
Proof.
  induction s as [|a s IH]; simpl.
  - repeat constructor.
  - destruct (Ascii.eqb_spec a c) as [->|Hne].
    + constructor; [reflexivity | exact IH].
    + destruct (Split s c) as [|x xs]; [repeat constructor|].
      * apply IndexByte_cons_absent. split; [assumption | reflexivity].
      * inversion IH; subst. constructor; [| assumption].
        apply IndexByte_cons_absent. split; assumption.
Qed.

Lemma Split_absent (x : string) (c : ascii) :
  IndexByte x c = -1 → Split x c = [x].
Proof.
  induction x as [|a x IH]; intros H; [reflexivity |].
  apply IndexByte_cons_absent in H. destruct H as [Hne Hx].
  simpl. destruct (Ascii.eqb_spec a c); [contradiction |].
  now rewrite IH.
Qed.

Lemma Split_app_sep (x rest : string) (c : ascii) :
  IndexByte x c = -1 →
  Split (x +:+ String c rest) c = x :: Split rest c.
Proof.
  induction x as [|a x IH]; intros H; simpl.
  - now rewrite eqb_ascii_refl.
  - apply IndexByte_cons_absent in H. destruct H as [Hne Hx].
    destruct (Ascii.eqb_spec a c); [contradiction |].
    now rewrite IH.
Qed.

(** Splitting what [Join] made gives the elements back. *)
Lemma Split_Join (l : list string) (c : ascii) :
  l ≠ [] → Forall (λ x, IndexByte x c = -1) l →
  Split (Strings.Join l (String c "")) c = l.
Proof.
  induction l as [|x l IH]; intros Hne Hl; [contradiction |].
  inversion Hl as [|? ? Hx Hrest]; subst.
  destruct l as [|y l].
  - simpl. now apply Split_absent.
  - change (Strings.Join (x :: y :: l) (String c ""))
      with (x +:+ String c "" +:+ Strings.Join (y :: l) (String c "")).
    change (String c "" +:+ Strings.Join (y :: l) (String c ""))
      with (String c (Strings.Join (y :: l) (String c ""))).
    rewrite Split_app_sep by assumption.
    rewrite IH; [reflexivity | discriminate | assumption].
Qed.

Lemma clean_step_plain (rooted : bool) (out : list string) (x : string) :
  plain x → clean_step rooted out x = x :: out.
Proof.
  intros (H1 & H2 & H3 & _). unfold clean_step.
  destruct (String.eqb_spec x ""); [contradiction |].
  destruct (String.eqb_spec x "."); [contradiction |].
  destruct (String.eqb_spec x ".."); [contradiction |].
  reflexivity.
Qed.

Lemma clean_fold_plain (rooted : bool) (l out : list string) :
  Forall plain l → fold_left (clean_step rooted) l out = rev l ++ out.
Proof.
  revert out. induction l as [|x l IH]; intros out Hl; simpl; [reflexivity |].
  inversion Hl; subst. rewrite clean_step_plain by assumption.
  rewrite IH by assumption. now rewrite <- app_assoc.
Qed.

(** At the root, the stack of [Clean] holds plain elements only. *)
Lemma clean_step_rooted (out : list string) (x : string) :
  IndexByte x Separator = -1 → Forall plain out →
  Forall plain (clean_step true out x).
Proof.
  intros Hx Hout. unfold clean_step.
  destruct (String.eqb_spec x ""); [exact Hout |].
  destruct (String.eqb_spec x "."); [exact Hout |].
  destruct (String.eqb_spec x "..").
  - destruct out as [|top rest]; [constructor |].
    inversion Hout as [|? ? Htop Hrest]; subst.
    destruct (String.eqb_spec top ".."); [| exact Hrest].
    destruct Htop as (_ & _ & H & _). contradiction.
  - constructor; [| exact Hout]. repeat split; assumption.
Qed.

Lemma clean_fold_rooted (l out : list string) :
  Forall (λ x, IndexByte x Separator = -1) l → Forall plain out →
  Forall plain (fold_left (clean_step true) l out).
Proof.
  revert out. induction l as [|x l IH]; intros out Hl Hout; simpl; [exact Hout |].
  inversion Hl; subst. apply IH; [assumption |].
  now apply clean_step_rooted.
Qed.

Lemma clean_elems_plain (p : string) :
  IsAbs p = true → Forall plain (clean_elems p).
Proof.
  intros Hp. unfold clean_elems. rewrite Hp.
  apply Forall_rev. apply clean_fold_rooted; [| constructor].
  apply Split_pieces_plain.
Qed.

Lemma Clean_rooted (p : string) :
  IsAbs p = true → Clean p = String "/" (Strings.Join (clean_elems p) "/").
Proof. intros Hp. unfold Clean. rewrite Hp. reflexivity. Qed.

Lemma IsAbs_Clean (p : string) : IsAbs p = true → IsAbs (Clean p) = true.
Proof. intros Hp. now rewrite Clean_rooted. Qed.

Lemma plain_no_separator (l : list string) :
  Forall plain l → Forall (λ x, IndexByte x Separator = -1) l.
Proof.
  induction 1 as [|x l (_ & _ & _ & Hx) _ IH]; constructor; assumption.
Qed.

(** [Clean] keeps the elements of an absolute path that is already clean. *)
Lemma clean_elems_Clean (p : string) :
  IsAbs p = true → clean_elems (Clean p) = clean_elems p.
Proof.
  intros Hp. pose proof (clean_elems_plain p Hp) as Hplain.
  unfold clean_elems at 1. rewrite (IsAbs_Clean p Hp), (Clean_rooted p Hp).
  simpl Split. unfold Separator at 1. simpl Ascii.eqb. cbv iota.
  destruct (clean_elems p) as [|x l] eqn:E.
  - reflexivity.
  - rewrite Split_Join;
      [| discriminate | now apply plain_no_separator].
    change (fold_left (clean_step true) ("" :: x :: l) [])
      with (fold_left (clean_step true) (x :: l) []).
    rewrite clean_fold_plain by assumption.
    now rewrite app_nil_r, rev_involutive.
Qed.

(** The pieces [Rel] walks over, for a cleaned absolute path: the empty piece
    before the leading slash, then the elements. *)
Lemma pieces_Clean (p : string) :
  IsAbs p = true → pieces (Clean p) = "" :: clean_elems p.
Proof.
  intros Hp. pose proof (clean_elems_plain p Hp) as Hplain.
  unfold pieces, Separator. rewrite (Clean_rooted p Hp).
  simpl Split. cbv zeta.
  destruct (clean_elems p) as [|x l] eqn:E.
  - reflexivity.
  - rewrite Split_Join;
      [| discriminate | now apply plain_no_separator].
    destruct (exists_last (l := x :: l)) as (front & z & Hfz); [discriminate |].
    rewrite Hfz in *. 
    change ("" :: front ++ [z]) with (("" :: front) ++ [z]).
    rewrite rev_app_distr. simpl rev at 1. cbv iota. simpl app at 1.
    apply Forall_app in Hplain. destruct Hplain as [_ Hz].
    inversion Hz as [|? ? (Hz1 & _) _]; subst.
    destruct (String.eqb_spec z ""); [contradiction | reflexivity].
Qed.

(** The walk of [Rel] over plain elements: when the base's elements are not
    the first elements of the target, the answer starts with [..]. *)
Lemma rel_walk_outside (base targ : list string) :
  Forall plain base → ¬ base `prefix_of` targ →
  ∃ rel, rel_walk base targ = Some rel ∧ HasPrefix rel ".." = true.
Proof.
  revert targ. induction base as [|b base IH]; intros targ Hplain Hout.
  - exfalso. apply Hout. apply prefix_nil.
  - inversion Hplain as [|? ? Hb Hbase]; subst.
    destruct targ as [|t targ]; simpl.
    + eexists. split; reflexivity.
    + destruct (String.eqb_spec b t) as [->|Hne].
      * apply IH; [assumption |].
        intros Hp. apply Hout. now apply prefix_cons.
      * destruct Hb as (_ & _ & Hdd & _).
        destruct (String.eqb_spec b ".."); [contradiction |].
        eexists. split; reflexivity.
Qed.

(** [Rel] from an absolute base to an absolute target that is not under it
    answers with a path that starts with [..]. *)
Lemma Rel_outside (base targ : string) :
  IsAbs base = true → IsAbs targ = true →
  ¬ clean_elems base `prefix_of` clean_elems targ →
  ∃ rel, Rel base targ = Some rel ∧ HasPrefix rel ".." = true.
Proof.
  intros Hb Ht Hout. unfold Rel.
  destruct (String.eqb_spec (Clean targ) (Clean base)) as [Heq|Hne].
  - exfalso. apply Hout.
    rewrite <- (clean_elems_Clean base Hb), <- (clean_elems_Clean targ Ht), Heq.
    reflexivity.
  - assert (Hdot : (Clean base =? ".")%string = false)
      by (rewrite (Clean_rooted base Hb); reflexivity).
    rewrite Hdot, (IsAbs_Clean base Hb), (IsAbs_Clean targ Ht).
    rewrite (pieces_Clean base Hb), (pieces_Clean targ Ht). simpl.
    apply rel_walk_outside; [now apply clean_elems_plain | assumption].
Qed.

End PathFacts.

(** ** The runner: the working directory stays inside the workspace *)

Section RunnerWorkspace.
Import Strings Filepath Runner.

(** C1: with a workspace given by an absolute path, a call with a non-empty
    argument vector and a working directory that resolves outside the
    workspace returns the "outside workspace" error, and no command is handed
    to the operating system. *)
Theorem Run_outside_workspace (r : Runner) (sys : system) (argv : list string)
    (cwd : string) :
  argv ≠ [] →
  IsAbs (Workspace r) = true →
  outside (Workspace r) cwd →
  Run r sys argv cwd = (inr (OutsideWorkspace cwd (Workspace r)), [])
  ∧ resolveDir r cwd = inr (OutsideWorkspace cwd (Workspace r))
  ∧ is_outside_workspace (OutsideWorkspace cwd (Workspace r)) = true.
Proof.
  intros Hargv Hws Hout.
  assert (Hdir : resolveDir r cwd = inr (OutsideWorkspace cwd (Workspace r))).
  { unfold resolveDir. unfold outside, inside, resolved in Hout.
    destruct (String.eqb_spec cwd "") as [->|Hcwd].
    - exfalso. apply Hout. reflexivity.
    - destruct (IsAbs cwd) eqn:Habs.
      + destruct (Rel_outside (Workspace r) (Clean cwd) Hws (IsAbs_Clean _ Habs))
          as (rel & Hrel & Hpre).
        { now rewrite clean_elems_Clean. }
        now rewrite Hrel, Hpre.
      + assert (Hj : Filepath.Join [Workspace r; cwd]
                     = Clean (Workspace r +:+ "/" +:+ cwd)).
        { simpl. destruct (String.eqb_spec (Workspace r) "") as [E|_];
            [rewrite E in Hws; discriminate | reflexivity]. }
        assert (Habs' : IsAbs (Workspace r +:+ "/" +:+ cwd) = true).
        { destruct (Workspace r); [discriminate | exact Hws]. }
        rewrite Hj.
        destruct (Rel_outside (Workspace r) (Clean (Clean (Workspace r +:+ "/" +:+ cwd)))
                    Hws (IsAbs_Clean _ (IsAbs_Clean _ Habs')))
          as (rel & Hrel & Hpre).
        { rewrite !clean_elems_Clean; auto using IsAbs_Clean. }
        now rewrite Hrel, Hpre. }
  repeat split; [| exact Hdir].
  unfold Run. destruct argv; [contradiction |]. now rewrite Hdir.
Qed.

End RunnerWorkspace.

(** ** The audit pipeline *)

Section AuditFacts.
Import Strings Workflow.
Variable world : Type.
Variable X : externals world.

(** Case analysis on what a computation in the world returns. *)
Ltac run_io :=
  repeat match goal with
    | |- context [match ?m ?w with _ => _ end] =>
        let E := fresh "E" in destruct (m w) as [? ?] eqn:E; simpl
    | |- context [match ?x with _ => _ end] =>
        let E := fresh "E" in destruct x eqn:E; simpl
    end.

(** A step of the audit that needs a tool reports the tool as unavailable
    when the resolver does not find it. *)
Lemma runComplexity_unresolved (e : Engine) (pkgs : list string) (w : world) :
  fst (ResolveTool X "gocognit" w) = None →
  fst (runComplexity X e pkgs w) = inr (NewErrToolUnavailable "gocognit").
Proof.
  intros H. unfold runComplexity, bind.
  destruct (ResolveTool X "gocognit" w) as [argv w1]. simpl in H. now subst.
Qed.

Lemma runDeadcode_unresolved (e : Engine) (pkgs : list string) (w : world) :
  fst (ResolveTool X "deadcode" w) = None →
  fst (runDeadcode X e pkgs w) = inr (NewErrToolUnavailable "deadcode").
Proof.
  intros H. unfold runDeadcode, bind.
  destruct (ResolveTool X "deadcode" w) as [argv w1]. simpl in H. now subst.
Qed.

Lemma runDupl_unresolved (e : Engine) (pkgs : list string) (w : world) :
  fst (ResolveTool X "dupl" w) = None →
  fst (runDupl X e pkgs w) = inr (NewErrToolUnavailable "dupl").
Proof.
  intros H. unfold runDupl, bind.
  destruct (ResolveTool X "dupl" w) as [argv w1]. simpl in H. now subst.
Qed.

Lemma runVulncheck_unresolved (e : Engine) (pkgs : list string) (w : world) :
  fst (ResolveTool X "govulncheck" w) = None →
  fst (runVulncheck X e pkgs w) = inr (NewErrToolUnavailable "govulncheck").
Proof.
  intros H. unfold runVulncheck, bind.
  destruct (ResolveTool X "govulncheck" w) as [argv w1]. simpl in H. now subst.
Qed.

Lemma audit_failure_status (step : string) (err : error) :
  as_Name (audit_failure step err) = step
  ∧ as_Detail (audit_failure step err) = Error err
  ∧ (is_unavailable err = true → as_Status (audit_failure step err) = "unavailable")
  ∧ (is_unavailable err = false → as_Status (audit_failure step err) = "error").
Proof.
  unfold audit_failure. destruct (is_unavailable err); simpl; repeat split;
    intros; congruence.
Qed.

Lemma audit_failure_audited_status (step : string) (err : error) :
  as_Status (audit_failure step err) = "done"
  ∨ as_Status (audit_failure step err) = "error"
  ∨ as_Status (audit_failure step err) = "unavailable".
Proof. unfold audit_failure. destruct (is_unavailable err); simpl; auto. Qed.

Lemma audited_done (step tool output : string) (w : world) :
  audit_tool step = Some tool →
  fst (ResolveTool X tool w) ≠ None →
  audited X step w (audit_result step "done" "" output).
Proof.
  intros Ht Hr. unfold audited. simpl. split; [reflexivity |].
  split; [auto |]. split.
  - intros tool' Ht' Hr'. rewrite Ht in Ht'. inversion Ht'; subst. contradiction.
  - intros Hn. congruence.
Qed.

Lemma audited_failed (step tool : string) (err : error) (w : world) :
  audit_tool step = Some tool →
  (fst (ResolveTool X tool w) = None → err = NewErrToolUnavailable tool) →
  audited X step w (audit_failure step err).
Proof.
  intros Ht Hr. unfold audited.
  destruct (audit_failure_status step err) as (Hn & Hd & Hu & _).
  split; [exact Hn |]. split; [apply audit_failure_audited_status |]. split.
  - intros tool' Ht' Hr'. rewrite Ht in Ht'. inversion Ht'; subst.
    specialize (Hr Hr'). subst err. split; [now apply Hu | exact Hd].
  - intros Hn'. congruence.
Qed.

Lemma audited_coverage (s : AuditStepResult) (w : world) :
  as_Name s = "coverage" →
  as_Status s = "done" ∨ as_Status s = "error" ∨ as_Status s = "unavailable" →
  audited X "coverage" w s.
Proof.
  intros Hn Hs. unfold audited. split; [exact Hn |]. split; [exact Hs |]. split.
  - intros tool Ht. discriminate.
  - intros _ Hne. now contradiction Hne.
Qed.

(** One turn of the loop writes the result of its step at its index, and
    nothing else. *)
Lemma audit_step_writes (e : Engine) (pkgs : list string) (i : nat)
    (step : string) (rr : Report.RunResult) (results : list AuditStepResult)
    (w : world) :
  ∃ s, snd (fst (audit_step X e pkgs i step (rr, results) w))
       = <[i := s]> results
       ∧ audited X step w s.
Proof.
  unfold audit_step.
  destruct (String.eqb_spec step "coverage") as [->|Hcov].
  { unfold bind. destruct (runCoverage X e pkgs w) as [[entries|err] w1];
      simpl; eexists; (split; [reflexivity |]); apply audited_coverage.
    - reflexivity.
    - simpl. auto.
    - apply audit_failure_status.
    - apply audit_failure_audited_status. }
  destruct (String.eqb_spec step "complexity") as [->|Hcx].
  { unfold bind. pose proof (runComplexity_unresolved e pkgs w) as Hun.
    destruct (runComplexity X e pkgs w) as [[entries|err] w1]; simpl in *;
      eexists; (split; [reflexivity |]).
    - apply audited_done with (tool := "gocognit"); [reflexivity |].
      intros Hr. specialize (Hun Hr). discriminate.
    - apply audited_failed with (tool := "gocognit"); [reflexivity |].
      intros Hr. specialize (Hun Hr). now inversion Hun. }
  destruct (String.eqb_spec step "deadcode") as [->|Hdc].
  { unfold bind. pose proof (runDeadcode_unresolved e pkgs w) as Hun.
    destruct (runDeadcode X e pkgs w) as [[entries|err] w1]; simpl in *;
      eexists; (split; [reflexivity |]).
    - apply audited_done with (tool := "deadcode"); [reflexivity |].
      intros Hr. specialize (Hun Hr). discriminate.
    - apply audited_failed with (tool := "deadcode"); [reflexivity |].
      intros Hr. specialize (Hun Hr). now inversion Hun. }
  destruct (String.eqb_spec step "dupl") as [->|Hdu].
  { unfold bind. pose proof (runDupl_unresolved e pkgs w) as Hun.
    destruct (runDupl X e pkgs w) as [[entries|err] w1]; simpl in *;
      eexists; (split; [reflexivity |]).
    - apply audited_done with (tool := "dupl"); [reflexivity |].
      intros Hr. specialize (Hun Hr). discriminate.
    - apply audited_failed with (tool := "dupl"); [reflexivity |].
      intros Hr. specialize (Hun Hr). now inversion Hun. }
  destruct (String.eqb_spec step "vulncheck") as [->|Hvu].
  { unfold bind. pose proof (runVulncheck_unresolved e pkgs w) as Hun.
    destruct (runVulncheck X e pkgs w) as [[entries|err] w1]; simpl in *;
      eexists; (split; [reflexivity |]).
    - apply audited_done with (tool := "govulncheck"); [reflexivity |].
      intros Hr. specialize (Hun Hr). discriminate.
    - apply audited_failed with (tool := "govulncheck"); [reflexivity |].
      intros Hr. specialize (Hun Hr). now inversion Hun. }
  simpl. eexists. split; [reflexivity |]. unfold audited. simpl.
  assert (Htool : audit_tool step = None).
  { unfold audit_tool.
    destruct (String.eqb_spec step "complexity"); [contradiction |].
    destruct (String.eqb_spec step "deadcode"); [contradiction |].
    destruct (String.eqb_spec step "dupl"); [contradiction |].
    destruct (String.eqb_spec step "vulncheck"); [contradiction |].
    reflexivity. }
  split; [reflexivity |]. split; [auto |]. split.
  - intros tool Ht. congruence.
  - auto.
Qed.

(** The loop from index [i] on: it writes the results of its steps at their
    indices and leaves the rest alone; the world a step starts in is the one
    the steps before it left. *)
Lemma audit_loop_writes (e : Engine) (pkgs : list string) (steps : list string) :
  ∀ (i : nat) (rr : Report.RunResult) (results : list AuditStepResult) (w : world),
    let out := audit_loop X e pkgs steps i (rr, results) w in
    length (snd (fst out)) = length results
    ∧ (∀ j, (j < i ∨ i + length steps ≤ j)%nat → snd (fst out) !! j = results !! j)
    ∧ (∀ k step, steps !! k = Some step → (i + k < length results)%nat →
         ∃ s, snd (fst out) !! (i + k)%nat = Some s
              ∧ audited X step
                  (snd (audit_loop X e pkgs (take k steps) i (rr, results) w)) s).
Proof.
  induction steps as [|step rest IH]; intros i rr results w; cbv zeta.
  - simpl. repeat split; auto. intros k step Hk. destruct k; discriminate.
  - change (audit_loop X e pkgs (step :: rest) i (rr, results) w)
      with (let '(st1, w1) := audit_step X e pkgs i step (rr, results) w in
            audit_loop X e pkgs rest (S i) st1 w1).
    destruct (audit_step_writes e pkgs i step rr results w) as (s & Hs & Haud).
    destruct (audit_step X e pkgs i step (rr, results) w) as [[rr1 results1] w1] eqn:E.
    simpl in Hs. subst results1.
    destruct (IH (S i) rr1 (<[i := s]> results) w1) as (Hlen & Hout & Hin).
    rewrite length_insert in Hlen. split; [exact Hlen |]. split.
    + intros j Hj. rewrite Hout by (simpl in Hj; lia).
      apply list_lookup_insert_ne. simpl in Hj. lia.
    + intros k step' Hk Hlt. destruct k as [|k]; simpl in Hk.
      * inversion Hk; subst step'. exists s. split.
        -- rewrite Nat.add_0_r, Hout by lia.
           apply list_lookup_insert_eq. lia.
        -- exact Haud.
      * destruct (Hin k step' Hk) as (s' & Hs' & Haud').
        { rewrite length_insert. lia. }
        exists s'. split.
        -- replace (i + S k)%nat with (S i + k)%nat by lia. exact Hs'.
        -- change (audit_loop X e pkgs (take (S k) (step :: rest)) i (rr, results) w)
             with (let '(st1, w1) := audit_step X e pkgs i step (rr, results) w in
                   audit_loop X e pkgs (take k rest) (S i) st1 w1).
           rewrite E. exact Haud'.
Qed.

(** One turn of the loop calls the function of its step, in the world it
    starts in, and writes what that call gave at its index. *)
Lemma audit_step_runs (e : Engine) (pkgs : list string) (i : nat)
    (step : string) (rr : Report.RunResult) (results : list AuditStepResult)
    (w : world) :
  snd (audit_step X e pkgs i step (rr, results) w) = step_world X e pkgs step w
  ∧ snd (fst (audit_step X e pkgs i step (rr, results) w))
    = <[i := step_outcome X e pkgs step w]> results.
Proof.
  unfold audit_step, step_world, step_outcome, step_function, audit_failure,
    bind, ret.
  destruct (String.eqb step "coverage").
  { destruct (runCoverage X e pkgs w) as [[entries|err] w1]; simpl;
      [split; reflexivity |].
    destruct (is_unavailable err); split; reflexivity. }
  destruct (String.eqb step "complexity").
  { destruct (runComplexity X e pkgs w) as [[entries|err] w1]; simpl;
      [split; reflexivity |].
    destruct (is_unavailable err); split; reflexivity. }
  destruct (String.eqb step "deadcode").
  { destruct (runDeadcode X e pkgs w) as [[entries|err] w1]; simpl;
      [split; reflexivity |].
    destruct (is_unavailable err); split; reflexivity. }
  destruct (String.eqb step "dupl").
  { destruct (runDupl X e pkgs w) as [[entries|err] w1]; simpl;
      [split; reflexivity |].
    destruct (is_unavailable err); split; reflexivity. }
  destruct (String.eqb step "vulncheck").
  { destruct (runVulncheck X e pkgs w) as [[entries|err] w1]; simpl;
      [split; reflexivity |].
    destruct (is_unavailable err); split; reflexivity. }
  split; reflexivity.
Qed.

(** The loop from index [i] on: the step at place [k] starts in the world
    the [k] steps before it left, its function is called there, whatever
    those steps gave, and what the call gave is the result at its index. *)
Lemma audit_loop_runs (e : Engine) (pkgs : list string) (steps : list string) :
  ∀ (i : nat) (rr : Report.RunResult) (results : list AuditStepResult) (w : world)
    (k : nat) (step : string),
    steps !! k = Some step → (i + length steps ≤ length results)%nat →
    let before := snd (audit_loop X e pkgs (take k steps) i (rr, results) w) in
    snd (audit_loop X e pkgs (take (S k) steps) i (rr, results) w)
    = step_world X e pkgs step before
    ∧ snd (fst (audit_loop X e pkgs steps i (rr, results) w)) !! (i + k)%nat
      = Some (step_outcome X e pkgs step before).
Proof.
  induction steps as [|step rest IH]; intros i rr results w k step' Hk Hlen;
    [destruct k; discriminate |].
  cbv zeta. simpl in Hlen.
  destruct (audit_step_runs e pkgs i step rr results w) as [Hw Hr].
  destruct k as [|k]; simpl in Hk.
  - inversion Hk; subst step'; clear Hk.
    change (take 1 (step :: rest)) with [step].
    change (take 0 (step :: rest)) with (@nil string).
    change (audit_loop X e pkgs [step] i (rr, results) w)
      with (let '(st1, w1) := audit_step X e pkgs i step (rr, results) w in
            (st1, w1)).
    change (audit_loop X e pkgs (step :: rest) i (rr, results) w)
      with (let '(st1, w1) := audit_step X e pkgs i step (rr, results) w in
            audit_loop X e pkgs rest (S i) st1 w1).
    change (snd (audit_loop X e pkgs [] i (rr, results) w)) with w.
    destruct (audit_step X e pkgs i step (rr, results) w)
      as [[rr1 results1] w1].
    cbn [fst snd] in Hw, Hr. subst w1 results1. split; [reflexivity |].
    destruct (audit_loop_writes e pkgs rest (S i) rr1
                (<[i := step_outcome X e pkgs step w]> results)
                (step_world X e pkgs step w)) as (_ & Hframe & _).
    rewrite Nat.add_0_r, Hframe by lia.
    apply list_lookup_insert_eq. lia.
  - change (take (S (S k)) (step :: rest)) with (step :: take (S k) rest).
    change (take (S k) (step :: rest)) with (step :: take k rest).
    change (audit_loop X e pkgs (step :: take (S k) rest) i (rr, results) w)
      with (let '(st1, w1) := audit_step X e pkgs i step (rr, results) w in
            audit_loop X e pkgs (take (S k) rest) (S i) st1 w1).
    change (audit_loop X e pkgs (step :: take k rest) i (rr, results) w)
      with (let '(st1, w1) := audit_step X e pkgs i step (rr, results) w in
            audit_loop X e pkgs (take k rest) (S i) st1 w1).
    change (audit_loop X e pkgs (step :: rest) i (rr, results) w)
      with (let '(st1, w1) := audit_step X e pkgs i step (rr, results) w in
            audit_loop X e pkgs rest (S i) st1 w1).
    destruct (audit_step X e pkgs i step (rr, results) w)
      as [[rr1 results1] w1].
    cbn [fst snd] in Hr. subst results1.
    replace (i + S k)%nat with (S i + k)%nat by lia.
    apply (IH (S i) rr1 _ w1 k step' Hk).
    rewrite length_insert. lia.
Qed.

(** When the runner and [os.CreateTemp] never return an error that is or
    wraps an [ErrToolUnavailable] (theirs are made by [fmt.Errorf] and by the
    operating system), a step ends ["unavailable"] only for a tool that the
    resolver did not find. *)
Section ToolErrors.
Hypothesis runner_errors :
  ∀ argv cwd w err, fst (Runner_Run X argv cwd w) = inr err →
    is_unavailable err = false.
Hypothesis temp_errors :
  ∀ w err, fst (CreateTemp X w) = inr err → is_unavailable err = false.

Lemma runCoverage_available (e : Engine) (pkgs : list string) (w : world)
    (err : error) :
  fst (runCoverage X e pkgs w) = inr err → is_unavailable err = false.
Proof.
  unfold runCoverage, bind, ret.
  pose proof (temp_errors w) as Ht.
  destruct (CreateTemp X w) as [[coverFile|err0] w1]; simpl in *.
  2:{ intros H. inversion H; subst. simpl. now apply Ht. }
  match goal with
  | |- context [Runner_Run X ?a ?c w1] => pose proof (runner_errors a c w1) as Hr;
      destruct (Runner_Run X a c w1) as [[result|err1] w2]; simpl in *
  end.
  2:{ destruct (Remove X coverFile w2) as [u w3]. simpl.
      intros H. inversion H; subst. simpl. now apply Hr. }
  destruct (negb (Runner.ExitCode result =? 0)).
  { destruct (Remove X coverFile w2) as [u w3]. simpl.
    intros H. inversion H; subst. reflexivity. }
  match goal with
  | |- context [Runner_Run X ?a ?c w2] => pose proof (runner_errors a c w2) as Hr2;
      destruct (Runner_Run X a c w2) as [[result2|err2] w3]; simpl in *
  end;
    destruct (Remove X coverFile w3) as [u w4]; simpl; intros H;
    inversion H; subst. simpl. now apply Hr2.
Qed.

Lemma runComplexity_available (e : Engine) (pkgs : list string) (w : world)
    (err : error) :
  fst (runComplexity X e pkgs w) = inr err → is_unavailable err = true →
  fst (ResolveTool X "gocognit" w) = None.
Proof.
  unfold runComplexity, bind, ret.
  destruct (ResolveTool X "gocognit" w) as [[argv|] w1]; simpl; [| reflexivity].
  match goal with
  | |- context [Runner_Run X ?a ?c w1] => pose proof (runner_errors a c w1) as Hr;
      destruct (Runner_Run X a c w1) as [[result|err1] w2]; simpl in *
  end; intros H Hu; inversion H; subst. simpl in Hu.
  rewrite (Hr err1 eq_refl) in Hu. discriminate.
Qed.

Lemma runDeadcode_available (e : Engine) (pkgs : list string) (w : world)
    (err : error) :
  fst (runDeadcode X e pkgs w) = inr err → is_unavailable err = true →
  fst (ResolveTool X "deadcode" w) = None.
Proof.
  unfold runDeadcode, bind, ret.
  destruct (ResolveTool X "deadcode" w) as [[argv|] w1]; simpl; [| reflexivity].
  match goal with
  | |- context [Runner_Run X ?a ?c w1] => pose proof (runner_errors a c w1) as Hr;
      destruct (Runner_Run X a c w1) as [[result|err1] w2]; simpl in *
  end; intros H Hu; inversion H; subst. simpl in Hu.
  rewrite (Hr err1 eq_refl) in Hu. discriminate.
Qed.

Lemma runDupl_available (e : Engine) (pkgs : list string) (w : world)
    (err : error) :
  fst (runDupl X e pkgs w) = inr err → is_unavailable err = true →
  fst (ResolveTool X "dupl" w) = None.
Proof.
  unfold runDupl, bind, ret.
  destruct (ResolveTool X "dupl" w) as [[argv|] w1]; simpl; [| reflexivity].
  match goal with
  | |- context [Runner_Run X ?a ?c w1] => pose proof (runner_errors a c w1) as Hr;
      destruct (Runner_Run X a c w1) as [[result|err1] w2]; simpl in *
  end; intros H Hu; inversion H; subst. simpl in Hu.
  rewrite (Hr err1 eq_refl) in Hu. discriminate.
Qed.

Lemma runVulncheck_available (e : Engine) (pkgs : list string) (w : world)
    (err : error) :
  fst (runVulncheck X e pkgs w) = inr err → is_unavailable err = true →
  fst (ResolveTool X "govulncheck" w) = None.
Proof.
  unfold runVulncheck, bind, ret.
  destruct (ResolveTool X "govulncheck" w) as [[argv|] w1]; simpl; [| reflexivity].
  match goal with
  | |- context [Runner_Run X ?a ?c w1] => pose proof (runner_errors a c w1) as Hr;
      destruct (Runner_Run X a c w1) as [[result|err1] w2]; simpl in *
  end; intros H Hu; inversion H; subst. simpl in Hu.
  rewrite (Hr err1 eq_refl) in Hu. discriminate.
Qed.

Lemma step_outcome_unavailable (e : Engine) (pkgs : list string)
    (step : string) (w : world) :
  as_Status (step_outcome X e pkgs step w) = "unavailable"
  → ∃ tool, audit_tool step = Some tool ∧ fst (ResolveTool X tool w) = None.
Proof.
  unfold step_outcome, step_function, audit_tool, bind, ret.
  destruct (String.eqb_spec step "coverage") as [->|_].
  { pose proof (runCoverage_available e pkgs w) as Hc.
    destruct (runCoverage X e pkgs w) as [[entries|err] w1]; simpl in *;
      [discriminate |].
    rewrite (Hc err eq_refl). discriminate. }
  destruct (String.eqb_spec step "complexity") as [->|_].
  { pose proof (runComplexity_available e pkgs w) as Hc.
    destruct (runComplexity X e pkgs w) as [[entries|err] w1]; simpl in *;
      [discriminate |].
    destruct (is_unavailable err) eqn:Hu; [| discriminate].
    intros _. exists "gocognit". split; [reflexivity | now apply (Hc err)]. }
  destruct (String.eqb_spec step "deadcode") as [->|_].
  { pose proof (runDeadcode_available e pkgs w) as Hc.
    destruct (runDeadcode X e pkgs w) as [[entries|err] w1]; simpl in *;
      [discriminate |].
    destruct (is_unavailable err) eqn:Hu; [| discriminate].
    intros _. exists "deadcode". split; [reflexivity | now apply (Hc err)]. }
  destruct (String.eqb_spec step "dupl") as [->|_].
  { pose proof (runDupl_available e pkgs w) as Hc.
    destruct (runDupl X e pkgs w) as [[entries|err] w1]; simpl in *;
      [discriminate |].
    destruct (is_unavailable err) eqn:Hu; [| discriminate].
    intros _. exists "dupl". split; [reflexivity | now apply (Hc err)]. }
  destruct (String.eqb_spec step "vulncheck") as [->|_].
  { pose proof (runVulncheck_available e pkgs w) as Hc.
    destruct (runVulncheck X e pkgs w) as [[entries|err] w1]; simpl in *;
      [discriminate |].
    destruct (is_unavailable err) eqn:Hu; [| discriminate].
    intros _. exists "govulncheck". split; [reflexivity | now apply (Hc err)]. }
  simpl. discriminate.
Qed.

End ToolErrors.

(** The world at the end of the loop is the world after its last step. *)
Lemma audit_loop_all (e : Engine) (pkgs : list string) (steps : list string)
    (i : nat) (st : audit_state) (w : world) :
  audit_loop X e pkgs (take (length steps) steps) i st w
  = audit_loop X e pkgs steps i st w.
Proof. now rewrite firstn_all. Qed.

End AuditFacts.

Section AuditTheorem.
Import Strings Workflow.

(** C9.  [Audit] gives one result per configured step, in order, and
    executes every step whatever the steps before it gave.  The step at
    place [j] starts in the world the [j] steps before it left; for a step of
    a known name the function of that step is called in that world, and the
    world after the step is the one the call left; the result is ["done"]
    with the formatted findings when the call gave findings, ["unavailable"]
    when its error is or wraps an [ErrToolUnavailable], and ["error"] for any
    other error, the message of the error being the detail.  For a step of
    an unknown name nothing is called and the result is ["error"].  So no
    result is left at ["skipped"].  A step whose tool (gocognit, deadcode,
    dupl, govulncheck) the resolver does not find in the world the step
    starts in ends ["unavailable"], its detail being the install message of
    [ErrToolUnavailable]; and when neither the runner nor [os.CreateTemp]
    returns an error that is or wraps an [ErrToolUnavailable], such a step is
    the only one that ends ["unavailable"]: any other failure ends
    ["error"].  The world [Audit] leaves is the world after the last step. *)
Theorem Audit_runs_every_step (world : Type) (X : externals world) (e : Engine)
    (packages : list string) (w : world) :
  let res := fst (Audit X e packages w) in
  let steps := Config.AuditSteps (Config e) in
  let pkgs := ResolvePackages e packages in
  let start :=
    (Report.newRunResult (fst (uuid_New X w)) Report.Audit,
     map (λ step, audit_result step "skipped" "" "") steps) in
  let before (j : nat) :=
    snd (audit_loop X e pkgs (take j steps) 0 start (snd (uuid_New X w))) in
  length (ar_Steps res) = length steps
  ∧ before 0%nat = snd (uuid_New X w)
  ∧ snd (Audit X e packages w) = before (length steps)
  ∧ (∀ j step, steps !! j = Some step →
       ∃ s, ar_Steps res !! j = Some s
            ∧ as_Name s = step
            ∧ (as_Status s = "done" ∨ as_Status s = "error"
               ∨ as_Status s = "unavailable")
            ∧ audited X step (before j) s)
  ∧ (∀ j step run, steps !! j = Some step →
       step_function X e pkgs step = Some run →
       before (S j) = snd (run (before j))
       ∧ ar_Steps res !! j
         = Some match fst (run (before j)) with
                | inl output => audit_result step "done" "" output
                | inr err =>
                    audit_result step
                      (if is_unavailable err then "unavailable" else "error")
                      (Error err) ""
                end)
  ∧ (∀ j step, steps !! j = Some step →
       step_function X e pkgs step = None →
       before (S j) = before j
       ∧ ar_Steps res !! j
         = Some (audit_result step "error" ("unknown step: " +:+ step) ""))
  ∧ ((∀ argv cwd w' err, fst (Runner_Run X argv cwd w') = inr err →
        is_unavailable err = false) →
     (∀ w' err, fst (CreateTemp X w') = inr err → is_unavailable err = false) →
     ∀ j step s, steps !! j = Some step → ar_Steps res !! j = Some s →
       (as_Status s = "unavailable"
        ↔ ∃ tool, audit_tool step = Some tool
                  ∧ fst (ResolveTool X tool (before j)) = None)).
Proof.
  cbv zeta. unfold Audit, bind.
  destruct (uuid_New X w) as [runID w1]. cbn [fst snd].
  set (steps := Config.AuditSteps (Config e)).
  set (pkgs := ResolvePackages e packages).
  set (rr0 := Report.newRunResult runID Report.Audit).
  set (results0 := map (λ step, audit_result step "skipped" "" "") steps).
  assert (Hlen0 : (0 + length steps ≤ length results0)%nat).
  { unfold results0. rewrite length_map. simpl. lia. }
  destruct (audit_loop_writes world X e pkgs steps 0 rr0 results0 w1)
    as (Hlen & _ & Hin).
  pose proof (audit_loop_runs world X e pkgs steps 0 rr0 results0 w1) as Hruns.
  pose proof (audit_loop_all world X e pkgs steps 0 (rr0, results0) w1) as Hall.
  destruct (audit_loop X e pkgs steps 0 (rr0, results0) w1)
    as [[rr1 results1] w2] eqn:E.
  unfold ret. cbn [fst snd ar_Steps] in *.
  split; [rewrite Hlen; unfold results0; apply length_map |].
  split; [reflexivity |].
  split; [now rewrite Hall |].
  split; [| split; [| split]].
  - intros j step Hj.
    destruct (Hin j step Hj) as (s & Hs & Haud).
    { unfold results0. rewrite length_map. now apply lookup_lt_Some in Hj. }
    exists s. split; [exact Hs |].
    split; [apply Haud |]. split; [apply Haud | exact Haud].
  - intros j step run Hj Hrun.
    destruct (Hruns j step Hj Hlen0) as [Hw Hr]. cbn [Nat.add] in Hr.
    unfold step_world in Hw. unfold step_outcome in Hr.
    rewrite Hrun in Hw, Hr. split; [exact Hw |].
    rewrite Hr. now destruct (fst (run _)).
  - intros j step Hj Hrun.
    destruct (Hruns j step Hj Hlen0) as [Hw Hr]. cbn [Nat.add] in Hr.
    unfold step_world in Hw. unfold step_outcome in Hr.
    rewrite Hrun in Hw, Hr. split; [exact Hw | exact Hr].
  - intros Hrunner Htemp j step s Hj Hs.
    destruct (Hruns j step Hj Hlen0) as [_ Hr]. cbn [Nat.add] in Hr.
    rewrite Hs in Hr. inversion Hr; subst s. split.
    + intros Hstatus.
      apply (step_outcome_unavailable world X Hrunner Htemp e pkgs step _ Hstatus).
    + intros (tool & Htool & Hnone).
      destruct (Hin j step Hj) as (s' & Hs' & Haud).
      { unfold results0. rewrite length_map. now apply lookup_lt_Some in Hj. }
      cbn [Nat.add] in Hs'. rewrite Hs in Hs'. inversion Hs' as [Heq].
      rewrite Heq.
      destruct Haud as (_ & _ & Hun & _).
      now apply (Hun tool Htool Hnone).
Qed.

End AuditTheorem.

(** ** The check pipeline *)

Section CheckFacts.
Import Strings Workflow.
Variable world : Type.
Variable X : externals world.

(** One turn of the loop writes the result of its step at its index: either
    the step passed and [failedIdx] is as before, or it failed (or its tool is
    unavailable) and [failedIdx] is its index. *)
Lemma check_step_writes (e : Engine) (pkgs : list string) (i : nat)
    (step : string) (rr : Report.RunResult) (results : list StepResult)
    (failedIdx : Z) (w : world) :
  ∃ rr' s failedIdx' w',
    check_step X e pkgs i step (rr, results, failedIdx) w
    = ((rr', <[i := s]> results, failedIdx'), w')
    ∧ Name s = step
    ∧ ((sr_Status s = "pass" ∧ failedIdx' = failedIdx)
       ∨ (failing s ∧ failedIdx' = Z.of_nat i)).
Proof.
  unfold check_step, failing, bind, ret.
  destruct (String.eqb step "test").
  { destruct (runTest X e pkgs w) as [[summary|err] w1]; simpl.
    - destruct (String.eqb (Status summary) "FAIL");
        repeat eexists; simpl; auto.
    - repeat eexists; simpl; auto. }
  destruct (String.eqb step "lint").
  { destruct (runLint X e pkgs w) as [[summary|err] w1]; simpl.
    - destruct (0 <? length (ls_Issues summary))%nat;
        repeat eexists; simpl; auto.
    - destruct (is_unavailable err); repeat eexists; simpl; auto. }
  destruct (String.eqb step "staticcheck").
  { destruct (runStaticcheck X e pkgs w) as [[scResult|err] w1]; simpl.
    - destruct (0 <? length (sc_Issues scResult))%nat;
        repeat eexists; simpl; auto.
    - destruct (is_unavailable err); repeat eexists; simpl; auto. }
  repeat eexists; simpl; auto.
Qed.

(** The loop from index [i] on, entered with [failedIdx = -1]: it stops at the
    first step that does not pass. *)
Lemma check_loop_writes (e : Engine) (pkgs : list string) (steps : list string) :
  ∀ (i : nat) (rr : Report.RunResult) (results : list StepResult) (w : world),
    (i + length steps ≤ length results)%nat →
    ∃ rr' results' failedIdx' w',
      check_loop X e pkgs steps i (rr, results, -1) w
      = ((rr', results', failedIdx'), w')
      ∧ length results' = length results
      ∧ (∀ j, (j < i ∨ i + length steps ≤ j)%nat → results' !! j = results !! j)
      ∧ ((failedIdx' = -1
          ∧ ∀ k step, steps !! k = Some step →
              ∃ s, results' !! (i + k)%nat = Some s ∧ Name s = step
                   ∧ sr_Status s = "pass")
         ∨ (∃ n, failedIdx' = Z.of_nat (i + n) ∧ (n < length steps)%nat
                 ∧ (∀ k step, steps !! k = Some step → (k < n)%nat →
                      ∃ s, results' !! (i + k)%nat = Some s ∧ Name s = step
                           ∧ sr_Status s = "pass")
                 ∧ (∃ s, results' !! (i + n)%nat = Some s
                         ∧ steps !! n = Some (Name s) ∧ failing s)
                 ∧ (∀ j, (i + n < j)%nat → results' !! j = results !! j))).
Proof.
  induction steps as [|step rest IH]; intros i rr results w Hlen.
  - simpl. exists rr, results, (-1), w. repeat split; auto.
    left. split; [reflexivity |]. intros k step Hk. destruct k; discriminate.
  - simpl in Hlen.
    destruct (check_step_writes e pkgs i step rr results (-1) w)
      as (rr1 & s & f1 & w1 & Hstep & Hname & Hcase).
    change (check_loop X e pkgs (step :: rest) i (rr, results, -1) w)
      with (let '(st1, w1) := check_step X e pkgs i step (rr, results, -1) w in
            (if 0 <=? snd st1 then ret st1
             else check_loop X e pkgs rest (S i) st1) w1).
    rewrite Hstep. cbv iota beta. cbn [snd].
    destruct Hcase as [[Hpass ->]|[Hfail ->]].
    + change (0 <=? -1) with false. cbv iota.
      destruct (IH (S i) rr1 (<[i := s]> results) w1)
        as (rr2 & results2 & f2 & w2 & Hloop & Hlen2 & Hout & Hin).
      { rewrite length_insert. lia. }
      rewrite length_insert in Hlen2.
      exists rr2, results2, f2, w2. split; [exact Hloop |].
      split; [exact Hlen2 |].
      assert (Hi : results2 !! i = Some s).
      { rewrite Hout by lia. apply list_lookup_insert_eq. lia. }
      split.
      { intros j Hj. rewrite Hout by (simpl in Hj; lia).
        apply list_lookup_insert_ne. simpl in Hj. lia. }
      destruct Hin as [[-> Hall]|(n & -> & Hn & Hbefore & Hat & Hafter)].
      * left. split; [reflexivity |]. intros k step' Hk.
        destruct k as [|k]; simpl in Hk.
        -- inversion Hk; subst. exists s. rewrite Nat.add_0_r. auto.
        -- replace (i + S k)%nat with (S i + k)%nat by lia. now apply Hall.
      * right. exists (S n). split; [f_equal; lia |].
        split; [simpl; lia |]. split; [| split].
        -- intros k step' Hk Hlt. destruct k as [|k]; simpl in Hk.
           ++ inversion Hk; subst. exists s. rewrite Nat.add_0_r. auto.
           ++ replace (i + S k)%nat with (S i + k)%nat by lia.
              apply Hbefore; [assumption | lia].
        -- replace (i + S n)%nat with (S i + n)%nat by lia. exact Hat.
        -- intros j Hj. rewrite Hafter by lia.
           apply list_lookup_insert_ne. lia.
    + replace (0 <=? Z.of_nat i) with true by (symmetry; apply Z.leb_le; lia).
      exists rr1, (<[i := s]> results), (Z.of_nat i), w1.
      split; [reflexivity |]. split; [apply length_insert |]. split.
      { intros j Hj. apply list_lookup_insert_ne. simpl in Hj. lia. }
      right. exists 0%nat. rewrite Nat.add_0_r.
      split; [reflexivity |]. split; [simpl; lia |]. split; [| split].
      * intros k step' _ Hk. lia.
      * exists s. split; [apply list_lookup_insert_eq; lia |].
        split; [simpl; now rewrite Hname | exact Hfail].
      * intros j Hj. apply list_lookup_insert_ne. lia.
Qed.

(** The loop leaves [failedIdx] at [-1] or sets it to one of its indices. *)
Lemma check_loop_idx (e : Engine) (pkgs : list string) (steps : list string) :
  ∀ (i : nat) (rr : Report.RunResult) (results : list StepResult) (w : world),
    snd (fst (check_loop X e pkgs steps i (rr, results, -1) w)) = -1
    ∨ Z.of_nat i ≤ snd (fst (check_loop X e pkgs steps i (rr, results, -1) w)).
Proof.
  induction steps as [|step rest IH]; intros i rr results w.
  - now left.
  - destruct (check_step_writes e pkgs i step rr results (-1) w)
      as (rr1 & s & f1 & w1 & Hstep & _ & Hcase).
    change (check_loop X e pkgs (step :: rest) i (rr, results, -1) w)
      with (let '(st1, w1) := check_step X e pkgs i step (rr, results, -1) w in
            (if 0 <=? snd st1 then ret st1
             else check_loop X e pkgs rest (S i) st1) w1).
    rewrite Hstep. cbv iota beta. cbn [snd].
    destruct Hcase as [[_ ->]|[_ ->]].
    + change (0 <=? -1) with false. cbv iota.
      destruct (IH (S i) rr1 (<[i := s]> results) w1) as [H|H];
        [now left | right; lia].
    + replace (0 <=? Z.of_nat i) with true by (symmetry; apply Z.leb_le; lia).
      right. simpl. lia.
Qed.

(** The loop ends with the turn that sets [failedIdx]: the steps after it
    add nothing, neither to the state nor to the world. *)
Lemma check_loop_stops (e : Engine) (pkgs : list string) (steps : list string) :
  ∀ (i : nat) (rr : Report.RunResult) (results : list StepResult) (w : world)
    (n : nat),
    snd (fst (check_loop X e pkgs steps i (rr, results, -1) w))
    = Z.of_nat (i + n) →
    check_loop X e pkgs (take (S n) steps) i (rr, results, -1) w
    = check_loop X e pkgs steps i (rr, results, -1) w.
Proof.
  induction steps as [|step rest IH]; intros i rr results w n Hidx.
  - simpl in Hidx. lia.
  - destruct (check_step_writes e pkgs i step rr results (-1) w)
      as (rr1 & s & f1 & w1 & Hstep & _ & Hcase).
    change (take (S n) (step :: rest)) with (step :: take n rest).
    change (check_loop X e pkgs (step :: take n rest) i (rr, results, -1) w)
      with (let '(st1, w1) := check_step X e pkgs i step (rr, results, -1) w in
            (if 0 <=? snd st1 then ret st1
             else check_loop X e pkgs (take n rest) (S i) st1) w1).
    change (check_loop X e pkgs (step :: rest) i (rr, results, -1) w)
      with (let '(st1, w1) := check_step X e pkgs i step (rr, results, -1) w in
            (if 0 <=? snd st1 then ret st1
             else check_loop X e pkgs rest (S i) st1) w1) in Hidx |- *.
    rewrite Hstep in Hidx |- *. cbv iota beta in Hidx |- *. cbn [snd] in Hidx |- *.
    destruct Hcase as [[_ ->]|[_ ->]].
    + change (0 <=? -1) with false in Hidx |- *. cbv iota in Hidx |- *.
      destruct n as [|n].
      * exfalso.
        destruct (check_loop_idx e pkgs rest (S i) rr1 (<[i := s]> results) w1)
          as [H|H]; rewrite Nat.add_0_r in Hidx; lia.
      * apply IH. rewrite Hidx. f_equal. lia.
    + replace (0 <=? Z.of_nat i) with true by (symmetry; apply Z.leb_le; lia).
      reflexivity.
Qed.

End CheckFacts.

Section CheckTheorem.
Import Strings Workflow.

(** C4, as the code has it.  [Check] either stops before the steps with the
    format sentinel [-2] and no step results, or gives one result per
    configured step, in order and under the step's name, such that: every step
    before [FailedIdx] has status ["pass"] (all of them when [FailedIdx] is
    [-1]); the step at [FailedIdx] has status ["fail"] or ["unavailable"];
    every step after it has status ["skipped"].  So a step that failed or is
    unavailable is followed by skipped steps only, and when [FailedIdx] is not
    negative exactly one step has status ["fail"] or ["unavailable"]: the one
    at [FailedIdx].  And no step after it is executed: the result and the
    world that [Check] leaves are those of the pipeline whose loop ends with
    the turn of the step at [FailedIdx]. *)
Theorem Check_fail_fast (world : Type) (X : externals world) (e : Engine)
    (packages : list string) (fix_ : bool) (w : world) :
  let res := fst (Check X e packages fix_ w) in
  let steps := Config.CheckSteps (Config e) in
  (FailedIdx res = -2 ∧ Steps res = [])
  ∨ (length (Steps res) = length steps
     ∧ (FailedIdx res = -1 ∨ 0 ≤ FailedIdx res < Z.of_nat (length steps))
     ∧ (∀ j s, Steps res !! j = Some s →
          steps !! j = Some (Name s)
          ∧ ((sr_Status s = "pass"
              ∧ (FailedIdx res = -1 ∨ Z.of_nat j < FailedIdx res))
             ∨ (failing s ∧ Z.of_nat j = FailedIdx res)
             ∨ (sr_Status s = "skipped" ∧ 0 ≤ FailedIdx res < Z.of_nat j)))
     ∧ (∀ j s j' s', Steps res !! j = Some s → failing s → (j < j')%nat →
          Steps res !! j' = Some s' → sr_Status s' = "skipped")
     ∧ (0 ≤ FailedIdx res →
          ∃ s, Steps res !! Z.to_nat (FailedIdx res) = Some s ∧ failing s
               ∧ ∀ j s', Steps res !! j = Some s' → failing s' →
                   j = Z.to_nat (FailedIdx res))
     ∧ (0 ≤ FailedIdx res →
          Check X e packages fix_ w
          = Check_first X (S (Z.to_nat (FailedIdx res))) e packages fix_ w)).
Proof.
  cbv zeta. unfold Check, Check_first, bind.
  destruct (uuid_New X w) as [runID w1].
  destruct (RunFixPhase X e fix_ w1) as [fixRes w2].
  destruct (negb fix_ && _); [left; split; reflexivity |].
  right.
  set (steps := Config.CheckSteps (Config e)).
  set (rr0 := with_fix _ _).
  set (results0 := map (λ step, step_result step "skipped" "" "") steps).
  destruct (check_loop_writes world X e (ResolvePackages e packages) steps 0 rr0
              results0 w2)
    as (rr1 & results1 & f1 & w3 & Hloop & Hlen & _ & Hcases).
  { unfold results0. rewrite length_map. simpl. lia. }
  rewrite Hloop. simpl.
  assert (Hlen0 : length results0 = length steps)
    by (unfold results0; apply length_map).
  assert (Hskipped : ∀ j s, results0 !! j = Some s →
            steps !! j = Some (Name s) ∧ sr_Status s = "skipped").
  { intros j s Hj. unfold results0 in Hj. rewrite list_lookup_fmap in Hj.
    destruct (steps !! j) as [step|]; [| discriminate].
    inversion Hj; subst. auto. }
  assert (Hclass : ∀ j s, results1 !! j = Some s →
            steps !! j = Some (Name s)
            ∧ ((sr_Status s = "pass" ∧ (f1 = -1 ∨ Z.of_nat j < f1))
               ∨ (failing s ∧ Z.of_nat j = f1)
               ∨ (sr_Status s = "skipped" ∧ 0 ≤ f1 < Z.of_nat j))).
  { intros j s Hj.
    assert (Hjlt : (j < length steps)%nat).
    { apply lookup_lt_Some in Hj. lia. }
    destruct (lookup_lt_is_Some_2 steps j Hjlt) as [step Hstep].
    destruct Hcases as [[-> Hall]|(n & -> & Hn & Hbefore & Hat & Hafter)].
    - destruct (Hall j step Hstep) as (s' & Hs' & Hname & Hpass).
      simpl in Hs'. rewrite Hj in Hs'. inversion Hs'; subst s'.
      split; [congruence |]. left. auto.
    - simpl in *. destruct (Nat.lt_trichotomy j n) as [Hlt|[->|Hgt]].
      + destruct (Hbefore j step Hstep Hlt) as (s' & Hs' & Hname & Hpass).
        rewrite Hj in Hs'. inversion Hs'; subst s'.
        split; [congruence |]. left. split; [assumption | right; lia].
      + destruct Hat as (s' & Hs' & Hname & Hfail).
        rewrite Hj in Hs'. inversion Hs'; subst s'.
        split; [assumption |]. right. left. auto.
      + rewrite Hafter in Hj by assumption.
        destruct (Hskipped j s Hj) as [Hname Hsk].
        split; [assumption |]. right. right. split; [assumption | lia]. }
  assert (Hexcl : ∀ s, failing s → sr_Status s ≠ "pass" ∧ sr_Status s ≠ "skipped").
  { intros s [H|H]; rewrite H; split; discriminate. }
  split; [congruence |]. split.
  { destruct Hcases as [[-> _]|(n & -> & Hn & _)]; [left; reflexivity |].
    right. simpl. lia. }
  split; [exact Hclass |]. split; [| split].
  - intros j s j' s' Hj Hfail Hlt Hj'.
    destruct (Hclass j s Hj) as [_ [[Hp _]|[[_ Hidx]|[Hs _]]]];
      try (destruct (Hexcl s Hfail); congruence).
    destruct (Hclass j' s' Hj') as [_ [[_ Hp]|[[_ Hidx']|[Hs _]]]];
      [lia | lia | assumption].
  - intros Hf.
    destruct Hcases as [[-> _]|(n & -> & Hn & _ & Hat & _)]; [lia |].
    simpl in *. rewrite Nat2Z.id.
    destruct Hat as (s & Hs & _ & Hfail).
    exists s. split; [assumption |]. split; [assumption |].
    intros j s' Hj Hfail'.
    destruct (Hclass j s' Hj) as [_ [[Hp _]|[[_ Hidx]|[Hs' _]]]];
      try (destruct (Hexcl s' Hfail'); congruence). lia.
  - intros Hf.
    rewrite (check_loop_stops world X e (ResolvePackages e packages) steps 0
               rr0 results0 w2 (Z.to_nat f1));
      [now rewrite Hloop |].
    rewrite Hloop. simpl. lia.
Qed.

End CheckTheorem.

(** ** The test-driver adapter *)

Section TestAdapterFacts.
Import Strings Workflow.
Variable decode : string → option test2jsonEvent.

(** What one event does to the counters and to the status. *)
Lemma on_event_counters (s : parser) (ev : test2jsonEvent) :
  p_Passed (on_event s ev) = p_Passed s + bump (counted "pass" ev)
  ∧ p_Failed (on_event s ev) = p_Failed s + bump (counted "fail" ev)
  ∧ p_Skipped (on_event s ev) = p_Skipped s + bump (counted "skip" ev)
  ∧ p_Total (on_event s ev)
    = p_Total s + bump (counted "pass" ev) + bump (counted "fail" ev)
      + bump (counted "skip" ev)
  ∧ p_Status (on_event s ev) = (if marks_failure ev then "FAIL" else p_Status s).
Proof.
  unfold on_event, counted, marks_failure, bump.
  destruct (String.eqb_spec (ev_Action ev) "output") as [Ha|_];
    [rewrite Ha; simpl; destruct (String.eqb (ev_Test ev) ""); simpl;
     repeat split; lia |].
  destruct (String.eqb_spec (ev_Action ev) "pass") as [Ha|_];
    [rewrite Ha; simpl; destruct (String.eqb (ev_Test ev) ""); simpl;
     repeat split; lia |].
  destruct (String.eqb_spec (ev_Action ev) "fail") as [Ha|_];
    [rewrite Ha; simpl; destruct (String.eqb (ev_Test ev) ""); simpl;
     [destruct (String.eqb (ev_Package ev) ""); simpl |]; repeat split; lia |].
  destruct (String.eqb_spec (ev_Action ev) "skip") as [Ha|_];
    [rewrite Ha; simpl; destruct (String.eqb (ev_Test ev) ""); simpl;
     repeat split; lia |].
  destruct (String.eqb_spec (ev_Action ev) "build-output") as [Ha|_];
    [rewrite Ha; simpl;
     destruct (String.eqb (if String.eqb (ev_ImportPath ev) "" then ev_Package ev
                           else ev_ImportPath ev) ""); simpl;
     repeat split; lia |].
  destruct (String.eqb_spec (ev_Action ev) "build-fail") as [Ha|_];
    [try rewrite Ha; simpl; repeat split; lia |].
  simpl. repeat split; lia.
Qed.

Lemma on_line_event (s : parser) (line : string) :
  on_line decode s line
  = match event_of decode line with
    | Some ev => on_event s ev
    | None => s
    end.
Proof.
  unfold on_line, event_of.
  destruct (String.eqb (TrimSpace line) ""); [reflexivity |].
  destruct (decode (TrimSpace line)); reflexivity.
Qed.

Lemma filter_length_cons {A : Type} (f : A → bool) (x : A) (l : list A) :
  Z.of_nat (length (List.filter f (x :: l)))
  = bump (f x) + Z.of_nat (length (List.filter f l)).
Proof. simpl. unfold bump. destruct (f x); simpl; lia. Qed.

(** The loop over the lines, from any state: the counters grow by the number
    of events of their kind, and the status is FAIL when it was, or when an
    event marks a failure. *)
Lemma fold_lines_counters (lines : list string) (s : parser) :
  let evs := omap (event_of decode) lines in
  let s' := fold_left (on_line decode) lines s in
  p_Passed s' = p_Passed s + count_of "pass" evs
  ∧ p_Failed s' = p_Failed s + count_of "fail" evs
  ∧ p_Skipped s' = p_Skipped s + count_of "skip" evs
  ∧ p_Total s'
    = p_Total s + count_of "pass" evs + count_of "fail" evs + count_of "skip" evs
  ∧ p_Status s' = (if existsb marks_failure evs then "FAIL" else p_Status s).
Proof.
  revert s. induction lines as [|line lines IH]; intros s; cbv zeta.
  - unfold count_of. simpl. repeat split; lia.
  - simpl fold_left. rewrite on_line_event.
    change (omap (event_of decode) (line :: lines))
      with (match event_of decode line with
            | Some ev => ev :: omap (event_of decode) lines
            | None => omap (event_of decode) lines
            end).
    destruct (event_of decode line) as [ev|].
    + destruct (IH (on_event s ev)) as (Hp & Hf & Hs & Ht & Hst).
      destruct (on_event_counters s ev) as (Ep & Ef & Es & Et & Est).
      unfold count_of in *. rewrite !filter_length_cons.
      rewrite Hp, Hf, Hs, Ht, Hst, Ep, Ef, Es, Et, Est.
      simpl existsb. destruct (marks_failure ev); simpl.
      * repeat split; try lia. now destruct (existsb marks_failure _).
      * repeat split; lia.
    + apply IH.
Qed.

Lemma fold_lines_skip (l1 l2 : list string) (line : string) (s : parser) :
  event_of decode line = None →
  fold_left (on_line decode) (l1 ++ line :: l2) s
  = fold_left (on_line decode) (l1 ++ l2) s.
Proof.
  intros H. rewrite !fold_left_app. simpl. rewrite on_line_event, H. reflexivity.
Qed.

End TestAdapterFacts.

Section TestAdapterTheorem.
Import Strings Workflow.

(** C8, as the code has it.  For every input and every JSON decoder: the
    counters of the summary count the events of the input that carry a test
    name, ["pass"], ["fail"] and ["skip"] each in its counter and all three in
    the total; the status is FAIL exactly when some event is a ["fail"] with a
    test name or a package, or a ["build-fail"]; a ["fail"] with a package and
    no test name turns the status to FAIL and leaves the counters, and a
    ["fail"] with neither changes nothing; a line that is blank or is not
    valid JSON changes nothing at all. *)
Theorem parseTestOutput_counts (decode : string → option test2jsonEvent)
    (data : string) :
  let s := parseTestOutput decode data in
  let evs := events_of decode data in
  Passed s = count_of "pass" evs
  ∧ Failed s = count_of "fail" evs
  ∧ Skipped s = count_of "skip" evs
  ∧ Total s = count_of "pass" evs + count_of "fail" evs + count_of "skip" evs
  ∧ Status s = (if existsb marks_failure evs then "FAIL" else "PASS")
  ∧ (∀ st ev, ev_Action ev = "fail" → ev_Test ev = "" → ev_Package ev ≠ "" →
       p_Status (on_event st ev) = "FAIL"
       ∧ p_Total (on_event st ev) = p_Total st
       ∧ p_Passed (on_event st ev) = p_Passed st
       ∧ p_Failed (on_event st ev) = p_Failed st
       ∧ p_Skipped (on_event st ev) = p_Skipped st)
  ∧ (∀ st ev, ev_Action ev = "fail" → ev_Test ev = "" → ev_Package ev = "" →
       on_event st ev = st)
  ∧ (∀ st line, event_of decode line = None → on_line decode st line = st)
  ∧ (∀ before after line, event_of decode line = None →
       parse_lines decode (before ++ line :: after)
       = parse_lines decode (before ++ after)).
Proof.
  cbv zeta. unfold parseTestOutput, events_of, parse_lines.
  destruct (fold_lines_counters decode (Split data newline) parser_start)
    as (Hp & Hf & Hs & Ht & Hst).
  simpl in *. rewrite Hp, Hf, Hs, Ht, Hst.
  repeat split; try lia.
  - destruct (on_event_counters st ev) as (_ & _ & _ & _ & E). rewrite E.
    unfold marks_failure. rewrite H, H0. simpl.
    destruct (String.eqb_spec (ev_Package ev) ""); [contradiction | reflexivity].
  - destruct (on_event_counters st ev) as (_ & _ & _ & E & _). rewrite E.
    unfold counted. rewrite H, H0. simpl. lia.
  - destruct (on_event_counters st ev) as (E & _). rewrite E.
    unfold counted. rewrite H. simpl. lia.
  - destruct (on_event_counters st ev) as (_ & E & _). rewrite E.
    unfold counted. rewrite H, H0. simpl. lia.
  - destruct (on_event_counters st ev) as (_ & _ & E & _). rewrite E.
    unfold counted. rewrite H. simpl. lia.
  - intros st ev Ha Ht' Hpk. unfold on_event. rewrite Ha, Ht', Hpk. reflexivity.
  - intros st line Hl. rewrite on_line_event, Hl. reflexivity.
  - intros before after line Hl. now apply fold_lines_skip.
Qed.

End TestAdapterTheorem.

(** ** The coverage adapter *)

Section CoverageFacts.
Import Strings Workflow.

Lemma digits_fold_nonneg (l : list nat) (acc : Z) :
  0 ≤ acc → 0 ≤ fold_left (λ acc d, 10 * acc + Z.of_nat (d - 48)) l acc.
Proof.
  revert acc. induction l as [|d l IH]; intros acc Hacc; simpl; [exact Hacc |].
  apply IH. lia.
Qed.

Lemma digits_value_nonneg (s : string) : 0 ≤ digits_value s.
Proof. unfold digits_value. apply digits_fold_nonneg. lia. Qed.

Lemma decimal_value_nonneg (whole frac : string) :
  (0 <= decimal_value whole frac)%Q.
Proof.
  unfold decimal_value, Qle. simpl.
  pose proof (digits_value_nonneg (whole +:+ frac)). lia.
Qed.

(** Rounding to the nearest integer does not go below the integer part. *)
Lemma round_half_even_floor (n d : Z) : n / d ≤ round_half_even n d.
Proof.
  unfold round_half_even.
  destruct (2 * (n mod d) <? d); [lia |].
  destruct (d <? 2 * (n mod d)); [lia |].
  destruct (Z.even (n / d)); lia.
Qed.

(** The leading bit: [2^k ≤ n / d] for the exponent [k] found, when it is
    not negative. *)
Lemma leading_exponent_below (n d : Z) :
  0 < n → 0 < d → 0 ≤ leading_exponent n d →
  d * 2 ^ leading_exponent n d ≤ n.
Proof.
  intros Hn Hd. unfold leading_exponent.
  set (k := Z.log2 n - Z.log2 d).
  destruct (Z.leb_spec (d * 2 ^ Z.max 0 k) (n * 2 ^ Z.max 0 (- k))) as [Hle|Hgt].
  - intros Hk. rewrite Z.max_r in Hle by lia.
    rewrite Z.max_l in Hle by lia. simpl in Hle. lia.
  - intros Hk.
    destruct (Z.log2_spec n Hn) as [Hn1 _].
    destruct (Z.log2_spec d Hd) as [_ Hd2].
    pose proof (Z.log2_nonneg d) as Hd0.
    assert (Hpow : 2 ^ Z.succ (Z.log2 d) * 2 ^ (k - 1) = 2 ^ Z.log2 n).
    { rewrite <- Z.pow_add_r by lia. f_equal. unfold k. lia. }
    assert (Hpos : 0 < 2 ^ (k - 1)) by (apply Z.pow_pos_nonneg; lia).
    nia.
Qed.

(** The nearest [float64] of a number is at least every whole number up to
    [2^53] that the number is at least: such a whole number is a multiple of
    the unit in the last place, or lies below the leading bit. *)
Lemma nearest_float64_floor (v : Q) (c : Z) :
  0 ≤ c ≤ 2 ^ 53 → (inject_Z c <= v)%Q → (inject_Z c <= nearest_float64 v)%Q.
Proof.
  intros Hc Hv. unfold Qle in Hv. simpl in Hv.
  unfold nearest_float64.
  set (n := Qnum v) in *. set (d := Z.pos (Qden v)) in *.
  assert (Hd : 0 < d) by (unfold d; lia).
  destruct (Z.leb_spec n 0) as [Hn|Hn].
  { unfold Qle. simpl. nia. }
  set (u := Z.max (leading_exponent n d - 52) (-1074)).
  destruct (Z.le_gt_cases u 0) as [Hu|Hu].
  - rewrite (Z.max_l 0 u) by lia. rewrite (Z.max_r 0 (- u)) by lia.
    assert (Hp : 0 < 2 ^ (- u)) by (apply Z.pow_pos_nonneg; lia).
    pose proof (round_half_even_floor (n * 2 ^ (- u)) (d * 2 ^ 0)) as Hm.
    assert (Hfl : c * 2 ^ (- u) ≤ n * 2 ^ (- u) / (d * 2 ^ 0)).
    { apply Z.div_le_lower_bound; [simpl; lia |]. simpl. nia. }
    unfold Qle. simpl Qnum. simpl Qden.
    rewrite Z2Pos.id by exact Hp. simpl (2 ^ 0) in *. lia.
  - rewrite (Z.max_r 0 u) by lia. rewrite (Z.max_l 0 (- u)) by lia.
    assert (Hu' : u = leading_exponent n d - 52) by (unfold u in *; lia).
    assert (Hp : 0 < 2 ^ u) by (apply Z.pow_pos_nonneg; lia).
    pose proof (leading_exponent_below n d Hn Hd ltac:(lia)) as Hlead.
    assert (Hsplit : 2 ^ leading_exponent n d = 2 ^ u * 2 ^ 52).
    { rewrite <- Z.pow_add_r by lia. f_equal. lia. }
    pose proof (round_half_even_floor (n * 2 ^ 0) (d * 2 ^ u)) as Hm.
    assert (Hfl : 2 ^ 52 ≤ n * 2 ^ 0 / (d * 2 ^ u)).
    { apply Z.div_le_lower_bound; [nia |]. simpl (2 ^ 0). nia. }
    assert (Htwo : 2 ≤ 2 ^ u).
    { change 2 with (2 ^ 1) at 1. apply Z.pow_le_mono_r; lia. }
    unfold Qle. simpl Qnum. simpl Qden.
    assert (H53 : 2 ^ 53 = 2 ^ 52 * 2) by reflexivity.
    nia.
Qed.

Lemma ParseFloat_range (whole frac : string) (v : Q) :
  ParseFloat whole frac = Some v →
  v = nearest_float64 (decimal_value whole frac)
  ∧ (decimal_value whole frac < inject_Z float64_overflow)%Q
  ∧ (0 <= v)%Q
  ∧ (∀ c : Z, 0 ≤ c ≤ 2 ^ 53 →
       (inject_Z c <= decimal_value whole frac)%Q → (inject_Z c <= v)%Q).
Proof.
  unfold ParseFloat. intros H.
  destruct (Qle_bool (inject_Z float64_overflow) (decimal_value whole frac)) eqn:E;
    [discriminate |].
  inversion H; subst. split; [reflexivity |].
  split.
  { apply Qnot_le_lt. intros Hle. apply Qle_bool_iff in Hle. congruence. }
  split.
  - apply (nearest_float64_floor _ 0); [lia |]. apply decimal_value_nonneg.
  - intros c Hc Hle. now apply nearest_float64_floor.
Qed.

Lemma ParseFloat_in_range (whole frac : string) :
  (decimal_value whole frac < inject_Z float64_overflow)%Q →
  ParseFloat whole frac = Some (nearest_float64 (decimal_value whole frac)).
Proof.
  intros Hlt. unfold ParseFloat.
  destruct (Qle_bool (inject_Z float64_overflow) (decimal_value whole frac)) eqn:E;
    [| reflexivity].
  apply Qle_bool_iff in E. apply Qle_not_lt in E. contradiction.
Qed.

Lemma ParseFloat_overflow (whole frac : string) :
  ParseFloat whole frac = None
  ↔ (inject_Z float64_overflow <= decimal_value whole frac)%Q.
Proof.
  unfold ParseFloat.
  destruct (Qle_bool (inject_Z float64_overflow) (decimal_value whole frac)) eqn:E.
  - split; [intros _; now apply Qle_bool_iff | reflexivity].
  - split; [discriminate |]. intros H. apply Qle_bool_iff in H. congruence.
Qed.

Lemma cover_line_emits (P : Report.CoverageEntry → Prop)
    (entries : list Report.CoverageEntry) (line : string) :
  Forall P entries →
  (∀ file func whole frac v,
     match_line false (TrimSpace line) = Some (file, (func, (whole, frac))) →
     ParseFloat whole frac = Some v → file ≠ "total" →
     P {| Report.ce_Package := derivePackageFromFile file;
          Report.ce_File := file; Report.ce_Function := func;
          Report.ce_Coverage := v |}) →
  Forall P (cover_line entries line).
Proof.
  intros Hent Hnew. unfold cover_line.
  destruct (String.eqb (TrimSpace line) ""); [exact Hent |].
  destruct (match_line false (TrimSpace line)) as [[file [func [whole frac]]]|]
    eqn:Em; [| exact Hent].
  destruct (ParseFloat whole frac) as [v|] eqn:Ev; [| exact Hent].
  destruct (String.eqb_spec file "total"); [exact Hent |].
  apply Forall_app. split; [exact Hent |].
  constructor; [| constructor]. now apply (Hnew file func whole frac v).
Qed.

Lemma cover_fold_emits (data : string) (lines : list string)
    (entries : list Report.CoverageEntry) :
  (∀ line, line ∈ lines → line ∈ Split data newline) →
  Forall (emitted data) entries →
  Forall (emitted data) (fold_left cover_line lines entries).
Proof.
  revert entries. induction lines as [|line lines IH]; intros entries Hin Hent;
    simpl; [exact Hent |].
  apply IH.
  - intros l Hl. apply Hin. now right.
  - apply cover_line_emits; [exact Hent |].
    intros file func whole frac v Hm Hv Hf.
    destruct (ParseFloat_range whole frac v Hv) as (-> & Hlt & H0 & Hfloor).
    exists line, whole, frac. simpl.
    split; [apply Hin; now left |]. split; [exact Hm |].
    split; [exact Hf |]. split; [reflexivity |]. split; [reflexivity |].
    split; [exact Hlt |]. split; [exact H0 | exact Hfloor].
Qed.

(** The loop only appends. *)
Lemma cover_line_app (entries : list Report.CoverageEntry) (line : string) :
  cover_line entries line = entries ++ cover_line [] line.
Proof.
  unfold cover_line.
  destruct (String.eqb (TrimSpace line) ""); [now rewrite app_nil_r |].
  destruct (match_line false (TrimSpace line)) as [[file [func [whole frac]]]|];
    [| now rewrite app_nil_r].
  destruct (ParseFloat whole frac) as [v|]; [| now rewrite app_nil_r].
  destruct (String.eqb file "total"); [now rewrite app_nil_r | reflexivity].
Qed.

Lemma cover_fold_app (lines : list string)
    (entries : list Report.CoverageEntry) :
  fold_left cover_line lines entries
  = entries ++ fold_left cover_line lines [].
Proof.
  revert entries. induction lines as [|line lines IH]; intros entries; simpl.
  - now rewrite app_nil_r.
  - rewrite IH, (IH (cover_line [] line)), cover_line_app.
    now rewrite app_assoc.
Qed.

(** The adapter on the text of some lines of its input: what the loop gives
    on those lines. *)
Lemma parseCoverFunc_lines (lines : list string) :
  Forall (λ line, IndexByte line newline = -1) lines →
  parseCoverFunc (Join lines nl) = fold_left cover_line lines [].
Proof.
  intros Hlines. unfold parseCoverFunc.
  destruct lines as [|line lines]; [reflexivity |].
  unfold nl. rewrite Split_Join; [reflexivity | discriminate | exact Hlines].
Qed.

Lemma parseCoverFunc_line (line : string) :
  IndexByte line newline = -1 → parseCoverFunc line = cover_line [] line.
Proof.
  intros Hline. unfold parseCoverFunc. now rewrite Split_absent.
Qed.

Lemma Forall_app_parts {A : Type} (P : A → Prop) (l1 l2 : list A) (x : A) :
  Forall P (l1 ++ x :: l2) → Forall P l1 ∧ P x ∧ Forall P l2.
Proof.
  intros H. apply Forall_app in H. destruct H as [H1 H2].
  inversion H2; subst. auto.
Qed.

(** C7, as the code has it.  Every entry the adapter emits comes from a line
    that matches the pattern and is not the total line, and carries the
    [float64] nearest to that line's numeral: a number that is at least
    zero, since the pattern admits unsigned numerals only, and that nothing
    bounds by 100 (a numeral of 101 or more gives 101 or more).  Conversely
    the lines are read one by one and in order, each on its own; a line that
    the pattern matches, that is not the total line and whose numeral is in
    the range of [float64] gives its entry, whatever its percentage; and a
    line gives nothing only when the pattern does not match it, when it is
    the total line, or when its numeral is out of that range. *)
Theorem parseCoverFunc_entries (data : string) :
  Forall (emitted data) (parseCoverFunc data)
  ∧ (∀ before line after,
       Split data newline = before ++ line :: after →
       parseCoverFunc data
       = parseCoverFunc (Join before nl) ++ parseCoverFunc line
           ++ parseCoverFunc (Join after nl))
  ∧ (∀ line file func whole frac,
       IndexByte line newline = -1 →
       match_line false (TrimSpace line) = Some (file, (func, (whole, frac))) →
       file ≠ "total" →
       (decimal_value whole frac < inject_Z float64_overflow)%Q →
       parseCoverFunc line = [cover_entry file func whole frac])
  ∧ (∀ line,
       IndexByte line newline = -1 →
       parseCoverFunc line = [] →
       match_line false (TrimSpace line) = None
       ∨ ∃ file func whole frac,
           match_line false (TrimSpace line) = Some (file, (func, (whole, frac)))
           ∧ (file = "total"
              ∨ (inject_Z float64_overflow <= decimal_value whole frac)%Q)).
Proof.
  split; [| split; [| split]].
  - unfold parseCoverFunc. apply cover_fold_emits; [auto | constructor].
  - intros before line after Hsplit.
    pose proof (Split_pieces_plain data newline) as Hplain.
    rewrite Hsplit in Hplain.
    apply Forall_app_parts in Hplain. destruct Hplain as (Hb & Hl & Ha).
    rewrite (parseCoverFunc_lines before Hb), (parseCoverFunc_lines after Ha),
      (parseCoverFunc_line line Hl).
    unfold parseCoverFunc at 1. rewrite Hsplit, fold_left_app. simpl.
    rewrite cover_fold_app, cover_line_app. now rewrite <- app_assoc.
  - intros line file func whole frac Hline Hm Hfile Hrange.
    rewrite (parseCoverFunc_line line Hline). unfold cover_line.
    destruct (String.eqb_spec (TrimSpace line) "") as [E|_].
    { rewrite E in Hm. discriminate. }
    rewrite Hm, (ParseFloat_in_range whole frac Hrange).
    destruct (String.eqb_spec file "total"); [contradiction | reflexivity].
  - intros line Hline. rewrite (parseCoverFunc_line line Hline).
    unfold cover_line.
    destruct (String.eqb_spec (TrimSpace line) "") as [E|_].
    { intros _. left. now rewrite E. }
    destruct (match_line false (TrimSpace line)) as [[file [func [whole frac]]]|]
      eqn:Em; [| now left].
    intros H. right. exists file, func, whole, frac. split; [reflexivity |].
    destruct (ParseFloat whole frac) as [v|] eqn:Ev.
    + destruct (String.eqb_spec file "total"); [now left | discriminate].
    + right. now apply ParseFloat_overflow.
Qed.

End CoverageFacts.

(** ** The result store: the cache *)

Section CacheFacts.
Import Strings Report.

Lemma remove_notin (k : string) (l : list string) : k ∉ l → remove k l = l.
Proof.
  induction l as [|x l IH]; intros Hk; [reflexivity |].
  apply not_elem_of_cons in Hk. destruct Hk as [Hne Hk].
  unfold remove in *. rewrite filter_cons_True by congruence.
  now rewrite IH.
Qed.

Lemma remove_head (k : string) (l : list string) :
  remove k (k :: l) = remove k l.
Proof.
  unfold remove. apply filter_cons_False. intros H. now apply H.
Qed.

Lemma remove_other (k x : string) (l : list string) :
  x ≠ k → remove k (x :: l) = x :: remove k l.
Proof. intros H. unfold remove. now apply filter_cons_True. Qed.

Lemma elem_of_remove (k x : string) (l : list string) :
  x ∈ remove k l ↔ x ≠ k ∧ x ∈ l.
Proof. unfold remove. apply (list_elem_of_filter (λ y, y ≠ k)). Qed.

Lemma NoDup_remove (k : string) (l : list string) : NoDup l → NoDup (remove k l).
Proof. apply NoDup_filter. Qed.

Lemma length_remove_in (k : string) (l : list string) :
  k ∈ l → (length (remove k l) < length l)%nat.
Proof.
  induction l as [|x l IH]; intros Hk; [now apply elem_of_nil in Hk |].
  destruct (decide (x = k)) as [->|Hne].
  - rewrite remove_head. simpl.
    pose proof (length_filter (λ y, y ≠ k) l). unfold remove. lia.
  - rewrite remove_other by assumption. simpl.
    apply elem_of_cons in Hk. destruct Hk as [->|Hk]; [contradiction |].
    specialize (IH Hk). lia.
Qed.

Lemma remove_last (t : string) (l : list string) :
  NoDup (l ++ [t]) → remove t (l ++ [t]) = l.
Proof.
  intros Hnd. apply NoDup_app in Hnd. destruct Hnd as (_ & Hdis & _).
  assert (Htl : t ∉ l).
  { intros Hin. apply (Hdis t Hin). now left. }
  unfold remove. rewrite filter_app.
  change (filter (λ k, k ≠ t) l ++ filter (λ k, k ≠ t) [t])
    with (remove t l ++ remove t [t]).
  rewrite remove_head, (remove_notin t l Htl).
  unfold remove. now rewrite filter_nil, app_nil_r.
Qed.

Lemma moveToFront_front (k : string) (l : list string) :
  NoDup l → moveToFront k l = k :: remove k l.
Proof.
  intros Hnd. unfold moveToFront, pushFront.
  destruct l as [|h t]; [reflexivity |].
  destruct (String.eqb_spec h k) as [->|Hne]; [| reflexivity].
  rewrite remove_head. inversion Hnd; subst.
  now rewrite remove_notin.
Qed.

(** The number of entries of the index is the length of the list. *)
Lemma size_items (s : LRUStore) : wf s → size (items s) = length (order s).
Proof.
  intros [Hnd Hdom _ _].
  rewrite <- size_dom, <- (size_list_to_set (C := gset string) (order s) Hnd).
  f_equal. apply set_eq. intros k.
  rewrite elem_of_dom, elem_of_list_to_set. symmetry. apply Hdom.
Qed.

(** Putting a result in the cache: the key comes first, the keys after it
    keep their order, and what does not fit the capacity falls off the end. *)
Lemma cache_put_spec (s : LRUStore) (k : string) (r : RunResult) :
  wf s →
  wf (cache_put s k r)
  ∧ order (cache_put s k r) = take (Z.to_nat (cap s)) (k :: remove k (order s))
  ∧ items (cache_put s k r) !! k = Some r
  ∧ cap (cache_put s k r) = cap s
  ∧ back (cache_put s k r) = back s.
Proof.
  intros Hwf. pose proof (size_items s Hwf) as Hsize.
  destruct Hwf as [Hnd Hdom Hcap Hlen].
  unfold cache_put. destruct (items s !! k) as [old|] eqn:Hk.
  - assert (Hin : k ∈ order s) by (apply Hdom; rewrite Hk; eauto).
    pose proof (length_remove_in k (order s) Hin) as Hlt.
    rewrite moveToFront_front by assumption. simpl.
    split; [| split; [| split; [| split]]]; try reflexivity.
    + constructor; simpl.
      * constructor; [| now apply NoDup_remove].
        rewrite elem_of_remove. intros [Hne _]. now apply Hne.
      * intros k'. rewrite elem_of_cons, elem_of_remove.
        destruct (decide (k' = k)) as [->|Hne].
        -- rewrite lookup_insert_eq. split; eauto.
        -- rewrite lookup_insert_ne by congruence. rewrite <- Hdom. tauto.
      * assumption.
      * lia.
    + rewrite take_ge; [reflexivity |]. simpl. lia.
    + apply lookup_insert_eq.
  - assert (Hnotin : k ∉ order s).
    { intros Hin. apply Hdom in Hin. rewrite Hk in Hin. now destruct Hin. }
    rewrite (remove_notin k (order s) Hnotin).
    rewrite map_size_insert_None by assumption. rewrite Hsize.
    unfold pushFront.
    destruct (Z.ltb_spec (cap s) (Z.of_nat (S (length (order s))))) as [Hfull|Hroom].
    + assert (Hc : Z.to_nat (cap s) = length (order s)) by lia.
      destruct (order s) as [|x l] eqn:Eo using rev_ind; [simpl in *; lia |].
      clear IHl. rename x into t.
      unfold evict. replace (last (k :: l ++ [t])) with (Some t)
        by (symmetry; change (k :: l ++ [t]) with ((k :: l) ++ [t]); apply last_snoc).
      assert (Htk : t ≠ k).
      { intros ->. apply Hnotin. apply elem_of_app. right. now left. }
      assert (Hnd' : NoDup (l ++ [t])) by assumption.
      pose proof Hnd' as Hnd2. apply NoDup_app in Hnd2.
      destruct Hnd2 as (Hndl & Hdis & _).
      assert (Htl : t ∉ l).
      { intros Hin. apply (Hdis t Hin). now left. }
      simpl.
      rewrite remove_other by congruence. rewrite remove_last by assumption.
      split; [| split; [| split; [| split]]]; try reflexivity.
      * constructor; simpl.
        -- constructor; [| assumption].
           intros Hin. apply Hnotin. apply elem_of_app. now left.
        -- intros k'. rewrite elem_of_cons.
           destruct (decide (k' = t)) as [->|Hne].
           ++ rewrite lookup_delete_eq. split.
              ** intros [E|Hin]; [congruence | contradiction].
              ** intros [? E]. discriminate.
           ++ rewrite lookup_delete_ne by congruence.
              destruct (decide (k' = k)) as [->|Hne'].
              ** rewrite lookup_insert_eq. split; eauto.
              ** rewrite lookup_insert_ne by congruence. rewrite <- Hdom.
                 rewrite elem_of_app, list_elem_of_singleton. tauto.
        -- assumption.
        -- rewrite length_app in Hc. simpl in *. lia.
      * rewrite Hc. rewrite length_app. simpl.
        replace (length l + 1)%nat with (S (length l)) by lia. simpl.
        now rewrite take_app_length.
      * rewrite lookup_delete_ne by congruence. apply lookup_insert_eq.
    + simpl. split; [| split; [| split; [| split]]]; try reflexivity.
      * constructor; simpl.
        -- now constructor.
        -- intros k'. rewrite elem_of_cons.
           destruct (decide (k' = k)) as [->|Hne'].
           ++ rewrite lookup_insert_eq. split; eauto.
           ++ rewrite lookup_insert_ne by congruence. rewrite <- Hdom. tauto.
        -- assumption.
        -- lia.
      * rewrite take_ge; [reflexivity |]. simpl. lia.
      * apply lookup_insert_eq.
Qed.

(** The index after a put: the new entry, and entries it had before. *)
Lemma cache_put_items (s : LRUStore) (k k' : string) (r x : RunResult) :
  items (cache_put s k r) !! k' = Some x →
  (k' = k ∧ x = r) ∨ items s !! k' = Some x.
Proof.
  assert (Hins : ∀ m : gmap string RunResult,
            <[k := r]> m !! k' = Some x → (k' = k ∧ x = r) ∨ m !! k' = Some x).
  { intros m H. destruct (decide (k' = k)) as [->|Hne].
    - rewrite lookup_insert_eq in H. left. split; congruence.
    - rewrite lookup_insert_ne in H by congruence. now right. }
  unfold cache_put. destruct (items s !! k) as [old|]; [apply Hins |].
  destruct (cap s <? _).
  - unfold evict. destruct (last _) as [t|]; simpl; [| apply Hins].
    intros H. apply lookup_delete_Some in H. destruct H as [_ H].
    now apply Hins.
  - apply Hins.
Qed.

(** A hit moves the entry to the front and leaves the cache well formed. *)
Lemma moveToFront_wf (s : LRUStore) (k : string) (x : RunResult) :
  wf s → items s !! k = Some x →
  wf {| cap := cap s; back := back s; order := moveToFront k (order s);
        items := items s |}.
Proof.
  intros [Hnd Hdom Hcap Hlen] Hk.
  assert (Hin : k ∈ order s) by (apply Hdom; rewrite Hk; eauto).
  pose proof (length_remove_in k (order s) Hin) as Hlt.
  constructor; simpl; rewrite ?moveToFront_front by assumption.
  - constructor; [| now apply NoDup_remove].
    rewrite elem_of_remove. intros [Hne _]. now apply Hne.
  - intros k'. rewrite elem_of_cons, elem_of_remove, <- Hdom.
    destruct (decide (k' = k)) as [->|Hne]; [tauto |]. tauto.
  - assumption.
  - simpl. lia.
Qed.

Lemma NewLRUStore_wf (c : Z) (b : DiskStore) : wf (NewLRUStore c b).
Proof.
  unfold NewLRUStore. constructor; simpl.
  - constructor.
  - intros k. rewrite lookup_empty. split.
    + intros H. now apply elem_of_nil in H.
    + intros [? H]. discriminate.
  - destruct (Z.ltb_spec c 1); lia.
  - destruct (Z.ltb_spec c 1); lia.
Qed.

End CacheFacts.

(** ** The result store: paths of the stored files *)

Section StorePaths.
Import Strings Filepath Report.

Lemma Split_app (x y : string) (c : ascii) :
  Split (x +:+ String c y) c = Split x c ++ Split y c.
Proof.
  induction x as [|a x IH]; simpl.
  - now rewrite eqb_ascii_refl.
  - destruct (Ascii.eqb a c); [now rewrite IH |].
    rewrite IH. pose proof (Split_head_cons x c) as Hne.
    destruct (Split x c); [contradiction | reflexivity].
Qed.

Lemma Join_snoc_inj (l : list string) (a b sep : string) :
  Strings.Join (l ++ [a]) sep = Strings.Join (l ++ [b]) sep → a = b.
Proof.
  induction l as [|x l IH]; simpl; [auto |].
  destruct l as [|y l]; simpl in *.
  - intros H. apply app_inv_head_str in H. now apply app_inv_head_str in H.
  - intros H. apply app_inv_head_str in H. apply app_inv_head_str in H.
    now apply IH.
Qed.

(** The name of a result's file is a plain path element. *)
Lemma json_name_plain (id : string) :
  file_name id → plain (id +:+ ".json").
Proof.
  intros Hid. unfold plain.
  assert (Hlen : (5 ≤ String.length (id +:+ ".json"))%nat)
    by (rewrite length_app_str; simpl; lia).
  repeat split.
  - intros E. rewrite E in Hlen. simpl in Hlen. lia.
  - intros E. rewrite E in Hlen. simpl in Hlen. lia.
  - intros E. rewrite E in Hlen. simpl in Hlen. lia.
  - now apply IndexByte_app_absent.
Qed.

Lemma plain_relative (x : string) : plain x → IsAbs x = false.
Proof.
  intros (Hne & _ & _ & Hsep). destruct x as [|a x]; [reflexivity |].
  apply IndexByte_cons_absent in Hsep. destruct Hsep as [Ha _].
  unfold IsAbs. cbn [HasPrefix].
  destruct (Ascii.eqb_spec "/"%char a); [| reflexivity].
  subst. now contradiction Ha.
Qed.

(** Cleaning a path that ends in a plain element keeps that element last. *)
Lemma Clean_snoc (l : list string) (rooted : bool) (name : string) :
  plain name →
  let out := (if rooted then "/" else "")
             +:+ Strings.Join (rev (fold_left (clean_step rooted) (l ++ [name]) [])) "/" in
  (if String.eqb out "" then "." else out)
  = (if rooted then "/" else "")
    +:+ Strings.Join (rev (fold_left (clean_step rooted) l []) ++ [name]) "/".
Proof.
  intros Hname. cbv zeta. rewrite fold_left_app. simpl fold_left.
  rewrite clean_step_plain by assumption. simpl rev.
  set (E := rev (fold_left (clean_step rooted) l [])).
  assert (Hne : Strings.Join (E ++ [name]) "/" ≠ "").
  { destruct Hname as (Hn & _). destruct E as [|x E]; simpl; [assumption |].
    destruct (E ++ [name]) eqn:Eq; [now destruct E |].
    destruct x; discriminate. }
  destruct rooted; simpl; [reflexivity |].
  destruct (Strings.Join (E ++ [name]) "/"); [contradiction | reflexivity].
Qed.

(** The path of a result's file: a part that depends on the directory only,
    then the file's name. *)
Lemma result_path_shape (d : string) :
  ∃ (pre : string) (E : list string),
    ∀ id, file_name id →
      result_path d id = pre +:+ Strings.Join (E ++ [id +:+ ".json"]) "/".
Proof.
  destruct (String.eqb_spec d "") as [->|Hd].
  - exists "", []. intros id Hid.
    pose proof (json_name_plain id Hid) as Hplain.
    assert (Hne : id +:+ ".json" ≠ "") by apply Hplain.
    unfold result_path. simpl Filepath.Join.
    destruct (String.eqb_spec (id +:+ ".json") ""); [contradiction |].
    unfold Clean, clean_elems, Separator. rewrite (plain_relative _ Hplain).
    rewrite Split_absent by apply Hplain.
    apply (Clean_snoc [] false _ Hplain).
  - exists (if IsAbs d then "/" else ""),
           (rev (fold_left (clean_step (IsAbs d)) (Split d "/") [])).
    intros id Hid.
    pose proof (json_name_plain id Hid) as Hplain.
    unfold result_path. simpl Filepath.Join.
    destruct (String.eqb_spec d ""); [contradiction |].
    assert (Habs : IsAbs (d +:+ String "/" (id +:+ ".json")) = IsAbs d).
    { destruct d; [contradiction | reflexivity]. }
    unfold Clean, clean_elems, Separator. rewrite Habs.
    rewrite Split_app, (Split_absent (id +:+ ".json")) by apply Hplain.
    apply (Clean_snoc _ _ _ Hplain).
Qed.

(** Two run identifiers that name files have different files. *)
Lemma result_path_inj (d id1 id2 : string) :
  file_name id1 → file_name id2 →
  result_path d id1 = result_path d id2 → id1 = id2.
Proof.
  intros H1 H2 Heq. destruct (result_path_shape d) as (pre & E & Hshape).
  rewrite (Hshape id1 H1), (Hshape id2 H2) in Heq.
  apply app_inv_head_str in Heq. apply Join_snoc_inj in Heq.
  now apply app_inv_tail_str in Heq.
Qed.

Lemma NoDup_paths (d : string) (rs : list RunResult) :
  NoDup (map ID rs) → Forall (λ x, file_name (ID x)) rs →
  NoDup (map (λ x, result_path d (ID x)) rs).
Proof.
  induction rs as [|r rs IH]; intros Hnd Hfn; simpl; [constructor |].
  inversion Hnd as [|? ? Hnotin Hnd']; subst.
  inversion Hfn as [|? ? Hr Hrest]; subst.
  constructor; [| now apply IH].
  intros Hin. apply Hnotin.
  apply list_elem_of_fmap in Hin. destruct Hin as (x & Hpath & Hx).
  apply list_elem_of_fmap. exists x. split; [| assumption].
  rewrite Forall_forall in Hrest.
  apply (result_path_inj d); auto.
Qed.

End StorePaths.

(** ** The result store: save, evict, load *)

Section StoreFacts.
Import Strings Report.
Variable json_Marshal : RunResult → option string.
Variable json_Unmarshal : string → option RunResult.

Local Abbreviation Save := (Report.Save json_Marshal) (only parsing).
Local Abbreviation Load := (Report.Load json_Unmarshal) (only parsing).
Local Abbreviation disk_Save := (Report.disk_Save json_Marshal) (only parsing).
Local Abbreviation disk_Load := (Report.disk_Load json_Unmarshal) (only parsing).
Local Abbreviation save_all := (Report.save_all json_Marshal) (only parsing).

Lemma take_remove_take (k : string) (l : list string) :
  ∀ n, NoDup l → take n (remove k (take (S n) l)) = take n (remove k l).
Proof.
  induction l as [|x l IH]; intros n Hnd; [reflexivity |].
  inversion Hnd as [|? ? Hx Hnd']; subst.
  change (take (S n) (x :: l)) with (x :: take n l).
  destruct (decide (x = k)) as [->|Hne].
  - rewrite !remove_head.
    rewrite (remove_notin k l Hx).
    rewrite remove_notin; [rewrite take_take; f_equal; lia |].
    intros Hin. apply Hx. exact (subseteq_take n l k Hin).
  - rewrite !remove_other by assumption.
    destruct n as [|n]; [reflexivity |].
    simpl take at 1. simpl take at 3. f_equal. now apply IH.
Qed.

Lemma touch_NoDup (l : list string) (k : string) : NoDup l → NoDup (touch l k).
Proof.
  intros Hnd. constructor; [| now apply NoDup_remove].
  rewrite elem_of_remove. intros [Hne _]. now apply Hne.
Qed.

(** The cache holds the keys accessed last, as many as fit. *)
Lemma cache_put_recent (s : LRUStore) (k : string) (r : RunResult)
    (l : list string) :
  wf s → NoDup l → order s = take (Z.to_nat (cap s)) l →
  order (cache_put s k r) = take (Z.to_nat (cap s)) (touch l k).
Proof.
  intros Hwf Hnd Hord.
  destruct (cache_put_spec s k r Hwf) as (_ & Ho & _).
  rewrite Ho, Hord. unfold touch.
  destruct Hwf as [_ _ Hcap _].
  destruct (Z.to_nat (cap s)) as [|n] eqn:Ec; [lia |].
  simpl take at 1. simpl take at 3. f_equal. now apply take_remove_take.
Qed.

Lemma Save_cache (s : LRUStore) (r : RunResult) :
  order (snd (Save s r)) = order (cache_put s (ID r) r)
  ∧ items (snd (Save s r)) = items (cache_put s (ID r) r)
  ∧ cap (snd (Save s r)) = cap (cache_put s (ID r) r)
  ∧ Save s r = (fst (disk_Save (back s) r),
                {| cap := cap (cache_put s (ID r) r);
                   back := snd (disk_Save (back s) r);
                   order := order (cache_put s (ID r) r);
                   items := items (cache_put s (ID r) r) |}).
Proof.
  unfold Report.Save.
  assert (Hb : back (cache_put s (ID r) r) = back s).
  { unfold cache_put. destruct (items s !! ID r); [reflexivity |].
    destruct (cap s <? _); [| reflexivity].
    destruct (evict _ _). reflexivity. }
  rewrite Hb. destruct (disk_Save (back s) r) as [err b]. simpl. auto.
Qed.

Lemma wf_back (s : LRUStore) (b : DiskStore) :
  wf s → wf {| cap := cap s; back := b; order := order s; items := items s |}.
Proof. intros [H1 H2 H3 H4]. constructor; assumption. Qed.

Lemma Save_wf (s : LRUStore) (r : RunResult) : wf s → wf (snd (Save s r)).
Proof.
  intros Hwf. destruct (Save_cache s r) as (_ & _ & _ & ->). simpl.
  destruct (cache_put_spec s (ID r) r Hwf) as ([H1 H2 H3 H4] & _).
  constructor; assumption.
Qed.

(** After [save(r)], [load(r.id)] returns [r]. *)
Lemma Load_after_Save (s : LRUStore) (r : RunResult) :
  wf s → fst (Load (snd (Save s r)) (ID r)) = inl r.
Proof.
  intros Hwf. destruct (Save_cache s r) as (_ & Hi & _).
  destruct (cache_put_spec s (ID r) r Hwf) as (_ & _ & Hk & _).
  unfold Report.Load. rewrite Hi, Hk. reflexivity.
Qed.

(** What a successful save leaves on the disk. *)
Lemma disk_Save_ok (b b' : DiskStore) (r : RunResult) :
  disk_Save b r = (None, b') →
  ∃ d data,
    effective_dir b = Some d ∧ effective_dir b' = Some d
    ∧ json_Marshal r = Some data
    ∧ files (fs b') = <[result_path d (ID r) := data]> (files (fs b)).
Proof.
  unfold Report.disk_Save, ensureDir, effective_dir.
  destruct (String.eqb_spec (dir b) "") as [Hd|Hd]; simpl.
  - destruct (mkdir_temp (fs b)) as [d|] eqn:Em; [| discriminate].
    simpl. destruct (json_Marshal r) as [data|]; [| discriminate].
    destruct (writable (fs b) _); [| discriminate].
    intros H. inversion H; subst. simpl. exists d, data.
    repeat split; auto.
    destruct (String.eqb_spec d ""); simpl; congruence.
  - destruct (json_Marshal r) as [data|]; [| discriminate].
    destruct (writable (fs b) _); [| discriminate].
    intros H. inversion H; subst. simpl. exists (dir b), data.
    repeat split; auto.
    destruct (String.eqb_spec (dir b) ""); [contradiction | reflexivity].
Qed.

(** A failed save leaves the files as they were. *)
Lemma disk_Save_files (b : DiskStore) (r : RunResult) (p : string) :
  (∀ d, effective_dir b = Some d → result_path d (ID r) ≠ p) →
  files (fs (snd (disk_Save b r))) !! p = files (fs b) !! p.
Proof.
  unfold Report.disk_Save, ensureDir, effective_dir.
  destruct (String.eqb_spec (dir b) "") as [Hd|Hd]; simpl.
  - destruct (mkdir_temp (fs b)) as [d|] eqn:Em; [| reflexivity].
    simpl. intros Hp. destruct (json_Marshal r) as [data|]; [| reflexivity].
    destruct (writable (fs b) _); [| reflexivity]. simpl.
    apply lookup_insert_ne. now apply Hp.
  - intros Hp. destruct (json_Marshal r) as [data|]; [| reflexivity].
    destruct (writable (fs b) _); [| reflexivity]. simpl.
    apply lookup_insert_ne. now apply Hp.
Qed.

Lemma disk_Load_found (b : DiskStore) (id d data : string) (r : RunResult) :
  effective_dir b = Some d →
  files (fs b) !! result_path d id = Some data →
  json_Unmarshal data = Some r →
  ∃ b', disk_Load b id = (inl r, b').
Proof.
  unfold Report.disk_Load, ensureDir, effective_dir.
  destruct (String.eqb_spec (dir b) "") as [Hd|Hd]; simpl.
  - intros -> Hf Hu. simpl. rewrite Hf, Hu. eauto.
  - intros E Hf Hu. inversion E; subst. rewrite Hf, Hu. eauto.
Qed.

(** Saving a list of results, as the cache sees it. *)
Lemma save_all_cache (rs : list RunResult) :
  ∀ (s s' : LRUStore) (errs : list (option store_error)) (l : list string),
    wf s → NoDup l → order s = take (Z.to_nat (cap s)) l →
    save_all s rs = (errs, s') →
    wf s' ∧ cap s' = cap s
    ∧ order s' = take (Z.to_nat (cap s)) (fold_left touch (map ID rs) l)
    ∧ NoDup (fold_left touch (map ID rs) l).
Proof.
  induction rs as [|r rs IH]; intros s s' errs l Hwf Hnd Hord Hsave.
  - simpl in Hsave. inversion Hsave; subst. simpl. auto.
  - simpl in Hsave.
    pose proof (Save_wf s r Hwf) as Hwf1.
    destruct (Save_cache s r) as (Ho & _ & Hc & _).
    destruct (cache_put_spec s (ID r) r Hwf) as (_ & _ & _ & Hcap & _).
    pose proof (cache_put_recent s (ID r) r l Hwf Hnd Hord) as Hrec.
    destruct (Save s r) as [err s1]. simpl in *.
    destruct (Report.save_all json_Marshal s1 rs) as [errs' s2] eqn:Erest.
    inversion Hsave; subst.
    assert (Hc1 : cap s1 = cap s) by congruence.
    destruct (IH s1 s' errs' (touch l (ID r)) Hwf1 (touch_NoDup l (ID r) Hnd))
      as (Hwf' & Hcap' & Hord' & Hnd').
    + rewrite Hc1, Ho. exact Hrec.
    + exact Erest.
    + simpl. rewrite Hc1 in *. auto.
Qed.

Lemma touch_fresh (ids l : list string) :
  NoDup (ids ++ l) → fold_left touch ids l = rev ids ++ l.
Proof.
  revert l. induction ids as [|k ids IH]; intros l Hnd; [reflexivity |].
  simpl in *. inversion Hnd as [|? ? Hk Hnd']; subst.
  unfold touch at 2. rewrite remove_notin.
  - rewrite IH; [now rewrite <- app_assoc |].
    apply NoDup_app in Hnd'. destruct Hnd' as (H1 & H2 & H3).
    apply NoDup_app. split; [assumption |]. split.
    + intros x Hx Hin. apply elem_of_cons in Hin. destruct Hin as [->|Hin].
      * apply Hk. apply elem_of_app. now left.
      * now apply (H2 x).
    + constructor; [| assumption].
      intros Hin. apply Hk. apply elem_of_app. now right.
  - intros Hin. apply Hk. apply elem_of_app. now right.
Qed.

(** Saving a list of results, as the disk sees it: when every save succeeds
    and the results go to different files, each file holds its result. *)
Lemma save_all_disk (rs : list RunResult) :
  ∀ (s s' : LRUStore) (errs : list (option store_error)) (d : string),
    save_all s rs = (errs, s') →
    Forall (λ e, e = None) errs →
    effective_dir (back s) = Some d →
    NoDup (map (λ x, result_path d (ID x)) rs) →
    effective_dir (back s') = Some d
    ∧ (∀ p, p ∉ map (λ x, result_path d (ID x)) rs →
         files (fs (back s')) !! p = files (fs (back s)) !! p)
    ∧ (∀ r, r ∈ rs →
         ∃ data, json_Marshal r = Some data
                 ∧ files (fs (back s')) !! result_path d (ID r) = Some data).
Proof.
  induction rs as [|r rs IH]; intros s s' errs d Hsave Hok Hdir Hnd.
  - simpl in Hsave. inversion Hsave; subst. repeat split; auto.
    intros r Hr. now apply elem_of_nil in Hr.
  - simpl in Hsave. destruct (Save_cache s r) as (_ & _ & _ & Hs).
    rewrite Hs in Hsave. clear Hs.
    destruct (disk_Save (back s) r) as [err b1] eqn:Ed. simpl in Hsave.
    match type of Hsave with
    | context [Report.save_all _ ?s1 rs] =>
        destruct (Report.save_all json_Marshal s1 rs) as [errs' s2] eqn:Erest
    end.
    inversion Hsave; subst. inversion Hok as [|? ? Herr Hok']; subst.
    destruct (disk_Save_ok _ _ _ Ed) as (d' & data & Hd1 & Hd2 & Hm & Hfiles).
    assert (d' = d) by congruence. subst d'.
    simpl in Hnd. inversion Hnd as [|? ? Hfresh Hnd']; subst.
    destruct (IH _ _ _ d Erest Hok' Hd2 Hnd') as (Hdir' & Hkeep & Hall).
    simpl in *. split; [assumption |]. split.
    + intros p Hp. apply not_elem_of_cons in Hp. destruct Hp as [Hp1 Hp2].
      rewrite Hkeep by assumption. rewrite Hfiles.
      apply lookup_insert_ne. congruence.
    + intros r' Hr'. apply elem_of_cons in Hr'. destruct Hr' as [->|Hr'].
      * exists data. split; [assumption |].
        rewrite Hkeep by assumption. rewrite Hfiles. apply lookup_insert_eq.
      * now apply Hall.
Qed.

Lemma NoDup_take_absent (l : list string) (n j : nat) (x : string) :
  NoDup l → l !! j = Some x → (n ≤ j)%nat → x ∉ take n l.
Proof.
  intros Hnd Hj Hn Hin.
  apply list_elem_of_lookup in Hin. destruct Hin as [i Hi].
  pose proof (lookup_lt_Some _ _ _ Hi) as Hlt. rewrite length_take in Hlt.
  rewrite lookup_take_lt in Hi by lia.
  assert (i = j) by (eapply NoDup_lookup; eauto). lia.
Qed.

Lemma lookup_map_Some {A B : Type} (f : A → B) (l : list A) :
  ∀ (i : nat) (x : A), l !! i = Some x → map f l !! i = Some (f x).
Proof.
  induction l as [|y l IH]; intros [|i] x H; try discriminate; simpl in *.
  - now inversion H.
  - now apply IH.
Qed.

(** An entry followed by [n] later ones is not among the [n] most recent. *)
Lemma old_entry_absent (l : list string) (n i : nat) (x : string) :
  NoDup l → l !! i = Some x → (i + n < length l)%nat → x ∉ take n (rev l).
Proof.
  intros Hnd Hi Hlen Hin.
  pose proof (take_drop_middle l i x Hi) as Hsplit.
  assert (Hl1 : length (take i l) = i) by (rewrite length_take; lia).
  pose proof (length_drop l (S i)) as Hl2.
  rewrite <- Hsplit in Hin, Hnd.
  rewrite rev_app_distr in Hin. simpl rev in Hin. rewrite <- app_assoc in Hin.
  rewrite take_app_le in Hin by (rewrite length_rev; lia).
  apply subseteq_take in Hin. apply list_elem_of_In, in_rev, list_elem_of_In in Hin.
  apply NoDup_app in Hnd. destruct Hnd as (_ & _ & Hnd).
  apply NoDup_cons in Hnd. now destruct Hnd.
Qed.

Lemma save_all_dir (rs : list RunResult) (s s' : LRUStore)
    (errs : list (option store_error)) :
  rs ≠ [] → save_all s rs = (errs, s') → Forall (λ e, e = None) errs →
  ∃ d, effective_dir (back s) = Some d.
Proof.
  destruct rs as [|r rs]; [congruence |]. intros _ Hsave Hok.
  simpl in Hsave. destruct (Save_cache s r) as (_ & _ & _ & Hs).
  rewrite Hs in Hsave. clear Hs.
  destruct (disk_Save (back s) r) as [err b1] eqn:Ed. simpl in Hsave.
  match type of Hsave with
  | context [Report.save_all _ ?s1 rs] =>
      destruct (Report.save_all json_Marshal s1 rs) as [errs' s2]
  end.
  inversion Hsave; subst. inversion Hok as [|? ? Herr _]; subst.
  destruct (disk_Save_ok _ _ _ Ed) as (d & _ & Hd & _). eauto.
Qed.

(** An entry followed by fewer than [n] later ones is among the [n] most
    recent. *)
Lemma recent_entry_present (l : list string) (n i : nat) (x : string) :
  l !! i = Some x → (length l ≤ i + n)%nat → x ∈ take n (rev l).
Proof.
  intros Hi Hlen.
  pose proof (take_drop_middle l i x Hi) as Hsplit.
  pose proof (lookup_lt_Some _ _ _ Hi) as Hlt.
  pose proof (length_drop l (S i)) as Hl2.
  assert (Hl1 : length (take i l) = i) by (rewrite length_take; lia).
  set (l1 := take i l) in *. set (l2 := drop (S i) l) in *.
  clearbody l1 l2. subst l. clear Hi.
  rewrite length_app in Hlen, Hlt, Hl2. simpl in Hlen, Hlt, Hl2.
  apply elem_of_take. exists (length (rev l2)). split.
  - rewrite rev_app_distr. simpl rev.
    rewrite <- app_assoc. apply list_lookup_middle. reflexivity.
  - rewrite length_rev. lia.
Qed.

Lemma NoDup_map_eq {A : Type} (f : A → string) (l : list A) (x y : A) :
  NoDup (map f l) → x ∈ l → y ∈ l → f x = f y → x = y.
Proof.
  induction l as [|z l IH]; intros Hnd Hx Hy Hf; [now apply elem_of_nil in Hx |].
  simpl in Hnd. apply NoDup_cons in Hnd. destruct Hnd as [Hz Hnd].
  assert (Hmem : ∀ u, u ∈ l → f u ∈ map f l).
  { intros u Hu. apply list_elem_of_In, in_map, list_elem_of_In, Hu. }
  apply elem_of_cons in Hx. apply elem_of_cons in Hy.
  destruct Hx as [->|Hx], Hy as [->|Hy].
  - reflexivity.
  - exfalso. apply Hz. rewrite Hf. now apply Hmem.
  - exfalso. apply Hz. rewrite <- Hf. now apply Hmem.
  - now apply IH.
Qed.

(** The index after a list of saves holds saved results under their
    identifiers, and entries it had before. *)
Lemma save_all_items (rs : list RunResult) :
  ∀ (s s' : LRUStore) (errs : list (option store_error)) (k : string)
    (x : RunResult),
    save_all s rs = (errs, s') → items s' !! k = Some x →
    (x ∈ rs ∧ ID x = k) ∨ items s !! k = Some x.
Proof.
  induction rs as [|r rs IH]; intros s s' errs k x Hsave Hk.
  - simpl in Hsave. inversion Hsave; subst. now right.
  - simpl in Hsave. destruct (Save_cache s r) as (_ & Hi & _).
    destruct (Save s r) as [err s1]. simpl in Hi.
    destruct (Report.save_all json_Marshal s1 rs) as [errs' s2] eqn:Erest.
    inversion Hsave; subst.
    destruct (IH s1 s' errs' k x Erest Hk) as [[Hin Hid]|Hold].
    + left. split; [now right | assumption].
    + rewrite Hi in Hold. apply cache_put_items in Hold.
      destruct Hold as [[-> ->]|Hold]; [| now right].
      left. split; [now left | reflexivity].
Qed.

(** A load that hits the cache. *)
Lemma Load_hit (s : LRUStore) (id : string) (r : RunResult) :
  wf s → items s !! id = Some r →
  ∃ s', Load s id = (inl r, s') ∧ wf s'
        ∧ items s' !! id = Some r ∧ head (order s') = Some id.
Proof.
  intros Hwf Hhit. unfold Report.Load. rewrite Hhit.
  eexists. split; [reflexivity |].
  split; [now apply (moveToFront_wf s id r) |]. split; [exact Hhit |].
  simpl. rewrite moveToFront_front by apply Hwf. reflexivity.
Qed.

(** A load that misses the cache and finds the file. *)
Lemma Load_from_disk (s : LRUStore) (id d data : string) (r : RunResult) :
  wf s → items s !! id = None →
  effective_dir (back s) = Some d →
  files (fs (back s)) !! result_path d id = Some data →
  json_Unmarshal data = Some r →
  fst (disk_Load (back s) id) = inl r
  ∧ ∃ s', Load s id = (inl r, s') ∧ wf s'
          ∧ items s' !! id = Some r ∧ head (order s') = Some id.
Proof.
  intros Hwf Hmiss Hdir Hfile Hdec.
  destruct (disk_Load_found _ _ _ _ _ Hdir Hfile Hdec) as [b Hload].
  split; [now rewrite Hload |].
  unfold Report.Load. rewrite Hmiss, Hload.
  set (s1 := {| cap := cap s; back := b; order := order s; items := items s |}).
  destruct (cache_put_spec s1 id r (wf_back s b Hwf)) as (Hwf' & Ho & Hi & _).
  eexists. split; [reflexivity |].
  split; [exact Hwf' |]. split; [exact Hi |].
  rewrite Ho. destruct Hwf as [_ _ Hcap _]. simpl.
  destruct (Z.to_nat (cap s)) eqn:E; [lia | reflexivity].
Qed.

(** C5.  The two-tier store, a cache of capacity [c ≥ 1] over the disk
    store, under a JSON codec that reads back what it wrote.  After
    [Save(r)], [Load(r.ID)] returns [r], from the cache.  After the results
    [rs], of distinct identifiers that name files, were saved to a new store
    without an error: the cache holds the [c] identifiers saved last, the
    most recent first; loading the identifier of any of the results succeeds,
    returns a result equal to it under the JSON round trip, and puts it at
    the front of the cache; a result followed by fewer than [c] later saves
    is still in the cache; a result followed by [c] or more later saves (so
    the oldest one, when more than [c] were saved) is no longer in the cache,
    and the load gives what the disk store reads back from its file. *)
Theorem store_roundtrip_and_eviction
    (c : Z) (fs0 : filesystem) (rs : list RunResult)
    (errs : list (option store_error)) (s : LRUStore) :
  (∀ r data, json_Marshal r = Some data →
     ∃ r', json_Unmarshal data = Some r' ∧ json_Marshal r' = Some data) →
  1 ≤ c →
  NoDup (map ID rs) →
  Forall (λ x, file_name (ID x)) rs →
  save_all (NewLRUStore c (NewDiskStore fs0)) rs = (errs, s) →
  Forall (λ e, e = None) errs →
  (∀ st x, wf st →
     fst (Load (snd (Save st x)) (ID x)) = inl x ∧ json_equal json_Marshal x x)
  ∧ wf s
  ∧ order s = take (Z.to_nat c) (rev (map ID rs))
  ∧ (∀ r, r ∈ rs →
       ∃ r' s',
         Load s (ID r) = (inl r', s')
         ∧ json_equal json_Marshal r' r
         ∧ wf s'
         ∧ items s' !! ID r = Some r'
         ∧ head (order s') = Some (ID r))
  ∧ (∀ (i : nat) (r : RunResult),
       rs !! i = Some r → (length rs ≤ i + Z.to_nat c)%nat →
       items s !! ID r = Some r ∧ ID r ∈ order s)
  ∧ (∀ (i : nat) (r : RunResult),
       rs !! i = Some r → (i + Z.to_nat c < length rs)%nat →
       items s !! ID r = None
       ∧ (ID r ∉ order s)
       ∧ ∃ r',
           fst (disk_Load (back s) (ID r)) = inl r'
           ∧ fst (Load s (ID r)) = inl r'
           ∧ json_equal json_Marshal r' r).
Proof.
  intros Hcodec Hc Hnd Hnames Hsave Hok.
  set (s0 := NewLRUStore c (NewDiskStore fs0)) in *.
  assert (Hcap0 : cap s0 = c).
  { unfold s0, NewLRUStore. simpl. destruct (Z.ltb_spec c 1); [lia | reflexivity]. }
  destruct (save_all_cache rs s0 s errs [] (NewLRUStore_wf _ _) NoDup_nil_2)
    as (Hwf & Hcap & Hord & _).
  { now rewrite take_nil. }
  { exact Hsave. }
  rewrite touch_fresh, app_nil_r, Hcap0 in Hord by (now rewrite app_nil_r).
  assert (Hcached : ∀ r, r ∈ rs → ID r ∈ order s → items s !! ID r = Some r).
  { intros r Hr Hin. apply (wf_dom s Hwf) in Hin. destruct Hin as [x Hx].
    destruct (save_all_items rs s0 s errs (ID r) x Hsave Hx) as [[Hxin Hid]|Hx0].
    - now rewrite (NoDup_map_eq ID rs x r Hnd Hxin Hr Hid) in Hx.
    - unfold s0, NewLRUStore in Hx0. simpl in Hx0.
      rewrite lookup_empty in Hx0. discriminate. }
  assert (Hdisk : ∀ r, r ∈ rs → items s !! ID r = None →
            ∃ r', fst (disk_Load (back s) (ID r)) = inl r'
                  ∧ json_equal json_Marshal r' r
                  ∧ ∃ s', Load s (ID r) = (inl r', s') ∧ wf s'
                          ∧ items s' !! ID r = Some r'
                          ∧ head (order s') = Some (ID r)).
  { intros r Hr Hmiss.
    assert (Hne : rs ≠ []) by (intros ->; now apply elem_of_nil in Hr).
    destruct (save_all_dir rs s0 s errs Hne Hsave Hok) as [d Hdir].
    destruct (save_all_disk rs s0 s errs d Hsave Hok Hdir
                (NoDup_paths d rs Hnd Hnames)) as (Hdir' & _ & Hfiles).
    destruct (Hfiles r Hr) as (data & Hm & Hfile).
    destruct (Hcodec r data Hm) as (r' & Hdec & Hm').
    destruct (Load_from_disk s (ID r) d data r' Hwf Hmiss Hdir' Hfile Hdec)
      as (Hread & Hload).
    exists r'. split; [exact Hread |].
    split; [unfold json_equal; congruence | exact Hload]. }
  split.
  { intros st x Hst. split; [now apply Load_after_Save | reflexivity]. }
  split; [exact Hwf |]. split; [exact Hord |]. split; [| split].
  - intros r Hr. destruct (items s !! ID r) as [x|] eqn:Hx.
    + assert (Hin : ID r ∈ order s) by (apply (wf_dom s Hwf); rewrite Hx; eauto).
      rewrite (Hcached r Hr Hin) in Hx. inversion Hx; subst x.
      destruct (Load_hit s (ID r) r Hwf (Hcached r Hr Hin))
        as (s' & Hload & Hwf' & Hitem & Hhead).
      exists r, s'. split; [exact Hload |]. split; [reflexivity |].
      split; [exact Hwf' |]. split; [exact Hitem | exact Hhead].
    + destruct (Hdisk r Hr Hx) as (r' & _ & Heq & s' & Hload & Hwf' & Hitem & Hhead).
      exists r', s'. split; [exact Hload |]. split; [exact Heq |].
      split; [exact Hwf' |]. split; [exact Hitem | exact Hhead].
  - intros i r Hi Hlen.
    assert (Hin : ID r ∈ order s).
    { rewrite Hord. apply (recent_entry_present (map ID rs) (Z.to_nat c) i).
      - now apply lookup_map_Some.
      - now rewrite length_map. }
    split; [| exact Hin].
    apply Hcached; [| exact Hin]. exact (list_elem_of_lookup_2 _ _ _ Hi).
  - intros i r Hi Hlen.
    assert (Hout : ID r ∉ order s).
    { rewrite Hord. apply (old_entry_absent (map ID rs) (Z.to_nat c) i).
      - exact Hnd.
      - now apply lookup_map_Some.
      - now rewrite length_map. }
    assert (Hmiss : items s !! ID r = None).
    { apply eq_None_not_Some. intros Hsome. apply Hout.
      now apply (wf_dom s Hwf). }
    split; [exact Hmiss |]. split; [exact Hout |].
    destruct (Hdisk r (list_elem_of_lookup_2 _ _ _ Hi) Hmiss)
      as (r' & Hread & Heq & s' & Hload & _).
    exists r'. split; [exact Hread |]. split; [now rewrite Hload | exact Heq].
Qed.

End StoreFacts.

(** ** The theorems on the sample inputs *)

Section Examples.
Import Strings Filepath Samples.

(** Two directories outside [/project]: its parent, reached by [../], and
    [/tmp].  Neither call hands a command to the operating system. *)
Lemma Run_outside_workspace_samples :
  (Runner.Run runner machine ["flood"] "../"
   = (inr (Runner.OutsideWorkspace "../" "/project"), [])
   ∧ Runner.resolveDir runner "../"
     = inr (Runner.OutsideWorkspace "../" "/project")
   ∧ Runner.is_outside_workspace (Runner.OutsideWorkspace "../" "/project") = true)
  ∧ (Runner.Run runner machine ["flood"] "/tmp"
     = (inr (Runner.OutsideWorkspace "/tmp" "/project"), [])
     ∧ Runner.resolveDir runner "/tmp"
       = inr (Runner.OutsideWorkspace "/tmp" "/project")
     ∧ Runner.is_outside_workspace (Runner.OutsideWorkspace "/tmp" "/project") = true).
Proof.
  split.
  - apply (Run_outside_workspace runner machine ["flood"] "../").
    + discriminate.
    + reflexivity.
    + unfold Runner.outside, Runner.inside. vm_compute. intros [k Hk].
      discriminate.
  - apply (Run_outside_workspace runner machine ["flood"] "/tmp").
    + discriminate.
    + reflexivity.
    + unfold Runner.outside, Runner.inside. vm_compute. intros [k Hk].
      discriminate.
Defined.

(** [flood] writes 200 bytes to its standard output under a cap of 100: the
    call succeeds with 100 of them and reports the truncation. *)
Lemma Run_output_bounded_flood :
  Runner.Run runner machine ["flood"] ""
  = (inl flood_result, started ["flood"])
  ∧ len (Runner.Stdout flood_result) ≤ Runner.MaxOutput runner
  ∧ len (Runner.Stderr flood_result) ≤ Runner.MaxOutput runner
  ∧ (Runner.Truncated flood_result = true
     ↔ len (Runner.Stdout flood_result) = Runner.MaxOutput runner
       ∨ len (Runner.Stderr flood_result) = Runner.MaxOutput runner)
  ∧ (∀ w p, snd (Runner.Write w p) = (len p, None))
  ∧ (∀ w chunks, snd (Runner.copy_chunks w chunks) = None).
Proof.
  assert (Hrun : Runner.Run runner machine ["flood"] ""
                 = (inl flood_result, started ["flood"]))
    by (vm_compute; reflexivity).
  split; [exact Hrun |].
  apply (Run_output_bounded runner machine ["flood"] "" flood_result
           (started ["flood"])).
  - simpl. lia.
  - exact Hrun.
Defined.

(** [slow] is still running when the 100 ms are over: the call returns a
    result with exit code -1 and what [slow] wrote until then.  Under the
    timeout of 0.1 ms, which is over before the machine reaches the start,
    the call returns the error of the context. *)
Lemma Run_timeout_slow :
  (let empty := {| Runner.buf := ""; Runner.limit := Runner.MaxOutput runner |} in
   let attempt := started ["slow"; "10"] in
   (0 < Runner.Timeout runner
    ∧ Runner.start_delay machine < Runner.Timeout runner →
    ∃ res, Runner.Run runner machine ["slow"; "10"] "" = (inl res, attempt)
           ∧ Runner.RunID res = Runner.new_uuid machine
           ∧ Runner.ExitCode res = -1
           ∧ Runner.Stdout res
             = Runner.buf (fst (Runner.copy_chunks empty
                 (Runner.chunks_to Runner.ToStdout (Runner.Timeout runner)
                    slow_events)))
           ∧ Runner.Stderr res
             = Runner.buf (fst (Runner.copy_chunks empty
                 (Runner.chunks_to Runner.ToStderr (Runner.Timeout runner)
                    slow_events)))
           ∧ Runner.Stdout res
             = upto (Z.to_nat (Runner.MaxOutput runner))
                 (Strings.Join
                    (Runner.chunks_to Runner.ToStdout (Runner.Timeout runner)
                       slow_events) "")
           ∧ Runner.Stderr res
             = upto (Z.to_nat (Runner.MaxOutput runner))
                 (Strings.Join
                    (Runner.chunks_to Runner.ToStderr (Runner.Timeout runner)
                       slow_events) ""))
   ∧ (Runner.Timeout runner ≤ 0
      ∨ Runner.Timeout runner ≤ Runner.start_delay machine →
      Runner.Run runner machine ["slow"; "10"] ""
      = (inr (Runner.Executing "slow"
                (Runner.OtherError "context deadline exceeded")), attempt)))
  ∧ 0 < Runner.Timeout runner
  ∧ Runner.start_delay machine < Runner.Timeout runner
  ∧ Runner.Timeout hasty ≤ Runner.start_delay machine
  ∧ Runner.Run hasty machine ["slow"; "10"] ""
    = (inr (Runner.Executing "slow"
              (Runner.OtherError "context deadline exceeded")),
       started ["slow"; "10"]).
Proof.
  split; [| split; [| split; [| split]]].
  - apply (Run_timeout runner machine "slow" ["10"] "" "/project" slow_events
             10000000001 0).
    + reflexivity.
    + reflexivity.
    + simpl. lia.
  - simpl. lia.
  - simpl. lia.
  - simpl. lia.
  - apply (Run_timeout hasty machine "slow" ["10"] "" "/project" slow_events
             10000000001 0).
    + reflexivity.
    + reflexivity.
    + simpl. lia.
    + right. simpl. lia.
Defined.

(** The timeout expires before [slow] finishes, and the call returns no
    error: it returns a result, which holds the output captured until the
    kill. *)
Lemma Run_timeout_returns_partial_output :
  Runner.lookup machine ["slow"; "10"] "/project"
  = Runner.Runs slow_events 10000000001 0
  ∧ Runner.Timeout runner < 10000000001
  ∧ fst (Runner.Run runner machine ["slow"; "10"] "") = inl slow_result
  ∧ Runner.Stdout slow_result = "partial"
  ∧ Runner.ExitCode slow_result = -1.
Proof.
  split; [reflexivity |]. split; [simpl; lia |].
  split; [vm_compute; reflexivity |]. split; reflexivity.
Qed.

(** On a machine without golangci-lint, the default steps end as pass,
    unavailable, skipped: the failed index is 1, and two steps, not one, have
    a status other than ["pass"]. *)
Lemma Check_two_steps_not_pass :
  let res := fst (Workflow.Check go_only engine ["./..."] false tt) in
  Workflow.FailedIdx res = 1
  ∧ map Workflow.Name (Workflow.Steps res) = ["test"; "lint"; "staticcheck"]
  ∧ map Workflow.sr_Status (Workflow.Steps res)
    = ["pass"; "unavailable"; "skipped"]
  ∧ length (List.filter
              (λ s, negb (String.eqb (Workflow.sr_Status s) "pass"))
              (Workflow.Steps res)) = 2%nat.
Proof. vm_compute. repeat split; reflexivity. Qed.

(** A line of a coverage listing with the percentage 150.0 gives an entry
    with that percentage: nothing is clamped and nothing is discarded. *)
Lemma parseCoverFunc_above_100 :
  map Report.ce_Function (Workflow.parseCoverFunc cover_listing) = ["Add"]
  ∧ Forall (λ en, (100 < Report.ce_Coverage en)%Q)
      (Workflow.parseCoverFunc cover_listing)
  ∧ Forall (λ en, (Report.ce_Coverage en == 150)%Q)
      (Workflow.parseCoverFunc cover_listing).
Proof.
  split; [vm_compute; reflexivity |].
  split; constructor; try constructor; vm_compute; reflexivity.
Qed.

(** A ["fail"] event with neither a test name nor a package leaves the
    status at PASS; with a package, it turns it to FAIL. *)
Lemma parseTestOutput_fail_without_names :
  decode fail_line
  = Some {| Workflow.ev_Action := "fail"; Workflow.ev_Package := "";
            Workflow.ev_Test := ""; Workflow.ev_Output := "";
            Workflow.ev_ImportPath := "" |}
  ∧ Workflow.Status (Workflow.parseTestOutput decode fail_line) = "PASS"
  ∧ Workflow.Status (Workflow.parseTestOutput decode package_fail_line) = "FAIL".
Proof. vm_compute. repeat split; reflexivity. Qed.

(** Three results saved to a cache of two: the cache holds the last two, and
    the first, gone from the cache, is read back from its file and put at
    the front. *)
Lemma store_roundtrip_and_eviction_runs :
  (∀ st x, Report.wf st →
     fst (Report.Load unmarshal (snd (Report.Save marshal st x)) (Report.ID x))
     = inl x
     ∧ Report.json_equal marshal x x)
  ∧ Report.wf (snd saved)
  ∧ Report.order (snd saved) = take (Z.to_nat 2) (rev (map Report.ID runs))
  ∧ (∀ r, r ∈ runs →
       ∃ r' s',
         Report.Load unmarshal (snd saved) (Report.ID r) = (inl r', s')
         ∧ Report.json_equal marshal r' r
         ∧ Report.wf s'
         ∧ Report.items s' !! Report.ID r = Some r'
         ∧ head (Report.order s') = Some (Report.ID r))
  ∧ (∀ (i : nat) (r : Report.RunResult),
       runs !! i = Some r → (length runs ≤ i + Z.to_nat 2)%nat →
       Report.items (snd saved) !! Report.ID r = Some r
       ∧ Report.ID r ∈ Report.order (snd saved))
  ∧ (∀ (i : nat) (r : Report.RunResult),
       runs !! i = Some r → (i + Z.to_nat 2 < length runs)%nat →
       Report.items (snd saved) !! Report.ID r = None
       ∧ (Report.ID r ∉ Report.order (snd saved))
       ∧ ∃ r',
           fst (Report.disk_Load unmarshal (Report.back (snd saved))
                  (Report.ID r)) = inl r'
           ∧ fst (Report.Load unmarshal (snd saved) (Report.ID r)) = inl r'
           ∧ Report.json_equal marshal r' r).
Proof.
  apply (store_roundtrip_and_eviction marshal unmarshal 2 disk runs
           (fst saved) (snd saved)).
  - intros r data H. unfold marshal in H. inversion H; subst; clear H.
    destruct (Report.kind r); eexists; split; reflexivity.
  - lia.
  - refine (bool_decide_unpack _ _). vm_compute. exact I.
  - repeat constructor.
  - unfold saved. apply surjective_pairing.
  - vm_compute. repeat constructor.
Defined.

(** The same run, evaluated: [run-a] is the one evicted, and loading it
    gives it back and evicts [run-b]. *)
Lemma store_eviction_evaluated :
  fst saved = [None; None; None]
  ∧ Report.order (snd saved) = ["run-c"; "run-b"]
  ∧ fst (Report.Load unmarshal (snd saved) "run-a")
    = inl (Report.newRunResult "run-a" Report.Check)
  ∧ Report.order (snd (Report.Load unmarshal (snd saved) "run-a"))
    = ["run-a"; "run-c"].
Proof. vm_compute. repeat split; reflexivity. Qed.

(** On the machine that keeps its commands: the coverage step of the audit
    fails, and the four steps after it are executed all the same, each with
    its own command. *)
Lemma Audit_runs_after_failure :
  let out := Workflow.Audit MoreSamples.logged engine [] [] in
  map Workflow.as_Status (Workflow.ar_Steps (fst out))
  = ["error"; "done"; "done"; "done"; "done"]
  ∧ snd out
    = [ ["go"; "test"; "-coverprofile"; "/tmp/governor-cover-1.out"; "./..."];
        ["gocognit"; "./..."];
        ["deadcode"; "-json"; "./..."];
        ["dupl"; "-plumbing"; "-t"; "50"; "."];
        ["govulncheck"; "-json"; "./..."] ].
Proof. vm_compute. split; reflexivity. Qed.

(** On the same machine the check stops at the lint step, whose tool is
    missing: after the command of the format check and the command of the
    test step no command is run, none for staticcheck. *)
Lemma Check_stops_at_failure :
  let out := Workflow.Check MoreSamples.logged engine [] false [] in
  Workflow.FailedIdx (fst out) = 1
  ∧ map Workflow.sr_Status (Workflow.Steps (fst out))
    = ["pass"; "unavailable"; "skipped"]
  ∧ snd out = [["gofumpt"; "-l"; "."]; ["go"; "test"; "-json"; "./..."]].
Proof. vm_compute. repeat split; reflexivity. Qed.

End Examples.

(** ** The runner: what the buffers hold, exit codes, where commands run *)

Section RunnerMore.
Import Strings Filepath Runner.

(** X1.  The bounded writer keeps exactly the first [limit] bytes of all that
    is written to it, whatever the sizes of the writes: after a copy of the
    chunks into an empty writer, the buffer is the concatenation of the
    chunks cut at the cap (empty when the cap is zero or negative), so its
    length is the smaller of the cap and the number of bytes written. *)
Theorem limitWriter_keeps_prefix (cap : Z) (chunks : list string) :
  let w := fst (copy_chunks {| buf := ""; limit := cap |} chunks) in
  buf w = upto (Z.to_nat cap) (Strings.Join chunks "")
  ∧ len (buf w) = Z.min (Z.max 0 cap) (len (Strings.Join chunks "")).
Proof.
  cbv zeta. rewrite copy_from_empty. split; [reflexivity |].
  unfold len.
  destruct (Nat.le_gt_cases (Z.to_nat cap) (String.length (Strings.Join chunks "")))
    as [Hle|Hgt].
  - rewrite length_upto by assumption. lia.
  - rewrite upto_all by lia. lia.
Qed.

(** X2.  A command that cannot be started gives the ["executing"] error and
    no result.  A command that exits by itself before the deadline gives a
    result and no error, whatever its exit code: the code is the command's,
    and each stream holds the first [MaxOutput] bytes of what the command
    wrote to it. *)
Theorem Run_exit_code (r : Runner) (sys : system) (argv0 : string)
    (rest : list string) (cwd dir : string) :
  resolveDir r cwd = inl dir →
  0 < Timeout r →
  let attempt := [{| spawn_argv := argv0 :: rest; spawn_dir := dir |}] in
  match lookup sys (argv0 :: rest) dir with
  | CannotStart msg =>
      Run r sys (argv0 :: rest) cwd
      = (inr (Executing argv0 (OtherError msg)), attempt)
  | Runs events exit_time exit_code =>
      exit_time < Timeout r →
      ∃ res,
        Run r sys (argv0 :: rest) cwd = (inl res, attempt)
        ∧ RunID res = new_uuid sys
        ∧ ExitCode res = exit_code
        ∧ Stdout res
          = upto (Z.to_nat (MaxOutput r))
              (Strings.Join (chunks_to ToStdout (exit_time + 1) events) "")
        ∧ Stderr res
          = upto (Z.to_nat (MaxOutput r))
              (Strings.Join (chunks_to ToStderr (exit_time + 1) events) "")
  end.
Proof.
  intros Hdir Hpos. cbv zeta. unfold Run. rewrite Hdir.
  destruct (lookup sys (argv0 :: rest) dir) as [msg|events exit_time exit_code];
    [reflexivity |].
  intros Hearly. unfold cmd_Run.
  destruct (Z.leb_spec (Timeout r) 0); [lia |].
  destruct (Z.leb_spec (Timeout r) exit_time); [lia |].
  cbn [orb andb].
  pose proof (copy_from_empty (MaxOutput r)
                (chunks_to ToStdout (exit_time + 1) events)) as Hout.
  pose proof (copy_from_empty (MaxOutput r)
                (chunks_to ToStderr (exit_time + 1) events)) as Herr.
  destruct (copy_chunks_ok (chunks_to ToStdout (exit_time + 1) events)
              {| buf := ""; limit := MaxOutput r |}) as (Hoe & _).
  destruct (copy_chunks_ok (chunks_to ToStderr (exit_time + 1) events)
              {| buf := ""; limit := MaxOutput r |}) as (Hee & _).
  destruct (copy_chunks _ (chunks_to ToStdout (exit_time + 1) events)) as [out oe].
  destruct (copy_chunks _ (chunks_to ToStderr (exit_time + 1) events)) as [err ee].
  simpl in *. subst oe ee.
  destruct (Z.eqb_spec exit_code 0) as [->|Hne]; eexists;
    (split; [reflexivity |]); simpl; auto.
Qed.

Lemma Clean_Clean (p : string) : IsAbs p = true → Clean (Clean p) = Clean p.
Proof.
  intros Hp. rewrite (Clean_rooted (Clean p) (IsAbs_Clean p Hp)).
  rewrite (clean_elems_Clean p Hp). symmetry. now apply Clean_rooted.
Qed.

(** What [resolveDir] accepts, for an absolute workspace: the workspace
    itself for the empty [cwd], otherwise the cleaned directory, which lies
    inside the workspace. *)
Lemma resolveDir_inside (r : Runner) (cwd dir : string) :
  IsAbs (Workspace r) = true → resolveDir r cwd = inl dir →
  inside (Workspace r) dir
  ∧ dir = (if String.eqb cwd "" then Workspace r
           else Clean (resolved (Workspace r) cwd)).
Proof.
  intros Hws. unfold resolveDir, resolved, inside.
  destruct (String.eqb_spec cwd "") as [->|Hcwd].
  { intros H. inversion H; subst. split; reflexivity. }
  set (target := if IsAbs cwd then cwd else Workspace r +:+ "/" +:+ cwd).
  assert (Habs : IsAbs target = true).
  { unfold target. destruct (IsAbs cwd) eqn:E; [exact E |].
    destruct (Workspace r); [discriminate | exact Hws]. }
  assert (Hdir : (if IsAbs cwd then Clean cwd
                  else Clean (Filepath.Join [Workspace r; cwd])) = Clean target).
  { unfold target. destruct (IsAbs cwd) eqn:E; [reflexivity |].
    assert (Habs' : IsAbs (Workspace r +:+ "/" +:+ cwd) = true)
      by (destruct (Workspace r); [discriminate | exact Hws]).
    simpl. destruct (String.eqb_spec (Workspace r) "") as [E'|_];
      [rewrite E' in Hws; discriminate |].
    now apply Clean_Clean. }
  rewrite Hdir.
  destruct (Rel (Workspace r) (Clean target)) as [rel|] eqn:Hrel; [| discriminate].
  destruct (HasPrefix rel "..") eqn:Hpre; [discriminate |].
  intros H. inversion H; subst dir. split; [| reflexivity].
  destruct (decide (clean_elems (Workspace r) `prefix_of` clean_elems (Clean target)))
    as [Hin|Hout]; [exact Hin |].
  destruct (Rel_outside (Workspace r) (Clean target) Hws (IsAbs_Clean _ Habs) Hout)
    as (rel' & Hrel' & Hpre').
  congruence.
Qed.

(** X3.  With a workspace given by an absolute path, [Run] hands at most one
    command to the operating system; it is the argument vector it was given,
    and the directory it runs in is the one [resolveDir] accepted: the
    workspace for the empty [cwd], otherwise the cleaned [cwd], and in both
    cases a directory inside the workspace. *)
Theorem Run_stays_inside (r : Runner) (sys : system) (argv : list string)
    (cwd : string) :
  IsAbs (Workspace r) = true →
  (length (snd (Run r sys argv cwd)) ≤ 1)%nat
  ∧ Forall (λ sp,
       spawn_argv sp = argv
       ∧ resolveDir r cwd = inl (spawn_dir sp)
       ∧ inside (Workspace r) (spawn_dir sp)
       ∧ spawn_dir sp = (if String.eqb cwd "" then Workspace r
                         else Clean (resolved (Workspace r) cwd)))
      (snd (Run r sys argv cwd)).
Proof.
  intros Hws. unfold Run.
  destruct argv as [|argv0 rest]; [simpl; split; [lia | constructor] |].
  destruct (resolveDir r cwd) as [dir|err] eqn:Hdir;
    [| simpl; split; [lia | constructor]].
  destruct (resolveDir_inside r cwd dir Hws Hdir) as [Hin Heq].
  destruct (cmd_Run _ _ _ _ _) as [[out err] runErr].
  destruct runErr as [[code|msg]|]; simpl; (split; [lia |]);
    repeat constructor; assumption.
Qed.

(** The elements of a path below an absolute directory. *)
Lemma clean_elems_below (base : string) (elems : list string) :
  IsAbs base = true → elems ≠ [] → Forall plain elems →
  clean_elems (base +:+ "/" +:+ Strings.Join elems "/")
  = clean_elems base ++ elems.
Proof.
  intros Hb Hne Hpl. unfold clean_elems.
  assert (Habs : IsAbs (base +:+ "/" +:+ Strings.Join elems "/") = true)
    by (destruct base; [discriminate | exact Hb]).
  rewrite Habs, Hb.
  change (base +:+ "/" +:+ Strings.Join elems "/")
    with (base +:+ String "/" (Strings.Join elems "/")).
  unfold Separator. rewrite Split_app.
  rewrite (Split_Join elems "/" Hne (plain_no_separator elems Hpl)).
  rewrite fold_left_app, clean_fold_plain by assumption.
  now rewrite rev_app_distr, rev_involutive.
Qed.

Lemma rel_walk_below (base rest : list string) :
  rel_walk base (base ++ rest) = Some (Strings.Join rest "/").
Proof.
  induction base as [|b base IH]; simpl; [reflexivity |].
  now rewrite String.eqb_refl.
Qed.

(** [Rel] from an absolute base to a path below it: the elements in
    between. *)
Lemma Rel_below (base targ : string) (rest : list string) :
  IsAbs base = true → IsAbs targ = true → rest ≠ [] →
  clean_elems targ = clean_elems base ++ rest →
  Rel base targ = Some (Strings.Join rest "/").
Proof.
  intros Hb Ht Hne Hel. unfold Rel.
  destruct (String.eqb_spec (Clean targ) (Clean base)) as [Heq|_].
  - exfalso. apply Hne.
    assert (E : clean_elems targ = clean_elems base).
    { rewrite <- (clean_elems_Clean base Hb), <- (clean_elems_Clean targ Ht).
      now rewrite Heq. }
    rewrite E in Hel. rewrite <- (app_nil_r (clean_elems base)) in Hel at 1.
    apply app_inv_head in Hel. now symmetry.
  - assert (Hdot : (Clean base =? ".")%string = false)
      by (rewrite (Clean_rooted base Hb); reflexivity).
    rewrite Hdot, (IsAbs_Clean base Hb), (IsAbs_Clean targ Ht).
    rewrite (pieces_Clean base Hb), (pieces_Clean targ Ht), Hel. simpl.
    apply rel_walk_below.
Qed.

Lemma HasPrefix_Join (x p : string) (more : list string) :
  HasPrefix x p = true → HasPrefix (Strings.Join (x :: more) "/") p = true.
Proof.
  intros H. apply HasPrefix_spec in H. destruct H as [t ->].
  apply HasPrefix_spec. destruct more as [|y more].
  - now exists t.
  - exists (t +:+ "/" +:+ Strings.Join (y :: more) "/").
    change (Strings.Join ((p +:+ t) :: y :: more) "/")
      with ((p +:+ t) +:+ "/" +:+ Strings.Join (y :: more) "/").
    now rewrite app_assoc_str.
Qed.

(** X4.  The test [strings.HasPrefix(rel, "..")] also refuses directories
    inside the workspace: a relative [cwd] made of ordinary path elements
    whose first element begins with two dots (a directory named [..cache],
    say) resolves to a directory below the workspace, and yet [resolveDir]
    answers with the "outside workspace" error and [Run] starts nothing. *)
Theorem resolveDir_refuses_dotdot_names (r : Runner) (sys : system)
    (argv : list string) (x : string) (more : list string) :
  IsAbs (Workspace r) = true →
  Forall plain (x :: more) →
  HasPrefix x ".." = true →
  let cwd := Strings.Join (x :: more) "/" in
  inside (Workspace r) (resolved (Workspace r) cwd)
  ∧ clean_elems (resolved (Workspace r) cwd)
    = clean_elems (Workspace r) ++ x :: more
  ∧ resolveDir r cwd = inr (OutsideWorkspace cwd (Workspace r))
  ∧ snd (Run r sys argv cwd) = [].
Proof.
  intros Hws Hpl Hdots. cbv zeta.
  set (cwd := Strings.Join (x :: more) "/").
  assert (Hx : plain x) by (now inversion Hpl).
  assert (Hcwd : cwd ≠ "").
  { unfold cwd. destruct Hx as (Hne & _). destruct more; simpl; [exact Hne |].
    destruct x; [contradiction | discriminate]. }
  assert (Hrel : IsAbs cwd = false).
  { unfold cwd. pose proof (plain_relative x Hx) as Hr.
    destruct x as [|a x]; [now destruct Hx |].
    destruct more; simpl in *; exact Hr. }
  assert (Hres : resolved (Workspace r) cwd = Workspace r +:+ "/" +:+ cwd).
  { unfold resolved. rewrite Hrel.
    destruct (String.eqb_spec cwd ""); [contradiction | reflexivity]. }
  assert (Hel : clean_elems (Workspace r +:+ "/" +:+ cwd)
                = clean_elems (Workspace r) ++ x :: more)
    by (apply clean_elems_below; [assumption | discriminate | assumption]).
  assert (Habs : IsAbs (Workspace r +:+ "/" +:+ cwd) = true)
    by (destruct (Workspace r); [discriminate | exact Hws]).
  assert (Hdir : resolveDir r cwd = inr (OutsideWorkspace cwd (Workspace r))).
  { unfold resolveDir. rewrite Hrel.
    destruct (String.eqb_spec cwd ""); [contradiction |].
    assert (Hj : Filepath.Join [Workspace r; cwd]
                 = Clean (Workspace r +:+ "/" +:+ cwd)).
    { simpl. destruct (String.eqb_spec (Workspace r) "") as [E|_];
        [rewrite E in Hws; discriminate | reflexivity]. }
    rewrite Hj, (Clean_Clean _ Habs).
    rewrite (Rel_below (Workspace r) (Clean (Workspace r +:+ "/" +:+ cwd))
               (x :: more) Hws (IsAbs_Clean _ Habs)).
    - now rewrite (HasPrefix_Join x ".." more Hdots).
    - discriminate.
    - now rewrite clean_elems_Clean. }
  rewrite Hres. split; [| split; [exact Hel | split; [exact Hdir |]]].
  - unfold inside. rewrite Hel. now apply prefix_app_r.
  - unfold Run. destruct argv; [reflexivity |]. now rewrite Hdir.
Qed.

End RunnerMore.

(** ** The queries over a run *)

Section DiagnosticsFacts.
Import Strings Report Diagnostics.
Variable format_percent : Q → string.

Lemma LastIndexByte_app_absent (s t : string) (c : ascii) :
  IndexByte t c = -1 → LastIndexByte (s +:+ t) c = LastIndexByte s c.
Proof.
  intros Ht. induction s as [|a s IH]; simpl.
  - induction t as [|b t IHt]; simpl in *; [reflexivity |].
    destruct (Ascii.eqb_spec b c); [discriminate |].
    destruct (Z.ltb_spec (IndexByte t c) 0) as [Hlt|Hge]; [| lia].
    pose proof (IndexByte_range t c). rewrite IHt by lia. simpl.
    destruct (Ascii.eqb_spec b c); [contradiction | reflexivity].
  - now rewrite IH.
Qed.

Lemma LastIndexByte_upto (s : string) (c : ascii) :
  LastIndexByte (upto (Z.to_nat (LastIndexByte s c + 1)) s) c = LastIndexByte s c.
Proof.
  induction s as [|a s IH]; simpl; [reflexivity |].
  pose proof (LastIndexByte_range s c) as Hr.
  destruct (Z.leb_spec 0 (LastIndexByte s c)) as [Hge|Hlt].
  - replace (Z.to_nat (LastIndexByte s c + 1 + 1))
      with (S (Z.to_nat (LastIndexByte s c + 1))) by lia.
    simpl. rewrite IH.
    destruct (Z.leb_spec 0 (LastIndexByte s c)); [reflexivity | lia].
  - destruct (Ascii.eqb_spec a c) as [->|Hne]; simpl.
    + now rewrite eqb_ascii_refl.
    + reflexivity.
Qed.

Lemma from_app_short (n : nat) (s t : string) :
  (n ≤ String.length s)%nat → from n (s +:+ t) = from n s +:+ t.
Proof.
  revert s. induction n as [|n IH]; intros [|a s] H; simpl in *; try lia;
    try reflexivity.
  apply IH. lia.
Qed.

Lemma from_app_length (s t : string) : from (String.length s) (s +:+ t) = t.
Proof. induction s; simpl; auto. Qed.

Lemma upto_app_length (s t : string) : upto (String.length s) (s +:+ t) = s.
Proof. induction s as [|a s IH]; simpl; [now destruct t | now rewrite IH]. Qed.

Lemma IndexByte_upto_absent (n : nat) (s : string) (c : ascii) :
  IndexByte s c = -1 → IndexByte (upto n s) c = -1.
Proof.
  revert s. induction n as [|n IH]; intros [|a s] H; simpl in *; try reflexivity.
  destruct (Ascii.eqb a c); [discriminate |].
  destruct (Z.ltb_spec (IndexByte s c) 0) as [Hlt|Hge]; [| lia].
  pose proof (IndexByte_range s c). rewrite IH by lia. reflexivity.
Qed.

(** The package [splitSymbol] gives has no dot in its last element. *)
Lemma splitSymbol_package (sym : string) :
  IndexByte (last_element (fst (splitSymbol sym))) "." = -1.
Proof.
  unfold splitSymbol, last_element.
  pose proof (LastIndexByte_range sym "/") as Hs. unfold len in Hs.
  set (slash := LastIndexByte sym "/") in *.
  set (after := from (Z.to_nat (slash + 1)) sym).
  pose proof (IndexByte_range after ".") as Hd.
  destruct (Z.ltb_spec (IndexByte after ".") 0) as [Hlt|Hge]; simpl.
  - fold slash. fold after. lia.
  - replace (Z.to_nat (slash + 1 + IndexByte after "."))
      with (Z.to_nat (slash + 1) + Z.to_nat (IndexByte after "."))%nat by lia.
    rewrite upto_add. fold after.
    set (A := upto (Z.to_nat (slash + 1)) sym).
    set (B := upto (Z.to_nat (IndexByte after ".")) after).
    assert (HB : IndexByte B "/" = -1).
    { apply IndexByte_upto_absent. apply LastIndexByte_after. }
    rewrite (LastIndexByte_app_absent A B "/" HB).
    unfold A at 1. unfold slash. rewrite LastIndexByte_upto. fold slash.
    assert (HA : String.length A = Z.to_nat (slash + 1))
      by (unfold A; apply length_upto; lia).
    rewrite <- HA, from_app_length.
    apply (IndexByte_found after "." Hge).
Qed.

(** Splitting what [join] builds, for a package without a dot in its last
    element and a name without a slash. *)
Lemma splitSymbol_join_inverse (pkg name : string) :
  IndexByte (last_element pkg) "." = -1 → IndexByte name "/" = -1 →
  splitSymbol (join pkg name) = (pkg, name).
Proof.
  intros Hpkg Hname. unfold join, last_element in *.
  pose proof (LastIndexByte_range pkg "/") as Hs. unfold len in Hs.
  destruct (String.eqb_spec name "") as [->|Hne].
  - unfold splitSymbol. rewrite Hpkg. reflexivity.
  - unfold splitSymbol.
    assert (Hslash : LastIndexByte (pkg +:+ "." +:+ name) "/"
                     = LastIndexByte pkg "/").
    { apply LastIndexByte_app_absent. simpl. now rewrite Hname. }
    rewrite Hslash.
    set (slash := LastIndexByte pkg "/") in *.
    rewrite from_app_short by lia.
    set (last := from (Z.to_nat (slash + 1)) pkg) in *.
    change (last +:+ "." +:+ name) with (last +:+ String "." name).
    rewrite (IndexByte_absent_app last name "." Hpkg). unfold len.
    assert (Hlast : String.length last = (String.length pkg - Z.to_nat (slash + 1))%nat)
      by (unfold last; apply length_from).
    destruct (Z.ltb_spec (Z.of_nat (String.length last)) 0) as [Hlt|_]; [lia |].
    f_equal.
    + replace (Z.to_nat (slash + 1 + Z.of_nat (String.length last)))
        with (String.length pkg) by lia.
      apply upto_app_length.
    + replace (Z.to_nat (Z.of_nat (String.length last) + 1))
        with (String.length last + 1)%nat by lia.
      rewrite from_add, from_app_length. reflexivity.
Qed.

Lemma elem_of_filter_bool {A : Type} (f : A → bool) (l : list A) (x : A) :
  x ∈ List.filter f l ↔ x ∈ l ∧ f x = true.
Proof. rewrite !list_elem_of_In. apply filter_In. Qed.

(** X5.  What [BySymbol] returns for a symbol that splits into [pkg] and
    [name]: exactly the diagnostics of the run whose package is [pkg] and,
    when [name] is not empty, whose symbol is [name], in the order of the
    run.  Since [pkg] never has a dot in its last path element, no
    diagnostic of a package such as [gopkg.in/yaml.v3] is ever returned. *)
Theorem BySymbol_scope (r : RunResult) (sym : string) :
  let pkg := fst (splitSymbol sym) in
  let name := snd (splitSymbol sym) in
  BySymbol format_percent r sym
  = List.filter
      (λ d, String.eqb (Package d) pkg
            && (String.eqb name "" || String.eqb (Symbol d) name))
      (toDiagnostics format_percent r)
  ∧ Forall (λ d, d ∈ toDiagnostics format_percent r
                 ∧ Package d = pkg
                 ∧ (name = "" ∨ Symbol d = name)
                 ∧ IndexByte (last_element (Package d)) "." = -1)
      (BySymbol format_percent r sym).
Proof.
  cbv zeta.
  assert (Heq : BySymbol format_percent r sym
                = List.filter
                    (λ d, String.eqb (Package d) (fst (splitSymbol sym))
                          && (String.eqb (snd (splitSymbol sym)) ""
                              || String.eqb (Symbol d) (snd (splitSymbol sym))))
                    (toDiagnostics format_percent r)).
  { unfold BySymbol, ByPackage. destruct (splitSymbol sym) as [pkg name]. simpl.
    destruct (String.eqb_spec name "") as [->|Hne].
    - apply filter_ext. intros d. simpl. now rewrite andb_true_r.
    - apply filter_ext. intros d. reflexivity. }
  split; [exact Heq |].
  rewrite Heq. apply Forall_forall. intros d Hd.
  apply elem_of_filter_bool in Hd. destruct Hd as [Hin Hf].
  apply andb_true_iff in Hf. destruct Hf as [Hp Hn].
  apply String.eqb_eq in Hp.
  split; [exact Hin |]. split; [exact Hp |]. split.
  - apply orb_true_iff in Hn. destruct Hn as [Hn|Hn];
      apply String.eqb_eq in Hn; auto.
  - rewrite Hp. apply splitSymbol_package.
Qed.

(** X6.  Splitting inverts joining: for a package without a dot in its last
    path element and a name without a slash, [splitSymbol] of the package,
    or of the package, a dot and the name, gives the two back.  So every
    diagnostic of a run with such a package and symbol is found by
    [BySymbol] under its qualified name. *)
Theorem BySymbol_finds_qualified (r : RunResult) (pkg name : string) :
  IndexByte (last_element pkg) "." = -1 →
  IndexByte name "/" = -1 →
  splitSymbol (join pkg name) = (pkg, name)
  ∧ Forall (λ d, Package d = pkg → Symbol d = name →
                 d ∈ BySymbol format_percent r (join pkg name))
      (toDiagnostics format_percent r).
Proof.
  intros Hpkg Hname.
  pose proof (splitSymbol_join_inverse pkg name Hpkg Hname) as Hsplit.
  split; [exact Hsplit |].
  apply Forall_forall. intros d Hd Hp Hs.
  unfold BySymbol, ByPackage. rewrite Hsplit.
  destruct (String.eqb_spec name "") as [E|E];
    apply elem_of_filter_bool; (split; [exact Hd |]).
  - now apply String.eqb_eq.
  - apply andb_true_iff. split; now apply String.eqb_eq.
Qed.

End DiagnosticsFacts.

(** ** The result store under any sequence of calls *)

Section StoreOpsFacts.
Import Strings Report StoreOps.
Variable json_Marshal : RunResult → option string.
Variable json_Unmarshal : string → option RunResult.

Lemma Load_keeps (s : LRUStore) (id : string) :
  wf s →
  wf (snd (Load json_Unmarshal s id))
  ∧ cap (snd (Load json_Unmarshal s id)) = cap s
  ∧ (∀ e, fst (Load json_Unmarshal s id) = inr e →
       items s !! id = None
       ∧ fst (disk_Load json_Unmarshal (back s) id) = inr e
       ∧ order (snd (Load json_Unmarshal s id)) = order s
       ∧ items (snd (Load json_Unmarshal s id)) = items s).
Proof.
  intros Hwf. unfold Load.
  destruct (items s !! id) as [x|] eqn:Hx.
  - simpl. split; [now apply (moveToFront_wf s id x) |].
    split; [reflexivity |]. intros e He. discriminate.
  - destruct (disk_Load json_Unmarshal (back s) id) as [[r|e] b] eqn:Hd.
    + set (s1 := {| cap := cap s; back := b; order := order s; items := items s |}).
      destruct (cache_put_spec s1 id r (wf_back s b Hwf)) as (Hwf' & _ & _ & Hc & _).
      simpl. split; [exact Hwf' |]. split; [exact Hc |].
      intros e He. discriminate.
    + simpl. split; [now apply wf_back |]. split; [reflexivity |].
      intros e' He. inversion He; subst. auto.
Qed.

Lemma Save_cap (s : LRUStore) (r : RunResult) :
  wf s → cap (snd (Save json_Marshal s r)) = cap s.
Proof.
  intros Hwf. destruct (Save_cache json_Marshal s r) as (_ & _ & Hc & _).
  destruct (cache_put_spec s (ID r) r Hwf) as (_ & _ & _ & Hc' & _).
  congruence.
Qed.

Lemma run_keeps (ops : list op) (s : LRUStore) :
  wf s →
  wf (run json_Marshal json_Unmarshal s ops)
  ∧ cap (run json_Marshal json_Unmarshal s ops) = cap s.
Proof.
  revert s. induction ops as [|o ops IH]; intros s Hwf; [now split |].
  unfold run in *. simpl.
  destruct o as [r|id]; simpl.
  - destruct (IH _ (Save_wf json_Marshal s r Hwf)) as [H1 H2].
    split; [exact H1 |]. rewrite H2. now apply Save_cap.
  - destruct (Load_keeps s id Hwf) as (Hw & Hc & _).
    destruct (IH _ Hw) as [H1 H2].
    split; [exact H1 |]. now rewrite H2.
Qed.

(** X7.  Whatever calls of [Save] and [Load] a store made by [NewLRUStore]
    has served, with whatever outcome on the disk: its capacity is the one
    asked for, or one when less was asked for; the list holds no key twice
    and as many keys as the index has entries, never more than the capacity;
    a key is in the list exactly when it is in the index.  And a [Load] that
    returns an error is a miss of the cache that the disk store could not
    serve, and leaves the list and the index as they were. *)
Theorem LRUStore_invariant (c : Z) (b : DiskStore) (ops : list op) :
  let s := run json_Marshal json_Unmarshal (NewLRUStore c b) ops in
  cap s = Z.max 1 c
  ∧ NoDup (order s)
  ∧ size (items s) = length (order s)
  ∧ Z.of_nat (size (items s)) ≤ cap s
  ∧ (∀ k, k ∈ order s ↔ is_Some (items s !! k))
  ∧ (∀ id e, fst (Load json_Unmarshal s id) = inr e →
       items s !! id = None
       ∧ fst (disk_Load json_Unmarshal (back s) id) = inr e
       ∧ order (snd (Load json_Unmarshal s id)) = order s
       ∧ items (snd (Load json_Unmarshal s id)) = items s).
Proof.
  cbv zeta.
  destruct (run_keeps ops (NewLRUStore c b) (NewLRUStore_wf c b)) as [Hwf Hcap].
  set (s := run json_Marshal json_Unmarshal (NewLRUStore c b) ops) in *.
  pose proof (size_items s Hwf) as Hsize.
  pose proof Hwf as Hwf'. destruct Hwf' as [Hnd Hdom Hc1 Hlen].
  split.
  { rewrite Hcap. unfold NewLRUStore. simpl. destruct (Z.ltb_spec c 1); lia. }
  split; [exact Hnd |]. split; [exact Hsize |].
  split; [rewrite Hsize; exact Hlen |]. split; [exact Hdom |].
  intros id e He. now apply (Load_keeps s id Hwf).
Qed.

End StoreOpsFacts.

(** ** The test-driver adapter: what every summary satisfies *)

Section TestSummaryFacts.
Import Strings Workflow Adapters.
Variable decode : string → option test2jsonEvent.

Lemma parser_start_ok : parser_ok parser_start.
Proof.
  constructor; try (simpl; lia); try (simpl; auto; fail);
    try (intros ? H; now apply elem_of_empty in H).
  change (failedTests parser_start) with (∅ : gset (string * string)).
  rewrite size_empty. simpl. lia.
Qed.

Lemma size_add_le `{Countable K} (k : K) (X : gset K) :
  (size ({[ k ]} ∪ X) ≤ S (size X))%nat.
Proof.
  rewrite size_union_alt, size_singleton.
  pose proof (subseteq_size (X ∖ {[ k ]}) X) as Hle.
  assert (Hsub : X ∖ {[ k ]} ⊆ X).
  { intros x Hx. apply elem_of_difference in Hx. tauto. }
  specialize (Hle Hsub). lia.
Qed.

Lemma on_event_ok (s : parser) (ev : test2jsonEvent) :
  parser_ok s → parser_ok (on_event s ev).
Proof.
  intros [Ht Hp Hf Hs Hst Hpass Hsz Hnamed Hbuilds]. unfold on_event.
  destruct (String.eqb (ev_Action ev) "output").
  { destruct (String.eqb_spec (ev_Test ev) ""); simpl;
      constructor; simpl; assumption. }
  destruct (String.eqb (ev_Action ev) "pass").
  { destruct (String.eqb_spec (ev_Test ev) ""); simpl;
      constructor; simpl; try assumption; lia. }
  destruct (String.eqb (ev_Action ev) "fail").
  { destruct (String.eqb_spec (ev_Test ev) "") as [Et|Et]; simpl.
    - destruct (String.eqb (ev_Package ev) ""); simpl;
        constructor; simpl; try assumption; auto; discriminate.
    - constructor; simpl; try assumption; try lia; auto; try discriminate.
      + pose proof (size_add_le (ev_Package ev, ev_Test ev) (failedTests s)). lia.
      + intros key Hk. apply elem_of_union in Hk. destruct Hk as [Hk|Hk].
        * apply elem_of_singleton in Hk. subst key. exact Et.
        * now apply Hnamed. }
  destruct (String.eqb (ev_Action ev) "skip").
  { destruct (String.eqb_spec (ev_Test ev) ""); simpl;
      constructor; simpl; try assumption; lia. }
  destruct (String.eqb (ev_Action ev) "build-output").
  { destruct (String.eqb _ ""); simpl; constructor; simpl; assumption. }
  destruct (String.eqb (ev_Action ev) "build-fail").
  { set (ip := if String.eqb (ev_ImportPath ev) "" then ev_Package ev
               else ev_ImportPath ev).
    constructor; simpl; try assumption; auto; try discriminate.
    intros k Hk. destruct (String.eqb_spec ip "") as [E|E]; simpl in Hk.
    - now apply Hbuilds.
    - apply elem_of_union in Hk. destruct Hk as [Hk|Hk].
      + apply elem_of_singleton in Hk. now subst k.
      + now apply Hbuilds. }
  constructor; assumption.
Qed.

Lemma parse_lines_ok (lines : list string) (s : parser) :
  parser_ok s → parser_ok (fold_left (on_line decode) lines s).
Proof.
  revert s. induction lines as [|line lines IH]; intros s Hs; [exact Hs |].
  simpl. apply IH. unfold on_line.
  destruct (String.eqb (TrimSpace line) ""); [exact Hs |].
  destruct (decode (TrimSpace line)); [now apply on_event_ok | exact Hs].
Qed.

(** X8.  Every summary [parseTestOutput] returns, for every input and every
    JSON decoder: the total is the sum of the three counters, none of them
    negative; the status is PASS or FAIL; a summary with status PASS has no
    failed test, no error and no build error; there is one error per failed
    pair of package and test, so no more errors than failed tests, each with
    a test name; and one build error per failed import path, none of them
    empty. *)
Theorem parseTestOutput_summary (data : string) :
  let s := parseTestOutput decode data in
  Total s = Passed s + Failed s + Skipped s
  ∧ 0 ≤ Passed s ∧ 0 ≤ Failed s ∧ 0 ≤ Skipped s
  ∧ (Status s = "PASS" ∨ Status s = "FAIL")
  ∧ (Status s = "PASS" → Failed s = 0 ∧ Errors s = [] ∧ BuildErrors s = [])
  ∧ Z.of_nat (length (Errors s)) ≤ Failed s
  ∧ NoDup (map (λ e, (Package e, Test e)) (Errors s))
  ∧ Forall (λ e, Test e ≠ "") (Errors s)
  ∧ NoDup (map ImportPath (BuildErrors s))
  ∧ Forall (λ b, ImportPath b ≠ "") (BuildErrors s).
Proof.
  cbv zeta. unfold parseTestOutput, parse_lines.
  pose proof (parse_lines_ok (Split data newline) parser_start parser_start_ok)
    as Hok.
  set (p := fold_left (on_line decode) (Split data newline) parser_start) in *.
  destruct Hok as [Ht Hp Hf Hs Hst Hpass Hsz Hnamed Hbuilds].
  unfold summary_of. simpl.
  repeat (split; [assumption |]).
  split.
  { intros HP. destruct (Hpass HP) as (H0 & H1 & H2).
    rewrite H1, H2, !elements_empty. simpl. auto. }
  split.
  { rewrite length_map. exact Hsz. }
  split.
  { rewrite map_map. simpl.
    rewrite (map_ext _ id) by (intros [a b]; reflexivity).
    rewrite map_id. apply NoDup_elements. }
  split.
  { apply Forall_forall. intros e He. apply list_elem_of_In, in_map_iff in He.
    destruct He as (key & <- & Hk). simpl. apply Hnamed.
    now apply elem_of_elements, list_elem_of_In. }
  split.
  { rewrite map_map. simpl. rewrite map_id. apply NoDup_elements. }
  apply Forall_forall. intros b Hb. apply list_elem_of_In, in_map_iff in Hb.
  destruct Hb as (ip & <- & Hk). simpl. apply Hbuilds.
  now apply elem_of_elements, list_elem_of_In.
Qed.

End TestSummaryFacts.

(** ** [truncateLines] *)

Section TruncateFacts.
Import Strings Workflow Adapters.

Lemma Join_Split (s : string) (c : ascii) :
  Join (Split s c) (String c "") = s.
Proof.
  induction s as [|a s IH]; simpl; [reflexivity |].
  pose proof (Split_head_cons s c) as Hne.
  destruct (Ascii.eqb_spec a c) as [->|Hne'].
  - destruct (Split s c) as [|x xs] eqn:E; [contradiction |].
    change (Join ("" :: x :: xs) (String c ""))
      with (String c (Join (x :: xs) (String c ""))).
    f_equal. exact IH.
  - destruct (Split s c) as [|x xs] eqn:E; [contradiction |].
    destruct xs as [|y ys].
    + simpl in *. now rewrite IH.
    + change (Join (String a x :: y :: ys) (String c ""))
        with (String a (x +:+ String c "" +:+ Join (y :: ys) (String c ""))).
      f_equal. exact IH.
Qed.

Lemma uint_no_newline (d : Decimal.uint) :
  IndexByte (NilEmpty.string_of_uint d) newline = -1.
Proof. induction d; simpl; try reflexivity; now rewrite IHd. Qed.

Lemma Itoa_no_newline (n : Z) : IndexByte (Itoa n) newline = -1.
Proof.
  unfold Itoa, NilZero.string_of_int, NilZero.string_of_uint.
  destruct (Z.to_int n) as [d|d]; destruct d; simpl; try reflexivity;
    now rewrite uint_no_newline.
Qed.

Lemma Forall_take {A : Type} (P : A → Prop) (n : nat) (l : list A) :
  Forall P l → Forall P (take n l).
Proof.
  intros H. revert n. induction H as [|x l Hx _ IH]; intros [|n]; simpl;
    constructor; auto.
Qed.

(** X9.  [truncateLines] with a limit that is not negative never panics.  A
    text of at most [maxLines] lines, its trailing line feeds apart, comes
    back without those line feeds; a longer one comes back as its first
    [maxLines] lines followed by one line that tells how many were
    dropped, [maxLines + 1] lines in all (for a limit of at least one). *)
Theorem truncateLines_lines (s : string) (maxLines : Z) :
  0 ≤ maxLines →
  let lines := Split (TrimRightNewlines s) newline in
  let more := Z.of_nat (length lines) - maxLines in
  (Z.of_nat (length lines) ≤ maxLines →
     truncateLines s maxLines = Some (TrimRightNewlines s))
  ∧ (maxLines < Z.of_nat (length lines) →
       ∃ out,
         truncateLines s maxLines = Some out
         ∧ (1 ≤ maxLines →
              Split out newline
              = take (Z.to_nat maxLines) lines
                ++ ["... (" +:+ Itoa more +:+ " more lines)"]
              ∧ Z.of_nat (length (Split out newline)) = maxLines + 1)).
Proof.
  intros Hmax. cbv zeta. unfold truncateLines.
  set (lines := Split (TrimRightNewlines s) newline).
  split.
  - intros Hle. destruct (Z.leb_spec (Z.of_nat (length lines)) maxLines); [| lia].
    unfold lines, nl. now rewrite Join_Split.
  - intros Hgt. destruct (Z.leb_spec (Z.of_nat (length lines)) maxLines); [lia |].
    destruct (Z.ltb_spec maxLines 0); [lia |].
    eexists. split; [reflexivity |]. intros Hone.
    set (t := "... (" +:+ Itoa (Z.of_nat (length lines) - maxLines)
              +:+ " more lines)").
    assert (Ht : IndexByte t newline = -1).
    { unfold t. apply (IndexByte_app_absent "... ("); [reflexivity |].
      apply IndexByte_app_absent; [apply Itoa_no_newline | reflexivity]. }
    assert (Hsplit : Split (Join (take (Z.to_nat maxLines) lines) nl +:+ nl +:+ t)
                       newline
                     = take (Z.to_nat maxLines) lines ++ [t]).
    { change (Join (take (Z.to_nat maxLines) lines) nl +:+ nl +:+ t)
        with (Join (take (Z.to_nat maxLines) lines) nl +:+ String newline t).
      rewrite Split_app. unfold nl. rewrite Split_Join.
      - now rewrite (Split_absent t newline Ht).
      - destruct lines as [|x xs] eqn:E; [simpl in Hgt; lia |].
        destruct (Z.to_nat maxLines) eqn:En; [lia | discriminate].
      - apply Forall_take. apply Split_pieces_plain. }
    split; [exact Hsplit |].
    rewrite Hsplit, length_app, length_take. simpl. lia.
Qed.

End TruncateFacts.

(** ** The adapter of dupl *)

Section DuplFacts.
Import Strings Workflow Adapters.

Lemma atoi_digits_range (s : string) : 0 ≤ atoi_digits s ≤ 2 ^ 63 - 1.
Proof. unfold atoi_digits. pose proof (digits_value_nonneg s). lia. Qed.

Lemma match_dupl_file (line file first last : string) :
  match_dupl line = Some (file, (first, last)) → file ≠ "".
Proof.
  unfold match_dupl.
  destruct (Z.ltb_spec (LastIndexByte line ":") 1) as [|Hc]; [discriminate |].
  destruct (span is_digit _) as [d1 r1].
  destruct (0 <=? IndexByte _ newline); [discriminate |].
  destruct (String.eqb d1 ""); [discriminate |].
  destruct r1 as [|a r1]; [discriminate |].
  destruct a as [[|] [|] [|] [|] [|] [|] [|] [|]]; try discriminate.
  destruct (span is_digit r1) as [d2 r2].
  destruct (String.eqb d2 ""); [discriminate |].
  destruct (String.eqb r2 ""); [| discriminate].
  intros H. inversion H; subst.
  pose proof (LastIndexByte_range line ":") as Hr. unfold len in Hr.
  intros E.
  assert (Hlen : String.length (upto (Z.to_nat (LastIndexByte line ":")) line)
                 = Z.to_nat (LastIndexByte line ":"))
    by (apply length_upto; lia).
  rewrite E in Hlen. simpl in Hlen. lia.
Qed.

(** What the loop keeps true of the entries of the group and of the
    duplicates it has found. *)
Lemma dupl_line_keeps (threshold : Z) (line : string)
    (P : duplEntry → Prop) (Q : Report.Duplicate → Prop) :
  (∀ file first last,
     match_dupl (TrimSpace line) = Some (file, (first, last)) →
     P {| de_File := file; StartLine := atoi_digits first;
          EndLine := atoi_digits last |}) →
  (∀ a b, P a → P b →
     Q {| Report.du_File1 := de_File a; Report.du_StartLine1 := StartLine a;
          Report.du_EndLine1 := EndLine a; Report.du_File2 := de_File b;
          Report.du_StartLine2 := StartLine b; Report.du_EndLine2 := EndLine b;
          Report.du_Tokens := threshold |}) →
  ∀ st, Forall P (fst st) → Forall Q (snd st) →
    Forall P (fst (dupl_line threshold st line))
    ∧ Forall Q (snd (dupl_line threshold st line)).
Proof.
  intros Hentry Hpair [group dups] Hg Hd. simpl in Hg, Hd. unfold dupl_line.
  destruct (String.eqb (TrimSpace line) "").
  - simpl. split; [constructor |]. unfold flush.
    destruct (2 <=? length group)%nat; [| exact Hd].
    destruct group as [|first others]; simpl; [exact Hd |].
    apply Forall_app. split; [exact Hd |].
    inversion Hg as [|? ? Hf Ho]; subst.
    apply Forall_forall. intros d Hin. apply list_elem_of_In, in_map_iff in Hin.
    destruct Hin as (o & <- & Hin). apply Hpair; [exact Hf |].
    rewrite Forall_forall in Ho. apply Ho. now apply list_elem_of_In.
  - destruct (match_dupl (TrimSpace line)) as [[file [first last]]|] eqn:Hm.
    + simpl. split; [| exact Hd]. apply Forall_app. split; [exact Hg |].
      constructor; [| constructor]. now apply Hentry.
    + simpl. now split.
Qed.

Lemma flush_keeps (threshold : Z) (group : list duplEntry)
    (dups : list Report.Duplicate)
    (P : duplEntry → Prop) (Q : Report.Duplicate → Prop) :
  (∀ a b, P a → P b →
     Q {| Report.du_File1 := de_File a; Report.du_StartLine1 := StartLine a;
          Report.du_EndLine1 := EndLine a; Report.du_File2 := de_File b;
          Report.du_StartLine2 := StartLine b; Report.du_EndLine2 := EndLine b;
          Report.du_Tokens := threshold |}) →
  Forall P group → Forall Q dups → Forall Q (flush group threshold dups).
Proof.
  intros Hpair Hg Hd. unfold flush.
  destruct (2 <=? length group)%nat; [| exact Hd].
  destruct group as [|first others]; simpl; [exact Hd |].
  apply Forall_app. split; [exact Hd |].
  inversion Hg as [|? ? Hf Ho]; subst.
  apply Forall_forall. intros d Hin. apply list_elem_of_In, in_map_iff in Hin.
  destruct Hin as (o & <- & Hin). apply Hpair; [exact Hf |].
  rewrite Forall_forall in Ho. apply Ho. now apply list_elem_of_In.
Qed.

(** X10.  Every duplicate [parseDuplOutput] reports, for every input: its
    token count is the threshold that was passed in (the adapter does not
    read a size from the tool's output), its two files are not empty, and
    its four line numbers lie between zero and the largest [int]. *)
Theorem parseDuplOutput_entries (data : string) (threshold : Z) :
  Forall (λ d,
      Report.du_Tokens d = threshold
      ∧ Report.du_File1 d ≠ "" ∧ Report.du_File2 d ≠ ""
      ∧ 0 ≤ Report.du_StartLine1 d ≤ 2 ^ 63 - 1
      ∧ 0 ≤ Report.du_EndLine1 d ≤ 2 ^ 63 - 1
      ∧ 0 ≤ Report.du_StartLine2 d ≤ 2 ^ 63 - 1
      ∧ 0 ≤ Report.du_EndLine2 d ≤ 2 ^ 63 - 1)
    (parseDuplOutput data threshold).
Proof.
  set (P := λ e : duplEntry,
         de_File e ≠ "" ∧ 0 ≤ StartLine e ≤ 2 ^ 63 - 1
         ∧ 0 ≤ EndLine e ≤ 2 ^ 63 - 1).
  set (Q := λ d : Report.Duplicate,
         Report.du_Tokens d = threshold
         ∧ Report.du_File1 d ≠ "" ∧ Report.du_File2 d ≠ ""
         ∧ 0 ≤ Report.du_StartLine1 d ≤ 2 ^ 63 - 1
         ∧ 0 ≤ Report.du_EndLine1 d ≤ 2 ^ 63 - 1
         ∧ 0 ≤ Report.du_StartLine2 d ≤ 2 ^ 63 - 1
         ∧ 0 ≤ Report.du_EndLine2 d ≤ 2 ^ 63 - 1).
  assert (Hpair : ∀ a b, P a → P b →
            Q {| Report.du_File1 := de_File a; Report.du_StartLine1 := StartLine a;
                 Report.du_EndLine1 := EndLine a; Report.du_File2 := de_File b;
                 Report.du_StartLine2 := StartLine b;
                 Report.du_EndLine2 := EndLine b;
                 Report.du_Tokens := threshold |}).
  { intros a b (Ha1 & Ha2 & Ha3) (Hb1 & Hb2 & Hb3). unfold Q. simpl. tauto. }
  assert (Hloop : ∀ lines st, Forall P (fst st) → Forall Q (snd st) →
            Forall P (fst (fold_left (dupl_line threshold) lines st))
            ∧ Forall Q (snd (fold_left (dupl_line threshold) lines st))).
  { induction lines as [|line lines IH]; intros st Hg Hd; [now split |].
    simpl. destruct (dupl_line_keeps threshold line P Q) with (st := st)
      as [Hg' Hd']; try assumption.
    - intros file first last Hm. unfold P. simpl.
      split; [now apply (match_dupl_file _ _ _ _ Hm) |].
      split; apply atoi_digits_range.
    - now apply IH. }
  unfold parseDuplOutput.
  destruct (Hloop (Split data newline) ([], [])) as [Hg Hd]; try constructor.
  destruct (fold_left _ _ _) as [group dups]. simpl in *.
  now apply (flush_keeps threshold group dups P Q).
Qed.

Lemma flush_app (threshold : Z) (group : list duplEntry)
    (dups : list Report.Duplicate) :
  flush group threshold dups = dups ++ flush group threshold [].
Proof.
  unfold flush. destruct (2 <=? length group)%nat; [| now rewrite app_nil_r].
  destruct (groupToDuplicates group threshold); [reflexivity |].
  now rewrite app_nil_r.
Qed.

(** The lines of one group, read one after the other. *)
Lemma dupl_block (threshold : Z) (lines : list string) (group : list duplEntry) :
  Forall2 (λ line e,
      ∃ file first last,
        match_dupl (TrimSpace line) = Some (file, (first, last))
        ∧ e = {| de_File := file; StartLine := atoi_digits first;
                 EndLine := atoi_digits last |}) lines group →
  ∀ g0 dups,
    fold_left (dupl_line threshold) lines (g0, dups) = (g0 ++ group, dups).
Proof.
  induction 1 as [|line e lines group (file & first & last & Hm & ->) _ IH];
    intros g0 dups; simpl.
  - now rewrite app_nil_r.
  - destruct (String.eqb_spec (TrimSpace line) "") as [E|_].
    + rewrite E in Hm. discriminate.
    + rewrite Hm, IH, <- app_assoc. reflexivity.
Qed.

(** X11.  A listing made of groups, each a run of lines [file:start-end]
    closed by an empty line: a group of fewer than two lines gives nothing,
    and a group of [n] lines gives [n - 1] duplicates, each pairing the
    first line of the group with one of the later lines, in order (not every
    pair of the group). *)
Theorem parseDuplOutput_groups (blocks : list (list string * list duplEntry))
    (threshold : Z) :
  Forall (λ b,
      Forall (λ line, IndexByte line newline = -1) (fst b)
      ∧ Forall2 (λ line e,
            ∃ file first last,
              match_dupl (TrimSpace line) = Some (file, (first, last))
              ∧ e = {| de_File := file; StartLine := atoi_digits first;
                       EndLine := atoi_digits last |}) (fst b) (snd b))
    blocks →
  parseDuplOutput (Join (flat_map (λ b, fst b ++ [""]) blocks) nl) threshold
  = flat_map
      (λ b, match snd b with
            | first :: second :: others =>
                default []
                  (groupToDuplicates (first :: second :: others) threshold)
            | _ => []
            end) blocks.
Proof.
  intros Hblocks.
  assert (Hflush : ∀ g : list duplEntry,
            flush g threshold []
            = match g with
              | first :: second :: others =>
                  default []
                    (groupToDuplicates (first :: second :: others) threshold)
              | _ => []
              end).
  { intros [|a [|b g]]; reflexivity. }
  assert (Hfold : ∀ dups,
            fold_left (dupl_line threshold)
              (flat_map (λ b, fst b ++ [""]) blocks) ([], dups)
            = ([], dups ++ flat_map (λ b, flush (snd b) threshold []) blocks)).
  { induction Hblocks as [|[lines group] blocks [_ Hb] _ IH]; intros dups; simpl.
    - now rewrite app_nil_r.
    - rewrite <- app_assoc, fold_left_app.
      rewrite (dupl_block threshold lines group Hb). simpl.
      rewrite IH, (flush_app threshold group dups), <- app_assoc. reflexivity. }
  unfold parseDuplOutput.
  destruct blocks as [|b blocks]; [reflexivity |].
  unfold nl. rewrite Split_Join.
  - rewrite Hfold.
    assert (Hnil : ∀ d, flush [] threshold d = d) by reflexivity.
    rewrite Hnil, app_nil_l. apply flat_map_ext. intros a. apply Hflush.
  - simpl. destruct (fst b); discriminate.
  - clear Hfold. induction Hblocks as [|b' blocks' [Hl _] _ IH]; simpl;
      [constructor |].
    apply Forall_app. split; [| exact IH].
    apply Forall_app. split; [exact Hl |]. constructor; [reflexivity | constructor].
Qed.

End DuplFacts.

(** ** The adapter of govulncheck *)

Section VulncheckFacts.
Import Strings Workflow Adapters.
Variable decode : string → option govulncheckMessage.

Lemma trace_fold (tr : list govulncheckTraceEntry) (v : Report.Vuln) :
  let v' := fold_left trace_step tr v in
  Report.vu_ID v' = Report.vu_ID v
  ∧ Report.vu_Summary v' = Report.vu_Summary v
  ∧ Report.vu_FixedVersion v' = Report.vu_FixedVersion v
  ∧ Report.vu_Symbols v'
    = Report.vu_Symbols v
      ++ List.filter (λ name, negb (String.eqb name "")) (map te_Function tr).
Proof.
  revert v. induction tr as [|t tr IH]; intros v; cbv zeta; simpl.
  - now rewrite app_nil_r.
  - destruct (IH (trace_step v t)) as (H1 & H2 & H3 & H4).
    rewrite H1, H2, H3, H4. unfold trace_step at 1 2 3 4. simpl.
    repeat split.
    destruct (String.eqb (te_Function t) ""); simpl; [reflexivity |].
    now rewrite <- app_assoc.
Qed.

Lemma symbols_of_snoc (id : string) (fs : list govulncheckFinding)
    (f : govulncheckFinding) :
  symbols_of id (fs ++ [f])
  = symbols_of id fs ++ (if String.eqb (f_OSV f) id then called f else []).
Proof. unfold symbols_of. rewrite flat_map_app. simpl. now rewrite app_nil_r. Qed.

Lemma symbols_of_absent (id : string) (fs : list govulncheckFinding) :
  id ∉ map f_OSV fs → symbols_of id fs = [].
Proof.
  induction fs as [|f fs IH]; intros Hid; [reflexivity |].
  simpl in Hid. apply not_elem_of_cons in Hid. destruct Hid as [Hne Hid].
  unfold symbols_of in *. simpl.
  destruct (String.eqb_spec (f_OSV f) id); [congruence |]. now apply IH.
Qed.

Lemma elem_of_map_id (l : list Report.Vuln) (id : string) :
  id ∈ map Report.vu_ID l ↔ ∃ x, x ∈ l ∧ Report.vu_ID x = id.
Proof.
  rewrite list_elem_of_In, in_map_iff. split; intros (x & H1 & H2); exists x.
  - split; [now apply list_elem_of_In | exact H1].
  - split; [exact H2 | now apply list_elem_of_In].
Qed.

Lemma replace_ids (id : string) (v' : Report.Vuln) (l : list Report.Vuln) :
  Report.vu_ID v' = id →
  map Report.vu_ID
    (map (λ x, if String.eqb (Report.vu_ID x) id then v' else x) l)
  = map Report.vu_ID l.
Proof.
  intros Hv. rewrite map_map. apply map_ext. intros x.
  destruct (String.eqb_spec (Report.vu_ID x) id); congruence.
Qed.

Lemma elem_of_replace (id : string) (v' : Report.Vuln) (l : list Report.Vuln)
    (y : Report.Vuln) :
  y ∈ map (λ x, if String.eqb (Report.vu_ID x) id then v' else x) l →
  (y = v' ∧ id ∈ map Report.vu_ID l)
  ∨ (y ∈ l ∧ Report.vu_ID y ≠ id).
Proof.
  intros Hy. apply list_elem_of_In, in_map_iff in Hy.
  destruct Hy as (x & Hx & Hin). apply list_elem_of_In in Hin.
  destruct (String.eqb_spec (Report.vu_ID x) id) as [E|E].
  - left. split; [now symmetry |]. apply elem_of_map_id. eauto.
  - right. subst y. now split.
Qed.

(** One finding more. *)
Lemma finding_step_ok (osv : gmap string string)
    (done : list govulncheckFinding)
    (st : gmap string Report.Vuln * list Report.Vuln) (f : govulncheckFinding) :
  vulns_ok osv done st → vulns_ok osv (done ++ [f]) (finding_step osv st f).
Proof.
  destruct st as [seen vulns]. intros [Hnd Hids Hseen Hsame Hsym Hsum].
  simpl in *. unfold finding_step.
  set (id := f_OSV f).
  set (fresh := {| Report.vu_ID := id;
                   Report.vu_Summary := default "" (osv !! id);
                   Report.vu_AffectedPackage := "";
                   Report.vu_FixedVersion := f_FixedVersion f;
                   Report.vu_Symbols := [] |}).
  (* The vulnerability [v] points to, and the list before the copy back. *)
  assert (Hpre : ∃ v vulns1,
            match seen !! id with
            | Some v => (v, vulns)
            | None => (fresh, vulns ++ [fresh])
            end = (v, vulns1)
            ∧ Report.vu_ID v = id
            ∧ v ∈ vulns1
            ∧ NoDup (map Report.vu_ID vulns1)
            ∧ (∀ k, k ∈ map Report.vu_ID vulns1 ↔ k ∈ map f_OSV (done ++ [f]))
            ∧ (∀ k, k ∈ map Report.vu_ID vulns1 ↔ k = id ∨ is_Some (seen !! k))
            ∧ (∀ x, x ∈ vulns1 → Report.vu_ID x ≠ id →
                 seen !! Report.vu_ID x = Some x
                 ∧ Report.vu_Symbols x = symbols_of (Report.vu_ID x) done
                 ∧ Report.vu_Summary x
                   = default "" (osv !! Report.vu_ID x))
            ∧ Report.vu_Symbols v = symbols_of id done
            ∧ Report.vu_Summary v = default "" (osv !! id)).
  { destruct (seen !! id) as [v|] eqn:Hv.
    - assert (Hin : id ∈ map Report.vu_ID vulns)
        by (apply Hseen; rewrite Hv; eauto).
      apply elem_of_map_id in Hin. destruct Hin as (x & Hx & Hxid).
      assert (x = v).
      { pose proof (Hsame x Hx) as E. rewrite Hxid, Hv in E. congruence. }
      subst x. exists v, vulns.
      split; [reflexivity |]. split; [exact Hxid |]. split; [exact Hx |].
      split; [exact Hnd |]. split.
      { intros k. rewrite map_app, elem_of_app, <- Hids. simpl.
        rewrite list_elem_of_singleton. split; [auto |].
        intros [H| ->]; [exact H |]. apply elem_of_map_id. eauto. }
      split.
      { intros k. rewrite <- Hseen. split; [auto |].
        intros [E|H]; [| exact H]. subst k. rewrite Hv. eauto. }
      split.
      { intros y Hy _. auto. }
      split; [rewrite <- Hxid; now apply Hsym |].
      rewrite <- Hxid. now apply Hsum.
    - assert (Hout : id ∉ map Report.vu_ID vulns).
      { intros Hin. apply Hseen in Hin. rewrite Hv in Hin. now destruct Hin. }
      exists fresh, (vulns ++ [fresh]).
      split; [reflexivity |]. split; [reflexivity |].
      split; [apply elem_of_app; right; now left |].
      split.
      { rewrite map_app. simpl. apply NoDup_app. split; [exact Hnd |].
        split; [| apply NoDup_singleton].
        intros k Hk Hk'. apply list_elem_of_singleton in Hk'. now subst k. }
      split.
      { intros k. rewrite !map_app, !elem_of_app, Hids. simpl. reflexivity. }
      split.
      { intros k. rewrite map_app, elem_of_app, <- Hseen. simpl.
        rewrite list_elem_of_singleton. tauto. }
      split.
      { intros y Hy Hne. apply elem_of_app in Hy. destruct Hy as [Hy|Hy].
        - auto.
        - apply list_elem_of_singleton in Hy. subst y. now contradiction Hne. }
      split; [| reflexivity].
      simpl. symmetry. apply symbols_of_absent. now rewrite <- Hids. }
  destruct Hpre as (v & vulns1 & -> & Hvid & Hvin & Hnd1 & Hids1 & Hseen1
                    & Hrest & Hvsym & Hvsum).
  destruct (trace_fold (Trace f) v) as (Ti & Ts & _ & Tsym).
  set (v' := fold_left trace_step (Trace f) v) in *.
  assert (Hv'id : Report.vu_ID v' = id) by congruence.
  constructor; simpl.
  - now rewrite replace_ids.
  - intros k. now rewrite replace_ids.
  - intros k. rewrite replace_ids by assumption. rewrite Hseen1.
    destruct (decide (k = id)) as [->|Hne].
    + rewrite lookup_insert_eq. split; eauto.
    + rewrite lookup_insert_ne by congruence. tauto.
  - intros y Hy. apply elem_of_replace in Hy.
    destruct Hy as [[-> _]|[Hy Hne]].
    + rewrite Hv'id. apply lookup_insert_eq.
    + rewrite lookup_insert_ne by congruence. now apply Hrest.
  - intros y Hy. apply elem_of_replace in Hy.
    destruct Hy as [[-> _]|[Hy Hne]].
    + rewrite Hv'id, symbols_of_snoc. fold id. rewrite String.eqb_refl.
      rewrite Tsym, Hvsym. reflexivity.
    + rewrite symbols_of_snoc. fold id.
      destruct (String.eqb_spec id (Report.vu_ID y)) as [E|_];
        [now contradiction Hne |].
      rewrite app_nil_r. now apply Hrest.
  - intros y Hy. apply elem_of_replace in Hy.
    destruct Hy as [[-> _]|[Hy Hne]].
    + rewrite Hv'id, Ts. exact Hvsum.
    + now apply Hrest.
Qed.

Lemma findings_fold_ok (osv : gmap string string)
    (fs done : list govulncheckFinding)
    (st : gmap string Report.Vuln * list Report.Vuln) :
  vulns_ok osv done st →
  vulns_ok osv (done ++ fs) (fold_left (finding_step osv) fs st).
Proof.
  revert done st. induction fs as [|f fs IH]; intros done st Hst; simpl.
  - now rewrite app_nil_r.
  - replace (done ++ f :: fs) with ((done ++ [f]) ++ fs)
      by (now rewrite <- app_assoc).
    apply IH. now apply finding_step_ok.
Qed.

(** X12.  The vulnerabilities [parseGovulncheckOutput] returns, for every
    input and every JSON decoder: one per identifier that the findings of
    the input name, no identifier twice, so no more than there are findings;
    the summary of each is the one the input gives for its identifier (empty
    when it gives none), and its symbols are the functions named by the
    traces of all the findings about it, in the order of the input. *)
Theorem parseGovulncheckOutput_vulns (data : string) :
  let out := parseGovulncheckOutput decode data in
  let findings := findings_of decode data in
  NoDup (map Report.vu_ID out)
  ∧ (∀ id, id ∈ map Report.vu_ID out ↔ id ∈ map f_OSV findings)
  ∧ (length out ≤ length findings)%nat
  ∧ Forall (λ v,
        Report.vu_Symbols v = symbols_of (Report.vu_ID v) findings
        ∧ Report.vu_Summary v
          = default "" (summaries_of decode data !! Report.vu_ID v)) out.
Proof.
  cbv zeta. unfold parseGovulncheckOutput, findings_of, summaries_of.
  destruct (fold_left (message_line decode) (Split data newline) (∅, []))
    as [osv fs]. simpl.
  assert (H0 : vulns_ok osv [] (∅, [])).
  { constructor; simpl.
    - constructor.
    - intros id. reflexivity.
    - intros id. rewrite lookup_empty. split.
      + intros [? H]. discriminate.
      + intros H. now apply elem_of_nil in H.
    - intros x H. now apply elem_of_nil in H.
    - intros x H. now apply elem_of_nil in H.
    - intros x H. now apply elem_of_nil in H. }
  pose proof (findings_fold_ok osv fs [] (∅, []) H0) as Hok. simpl in Hok.
  destruct (fold_left (finding_step osv) fs (∅, [])) as [seen vulns].
  destruct Hok as [Hnd Hids _ _ Hsym Hsum]. simpl in *.
  split; [exact Hnd |]. split; [exact Hids |]. split.
  - rewrite <- (length_map Report.vu_ID vulns), <- (length_map f_OSV fs).
    apply NoDup_incl_length.
    + apply NoDup_ListNoDup. exact Hnd.
    + intros id Hin. apply list_elem_of_In, Hids, list_elem_of_In. exact Hin.
  - apply Forall_forall. intros v Hv. split; [now apply Hsym | now apply Hsum].
Qed.

End VulncheckFacts.

(** ** The adapter of staticcheck and the summary of gocognit *)

Section StaticcheckFacts.
Import Strings Workflow Adapters.
Variable decode : string → option staticcheckEvent.

Lemma staticcheck_fold (lines : list string) (issues : list Report.StaticIssue)
    (P : Report.StaticIssue → Prop) :
  (∀ ev, Code ev ≠ "" →
     P {| Report.si_Package := derivePackageFromFile (loc_File (Location ev));
          Report.si_File := loc_File (Location ev);
          Report.si_Line := loc_Line (Location ev);
          Report.si_Col := loc_Column (Location ev);
          Report.si_EndLine := loc_Line (End_ ev);
          Report.si_EndCol := loc_Column (End_ ev);
          Report.si_Code := Code ev;
          Report.si_Severity := Severity ev;
          Report.si_Message := sc_Message ev |}) →
  Forall P issues →
  Forall P (fold_left (staticcheck_line decode) lines issues)
  ∧ (length (fold_left (staticcheck_line decode) lines issues)
     ≤ length issues + length lines)%nat.
Proof.
  intros HP. revert issues.
  induction lines as [|line lines IH]; intros issues Hi; simpl; [split; [auto | lia] |].
  assert (Hstep : Forall P (staticcheck_line decode issues line)
                  ∧ (length (staticcheck_line decode issues line)
                     ≤ S (length issues))%nat).
  { unfold staticcheck_line.
    destruct (String.eqb (TrimSpace line) ""); [split; [auto | lia] |].
    destruct (decode (TrimSpace line)) as [ev|]; [| split; [auto | lia]].
    destruct (String.eqb_spec (Code ev) ""); [split; [auto | lia] |].
    split.
    - apply Forall_app. split; [exact Hi |]. constructor; [| constructor].
      now apply HP.
    - rewrite length_app. simpl. lia. }
  destruct Hstep as [Hs Hl]. destruct (IH _ Hs) as [H1 H2].
  split; [exact H1 | lia].
Qed.

(** X13.  The issues [parseStaticcheckOutput] returns, for every input and
    every JSON decoder: at most one per line; none has an empty code (an
    event without a code is dropped); and the package of each is what
    [derivePackageFromFile] makes of its file. *)
Theorem parseStaticcheckOutput_issues (data : string) :
  let issues := sc_Issues (parseStaticcheckOutput decode data) in
  (length issues ≤ length (Split data newline))%nat
  ∧ Forall (λ i,
        Report.si_Code i ≠ ""
        ∧ Report.si_Package i = derivePackageFromFile (Report.si_File i))
      issues.
Proof.
  cbv zeta. unfold parseStaticcheckOutput. simpl.
  destruct (staticcheck_fold (Split data newline) []
              (λ i, Report.si_Code i ≠ ""
                    ∧ Report.si_Package i
                      = derivePackageFromFile (Report.si_File i)))
    as [HP Hlen].
  - intros ev Hev. simpl. now split.
  - constructor.
  - split; [exact Hlen | exact HP].
Qed.

End StaticcheckFacts.

Section ComplexityFacts.
Import Strings Workflow Adapters.

Lemma highest_of_spec (rest : list Report.ComplexityEntry)
    (first : Report.ComplexityEntry) :
  let h := highest_of first rest in
  ∃ before after,
    first :: rest = before ++ h :: after
    ∧ Forall (λ e, Report.cx_Complexity e < Report.cx_Complexity h) before
    ∧ Forall (λ e, Report.cx_Complexity e ≤ Report.cx_Complexity h) after.
Proof.
  cbv zeta. unfold highest_of.
  assert (Hgen : ∀ rest before h after,
            Forall (λ e, Report.cx_Complexity e < Report.cx_Complexity h) before →
            Forall (λ e, Report.cx_Complexity e ≤ Report.cx_Complexity h) after →
            let h' :=
              fold_left
                (λ highest e,
                   if Report.cx_Complexity highest <? Report.cx_Complexity e
                   then e else highest) rest h in
            ∃ before' after',
              before ++ h :: after ++ rest = before' ++ h' :: after'
              ∧ Forall (λ e, Report.cx_Complexity e < Report.cx_Complexity h')
                  before'
              ∧ Forall (λ e, Report.cx_Complexity e ≤ Report.cx_Complexity h')
                  after').
  { clear. induction rest as [|e rest IH]; intros before h after Hb Ha; cbv zeta.
    - simpl. exists before, after. now rewrite app_nil_r.
    - simpl. destruct (Z.ltb_spec (Report.cx_Complexity h) (Report.cx_Complexity e))
        as [Hlt|Hge].
      + destruct (IH (before ++ h :: after) e []) as (b' & a' & Heq & Hb' & Ha').
        * apply Forall_app. split.
          -- eapply Forall_impl; [exact Hb |]. simpl. intros. lia.
          -- constructor; [lia |].
             eapply Forall_impl; [exact Ha |]. simpl. intros. lia.
        * constructor.
        * exists b', a'. split; [| now split].
          rewrite <- Heq. simpl. rewrite <- !app_assoc. reflexivity.
      + destruct (IH before h (after ++ [e])) as (b' & a' & Heq & Hb' & Ha').
        * exact Hb.
        * apply Forall_app. split; [exact Ha |]. constructor; [lia | constructor].
        * exists b', a'. split; [| now split].
          rewrite <- Heq. now rewrite <- app_assoc. }
  destruct (Hgen rest [] first []) as (b' & a' & Heq & Hb' & Ha');
    try constructor.
  exists b', a'. simpl in Heq. now split.
Qed.

Lemma bucket_count_split (a b c : Z) (entries : list Report.ComplexityEntry) :
  a ≤ b + 1 → b ≤ c →
  bucket_count a b entries + bucket_count (b + 1) c entries
  = bucket_count a c entries.
Proof.
  intros Hab Hbc. unfold bucket_count.
  induction entries as [|e entries IH]; simpl; [reflexivity |].
  destruct (Z.leb_spec a (Report.cx_Complexity e));
    destruct (Z.leb_spec (Report.cx_Complexity e) b);
    destruct (Z.leb_spec (b + 1) (Report.cx_Complexity e));
    destruct (Z.leb_spec (Report.cx_Complexity e) c);
    simpl; try lia.
Qed.

(** X14.  What [FormatComplexitySummary] reports for a list that is not
    empty.  The entry shown as the highest is an entry of the list whose
    complexity none exceeds, and the first such entry.  The four counts of
    the distribution add up to the number of entries whose complexity lies
    between 1 and [2^31 - 1]: an entry of complexity zero (or less) is in
    no bucket. *)
Theorem FormatComplexitySummary_report (first : Report.ComplexityEntry)
    (rest : list Report.ComplexityEntry) :
  let entries := first :: rest in
  let h := highest_of first rest in
  let count lo hi := bucket_count lo hi entries in
  FormatComplexitySummary entries
  = "  Functions analysed: " +:+ Itoa (Z.of_nat (length entries)) +:+ nl
    +:+ "  Highest: " +:+ Report.cx_Package h +:+ "." +:+ Report.cx_Function h
    +:+ " (" +:+ Itoa (Report.cx_Complexity h) +:+ ")" +:+ nl
    +:+ "  Distribution: " +:+ Itoa (count 1 5) +:+ " (1-5), "
    +:+ Itoa (count 6 10) +:+ " (6-10), " +:+ Itoa (count 11 15)
    +:+ " (11-15), " +:+ Itoa (count 16 (2 ^ 31 - 1)) +:+ " (16+)" +:+ nl
  ∧ (∃ before after,
       entries = before ++ h :: after
       ∧ Forall (λ e, Report.cx_Complexity e < Report.cx_Complexity h) before
       ∧ Forall (λ e, Report.cx_Complexity e ≤ Report.cx_Complexity h) after)
  ∧ count 1 5 + count 6 10 + count 11 15 + count 16 (2 ^ 31 - 1)
    = count 1 (2 ^ 31 - 1)
  ∧ count 1 (2 ^ 31 - 1) ≤ Z.of_nat (length entries).
Proof.
  cbv zeta. split; [| split; [apply highest_of_spec | split]].
  - unfold FormatComplexitySummary, buckets.
    cbn [distribution Nat.ltb Nat.leb].
    rewrite !app_assoc_str. reflexivity.
  - rewrite (bucket_count_split 1 5 10) by lia.
    rewrite (bucket_count_split 1 10 15) by lia.
    apply bucket_count_split; lia.
  - unfold bucket_count. apply Nat2Z.inj_le. apply filter_length_le.
Qed.

End ComplexityFacts.

(** ** [FirstLine], the fix phase and the outcome of [Check] *)

Section FirstLineFacts.
Import Strings Workflow.

Lemma skip_line (skipped : string → Prop) (line : string) (lines : list string)
    (r : string) :
  skipped line →
  HasPrefix r "=== RUN" = false
  ∧ HasPrefix r "--- FAIL" = false
  ∧ ((r = "" ∧ Forall skipped lines)
     ∨ (r ≠ ""
        ∧ ∃ before l after,
            lines = before ++ l :: after
            ∧ Forall skipped before ∧ ¬ skipped l ∧ r = TrimSpace l)) →
  HasPrefix r "=== RUN" = false
  ∧ HasPrefix r "--- FAIL" = false
  ∧ ((r = "" ∧ Forall skipped (line :: lines))
     ∨ (r ≠ ""
        ∧ ∃ before l after,
            line :: lines = before ++ l :: after
            ∧ Forall skipped before ∧ ¬ skipped l ∧ r = TrimSpace l)).
Proof.
  intros Hline (H1 & H2 & [[H3 H4]|(H3 & b & l & a & H4 & H5 & H6 & H7)]).
  - split; [exact H1 |]. split; [exact H2 |]. left.
    split; [exact H3 |]. constructor; assumption.
  - split; [exact H1 |]. split; [exact H2 |]. right. split; [exact H3 |].
    exists (line :: b), l, a. rewrite H4. split; [reflexivity |].
    split; [constructor; assumption |]. split; [exact H6 | exact H7].
Qed.

(** X15.  [FirstLine] returns the first line of its input that, trimmed, is
    neither empty nor a line of the test framework ([=== RUN], [--- FAIL]),
    and returns it trimmed; when every line is of that kind it returns the
    empty string.  So its result never starts with [=== RUN] or
    [--- FAIL]. *)
Theorem FirstLine_first (s : string) :
  let skipped line :=
    TrimSpace line = ""
    ∨ HasPrefix (TrimSpace line) "=== RUN" = true
    ∨ HasPrefix (TrimSpace line) "--- FAIL" = true in
  HasPrefix (FirstLine s) "=== RUN" = false
  ∧ HasPrefix (FirstLine s) "--- FAIL" = false
  ∧ ((FirstLine s = "" ∧ Forall skipped (Split s newline))
     ∨ (FirstLine s ≠ ""
        ∧ ∃ before line after,
            Split s newline = before ++ line :: after
            ∧ Forall skipped before
            ∧ ¬ skipped line
            ∧ FirstLine s = TrimSpace line)).
Proof.
  cbv zeta. unfold FirstLine.
  induction (Split s newline) as [|line lines IH].
  - split; [reflexivity |]. split; [reflexivity |]. left. split; constructor.
  - change (first_line (line :: lines))
      with (if negb (String.eqb (TrimSpace line) "")
               && negb (HasPrefix (TrimSpace line) "=== RUN")
               && negb (HasPrefix (TrimSpace line) "--- FAIL")
            then TrimSpace line else first_line lines).
    destruct (String.eqb_spec (TrimSpace line) "") as [E|E]; cbn [negb andb].
    { apply skip_line; [| exact IH]. left. exact E. }
    destruct (HasPrefix (TrimSpace line) "=== RUN") eqn:Hrun; cbn [negb andb].
    { apply skip_line; [| exact IH]. right. left. exact Hrun. }
    destruct (HasPrefix (TrimSpace line) "--- FAIL") eqn:Hfail; cbn [negb andb].
    { apply skip_line; [| exact IH]. right. right. exact Hfail. }
    split; [exact Hrun |]. split; [exact Hfail |]. right. split; [exact E |].
    exists [], line, lines. split; [reflexivity |]. split; [constructor |].
    split; [| reflexivity].
    intros [H|[H|H]]; congruence.
Qed.

End FirstLineFacts.

Section CheckReport.
Import Strings Workflow.
Variable world : Type.
Variable X : externals world.

Lemma runGofumptFix_zero (w : world) : fst (runGofumptFix X w) = 0.
Proof.
  unfold runGofumptFix, bind, ret.
  destruct (ResolveTool X "gofumpt" w) as [[argv|] w1]; [| reflexivity].
  destruct (Runner_Run X (argv ++ ["-w"; "."]) "" w1) as [[res|err] w2];
    [| reflexivity].
  destruct (negb (Runner.ExitCode res =? 0)); [reflexivity |].
  destruct (ResolveTool X "gofumpt" w2) as [[lArgv|] w3]; [| reflexivity].
  destruct (Runner_Run X (lArgv ++ ["-l"; "."]) "" w3) as [r w4]. reflexivity.
Qed.

Lemma runLintFix_zero (e : Engine) (w : world) : fst (runLintFix X e w) = 0.
Proof.
  unfold runLintFix, bind, ret.
  destruct (ResolveTool X "golangci-lint" w) as [[argv|] w1]; [| reflexivity].
  destruct (Runner_Run X _ "" w1) as [r w2]. reflexivity.
Qed.

Lemma format_issues_listed (stdout : string) :
  Forall (λ fi, Report.fi_File fi ≠ ""
                ∧ Report.fi_Package fi = ""
                ∧ Report.fi_Message fi
                  = "file not formatted: " +:+ Report.fi_File fi)
         (format_issues stdout).
Proof.
  unfold format_issues.
  generalize (Split (TrimSpace stdout) newline). intros files.
  assert (H : ∀ acc,
             Forall (λ fi, Report.fi_File fi ≠ ""
                           ∧ Report.fi_Package fi = ""
                           ∧ Report.fi_Message fi
                             = "file not formatted: " +:+ Report.fi_File fi) acc →
             Forall (λ fi, Report.fi_File fi ≠ ""
                           ∧ Report.fi_Package fi = ""
                           ∧ Report.fi_Message fi
                             = "file not formatted: " +:+ Report.fi_File fi)
               (fold_left
                  (λ issues file,
                     let file := TrimSpace file in
                     if String.eqb file "" then issues
                     else issues ++ [{| Report.fi_Package := "";
                                        Report.fi_File := file;
                                        Report.fi_Message :=
                                          "file not formatted: " +:+ file |}])
                  files acc)).
  { induction files as [|file files IH]; intros acc Hacc; simpl; [exact Hacc |].
    apply IH. destruct (String.eqb_spec (TrimSpace file) "") as [E|E];
      [exact Hacc |].
    apply Forall_app. split; [exact Hacc |].
    constructor; [| constructor]. simpl. auto. }
  apply H. constructor.
Qed.

(** The fix phase: the count of automatic fixes is always [0]; with [fix] the
    list of format issues is empty. *)
Lemma RunFixPhase_result (e : Engine) (fix_ : bool) (w : world) :
  let f := fst (RunFixPhase X e fix_ w) in
  fr_AutoFixes f = 0
  ∧ (fix_ = true → fr_FormatIssues f = [])
  ∧ Forall (λ fi, Report.fi_File fi ≠ ""
                  ∧ Report.fi_Package fi = ""
                  ∧ Report.fi_Message fi
                    = "file not formatted: " +:+ Report.fi_File fi)
           (fr_FormatIssues f).
Proof.
  cbv zeta. unfold RunFixPhase, bind, ret. destruct fix_.
  - pose proof (runGofumptFix_zero w) as H1.
    destruct (runGofumptFix X w) as [n1 w1].
    pose proof (runLintFix_zero e w1) as H2.
    destruct (runLintFix X e w1) as [n2 w2]. simpl in *. subst.
    repeat split. constructor.
  - unfold runGofumptCheck, bind, ret.
    destruct (ResolveTool X "gofumpt" w) as [[argv|] w1]; simpl;
      [| split; [reflexivity |]; split; [discriminate | constructor]].
    destruct (Runner_Run X (argv ++ ["-l"; "."]) "" w1) as [[res|err] w2]; simpl;
      [| split; [reflexivity |]; split; [discriminate | constructor]].
    split; [reflexivity |]. split; [discriminate |]. apply format_issues_listed.
Qed.

(** One turn of the loop of [Check] leaves the identity of the report, its fix
    phase and its audit fields alone; when it does not set [failedIdx] it
    leaves the whole report alone. *)
Lemma check_step_report (e : Engine) (pkgs : list string) (i : nat)
    (step : string) (rr : Report.RunResult) (results : list StepResult)
    (failedIdx : Z) (w : world) :
  ∃ rr' results' failedIdx' w',
    check_step X e pkgs i step (rr, results, failedIdx) w
    = ((rr', results', failedIdx'), w')
    ∧ Report.ID rr' = Report.ID rr
    ∧ Report.kind rr' = Report.kind rr
    ∧ Report.AutoFixes rr' = Report.AutoFixes rr
    ∧ Report.FormatIssues rr' = Report.FormatIssues rr
    ∧ Report.Coverage rr' = Report.Coverage rr
    ∧ Report.Complexity rr' = Report.Complexity rr
    ∧ Report.DeadFuncs rr' = Report.DeadFuncs rr
    ∧ Report.Duplicates rr' = Report.Duplicates rr
    ∧ Report.Vulns rr' = Report.Vulns rr
    ∧ ((rr' = rr ∧ failedIdx' = failedIdx) ∨ failedIdx' = Z.of_nat i).
Proof.
  unfold check_step, bind, ret.
  destruct (String.eqb step "test").
  { destruct (runTest X e pkgs w) as [[summary|err] w1]; simpl.
    - destruct (String.eqb (Status summary) "FAIL");
        repeat eexists; simpl; auto.
    - repeat eexists; simpl; auto. }
  destruct (String.eqb step "lint").
  { destruct (runLint X e pkgs w) as [[summary|err] w1]; simpl.
    - destruct (0 <? length (ls_Issues summary))%nat;
        repeat eexists; simpl; auto.
    - destruct (is_unavailable err); repeat eexists; simpl; auto. }
  destruct (String.eqb step "staticcheck").
  { destruct (runStaticcheck X e pkgs w) as [[scResult|err] w1]; simpl.
    - destruct (0 <? length (sc_Issues scResult))%nat;
        repeat eexists; simpl; auto.
    - destruct (is_unavailable err); repeat eexists; simpl; auto. }
  repeat eexists; simpl; auto.
Qed.

Lemma check_loop_report (e : Engine) (pkgs : list string) (steps : list string) :
  ∀ (i : nat) (rr : Report.RunResult) (results : list StepResult) (w : world),
    ∃ rr' results' failedIdx' w',
      check_loop X e pkgs steps i (rr, results, -1) w
      = ((rr', results', failedIdx'), w')
      ∧ Report.ID rr' = Report.ID rr
      ∧ Report.kind rr' = Report.kind rr
      ∧ Report.AutoFixes rr' = Report.AutoFixes rr
      ∧ Report.FormatIssues rr' = Report.FormatIssues rr
      ∧ Report.Coverage rr' = Report.Coverage rr
      ∧ Report.Complexity rr' = Report.Complexity rr
      ∧ Report.DeadFuncs rr' = Report.DeadFuncs rr
      ∧ Report.Duplicates rr' = Report.Duplicates rr
      ∧ Report.Vulns rr' = Report.Vulns rr
      ∧ ((rr' = rr ∧ failedIdx' = -1) ∨ 0 ≤ failedIdx').
Proof.
  induction steps as [|step rest IH]; intros i rr results w.
  - simpl. exists rr, results, (-1), w. repeat split; auto.
  - destruct (check_step_report e pkgs i step rr results (-1) w)
      as (rr1 & results1 & f1 & w1 & Hstep & H1 & H2 & H3 & H4 & H5 & H6 & H7
          & H8 & H9 & Hcase).
    change (check_loop X e pkgs (step :: rest) i (rr, results, -1) w)
      with (let '(st1, w1) := check_step X e pkgs i step (rr, results, -1) w in
            (if 0 <=? snd st1 then ret st1
             else check_loop X e pkgs rest (S i) st1) w1).
    rewrite Hstep. cbv iota beta. cbn [snd].
    destruct Hcase as [[-> ->]| ->].
    + change (0 <=? -1) with false. cbv iota. apply IH.
    + replace (0 <=? Z.of_nat i) with true by (symmetry; apply Z.leb_le; lia).
      exists rr1, results1, (Z.of_nat i), w1.
      repeat split; try assumption. right. lia.
Qed.

Lemma CheckSteps_nonempty (c : Config.Config) : Config.CheckSteps c ≠ [].
Proof.
  unfold Config.CheckSteps.
  destruct (Config.Check_Steps c); simpl; discriminate.
Qed.

(** X16.  The report of [Check].  It carries the fresh run identifier and the
    kind [Check]; its count of automatic fixes is always [0], with or without
    [fix]; every format issue names a non-empty file and says
    [file not formatted: <file>]; no audit field is set.  With [fix] there is
    never a format issue and the format sentinel [-2] is never returned.
    [FailedIdx] is [-2] exactly when there is a format issue, and exactly when
    there is no step result.  A run that is not stopped by a step
    ([FailedIdx < 0]) carries no build error, test failure, lint issue or
    static issue. *)
Theorem Check_report (e : Engine) (packages : list string) (fix_ : bool)
    (w : world) :
  let res := fst (Check X e packages fix_ w) in
  let rr := RunResult res in
  Report.ID rr = fst (uuid_New X w)
  ∧ Report.kind rr = Report.Check
  ∧ Report.AutoFixes rr = 0
  ∧ Forall (λ fi, Report.fi_File fi ≠ ""
                  ∧ Report.fi_Package fi = ""
                  ∧ Report.fi_Message fi
                    = "file not formatted: " +:+ Report.fi_File fi)
           (Report.FormatIssues rr)
  ∧ (Report.Coverage rr = [] ∧ Report.Complexity rr = []
     ∧ Report.DeadFuncs rr = [] ∧ Report.Duplicates rr = []
     ∧ Report.Vulns rr = [])
  ∧ (fix_ = true → Report.FormatIssues rr = [] ∧ FailedIdx res ≠ -2)
  ∧ (FailedIdx res = -2 ↔ Report.FormatIssues rr ≠ [])
  ∧ (FailedIdx res = -2 ↔ Steps res = [])
  ∧ -2 ≤ FailedIdx res
  ∧ (FailedIdx res < 0 →
       Report.BuildErrors rr = [] ∧ Report.TestFailures rr = []
       ∧ Report.LintIssues rr = [] ∧ Report.StaticIssues rr = []).
Proof.
  cbv zeta. unfold Check, bind.
  destruct (uuid_New X w) as [runID w1]. cbn [fst].
  destruct (RunFixPhase_result e fix_ w1) as (Hzero & Hfix & Hlisted).
  destruct (RunFixPhase X e fix_ w1) as [fixRes w2]. cbn [fst] in *.
  set (rr0 := with_fix (Report.newRunResult runID Report.Check) fixRes).
  destruct (negb fix_ && (0 <? length (Report.FormatIssues rr0))%nat) eqn:Hstop.
  - apply andb_true_iff in Hstop. destruct Hstop as [Hnofix Hsome].
    apply Nat.ltb_lt in Hsome. simpl in Hsome |- *.
    assert (Hne : fr_FormatIssues fixRes ≠ []).
    { intros E. rewrite E in Hsome. simpl in Hsome. lia. }
    split; [reflexivity |]. split; [reflexivity |]. split; [exact Hzero |].
    split; [exact Hlisted |]. split; [repeat split |].
    split; [intros ->; discriminate |].
    split; [split; auto |]. split; [split; auto |]. split; [lia |].
    repeat split.
  - assert (Hnone : fr_FormatIssues fixRes = []).
    { destruct fix_; [now apply Hfix |]. simpl in Hstop.
      apply Nat.ltb_ge in Hstop. simpl in Hstop.
      destruct (fr_FormatIssues fixRes); [reflexivity | simpl in Hstop; lia]. }
    set (steps := Config.CheckSteps (Config e)).
    set (results0 := map (λ step, step_result step "skipped" "" "") steps).
    destruct (check_loop_report e (ResolvePackages e packages) steps 0 rr0
                results0 w2)
      as (rr1 & results1 & f1 & w3 & Hloop & H1 & H2 & H3 & H4 & H5 & H6 & H7
          & H8 & H9 & Hcase).
    destruct (check_loop_writes world X e (ResolvePackages e packages) steps 0
                rr0 results0 w2)
      as (rr1' & results1' & f1' & w3' & Hloop' & Hlen & _).
    { unfold results0. rewrite length_map. simpl. lia. }
    rewrite Hloop in Hloop'. inversion Hloop'; subst rr1' results1' f1' w3'.
    rewrite Hloop. simpl.
    assert (Hsteps : results1 ≠ []).
    { intros E. rewrite E in Hlen. unfold results0 in Hlen.
      rewrite length_map in Hlen. simpl in Hlen.
      pose proof (CheckSteps_nonempty (Config e)) as Hn. fold steps in Hn.
      destruct steps; [contradiction | simpl in Hlen; lia]. }
    assert (Hf : -1 ≤ f1) by (destruct Hcase as [[_ ->]|]; lia).
    rewrite H1, H2, H3, H4, H5, H6, H7, H8, H9. simpl. rewrite Hnone.
    split; [reflexivity |]. split; [reflexivity |]. split; [exact Hzero |].
    split; [constructor |]. split; [repeat split |].
    split; [intros _; split; [reflexivity | lia] |].
    split; [split; [lia | congruence] |].
    split; [split; [lia | intros E; contradiction] |]. split; [lia |].
    intros Hneg. destruct Hcase as [[-> _]|]; [| lia]. repeat split.
Qed.

End CheckReport.

(** ** Absolute arguments of [ResolvePackages] *)

Section ResolveAbsolute.
Import Strings Workflow.

Lemma resolve_one_app (e : Engine) (acc : list string) (p : string) :
  resolve_one e acc p = acc ++ resolve_one e [] p.
Proof.
  unfold resolve_one.
  destruct (Filepath.IsAbs p); [| reflexivity].
  destruct (Filepath.Rel _ p) as [rel|]; [| now rewrite app_nil_r].
  destruct (HasPrefix rel ".."); [now rewrite app_nil_r | reflexivity].
Qed.

Lemma resolve_fold_app (e : Engine) (ps acc : list string) :
  fold_left (resolve_one e) ps acc = acc ++ fold_left (resolve_one e) ps [].
Proof.
  revert acc. induction ps as [|p ps IH]; intros acc; simpl.
  - now rewrite app_nil_r.
  - rewrite IH, (IH (resolve_one e [] p)), resolve_one_app.
    now rewrite app_assoc.
Qed.

Lemma resolve_fold_middle (e : Engine) (before after : list string) (p : string) :
  fold_left (resolve_one e) (before ++ p :: after) []
  = fold_left (resolve_one e) before []
      ++ resolve_one e [] p ++ fold_left (resolve_one e) after [].
Proof.
  rewrite fold_left_app. simpl.
  rewrite resolve_fold_app, resolve_one_app. now rewrite <- app_assoc.
Qed.

(** An argument that resolves to nothing is as good as absent. *)
Lemma ResolvePackages_dropped (e : Engine) (before after : list string)
    (p : string) :
  resolve_one e [] p = [] →
  ResolvePackages e (before ++ p :: after) = ResolvePackages e (before ++ after).
Proof.
  intros Hp. unfold ResolvePackages.
  rewrite resolve_fold_middle, Hp. simpl.
  rewrite length_app. simpl.
  replace (length before + S (length after) =? 0)%nat with false
    by (symmetry; apply Nat.eqb_neq; lia).
  assert (Hfold : fold_left (resolve_one e) (before ++ after) []
                  = fold_left (resolve_one e) before []
                      ++ fold_left (resolve_one e) after []).
  { rewrite fold_left_app. apply resolve_fold_app. }
  rewrite Hfold.
  destruct (before ++ after) as [|x l] eqn:E; simpl.
  - apply app_eq_nil in E. destruct E as [-> ->]. reflexivity.
  - reflexivity.
Qed.

Lemma ResolvePackages_kept (e : Engine) (before after : list string)
    (p pattern : string) :
  resolve_one e [] p = [pattern] →
  ResolvePackages e (before ++ p :: after)
  = fold_left (resolve_one e) before []
      ++ pattern :: fold_left (resolve_one e) after [].
Proof.
  intros Hp. unfold ResolvePackages.
  rewrite resolve_fold_middle, Hp. simpl.
  rewrite !length_app. simpl.
  replace (length before + S (length after) =? 0)%nat with false
    by (symmetry; apply Nat.eqb_neq; lia).
  replace (length (fold_left (resolve_one e) before [])
           + S (length (fold_left (resolve_one e) after [])) =? 0)%nat
    with false by (symmetry; apply Nat.eqb_neq; lia).
  reflexivity.
Qed.

(** X17.  An absolute argument outside the base directory (the repository
    root, or the workspace when no root is known) is skipped silently: the
    result is the result without that argument.  So when nothing else is
    given, the result is the pattern for all packages. *)
Theorem ResolvePackages_skips_outside (e : Engine) (base p : string)
    (before after : list string) :
  base = (if String.eqb (RepoRoot e) "" then Workspace e else RepoRoot e) →
  Filepath.IsAbs base = true →
  Filepath.IsAbs p = true →
  ¬ Runner.inside base p →
  ResolvePackages e (before ++ p :: after) = ResolvePackages e (before ++ after)
  ∧ ResolvePackages e [p] = ["./..."].
Proof.
  intros Hbase Hb Hp Hout.
  assert (Hdrop : resolve_one e [] p = []).
  { unfold resolve_one. rewrite Hp, <- Hbase.
    destruct (Rel_outside base p Hb Hp Hout) as (rel & -> & ->). reflexivity. }
  split.
  - now apply ResolvePackages_dropped.
  - apply (ResolvePackages_dropped e [] [] p Hdrop).
Qed.

(** X18.  An absolute argument inside the base directory, [rest] being the
    elements of its path below the base, becomes the pattern [./<rest>],
    followed by [/...] unless it ends in three dots already; the base itself
    becomes [././...].  The other arguments are resolved as they would be
    without it.  But when the path below the base starts with two dots (its
    first element is a directory named [..cache], say), the argument is
    skipped as if it were outside. *)
Theorem ResolvePackages_inside_root (e : Engine) (base p : string)
    (rest before after : list string) :
  base = (if String.eqb (RepoRoot e) "" then Workspace e else RepoRoot e) →
  Filepath.IsAbs base = true →
  Filepath.IsAbs p = true →
  Filepath.clean_elems p = Filepath.clean_elems base ++ rest →
  let rel := match rest with [] => "." | _ => Strings.Join rest "/" end in
  let pattern := "./" +:+ rel in
  ResolvePackages e (before ++ p :: after)
  = if HasPrefix rel ".." then ResolvePackages e (before ++ after)
    else fold_left (resolve_one e) before []
           ++ (if HasSuffix pattern "..." then pattern else pattern +:+ "/...")
           :: fold_left (resolve_one e) after [].
Proof.
  intros Hbase Hb Hp Hel. cbv zeta.
  assert (Hrel : Filepath.Rel base p
                 = Some match rest with [] => "." | _ => Strings.Join rest "/" end).
  { destruct rest as [|x rest].
    - rewrite app_nil_r in Hel. unfold Filepath.Rel.
      assert (E : Filepath.Clean p = Filepath.Clean base).
      { unfold Filepath.Clean. now rewrite Hel, Hb, Hp. }
      rewrite E, String.eqb_refl. reflexivity.
    - apply Rel_below; [assumption | assumption | discriminate | assumption]. }
  set (rel := match rest with [] => "." | _ => Strings.Join rest "/" end) in *.
  destruct (HasPrefix rel "..") eqn:Hdots.
  - apply ResolvePackages_dropped.
    unfold resolve_one. rewrite Hp, <- Hbase, Hrel, Hdots. reflexivity.
  - apply ResolvePackages_kept.
    unfold resolve_one. rewrite Hp, <- Hbase, Hrel, Hdots.
    destruct (HasSuffix ("./" +:+ rel) "..."); reflexivity.
Qed.

End ResolveAbsolute.

(** ** Finding the repository root *)

Section LoaderFacts.
Import Strings Filepath Loader.

Lemma LastIndexByte_absent (x : string) (c : ascii) :
  IndexByte x c = -1 → LastIndexByte x c = -1.
Proof.
  induction x as [|a x IH]; intros H; [reflexivity |].
  apply IndexByte_cons_absent in H. destruct H as [Hne Hx].
  simpl. rewrite (IH Hx). simpl.
  destruct (Ascii.eqb_spec a c); [contradiction | reflexivity].
Qed.

Lemma LastIndexByte_sep_absent (p x : string) (c : ascii) :
  IndexByte x c = -1 → LastIndexByte (p +:+ String c x) c = len p.
Proof.
  intros Hx. unfold len. induction p as [|a p IH].
  - simpl. rewrite (LastIndexByte_absent x c Hx). simpl.
    now rewrite eqb_ascii_refl.
  - cbn [append LastIndexByte String.length]. rewrite IH.
    destruct (Z.leb_spec 0 (Z.of_nat (String.length p))); lia.
Qed.

Lemma Join_snoc (l : list string) (x sep : string) :
  l ≠ [] → Strings.Join (l ++ [x]) sep = Strings.Join l sep +:+ sep +:+ x.
Proof.
  induction l as [|y l IH]; intros Hne; [contradiction |].
  destruct l as [|z l]; [reflexivity |].
  change (Strings.Join ((y :: z :: l) ++ [x]) sep)
    with (y +:+ sep +:+ Strings.Join ((z :: l) ++ [x]) sep).
  rewrite IH by discriminate.
  change (Strings.Join (y :: z :: l) sep)
    with (y +:+ sep +:+ Strings.Join (z :: l) sep).
  now rewrite !app_assoc_str.
Qed.

(** A path with one more element is its parent, a slash and the element; the
    parent of a first element is written as the empty string here. *)
Lemma rooted_snoc (l : list string) (x : string) :
  rooted (l ++ [x])
  = match l with [] => "" | _ => rooted l end +:+ String "/" x.
Proof.
  destruct l as [|y l]; [reflexivity |].
  unfold rooted. rewrite Join_snoc by discriminate. reflexivity.
Qed.

Lemma clean_elems_rooted (l : list string) :
  Forall plain l → clean_elems (rooted l) = l.
Proof.
  intros Hl. unfold clean_elems, rooted.
  change (IsAbs (String "/" (Strings.Join l "/"))) with true.
  change (Split (String "/" (Strings.Join l "/")) Separator)
    with ("" :: Split (Strings.Join l "/") Separator).
  destruct l as [|x l]; [reflexivity |].
  pose proof (Split_Join (x :: l) Separator) as HS. unfold Separator in HS |- *.
  rewrite HS; [| discriminate | now apply plain_no_separator].
  change (fold_left (clean_step true) ("" :: x :: l) [])
    with (fold_left (clean_step true) (x :: l) []).
  rewrite clean_fold_plain by assumption.
  now rewrite app_nil_r, rev_involutive.
Qed.

Lemma clean_elems_rooted_slash (l : list string) :
  Forall plain l → l ≠ [] → clean_elems (rooted l +:+ "/") = l.
Proof.
  intros Hl Hne. unfold clean_elems, rooted.
  change (IsAbs (String "/" (Strings.Join l "/") +:+ "/")) with true.
  change (String "/" (Strings.Join l "/") +:+ "/")
    with (String "/" (Strings.Join l "/") +:+ String Separator "").
  rewrite Split_app.
  change (Split (String "/" (Strings.Join l "/")) Separator)
    with ("" :: Split (Strings.Join l "/") Separator).
  pose proof (Split_Join l Separator) as HS. unfold Separator in HS |- *.
  rewrite HS; [| assumption | now apply plain_no_separator].
  rewrite fold_left_app.
  change (fold_left (clean_step true) ("" :: l) [])
    with (fold_left (clean_step true) l []).
  rewrite (clean_fold_plain true l []) by assumption.
  rewrite app_nil_r. simpl.
  change (clean_step true (rev l) "") with (rev l). apply rev_involutive.
Qed.

(** [Dir] takes the last element away, and leaves the root where it is. *)
Lemma Dir_rooted_snoc (l : list string) (x : string) :
  Forall plain l → plain x → Dir (rooted (l ++ [x])) = rooted l.
Proof.
  intros Hl Hx. unfold Dir. rewrite rooted_snoc.
  set (p := match l with [] => "" | _ => rooted l end).
  assert (Hsep : IndexByte x Separator = -1) by apply Hx.
  change (String "/" x) with (String Separator x).
  rewrite (LastIndexByte_sep_absent p x Separator Hsep).
  replace (Z.to_nat (len p + 1)) with (String.length (p +:+ "/"))
    by (rewrite length_app_str; unfold len; simpl; lia).
  change (String Separator x) with ("/" +:+ x).
  rewrite <- app_assoc_str, upto_app_length.
  unfold p. destruct l as [|y l]; [reflexivity |].
  rewrite Clean_rooted by reflexivity.
  now rewrite clean_elems_rooted_slash.
Qed.

Lemma length_rooted_snoc (l : list string) (x : string) :
  x ≠ "" →
  (String.length (rooted l) < String.length (rooted (l ++ [x])))%nat.
Proof.
  intros Hx. rewrite rooted_snoc. rewrite length_app_str.
  destruct x as [|a x]; [contradiction |].
  destruct l as [|y l]; simpl; lia.
Qed.

Lemma walk_up_turn (fs : files) (fuel : nat) (dir : string) :
  walk_up fs (S fuel) dir
  = if Stat fs (Filepath.Join [dir; "go.mod"]) then Some (inl dir)
    else if String.eqb (Dir dir) dir then Some (inr "go.mod not found")
         else walk_up fs fuel (Dir dir).
Proof. reflexivity. Qed.

Lemma Dir_root : Dir (rooted []) = rooted [].
Proof. reflexivity. Qed.

(** The loop of [findRepoRoot] from a clean absolute directory, with turns
    enough: it ends, at the deepest ancestor that holds [go.mod]. *)
Lemma walk_up_rooted (fs : files) (l : list string) :
  Forall plain l →
  ∀ fuel, (String.length (rooted l) < fuel)%nat →
    ∃ found, walk_up fs fuel (rooted l) = Some found
      ∧ match found with
        | inl root =>
            ∃ n, (n ≤ length l)%nat
                 ∧ root = rooted (take n l)
                 ∧ Stat fs (Filepath.Join [root; "go.mod"]) = true
                 ∧ ∀ m, (n < m ≤ length l)%nat →
                     Stat fs (Filepath.Join [rooted (take m l); "go.mod"]) = false
        | inr err =>
            err = "go.mod not found"
            ∧ ∀ m, (m ≤ length l)%nat →
                Stat fs (Filepath.Join [rooted (take m l); "go.mod"]) = false
        end.
Proof.
  induction l as [|x l IH] using rev_ind; intros Hl fuel Hfuel.
  - destruct fuel as [|fuel]; [lia |]. rewrite walk_up_turn, Dir_root.
    rewrite String.eqb_refl.
    destruct (Stat fs (Filepath.Join [rooted []; "go.mod"])) eqn:Hstat.
    + exists (inl (rooted [])). split; [reflexivity |].
      exists 0%nat. split; [lia |]. split; [reflexivity |].
      split; [exact Hstat |]. intros m Hm. simpl in Hm. lia.
    + exists (inr "go.mod not found"). split; [reflexivity |].
      split; [reflexivity |]. intros m Hm. simpl in Hm.
      replace m with 0%nat by lia. exact Hstat.
  - apply Forall_app in Hl. destruct Hl as [Hl Hx].
    inversion Hx as [|? ? Hx' _]; subst.
    destruct fuel as [|fuel]; [lia |]. rewrite walk_up_turn.
    pose proof (length_rooted_snoc l x (proj1 Hx')) as Hshort.
    destruct (Stat fs (Filepath.Join [rooted (l ++ [x]); "go.mod"])) eqn:Hstat.
    + exists (inl (rooted (l ++ [x]))). split; [reflexivity |].
      exists (length (l ++ [x])). split; [lia |].
      rewrite firstn_all. split; [reflexivity |]. split; [exact Hstat |].
      intros m Hm. lia.
    + rewrite (Dir_rooted_snoc l x Hl Hx').
      destruct (String.eqb_spec (rooted l) (rooted (l ++ [x]))) as [E|_].
      { rewrite <- E in Hshort. lia. }
      destruct (IH Hl fuel) as (found & Hwalk & Hfound); [lia |].
      exists found. split; [exact Hwalk |]. rewrite length_app. simpl.
      destruct found as [root|err].
      * destruct Hfound as (n & Hn & Hroot & Hroot_stat & Hbelow).
        exists n. split; [lia |].
        rewrite take_app_le by lia. split; [exact Hroot |].
        split; [exact Hroot_stat |]. intros m Hm.
        destruct (Nat.eq_dec m (length l + 1)%nat) as [->|Hne].
        -- replace (length l + 1)%nat with (length (l ++ [x]))
             by (rewrite length_app; reflexivity).
           rewrite firstn_all. exact Hstat.
        -- rewrite take_app_le by lia. apply Hbelow. lia.
      * destruct Hfound as (Herr & Hnone). split; [exact Herr |].
        intros m Hm.
        destruct (Nat.eq_dec m (length l + 1)%nat) as [->|Hne].
        -- replace (length l + 1)%nat with (length (l ++ [x]))
             by (rewrite length_app; reflexivity).
           rewrite firstn_all. exact Hstat.
        -- rewrite take_app_le by lia. apply Hnone. lia.
Qed.

(** X19.  From an absolute directory [findRepoRoot] always comes to an end.
    It returns the deepest directory among the directory itself (cleaned) and
    its ancestors up to the root that holds a [go.mod], and the error
    [go.mod not found] exactly when none of them does. *)
Theorem findRepoRoot_nearest (fs : files) (dir : string) :
  IsAbs dir = true →
  let elems := clean_elems dir in
  ∃ found, findRepoRoot fs dir = Some found
    ∧ match found with
      | inl root =>
          ∃ n, (n ≤ length elems)%nat
               ∧ root = rooted (take n elems)
               ∧ Stat fs (Filepath.Join [root; "go.mod"]) = true
               ∧ ∀ m, (n < m ≤ length elems)%nat →
                   Stat fs (Filepath.Join [rooted (take m elems); "go.mod"])
                   = false
      | inr err =>
          err = "go.mod not found"
          ∧ ∀ m, (m ≤ length elems)%nat →
              Stat fs (Filepath.Join [rooted (take m elems); "go.mod"]) = false
      end.
Proof.
  intros Hdir. cbv zeta. unfold findRepoRoot, Abs. rewrite Hdir.
  rewrite (Clean_rooted dir Hdir).
  apply (walk_up_rooted fs (clean_elems dir) (clean_elems_plain dir Hdir)).
  unfold rooted. lia.
Qed.

(** X20.  [Load] from an absolute workspace always comes to an end.  The
    repository root it works with is absolute and is the workspace or one of
    its ancestors: the deepest one holding a [go.mod], or the workspace as
    given when there is none.  Without a [.governor] file in that root the
    result is the zero configuration, whose accessors give the defaults; with
    a readable file that parses, the result is what the parser gives.  [Load]
    fails only when the file is there and cannot be read or parsed, and the
    error says which. *)
Theorem Load_root (fs : files) (yaml_Unmarshal : string → Config.Config + string)
    (workspace : string) :
  IsAbs workspace = true →
  ∃ root,
    IsAbs root = true
    ∧ Runner.inside root workspace
    ∧ ((∃ n, root = rooted (take n (clean_elems workspace))
             ∧ findRepoRoot fs workspace = Some (inl root)
             ∧ Stat fs (Filepath.Join [root; "go.mod"]) = true)
       ∨ (root = workspace
          ∧ findRepoRoot fs workspace = Some (inr "go.mod not found")))
    ∧ match ReadFile fs (Filepath.Join [root; ".governor"]) with
      | NotExist =>
          Load fs yaml_Unmarshal workspace
          = Some (inl {| Config := Config.zero; RepoRoot := root |})
          ∧ Config.MaxOutputBytes Config.zero = Config.DefaultMaxOutput
          ∧ Config.CheckSteps Config.zero = Config.DefaultCheckSteps
          ∧ Config.AuditSteps Config.zero = Config.DefaultAuditSteps
          ∧ Config.DuplThreshold Config.zero = 50
      | ReadError msg =>
          Load fs yaml_Unmarshal workspace
          = Some (inr ("reading .governor: " +:+ msg))
      | Data data =>
          match yaml_Unmarshal data with
          | inl cfg =>
              Load fs yaml_Unmarshal workspace
              = Some (inl {| Config := cfg; RepoRoot := root |})
          | inr msg =>
              Load fs yaml_Unmarshal workspace
              = Some (inr ("parsing .governor: " +:+ msg))
          end
      end.
Proof.
  intros Hws.
  assert (Hfind : ∃ found, findRepoRoot fs workspace = Some found
            ∧ match found with
              | inl root =>
                  ∃ n, root = rooted (take n (clean_elems workspace))
                       ∧ Stat fs (Filepath.Join [root; "go.mod"]) = true
              | inr err => err = "go.mod not found"
              end).
  { unfold findRepoRoot, Abs. rewrite Hws, (Clean_rooted workspace Hws).
    destruct (walk_up_rooted fs (clean_elems workspace)
                (clean_elems_plain workspace Hws)
                (S (String.length (rooted (clean_elems workspace)))))
      as (found & Hwalk & Hfound); [lia |].
    exists found. split; [exact Hwalk |].
    destruct found as [root|err].
    - destruct Hfound as (n & _ & Hroot & Hstat & _). now exists n.
    - apply Hfound. }
  destruct Hfind as (found & Hfound & Hcase).
  destruct found as [root|err].
  - destruct Hcase as (n & Hroot & Hstat).
    exists root. split; [now rewrite Hroot |]. split.
    { unfold Runner.inside. rewrite Hroot, clean_elems_rooted.
      - exists (drop n (clean_elems workspace)). now rewrite take_drop.
      - apply Forall_take. now apply clean_elems_plain. }
    split; [left; now exists n |].
    unfold Load. rewrite Hfound.
    destruct (ReadFile fs (Filepath.Join [root; ".governor"])) as [|msg|data].
    + repeat split.
    + reflexivity.
    + destruct (yaml_Unmarshal data); reflexivity.
  - subst err. exists workspace. split; [exact Hws |].
    split; [unfold Runner.inside; reflexivity |].
    split; [right; now split |].
    unfold Load. rewrite Hfound.
    destruct (ReadFile fs (Filepath.Join [workspace; ".governor"])) as [|msg|data].
    + repeat split.
    + reflexivity.
    + destruct (yaml_Unmarshal data); reflexivity.
Qed.

End LoaderFacts.

(** ** The package of a file *)

Section PackageOfFile.
Import Strings Workflow.

(** X21.  [derivePackageFromFile] gives the directory of a file: what comes
    before the last slash of its path, whatever that is (the empty string for
    a file directly under the root).  A non-empty path without a slash gives
    [.], and the empty path gives the empty string. *)
Theorem derivePackageFromFile_dir (dir base : string) :
  IndexByte base "/" = -1 →
  derivePackageFromFile (dir +:+ "/" +:+ base) = dir
  ∧ derivePackageFromFile base = (if String.eqb base "" then "" else ".").
Proof.
  intros Hbase. unfold derivePackageFromFile. split.
  - assert (Hne : String.eqb (dir +:+ "/" +:+ base) "" = false)
      by (destruct dir; reflexivity).
    rewrite Hne.
    change (dir +:+ "/" +:+ base) with (dir +:+ String "/" base).
    rewrite (LastIndexByte_sep_absent dir base "/" Hbase).
    unfold len.
    destruct (Z.ltb_spec (Z.of_nat (String.length dir)) 0) as [Hlt|_]; [lia |].
    rewrite Nat2Z.id. apply upto_app_length.
  - destruct (String.eqb base ""); [reflexivity |].
    now rewrite (LastIndexByte_absent base "/" Hbase).
Qed.

End PackageOfFile.

(** ** The findings in the report of [Check] *)

Section FindingsFacts.
Import Strings Workflow Findings.
Variable world : Type.
Variable X : externals world.

Lemma added_by_nothing (step : string) (rr : Report.RunResult) :
  added_by step rr rr.
Proof.
  unfold added_by.
  split; [right; split; reflexivity |]. split; [now right |].
  split; [now right |].
  split; [exists []; split; [now rewrite app_nil_r | constructor] |].
  split; exists []; (split; [now rewrite app_nil_r | constructor]).
Qed.

Lemma lint_issues_written (issues : list LintIssue) :
  Forall lint_written (lint_issues issues).
Proof. unfold lint_issues. apply Forall_map. apply Forall_forall. now intros. Qed.

Lemma test_failures_written (errors : list TestFailure) :
  Forall test_written (test_failures errors).
Proof.
  unfold test_failures. apply Forall_map. apply Forall_forall.
  intros f _. repeat split.
Qed.

Lemma build_errors_written (errors : list BuildError) :
  Forall build_written (build_errors errors).
Proof.
  unfold build_errors. apply Forall_map. apply Forall_forall.
  intros f _. repeat split.
Qed.

(** One turn of the loop: the report is left alone, or the turn sets
    [failedIdx] and adds findings of its own step only. *)
Lemma check_step_findings (e : Engine) (pkgs : list string) (i : nat)
    (step : string) (rr : Report.RunResult) (results : list StepResult)
    (failedIdx : Z) (w : world) :
  ∃ rr' results' failedIdx' w',
    check_step X e pkgs i step (rr, results, failedIdx) w
    = ((rr', results', failedIdx'), w')
    ∧ ((rr' = rr ∧ failedIdx' = failedIdx)
       ∨ (failedIdx' = Z.of_nat i ∧ added_by step rr rr')).
Proof.
  unfold check_step, bind, ret.
  destruct (String.eqb_spec step "test") as [->|_].
  { destruct (runTest X e pkgs w) as [[summary|err] w1]; simpl.
    - destruct (String.eqb (Status summary) "FAIL").
      + repeat eexists. right. split; [reflexivity |].
        unfold added_by. simpl.
        split; [now left |]. split; [now right |]. split; [now right |].
        split; [exists []; split; [now rewrite app_nil_r | constructor] |].
        split; eexists; (split; [reflexivity |]).
        * apply test_failures_written.
        * apply build_errors_written.
      + repeat eexists. now left.
    - repeat eexists. right. split; [reflexivity | apply added_by_nothing]. }
  destruct (String.eqb_spec step "lint") as [->|_].
  { destruct (runLint X e pkgs w) as [[summary|err] w1]; simpl.
    - destruct (0 <? length (ls_Issues summary))%nat.
      + repeat eexists. right. split; [reflexivity |].
        unfold added_by. simpl.
        split; [right; split; reflexivity |]. split; [now left |].
        split; [now right |].
        split; [eexists; split; [reflexivity | apply lint_issues_written] |].
        split; exists []; (split; [now rewrite app_nil_r | constructor]).
      + repeat eexists. now left.
    - destruct (is_unavailable err); repeat eexists; right;
        (split; [reflexivity | apply added_by_nothing]). }
  destruct (String.eqb_spec step "staticcheck") as [->|_].
  { destruct (runStaticcheck X e pkgs w) as [[scResult|err] w1]; simpl.
    - destruct (0 <? length (sc_Issues scResult))%nat.
      + repeat eexists. right. split; [reflexivity |].
        unfold added_by. simpl.
        split; [right; split; reflexivity |]. split; [now right |].
        split; [now left |].
        split; [exists []; split; [now rewrite app_nil_r | constructor] |].
        split; exists []; (split; [now rewrite app_nil_r | constructor]).
      + repeat eexists. now left.
    - destruct (is_unavailable err); repeat eexists; right;
        (split; [reflexivity | apply added_by_nothing]). }
  repeat eexists. right. split; [reflexivity | apply added_by_nothing].
Qed.

Lemma check_loop_findings (e : Engine) (pkgs : list string) (steps : list string) :
  ∀ (i : nat) (rr : Report.RunResult) (results : list StepResult) (w : world),
    ∃ rr' results' failedIdx' w',
      check_loop X e pkgs steps i (rr, results, -1) w
      = ((rr', results', failedIdx'), w')
      ∧ ((rr' = rr ∧ failedIdx' = -1)
         ∨ (∃ n step, failedIdx' = Z.of_nat (i + n)
                      ∧ steps !! n = Some step ∧ added_by step rr rr')).
Proof.
  induction steps as [|step rest IH]; intros i rr results w.
  - simpl. exists rr, results, (-1), w. split; [reflexivity | now left].
  - destruct (check_step_findings e pkgs i step rr results (-1) w)
      as (rr1 & results1 & f1 & w1 & Hstep & Hcase).
    change (check_loop X e pkgs (step :: rest) i (rr, results, -1) w)
      with (let '(st1, w1) := check_step X e pkgs i step (rr, results, -1) w in
            (if 0 <=? snd st1 then ret st1
             else check_loop X e pkgs rest (S i) st1) w1).
    rewrite Hstep. cbv iota beta. cbn [snd].
    destruct Hcase as [[-> ->]|[-> Hadded]].
    + change (0 <=? -1) with false. cbv iota.
      destruct (IH (S i) rr results1 w1)
        as (rr2 & results2 & f2 & w2 & Hloop & Hcase).
      exists rr2, results2, f2, w2. split; [exact Hloop |].
      destruct Hcase as [H|(n & step' & -> & Hn & Hadded)]; [now left |].
      right. exists (S n), step'. split; [f_equal; lia |]. now split.
    + replace (0 <=? Z.of_nat i) with true by (symmetry; apply Z.leb_le; lia).
      exists rr1, results1, (Z.of_nat i), w1. split; [reflexivity |].
      right. exists 0%nat, step. rewrite Nat.add_0_r.
      split; [reflexivity |]. split; [reflexivity | exact Hadded].
Qed.

(** X22.  The findings in the report of [Check] are those of the step that
    stopped it, and of no other: build errors and test failures only when
    that step is ["test"], lint issues only when it is ["lint"], static
    issues only when it is ["staticcheck"].  The lint issues are written
    without a package, the test failures and build errors without a position.
    So a query by a non-empty package never returns a lint or a format
    diagnostic of a check run. *)
Theorem Check_findings (e : Engine) (packages : list string) (fix_ : bool)
    (w : world) :
  let res := fst (Check X e packages fix_ w) in
  let rr := RunResult res in
  Forall lint_written (Report.LintIssues rr)
  ∧ Forall test_written (Report.TestFailures rr)
  ∧ Forall build_written (Report.BuildErrors rr)
  ∧ (0 ≤ FailedIdx res →
       ∃ step,
         Config.CheckSteps (Config e) !! Z.to_nat (FailedIdx res) = Some step
         ∧ (step = "test"
            ∨ (Report.BuildErrors rr = [] ∧ Report.TestFailures rr = []))
         ∧ (step = "lint" ∨ Report.LintIssues rr = [])
         ∧ (step = "staticcheck" ∨ Report.StaticIssues rr = []))
  ∧ (∀ format_percent pkg, pkg ≠ "" →
       Forall (λ d, Diagnostics.Source d ≠ "lint"
                    ∧ Diagnostics.Source d ≠ "format")
              (Diagnostics.ByPackage format_percent rr pkg)).
Proof.
  cbv zeta.
  assert (Hmain :
    let res := fst (Check X e packages fix_ w) in
    let rr := RunResult res in
    Forall lint_written (Report.LintIssues rr)
    ∧ Forall test_written (Report.TestFailures rr)
    ∧ Forall build_written (Report.BuildErrors rr)
    ∧ Forall (λ f, Report.fi_Package f = "") (Report.FormatIssues rr)
    ∧ (0 ≤ FailedIdx res →
         ∃ step,
           Config.CheckSteps (Config e) !! Z.to_nat (FailedIdx res) = Some step
           ∧ (step = "test"
              ∨ (Report.BuildErrors rr = [] ∧ Report.TestFailures rr = []))
           ∧ (step = "lint" ∨ Report.LintIssues rr = [])
           ∧ (step = "staticcheck" ∨ Report.StaticIssues rr = []))).
  { cbv zeta. unfold Check, bind.
    destruct (uuid_New X w) as [runID w1].
    destruct (RunFixPhase_result world X e fix_ w1) as (_ & _ & Hlisted).
    destruct (RunFixPhase X e fix_ w1) as [fixRes w2]. cbn [fst] in Hlisted.
    assert (Hformat : Forall (λ f, Report.fi_Package f = "")
                        (fr_FormatIssues fixRes)).
    { eapply Forall_impl; [exact Hlisted |]. now intros f (_ & H & _). }
    set (rr0 := with_fix (Report.newRunResult runID Report.Check) fixRes).
    destruct (negb fix_ && (0 <? length (Report.FormatIssues rr0))%nat).
    { simpl. split; [constructor |]. split; [constructor |].
      split; [constructor |]. split; [exact Hformat |]. intros H. lia. }
    set (steps := Config.CheckSteps (Config e)).
    set (results0 := map (λ step, step_result step "skipped" "" "") steps).
    destruct (check_loop_findings e (ResolvePackages e packages) steps 0 rr0
                results0 w2)
      as (rr1 & results1 & f1 & w3 & Hloop & Hcase).
    destruct (check_loop_report world X e (ResolvePackages e packages) steps 0
                rr0 results0 w2)
      as (rr1' & results1' & f1' & w3' & Hloop' & _ & _ & _ & Hfi & _).
    rewrite Hloop in Hloop'. inversion Hloop'; subst rr1' results1' f1' w3'.
    rewrite Hloop. simpl.
    destruct Hcase as [[-> ->]|(n & step & -> & Hn & Hadded)].
    - simpl. split; [constructor |]. split; [constructor |].
      split; [constructor |]. split; [exact Hformat |]. intros H. lia.
    - destruct Hadded as (Ht & Hl & Hs & (el & Hel & Hlw) & (et & Het & Htw)
                          & (eb & Heb & Hbw)).
      simpl in *. rewrite Hfi.
      split; [now rewrite Hel |]. split; [now rewrite Het |].
      split; [now rewrite Heb |]. split; [exact Hformat |].
      intros _. exists step. rewrite Nat2Z.id. split; [exact Hn |].
      split; [exact Ht |]. split; [exact Hl | exact Hs]. }
  cbv zeta in Hmain.
  destruct Hmain as (Hlint & Htest & Hbuild & Hformat & Hstep).
  split; [exact Hlint |]. split; [exact Htest |]. split; [exact Hbuild |].
  split; [exact Hstep |].
  intros format_percent pkg Hpkg. apply List.Forall_forall. intros d Hd.
  unfold Diagnostics.ByPackage in Hd. apply filter_In in Hd.
  destruct Hd as [Hd Hp]. apply String.eqb_eq in Hp.
  unfold Diagnostics.toDiagnostics in Hd.
  rewrite !in_app_iff, !in_map_iff in Hd.
  rewrite List.Forall_forall in Hlint, Hformat.
  destruct Hd as [(f & <- & Hf)|[(f & <- & Hf)|[(f & <- & Hf)|[(f & <- & Hf)|
               [(f & <- & Hf)|[(f & <- & Hf)|[(f & <- & Hf)|[(f & <- & Hf)|
               [(f & <- & Hf)|(f & <- & Hf)]]]]]]]]]; simpl in *;
    try (split; discriminate).
  - exfalso. apply Hpkg. rewrite <- Hp. now apply Hformat.
  - exfalso. apply Hpkg. rewrite <- Hp. now apply Hlint.
Qed.

End FindingsFacts.

(** ** The report of [Audit] *)

Section AuditReport.
Import Strings Workflow.
Variable world : Type.
Variable X : externals world.

(** No turn of the loop of [Audit] touches the identity of the report or a
    field of the check pipeline. *)
Lemma audit_step_head (e : Engine) (pkgs : list string) (i : nat)
    (step : string) (rr : Report.RunResult) (results : list AuditStepResult)
    (w : world) :
  let rr' := fst (fst (audit_step X e pkgs i step (rr, results) w)) in
  Report.ID rr' = Report.ID rr
  ∧ Report.kind rr' = Report.kind rr
  ∧ Report.AutoFixes rr' = Report.AutoFixes rr
  ∧ Report.FormatIssues rr' = Report.FormatIssues rr
  ∧ Report.BuildErrors rr' = Report.BuildErrors rr
  ∧ Report.TestFailures rr' = Report.TestFailures rr
  ∧ Report.LintIssues rr' = Report.LintIssues rr
  ∧ Report.StaticIssues rr' = Report.StaticIssues rr.
Proof.
  cbv zeta. unfold audit_step, bind, ret.
  destruct (String.eqb step "coverage").
  { destruct (runCoverage X e pkgs w) as [[entries|err] w1]; simpl;
      repeat split. }
  destruct (String.eqb step "complexity").
  { destruct (runComplexity X e pkgs w) as [[entries|err] w1]; simpl;
      repeat split. }
  destruct (String.eqb step "deadcode").
  { destruct (runDeadcode X e pkgs w) as [[entries|err] w1]; simpl;
      repeat split. }
  destruct (String.eqb step "dupl").
  { destruct (runDupl X e pkgs w) as [[entries|err] w1]; simpl;
      repeat split. }
  destruct (String.eqb step "vulncheck").
  { destruct (runVulncheck X e pkgs w) as [[entries|err] w1]; simpl;
      repeat split. }
  simpl. repeat split.
Qed.

Lemma audit_loop_head (e : Engine) (pkgs : list string) (steps : list string) :
  ∀ (i : nat) (rr : Report.RunResult) (results : list AuditStepResult) (w : world),
    let rr' := fst (fst (audit_loop X e pkgs steps i (rr, results) w)) in
    Report.ID rr' = Report.ID rr
    ∧ Report.kind rr' = Report.kind rr
    ∧ Report.AutoFixes rr' = Report.AutoFixes rr
    ∧ Report.FormatIssues rr' = Report.FormatIssues rr
    ∧ Report.BuildErrors rr' = Report.BuildErrors rr
    ∧ Report.TestFailures rr' = Report.TestFailures rr
    ∧ Report.LintIssues rr' = Report.LintIssues rr
    ∧ Report.StaticIssues rr' = Report.StaticIssues rr.
Proof.
  induction steps as [|step rest IH]; intros i rr results w; cbv zeta.
  - simpl. repeat split.
  - change (audit_loop X e pkgs (step :: rest) i (rr, results) w)
      with (let '(st1, w1) := audit_step X e pkgs i step (rr, results) w in
            audit_loop X e pkgs rest (S i) st1 w1).
    pose proof (audit_step_head e pkgs i step rr results w) as Hstep.
    destruct (audit_step X e pkgs i step (rr, results) w)
      as [[rr1 results1] w1].
    cbv zeta in Hstep. cbn [fst] in Hstep.
    destruct Hstep as (H1 & H2 & H3 & H4 & H5 & H6 & H7 & H8).
    destruct (IH (S i) rr1 results1 w1) as (G1 & G2 & G3 & G4 & G5 & G6 & G7 & G8).
    rewrite G1, G2, G3, G4, G5, G6, G7, G8. repeat split; assumption.
Qed.

(** A relation [kept] between reports that every turn of the loop respects,
    but for a step named [name] that ends ["done"]: when the loop does not
    respect it, such a step is among the results. *)
Lemma audit_loop_field (kept : Report.RunResult → Report.RunResult → Prop)
    (name : string) (e : Engine) (pkgs : list string) :
  (∀ rr, kept rr rr) →
  (∀ a b c, kept a b → kept b c → kept a c) →
  (∀ i step rr results w,
     kept rr (fst (fst (audit_step X e pkgs i step (rr, results) w)))
     ∨ (step = name
        ∧ ∃ s, snd (fst (audit_step X e pkgs i step (rr, results) w))
               = <[i := s]> results
               ∧ as_Status s = "done")) →
  ∀ (steps : list string) (i : nat) (rr : Report.RunResult)
    (results : list AuditStepResult) (w : world),
    (i + length steps ≤ length results)%nat →
    let out := audit_loop X e pkgs steps i (rr, results) w in
    kept rr (fst (fst out))
    ∨ ∃ k s, steps !! k = Some name
             ∧ snd (fst out) !! (i + k)%nat = Some s
             ∧ as_Status s = "done".
Proof.
  intros Hrefl Htrans Hstep.
  induction steps as [|step rest IH]; intros i rr results w Hlen; cbv zeta.
  - left. apply Hrefl.
  - simpl in Hlen.
    change (audit_loop X e pkgs (step :: rest) i (rr, results) w)
      with (let '(st1, w1) := audit_step X e pkgs i step (rr, results) w in
            audit_loop X e pkgs rest (S i) st1 w1).
    pose proof (Hstep i step rr results w) as Hturn.
    destruct (audit_step_writes world X e pkgs i step rr results w)
      as (s0 & Hs0 & _).
    destruct (audit_step X e pkgs i step (rr, results) w)
      as [[rr1 results1] w1].
    cbn [fst snd] in Hturn, Hs0. subst results1.
    destruct (audit_loop_writes world X e pkgs rest (S i) rr1
                (<[i := s0]> results) w1) as (_ & Hframe & _).
    destruct (IH (S i) rr1 (<[i := s0]> results) w1) as [Hkept|Hdone].
    { rewrite length_insert. lia. }
    + destruct Hturn as [Hk|(-> & s & Hs & Hstatus)].
      * left. now apply Htrans with rr1.
      * right. exists 0%nat, s. split; [reflexivity |].
        rewrite Nat.add_0_r. split; [| exact Hstatus].
        rewrite Hframe by lia. rewrite Hs.
        apply list_lookup_insert_eq. lia.
    + destruct Hdone as (k & s & Hk & Hs & Hstatus).
      right. exists (S k), s. split; [exact Hk |].
      replace (i + S k)%nat with (S i + k)%nat by lia. now split.
Qed.

Lemma AuditSteps_nonempty (c : Config.Config) : Config.AuditSteps c ≠ [].
Proof.
  unfold Config.AuditSteps.
  destruct (Config.Audit_Steps c); simpl; discriminate.
Qed.

(** X23.  The report of [Audit].  It carries the fresh run identifier and the
    kind [Audit], and no field of the check pipeline is ever set: no automatic
    fix, format issue, build error, test failure, lint issue or static issue.
    A field of the audit holds findings only when a configured step of its
    name ended ["done"]: coverage entries for ["coverage"], complexity entries
    for ["complexity"], dead functions for ["deadcode"], duplicates for
    ["dupl"], vulnerabilities for ["vulncheck"].  There is always at least one
    step result. *)
Theorem Audit_report (e : Engine) (packages : list string) (w : world) :
  let res := fst (Audit X e packages w) in
  let rr := ar_RunResult res in
  let steps := Config.AuditSteps (Config e) in
  let done (name : string) :=
    ∃ j s, steps !! j = Some name ∧ ar_Steps res !! j = Some s
           ∧ as_Status s = "done" in
  Report.ID rr = fst (uuid_New X w)
  ∧ Report.kind rr = Report.Audit
  ∧ (Report.AutoFixes rr = 0 ∧ Report.FormatIssues rr = []
     ∧ Report.BuildErrors rr = [] ∧ Report.TestFailures rr = []
     ∧ Report.LintIssues rr = [] ∧ Report.StaticIssues rr = [])
  ∧ (Report.Coverage rr = [] ∨ done "coverage")
  ∧ (Report.Complexity rr = [] ∨ done "complexity")
  ∧ (Report.DeadFuncs rr = [] ∨ done "deadcode")
  ∧ (Report.Duplicates rr = [] ∨ done "dupl")
  ∧ (Report.Vulns rr = [] ∨ done "vulncheck")
  ∧ ar_Steps res ≠ [].
Proof.
  cbv zeta. unfold Audit, bind.
  destruct (uuid_New X w) as [runID w1]. cbn [fst].
  set (steps := Config.AuditSteps (Config e)).
  set (rr0 := Report.newRunResult runID Report.Audit).
  set (results0 := map (λ step, audit_result step "skipped" "" "") steps).
  set (pkgs := ResolvePackages e packages).
  assert (Hlen0 : (0 + length steps ≤ length results0)%nat).
  { unfold results0. rewrite length_map. simpl. lia. }
  destruct (audit_loop_head e pkgs steps 0 rr0 results0 w1)
    as (H1 & H2 & H3 & H4 & H5 & H6 & H7 & H8).
  destruct (audit_loop_writes world X e pkgs steps 0 rr0 results0 w1)
    as (Hlen & _ & _).
  pose proof (audit_loop_field
                (λ a b, Report.Coverage b = Report.Coverage a) "coverage" e pkgs)
    as Hcov.
  pose proof (audit_loop_field
                (λ a b, Report.Complexity b = Report.Complexity a) "complexity"
                e pkgs) as Hcx.
  pose proof (audit_loop_field
                (λ a b, Report.DeadFuncs b = Report.DeadFuncs a) "deadcode"
                e pkgs) as Hdead.
  pose proof (audit_loop_field
                (λ a b, Report.Duplicates b = Report.Duplicates a) "dupl"
                e pkgs) as Hdup.
  pose proof (audit_loop_field
                (λ a b, Report.Vulns b = Report.Vulns a) "vulncheck"
                e pkgs) as Hvuln.
  specialize (Hcov (λ rr, eq_refl) (λ a b c H G, eq_trans G H)).
  specialize (Hcx (λ rr, eq_refl) (λ a b c H G, eq_trans G H)).
  specialize (Hdead (λ rr, eq_refl) (λ a b c H G, eq_trans G H)).
  specialize (Hdup (λ rr, eq_refl) (λ a b c H G, eq_trans G H)).
  specialize (Hvuln (λ rr, eq_refl) (λ a b c H G, eq_trans G H)).
  assert (Hturn_cov : ∀ i step rr results w,
            Report.Coverage (fst (fst (audit_step X e pkgs i step (rr, results) w)))
            = Report.Coverage rr
            ∨ (step = "coverage"
               ∧ ∃ s, snd (fst (audit_step X e pkgs i step (rr, results) w))
                      = <[i := s]> results ∧ as_Status s = "done")).
  { intros i step rr results w'. unfold audit_step, bind, ret.
    destruct (String.eqb_spec step "coverage") as [->|_].
    { destruct (runCoverage X e pkgs w') as [[entries|err] w2]; simpl;
        [right; split; [reflexivity | eexists; split; reflexivity] | now left]. }
    destruct (String.eqb step "complexity").
    { destruct (runComplexity X e pkgs w') as [[entries|err] w2]; now left. }
    destruct (String.eqb step "deadcode").
    { destruct (runDeadcode X e pkgs w') as [[entries|err] w2]; now left. }
    destruct (String.eqb step "dupl").
    { destruct (runDupl X e pkgs w') as [[entries|err] w2]; now left. }
    destruct (String.eqb step "vulncheck").
    { destruct (runVulncheck X e pkgs w') as [[entries|err] w2]; now left. }
    now left. }
  assert (Hturn_cx : ∀ i step rr results w,
            Report.Complexity (fst (fst (audit_step X e pkgs i step (rr, results) w)))
            = Report.Complexity rr
            ∨ (step = "complexity"
               ∧ ∃ s, snd (fst (audit_step X e pkgs i step (rr, results) w))
                      = <[i := s]> results ∧ as_Status s = "done")).
  { intros i step rr results w'. unfold audit_step, bind, ret.
    destruct (String.eqb step "coverage").
    { destruct (runCoverage X e pkgs w') as [[entries|err] w2]; now left. }
    destruct (String.eqb_spec step "complexity") as [->|_].
    { destruct (runComplexity X e pkgs w') as [[entries|err] w2]; simpl;
        [right; split; [reflexivity | eexists; split; reflexivity] | now left]. }
    destruct (String.eqb step "deadcode").
    { destruct (runDeadcode X e pkgs w') as [[entries|err] w2]; now left. }
    destruct (String.eqb step "dupl").
    { destruct (runDupl X e pkgs w') as [[entries|err] w2]; now left. }
    destruct (String.eqb step "vulncheck").
    { destruct (runVulncheck X e pkgs w') as [[entries|err] w2]; now left. }
    now left. }
  assert (Hturn_dead : ∀ i step rr results w,
            Report.DeadFuncs (fst (fst (audit_step X e pkgs i step (rr, results) w)))
            = Report.DeadFuncs rr
            ∨ (step = "deadcode"
               ∧ ∃ s, snd (fst (audit_step X e pkgs i step (rr, results) w))
                      = <[i := s]> results ∧ as_Status s = "done")).
  { intros i step rr results w'. unfold audit_step, bind, ret.
    destruct (String.eqb step "coverage").
    { destruct (runCoverage X e pkgs w') as [[entries|err] w2]; now left. }
    destruct (String.eqb step "complexity").
    { destruct (runComplexity X e pkgs w') as [[entries|err] w2]; now left. }
    destruct (String.eqb_spec step "deadcode") as [->|_].
    { destruct (runDeadcode X e pkgs w') as [[entries|err] w2]; simpl;
        [right; split; [reflexivity | eexists; split; reflexivity] | now left]. }
    destruct (String.eqb step "dupl").
    { destruct (runDupl X e pkgs w') as [[entries|err] w2]; now left. }
    destruct (String.eqb step "vulncheck").
    { destruct (runVulncheck X e pkgs w') as [[entries|err] w2]; now left. }
    now left. }
  assert (Hturn_dup : ∀ i step rr results w,
            Report.Duplicates (fst (fst (audit_step X e pkgs i step (rr, results) w)))
            = Report.Duplicates rr
            ∨ (step = "dupl"
               ∧ ∃ s, snd (fst (audit_step X e pkgs i step (rr, results) w))
                      = <[i := s]> results ∧ as_Status s = "done")).
  { intros i step rr results w'. unfold audit_step, bind, ret.
    destruct (String.eqb step "coverage").
    { destruct (runCoverage X e pkgs w') as [[entries|err] w2]; now left. }
    destruct (String.eqb step "complexity").
    { destruct (runComplexity X e pkgs w') as [[entries|err] w2]; now left. }
    destruct (String.eqb step "deadcode").
    { destruct (runDeadcode X e pkgs w') as [[entries|err] w2]; now left. }
    destruct (String.eqb_spec step "dupl") as [->|_].
    { destruct (runDupl X e pkgs w') as [[entries|err] w2]; simpl;
        [right; split; [reflexivity | eexists; split; reflexivity] | now left]. }
    destruct (String.eqb step "vulncheck").
    { destruct (runVulncheck X e pkgs w') as [[entries|err] w2]; now left. }
    now left. }
  assert (Hturn_vuln : ∀ i step rr results w,
            Report.Vulns (fst (fst (audit_step X e pkgs i step (rr, results) w)))
            = Report.Vulns rr
            ∨ (step = "vulncheck"
               ∧ ∃ s, snd (fst (audit_step X e pkgs i step (rr, results) w))
                      = <[i := s]> results ∧ as_Status s = "done")).
  { intros i step rr results w'. unfold audit_step, bind, ret.
    destruct (String.eqb step "coverage").
    { destruct (runCoverage X e pkgs w') as [[entries|err] w2]; now left. }
    destruct (String.eqb step "complexity").
    { destruct (runComplexity X e pkgs w') as [[entries|err] w2]; now left. }
    destruct (String.eqb step "deadcode").
    { destruct (runDeadcode X e pkgs w') as [[entries|err] w2]; now left. }
    destruct (String.eqb step "dupl").
    { destruct (runDupl X e pkgs w') as [[entries|err] w2]; now left. }
    destruct (String.eqb_spec step "vulncheck") as [->|_].
    { destruct (runVulncheck X e pkgs w') as [[entries|err] w2]; simpl;
        [right; split; [reflexivity | eexists; split; reflexivity] | now left]. }
    now left. }
  specialize (Hcov Hturn_cov steps 0%nat rr0 results0 w1 Hlen0).
  specialize (Hcx Hturn_cx steps 0%nat rr0 results0 w1 Hlen0).
  specialize (Hdead Hturn_dead steps 0%nat rr0 results0 w1 Hlen0).
  specialize (Hdup Hturn_dup steps 0%nat rr0 results0 w1 Hlen0).
  specialize (Hvuln Hturn_vuln steps 0%nat rr0 results0 w1 Hlen0).
  cbv zeta in *.
  destruct (audit_loop X e pkgs steps 0 (rr0, results0) w1)
    as [[rr1 results1] w2].
  unfold ret. cbn [fst snd ar_RunResult ar_Steps] in *.
  split; [exact H1 |]. split; [exact H2 |].
  split; [repeat split; assumption |].
  split; [destruct Hcov as [Hkept|(k & s & ? & ? & ?)];
          [left; exact Hkept | right; now exists k, s] |].
  split; [destruct Hcx as [Hkept|(k & s & ? & ? & ?)];
          [left; exact Hkept | right; now exists k, s] |].
  split; [destruct Hdead as [Hkept|(k & s & ? & ? & ?)];
          [left; exact Hkept | right; now exists k, s] |].
  split; [destruct Hdup as [Hkept|(k & s & ? & ? & ?)];
          [left; exact Hkept | right; now exists k, s] |].
  split; [destruct Hvuln as [Hkept|(k & s & ? & ? & ?)];
          [left; exact Hkept | right; now exists k, s] |].
  intros E. rewrite E in Hlen. unfold results0 in Hlen.
  rewrite length_map in Hlen.
  pose proof (AuditSteps_nonempty (Config e)) as Hne. fold steps in Hne.
  destruct steps; [contradiction | simpl in Hlen; lia].
Qed.

End AuditReport.

(** ** The further theorems on sample inputs *)

Section MoreExamples.
Import Strings Filepath Samples MoreSamples.

(** [flood] exits with code 0 after 3 ms, well before the timeout: the call
    returns that code and each stream cut at the cap. *)
Lemma Run_exit_code_flood :
  ∃ res,
    Runner.Run runner machine ["flood"] "" = (inl res, started ["flood"])
    ∧ Runner.RunID res = Runner.new_uuid machine
    ∧ Runner.ExitCode res = 0
    ∧ Runner.Stdout res
      = upto (Z.to_nat (Runner.MaxOutput runner))
          (Strings.Join
             (Runner.chunks_to Runner.ToStdout (3000000 + 1)
                [ {| Runner.at_time := 1000000; Runner.to := Runner.ToStdout;
                     Runner.data := Repeat "x" 150 |};
                  {| Runner.at_time := 2000000; Runner.to := Runner.ToStderr;
                     Runner.data := "warning" |};
                  {| Runner.at_time := 2500000; Runner.to := Runner.ToStdout;
                     Runner.data := Repeat "y" 50 |} ]) "")
    ∧ Runner.Stderr res
      = upto (Z.to_nat (Runner.MaxOutput runner))
          (Strings.Join
             (Runner.chunks_to Runner.ToStderr (3000000 + 1)
                [ {| Runner.at_time := 1000000; Runner.to := Runner.ToStdout;
                     Runner.data := Repeat "x" 150 |};
                  {| Runner.at_time := 2000000; Runner.to := Runner.ToStderr;
                     Runner.data := "warning" |};
                  {| Runner.at_time := 2500000; Runner.to := Runner.ToStdout;
                     Runner.data := Repeat "y" 50 |} ]) "").
Proof.
  refine (Run_exit_code runner machine "flood" [] "" "/project" _ _ _).
  - reflexivity.
  - simpl. lia.
  - simpl. lia.
Defined.

(** The one command started for [flood] runs in [/project]. *)
Lemma Run_stays_inside_flood :
  (length (snd (Runner.Run runner machine ["flood"] "")) ≤ 1)%nat
  ∧ Forall (λ sp,
       Runner.spawn_argv sp = ["flood"]
       ∧ Runner.resolveDir runner "" = inl (Runner.spawn_dir sp)
       ∧ Runner.inside (Runner.Workspace runner) (Runner.spawn_dir sp)
       ∧ Runner.spawn_dir sp
         = (if String.eqb "" "" then Runner.Workspace runner
            else Clean (Runner.resolved (Runner.Workspace runner) "")))
      (snd (Runner.Run runner machine ["flood"] "")).
Proof.
  apply (Run_stays_inside runner machine ["flood"] ""). reflexivity.
Defined.

(** The directory [/project/..cache] lies inside the workspace, and is
    refused. *)
Lemma resolveDir_refuses_dotdot_names_cache :
  let cwd := Strings.Join ["..cache"] "/" in
  Runner.inside (Runner.Workspace runner)
    (Runner.resolved (Runner.Workspace runner) cwd)
  ∧ clean_elems (Runner.resolved (Runner.Workspace runner) cwd)
    = clean_elems (Runner.Workspace runner) ++ ["..cache"]
  ∧ Runner.resolveDir runner cwd
    = inr (Runner.OutsideWorkspace cwd (Runner.Workspace runner))
  ∧ snd (Runner.Run runner machine ["flood"] cwd) = [].
Proof.
  apply (resolveDir_refuses_dotdot_names runner machine ["flood"] "..cache" []).
  - reflexivity.
  - constructor; [| constructor].
    repeat split; try discriminate.
  - reflexivity.
Defined.

(** The failed test [TestAdd] of [example.com/calc] is found under
    [example.com/calc.TestAdd]. *)
Lemma BySymbol_finds_qualified_TestAdd :
  Report.splitSymbol (Report.join "example.com/calc" "TestAdd")
  = ("example.com/calc", "TestAdd")
  ∧ Forall (λ d,
       Diagnostics.Package d = "example.com/calc" →
       Diagnostics.Symbol d = "TestAdd" →
       d ∈ Diagnostics.BySymbol whole_percent failed_run
             (Report.join "example.com/calc" "TestAdd"))
      (Diagnostics.toDiagnostics whole_percent failed_run).
Proof.
  apply (BySymbol_finds_qualified whole_percent failed_run "example.com/calc"
           "TestAdd"); reflexivity.
Defined.

(** Four lines cut to two: the first two and a line that counts the two
    dropped. *)
Lemma truncateLines_lines_four :
  let lines := Split (TrimRightNewlines four_lines) newline in
  let more := Z.of_nat (length lines) - 2 in
  (Z.of_nat (length lines) ≤ 2 →
     Adapters.truncateLines four_lines 2 = Some (TrimRightNewlines four_lines))
  ∧ (2 < Z.of_nat (length lines) →
       ∃ out,
         Adapters.truncateLines four_lines 2 = Some out
         ∧ (1 ≤ 2 →
              Split out newline
              = take (Z.to_nat 2) lines
                ++ ["... (" +:+ Itoa more +:+ " more lines)"]
              ∧ Z.of_nat (length (Split out newline)) = 2 + 1)).
Proof.
  apply (truncateLines_lines four_lines 2). lia.
Defined.

(** Three clones give two duplicates, both with the first clone; the single
    line gives none. *)
Lemma parseDuplOutput_groups_clones :
  Adapters.parseDuplOutput
    (Strings.Join (flat_map (λ b, fst b ++ [""]) clone_groups) nl) 50
  = flat_map
      (λ b, match snd b with
            | first :: second :: others =>
                default []
                  (Adapters.groupToDuplicates (first :: second :: others) 50)
            | _ => []
            end) clone_groups.
Proof.
  apply (parseDuplOutput_groups clone_groups 50).
  repeat (constructor;
          [split;
           [repeat (constructor; [reflexivity |]); constructor
           | repeat (constructor;
                     [eexists _, _, _; split; [vm_compute; reflexivity
                                              | reflexivity] |]);
             constructor] |]).
  constructor.
Defined.

(** [/other/project] is outside [/project]: it is skipped, and alone it
    gives the pattern for all packages. *)
Lemma ResolvePackages_skips_outside_other :
  Workflow.ResolvePackages engine (["./cmd/..."] ++ "/other/project" :: [])
  = Workflow.ResolvePackages engine (["./cmd/..."] ++ [])
  ∧ Workflow.ResolvePackages engine ["/other/project"] = ["./..."].
Proof.
  apply (ResolvePackages_skips_outside engine "/project" "/other/project"
           ["./cmd/..."] []).
  - reflexivity.
  - reflexivity.
  - reflexivity.
  - unfold Runner.inside. vm_compute. intros [k Hk]. discriminate.
Defined.

(** [/project/pkg/bar] becomes [./pkg/bar/...]. *)
Lemma ResolvePackages_inside_root_bar :
  let rel := Strings.Join ["pkg"; "bar"] "/" in
  let pattern := "./" +:+ rel in
  Workflow.ResolvePackages engine (["./cmd/..."] ++ "/project/pkg/bar" :: [])
  = if HasPrefix rel ".."
    then Workflow.ResolvePackages engine (["./cmd/..."] ++ [])
    else fold_left (Workflow.resolve_one engine) ["./cmd/..."] []
           ++ (if HasSuffix pattern "..." then pattern else pattern +:+ "/...")
           :: fold_left (Workflow.resolve_one engine) [] [].
Proof.
  apply (ResolvePackages_inside_root engine "/project" "/project/pkg/bar"
           ["pkg"; "bar"] ["./cmd/..."] []).
  - reflexivity.
  - reflexivity.
  - reflexivity.
  - vm_compute. reflexivity.
Defined.

(** The package of [internal/report/lru.go] is [internal/report]. *)
Lemma derivePackageFromFile_dir_lru :
  Workflow.derivePackageFromFile ("internal/report" +:+ "/" +:+ "lru.go")
  = "internal/report"
  ∧ Workflow.derivePackageFromFile "lru.go"
    = (if String.eqb "lru.go" "" then "" else ".").
Proof.
  apply (derivePackageFromFile_dir "internal/report" "lru.go"). reflexivity.
Defined.

(** From [/home/dev/governor/internal/report] the search ends with a result. *)
Lemma findRepoRoot_nearest_tree :
  let elems := clean_elems "/home/dev/governor/internal/report" in
  ∃ found,
    Loader.findRepoRoot tree "/home/dev/governor/internal/report" = Some found
    ∧ match found with
      | inl root =>
          ∃ n, (n ≤ length elems)%nat
               ∧ root = Loader.rooted (take n elems)
               ∧ Loader.Stat tree (Filepath.Join [root; "go.mod"]) = true
               ∧ ∀ m, (n < m ≤ length elems)%nat →
                   Loader.Stat tree
                     (Filepath.Join [Loader.rooted (take m elems); "go.mod"])
                   = false
      | inr err =>
          err = "go.mod not found"
          ∧ ∀ m, (m ≤ length elems)%nat →
              Loader.Stat tree
                (Filepath.Join [Loader.rooted (take m elems); "go.mod"])
              = false
      end.
Proof.
  apply (findRepoRoot_nearest tree "/home/dev/governor/internal/report").
  reflexivity.
Defined.

(** Loading from [/home/dev/governor/internal/report], where no [.governor]
    file is to be found. *)
Lemma Load_root_tree :
  ∃ root,
    IsAbs root = true
    ∧ Runner.inside root "/home/dev/governor/internal/report"
    ∧ ((∃ n, root
             = Loader.rooted
                 (take n (clean_elems "/home/dev/governor/internal/report"))
             ∧ Loader.findRepoRoot tree "/home/dev/governor/internal/report"
               = Some (inl root)
             ∧ Loader.Stat tree (Filepath.Join [root; "go.mod"]) = true)
       ∨ (root = "/home/dev/governor/internal/report"
          ∧ Loader.findRepoRoot tree "/home/dev/governor/internal/report"
            = Some (inr "go.mod not found")))
    ∧ match Loader.ReadFile tree (Filepath.Join [root; ".governor"]) with
      | Loader.NotExist =>
          Loader.Load tree no_yaml "/home/dev/governor/internal/report"
          = Some (inl {| Loader.Config := Config.zero; Loader.RepoRoot := root |})
          ∧ Config.MaxOutputBytes Config.zero = Config.DefaultMaxOutput
          ∧ Config.CheckSteps Config.zero = Config.DefaultCheckSteps
          ∧ Config.AuditSteps Config.zero = Config.DefaultAuditSteps
          ∧ Config.DuplThreshold Config.zero = 50
      | Loader.ReadError msg =>
          Loader.Load tree no_yaml "/home/dev/governor/internal/report"
          = Some (inr ("reading .governor: " +:+ msg))
      | Loader.Data data =>
          match no_yaml data with
          | inl cfg =>
              Loader.Load tree no_yaml "/home/dev/governor/internal/report"
              = Some (inl {| Loader.Config := cfg; Loader.RepoRoot := root |})
          | inr msg =>
              Loader.Load tree no_yaml "/home/dev/governor/internal/report"
              = Some (inr ("parsing .governor: " +:+ msg))
          end
      end.
Proof.
  apply (Load_root tree no_yaml "/home/dev/governor/internal/report").
  reflexivity.
Defined.

(** The search, evaluated: the root found is [/home/dev/governor]. *)
Lemma Load_evaluated :
  Loader.findRepoRoot tree "/home/dev/governor/internal/report"
  = Some (inl "/home/dev/governor")
  ∧ Loader.Load tree no_yaml "/home/dev/governor/internal/report"
    = Some (inl {| Loader.Config := Config.zero;
                   Loader.RepoRoot := "/home/dev/governor" |}).
Proof. vm_compute. split; reflexivity. Qed.

End MoreExamples.
